(** * connection.c: connection acceptance and request dispatch of icecast-kh

    A shallow embedding of the parts of [src/connection.c] that the
    specification speaks about, followed by the properties proved of them.

    Conventions.
    - C [int], [time_t] and [uint64_t] values are [Z]; where the code relies
      on unsigned wrap-around the reduction modulo [2^64] is written out.
    - C strings are [string] (a sequence of [ascii] bytes without the
      terminating NUL); raw socket data is [list ascii].
    - Arrays updated in place are lists with stdpp's lookup [l !! i] and
      insert [<[i:=x]> l].
    - Code that connection.c calls but that lives in other files (the socket
      layer, OpenSSL, the AVL tree, the cached-file helpers, base64) is either
      an explicit parameter or a definition documented as modelled. *)

From Stdlib Require Import ZArith List Bool Lia String Ascii.
From stdpp Require Import base list strings gmap.
Import ListNotations.

Local Open Scope Z_scope.

(* ===================================================================== *)
(** * Part I: the embedding                                               *)
(* ===================================================================== *)

(** ** Results of calls that may abort the process *)

Inductive outcome (A : Type) : Type :=
| Aborted : outcome A
| Returned : A -> outcome A.
Arguments Aborted {A}.
Arguments Returned {A} _.

(* --------------------------------------------------------------------- *)
(** ** I/O adapter: [struct connection_bufs] and the vector write         *)
(* --------------------------------------------------------------------- *)

(** [IOVEC]: [IO_VECTOR_BASE] is an address, [IO_VECTOR_LEN] a byte count. *)
Record IOVEC : Type := mkIOVEC { iov_base : Z; iov_len : Z }.

(** [struct connection_bufs]. [block] holds [max] slots of which the first
    [count] are in use. *)
Record connection_bufs : Type := mkBufs {
  count : nat;
  max : nat;
  total : Z;
  block : list IOVEC
}.

(** The fields of [connection_t] the I/O adapter touches. The socket itself
    is represented by the [transport] below. *)
Record connection_t : Type := mkCon {
  ssl : bool;          (* con->ssl != NULL *)
  sent_bytes : Z;
  error : bool;
  discon_time : Z      (* con->discon.time *)
}.

Definition not_ssl_connection (con : connection_t) : bool := negb (ssl con).

Definition set_error (con : connection_t) : connection_t :=
  {| ssl := ssl con; sent_bytes := sent_bytes con; error := true;
     discon_time := discon_time con |}.

Definition add_sent (con : connection_t) (n : Z) : connection_t :=
  {| ssl := ssl con; sent_bytes := sent_bytes con + n; error := error con;
     discon_time := discon_time con |}.

Definition set_discon_time (con : connection_t) (t : Z) : connection_t :=
  {| ssl := ssl con; sent_bytes := sent_bytes con; error := error con;
     discon_time := t |}.

Inductive ssl_error : Type :=
| SSL_ERROR_NONE
| SSL_ERROR_ZERO_RETURN
| SSL_ERROR_WANT_READ
| SSL_ERROR_WANT_WRITE
| SSL_ERROR_OTHER.

(** What the peer side of a connection answers during one vector write.
    [sock_writev] gets the vectors offered and returns the C result;
    [sock_recoverable] is [sock_recoverable (sock_error ())] after it;
    [SSL_write k io] is the pair ([SSL_write] result, [SSL_get_error] code)
    of the [k]-th TLS write of the call, offered the vector [io]. *)
Record transport : Type := mkTransport {
  sock_writev : list IOVEC -> Z;
  sock_recoverable : bool;
  SSL_write : nat -> IOVEC -> Z * ssl_error
}.

Definition sum_len (l : list IOVEC) : Z :=
  fold_right (fun v acc => iov_len v + acc) 0 l.

Definition connection_bufs_flush (v : connection_bufs) : connection_bufs :=
  {| count := 0; max := max v; total := 0; block := block v |}.

(** [connection_bufs_append]: aborts on a length above [0xFFFFFF], grows the
    block by 16 slots when full, stores the vector at slot [count]. The
    result is the new [total]. [total] is a C [int] and is a sum in [Z]
    here: the embedding is faithful as long as the lengths add up to at most
    2147483647, which [bufs_wf] and [appendable] below say; past that the C
    sum wraps. *)
Definition connection_bufs_append (v : connection_bufs) (buf len : Z)
  : outcome (Z * connection_bufs) :=
  if len >? 16777215 then Aborted
  else
    let '(mx, blk) :=
      if (max v <=? count v)%nat
      then ((max v + 16)%nat,
            take (max v + 16)%nat (block v ++ replicate 16%nat (mkIOVEC 0 0)))
      else (max v, block v) in
    let blk' := <[count v := mkIOVEC buf len]> blk in
    let v' := {| count := S (count v); max := mx;
                 total := total v + len; block := blk' |} in
    Returned (total v', v').

(** The loop of [connbufs_locate_start]: [i] slots left to look at, [p] the
    index of the current one, [sum] the bytes before it. *)
Fixpoint locate_loop (blk : list IOVEC) (i p : nat) (sum skip : Z)
  : option (nat * Z) :=
  match i with
  | O => None
  | S i' =>
      match blk !! p with
      | None => None
      | Some v =>
          if sum + iov_len v >? skip
          then Some (p, skip - sum)
          else locate_loop blk i' (S p) (sum + iov_len v) skip
      end
  end.

(** [connbufs_locate_start]: index of the vector holding byte [skip] (or
    [-1]), the block with that vector advanced by the offset into it, the
    saved original vector and the offset. [old_value] is [None] while the
    caller's [old_vals] is still uninitialised. The loop compares in [Z]
    where the code compares as [size_t]: the embedding is faithful for
    [0 <= skip]; with a negative [skip] the code finds no vector and returns
    [-1]. *)
Definition connbufs_locate_start (vects : connection_bufs) (skip : Z)
    (old_value : option IOVEC) (offp : Z)
  : Z * connection_bufs * option IOVEC * Z :=
  if skip <? total vects then
    match locate_loop (block vects) (count vects) 0 0 skip with
    | Some (p, offset) =>
        match block vects !! p with
        | Some v =>
            if offset =? 0 then (Z.of_nat p, vects, old_value, offset)
            else
              let spliced := mkIOVEC (iov_base v + offset) (iov_len v - offset) in
              (Z.of_nat p,
               {| count := count vects; max := max vects; total := total vects;
                  block := <[p := spliced]> (block vects) |},
               Some v, offset)
        | None => (-1, vects, old_value, offp)
        end
    | None => (-1, vects, old_value, offp)
    end
  else (-1, vects, old_value, offp).

(** [connection_send_ssl], given what [SSL_write] and [SSL_get_error]
    answered. *)
Definition connection_send_ssl (con : connection_t) (r : Z * ssl_error)
  : Z * connection_t :=
  let '(bytes, code) := r in
  match code with
  | SSL_ERROR_NONE | SSL_ERROR_ZERO_RETURN => (bytes, add_sent con bytes)
  | SSL_ERROR_WANT_READ | SSL_ERROR_WANT_WRITE => (-1, con)
  | SSL_ERROR_OTHER => (-1, set_error con)
  end.

(** The TLS branch of [connection_bufs_send]: one [connection_send_ssl] per
    vector, stopping at the first negative or short result. *)
Fixpoint ssl_loop (tr : transport) (k : nat) (ios : list IOVEC) (bytes : Z)
    (con : connection_t) : Z * connection_t :=
  match ios with
  | [] => (bytes, con)
  | io :: rest =>
      let '(v, con') := connection_send_ssl con (SSL_write tr k io) in
      let bytes' := if v >? 0 then bytes + v else bytes in
      if (v <? 0) || (v <? iov_len io) then (bytes', con')
      else ssl_loop tr (S k) rest bytes' con'
  end.

(** The two transport branches of [connection_bufs_send], offered the
    vectors from [p] on: one [sock_writev] on a plain socket, the
    [connection_send_ssl] loop otherwise. The result is ([ret], connection). *)
Definition bufs_transmit (tr : transport) (con : connection_t)
    (residual : list IOVEC) : Z * connection_t :=
  if not_ssl_connection con then
    let ret := sock_writev tr residual in
    (ret,
     if (ret <? 0) && negb (sock_recoverable tr) then set_error con else con)
  else
    let '(bytes, con') := ssl_loop tr 0 residual 0 con in
    (if bytes >? 0 then bytes else -1, con').

(** [connection_bufs_send]. *)
Definition connection_bufs_send (tr : transport) (con : connection_t)
    (vectors : connection_bufs) (skip : Z)
  : outcome (Z * connection_t * connection_bufs) :=
  if skip >? total vectors then Aborted
  else
    let '(i, vectors1, old_vals, offset) :=
      connbufs_locate_start vectors skip None 0 in
    if 0 <=? i then
      let p := Z.to_nat i in
      let '(ret, con1) :=
        bufs_transmit tr con
          (take (count vectors1 - p)%nat (drop p (block vectors1))) in
      let vectors2 :=
        if offset =? 0 then vectors1
        else match old_vals with
             | Some v =>
                 {| count := count vectors1; max := max vectors1;
                    total := total vectors1;
                    block := <[p := v]> (block vectors1) |}
             | None => vectors1
             end in
      let con2 := if ret >? 0 then add_sent con1 ret else con1 in
      Returned (ret, con2, vectors2)
    else Returned (-1, con, vectors1).

(** Well-formed buffers: the block has [max] slots, of which [count] are in
    use; lengths are within the bound [connection_bufs_append] enforces; and
    [total] is their sum, which fits a C [int]. *)
Definition bufs_wf (v : connection_bufs) : bool :=
  (length (block v) =? max v)%nat
  && (count v <=? max v)%nat
  && forallb (fun io => (0 <=? iov_len io) && (iov_len io <=? 16777215))
             (take (count v) (block v))
  && (total v =? sum_len (take (count v) (block v)))
  && (total v <=? 2147483647).

(** The transport never reports more bytes than it was offered. *)
Definition transport_bounded (tr : transport) : Prop :=
  (forall ios, sock_writev tr ios <= sum_len ios) /\
  (forall k io, fst (SSL_write tr k io) <= iov_len io).

(** A TLS write that reports success reports no negative count. *)
Definition ssl_counts_nonneg (tr : transport) : Prop :=
  forall k io,
    snd (SSL_write tr k io) = SSL_ERROR_NONE \/
    snd (SSL_write tr k io) = SSL_ERROR_ZERO_RETURN ->
    0 <= fst (SSL_write tr k io).

(* --------------------------------------------------------------------- *)
(** ** C strings and byte buffers                                         *)
(* --------------------------------------------------------------------- *)

Definition bytes : Type := list ascii.

Definition NUL : ascii := "000"%char.
Definition CR : ascii := "013"%char.
Definition LF : ascii := "010"%char.

Definition is_eol (c : ascii) : bool := Ascii.eqb c CR || Ascii.eqb c LF.

(** The C string stored in a buffer: the bytes before the first NUL. *)
Fixpoint cstr (b : bytes) : bytes :=
  match b with
  | [] => []
  | c :: b' => if Ascii.eqb c NUL then [] else c :: cstr b'
  end.

(** [strcspn (s, "\r\n")] and [strspn (s, "\r\n")] on a C string. *)
Fixpoint strcspn_eol (s : bytes) : nat :=
  match s with
  | [] => 0%nat
  | c :: s' => if is_eol c then 0%nat else S (strcspn_eol s')
  end.

Fixpoint strspn_eol (s : bytes) : nat :=
  match s with
  | [] => 0%nat
  | c :: s' => if is_eol c then S (strspn_eol s') else 0%nat
  end.

(** [snprintf (dst, size, "%s...", ...)] keeps at most [size - 1] bytes of
    the formatted text. *)
Definition snprintf (size : nat) (text : bytes) : bytes := take (size - 1)%nat text.

Fixpoint bytes_eqb (a b : bytes) : bool :=
  match a, b with
  | [], [] => true
  | x :: a', y :: b' => Ascii.eqb x y && bytes_eqb a' b'
  | _, _ => false
  end.

Fixpoint is_prefix (p s : bytes) : bool :=
  match p, s with
  | [], _ => true
  | x :: p', y :: s' => Ascii.eqb x y && is_prefix p' s'
  | _ :: _, [] => false
  end.

(** [strstr (hay, needle)]: offset of the first occurrence. *)
Fixpoint strstr (hay needle : bytes) : option nat :=
  if is_prefix needle hay then Some 0%nat
  else match hay with
       | [] => None
       | _ :: hay' => option_map S (strstr hay' needle)
       end.

Definition str (s : string) : bytes := list_ascii_of_string s.

(* --------------------------------------------------------------------- *)
(** ** Base64                                                             *)
(* --------------------------------------------------------------------- *)

(** Modelled from the spec: [util_base64_encode] and [util_base64_decode]
    (util.c) are not in src. The spec names the encoding base64 and gives
    [c291cmNlOmhhY2ttZQ==] for [source:hackme]; this is the standard alphabet
    with [=] padding. *)
Definition base64_alphabet : bytes :=
  str "ABCDEFGHIJKLMNOPQRSTUVWXYZabcdefghijklmnopqrstuvwxyz0123456789+/".

Definition byte_val (c : ascii) : Z := Z.of_N (N_of_ascii c).
Definition byte_of (z : Z) : ascii := ascii_of_N (Z.to_N z).

Definition base64_digit (n : Z) : ascii := nth (Z.to_nat n) base64_alphabet "="%char.

Fixpoint index_of (c : ascii) (l : bytes) : option nat :=
  match l with
  | [] => None
  | x :: l' => if Ascii.eqb c x then Some 0%nat else option_map S (index_of c l')
  end.

Definition base64_value (c : ascii) : option Z :=
  option_map Z.of_nat (index_of c base64_alphabet).

Fixpoint util_base64_encode (data : bytes) : bytes :=
  match data with
  | [] => []
  | [a] =>
      let a := byte_val a in
      [base64_digit (a / 4); base64_digit ((a mod 4) * 16); "="%char; "="%char]
  | [a; b] =>
      let a := byte_val a in
      let b := byte_val b in
      [base64_digit (a / 4); base64_digit ((a mod 4) * 16 + b / 16);
       base64_digit ((b mod 16) * 4); "="%char]
  | a :: b :: c :: rest =>
      let a := byte_val a in
      let b := byte_val b in
      let c := byte_val c in
      base64_digit (a / 4) :: base64_digit ((a mod 4) * 16 + b / 16)
      :: base64_digit ((b mod 16) * 4 + c / 64) :: base64_digit (c mod 64)
      :: util_base64_encode rest
  end.

Definition is_pad (c : ascii) : bool := Ascii.eqb c "="%char.

Fixpoint util_base64_decode (text : bytes) : option bytes :=
  match text with
  | [] => Some []
  | c1 :: c2 :: c3 :: c4 :: rest =>
      match base64_value c1, base64_value c2 with
      | Some s1, Some s2 =>
          let b1 := byte_of (s1 * 4 + s2 / 16) in
          if is_pad c3 && is_pad c4 then
            match rest with [] => Some [b1] | _ => None end
          else
            match base64_value c3 with
            | Some s3 =>
                let b2 := byte_of ((s2 mod 16) * 16 + s3 / 4) in
                if is_pad c4 then
                  match rest with [] => Some [b1; b2] | _ => None end
                else
                  match base64_value c4, util_base64_decode rest with
                  | Some s4, Some tail =>
                      Some (b1 :: b2 :: byte_of ((s3 mod 4) * 64 + s4) :: tail)
                  | _, _ => None
                  end
            | None => None
            end
      | _, _ => None
      end
  | _ => None
  end.

(* --------------------------------------------------------------------- *)
(** ** Listeners and clients                                              *)
(* --------------------------------------------------------------------- *)

(** The fields of [listener_t] that connection.c reads. *)
Record listener_t : Type := mkListener {
  port : Z;
  bind_address : option string;
  shoutcast_compat : bool;
  shoutcast_mount : string
}.

(** [refbuf_t]: [data] is the [len] bytes in use; the NUL that the code
    stores behind them is implicit. *)
#[local] Unset Elimination Schemes.
Inductive refbuf_t : Type :=
| mkRefbuf (data : bytes) (associated : option refbuf_t).
#[local] Set Elimination Schemes.

Definition data (r : refbuf_t) : bytes := let '(mkRefbuf d _) := r in d.
Definition associated (r : refbuf_t) : option refbuf_t := let '(mkRefbuf _ a) := r in a.
Definition len (r : refbuf_t) : Z := Z.of_nat (length (data r)).

Inductive client_ops : Type :=
| shoutcast_source_ops
| http_request_ops
| http_req_get_ops
| http_req_source_ops
| http_req_stats_ops.

Record client_t : Type := mkClient {
  connection : connection_t;
  shared_data : option refbuf_t;
  refbuf : option refbuf_t;
  pos : Z;
  ops : client_ops;
  respcode : Z;
  schedule_ms : Z;
  counter : Z;
  server_conn : listener_t
}.

Definition with_connection (c : client_t) (con : connection_t) : client_t :=
  mkClient con (shared_data c) (refbuf c) (pos c) (ops c) (respcode c)
           (schedule_ms c) (counter c) (server_conn c).
Definition with_shared_data (c : client_t) (r : option refbuf_t) : client_t :=
  mkClient (connection c) r (refbuf c) (pos c) (ops c) (respcode c)
           (schedule_ms c) (counter c) (server_conn c).
Definition with_refbuf (c : client_t) (r : option refbuf_t) : client_t :=
  mkClient (connection c) (shared_data c) r (pos c) (ops c) (respcode c)
           (schedule_ms c) (counter c) (server_conn c).
Definition with_pos (c : client_t) (p : Z) : client_t :=
  mkClient (connection c) (shared_data c) (refbuf c) p (ops c) (respcode c)
           (schedule_ms c) (counter c) (server_conn c).
Definition with_ops (c : client_t) (o : client_ops) : client_t :=
  mkClient (connection c) (shared_data c) (refbuf c) (pos c) o (respcode c)
           (schedule_ms c) (counter c) (server_conn c).
Definition with_respcode (c : client_t) (r : Z) : client_t :=
  mkClient (connection c) (shared_data c) (refbuf c) (pos c) (ops c) r
           (schedule_ms c) (counter c) (server_conn c).
Definition with_schedule_ms (c : client_t) (t : Z) : client_t :=
  mkClient (connection c) (shared_data c) (refbuf c) (pos c) (ops c) (respcode c)
           t (counter c) (server_conn c).

(** [uint64_t] arithmetic. *)
Definition u64 (z : Z) : Z := z mod 2 ^ 64.

(** What [client_read_bytes] answers: bytes stored in the buffer (the
    result is their number), a zero result, or [-1]; the last two may latch
    the connection's error flag ([connection_read] does on zero and on an
    error that is not recoverable). *)
Inductive read_reply : Type :=
| read_stored (d : bytes)
| read_zero (latched : bool)
| read_failed (latched : bool).

Definition rd_ret (r : read_reply) : Z :=
  match r with
  | read_stored d => Z.of_nat (length d)
  | read_zero _ => 0
  | read_failed _ => -1
  end.

Definition rd_data (r : read_reply) : bytes :=
  match r with
  | read_stored d => d
  | _ => []
  end.

Definition rd_error (r : read_reply) : bool :=
  match r with
  | read_stored _ => false
  | read_zero latched | read_failed latched => latched
  end.

(** The surroundings of one call of a client's [process] operation:
    [global.running == ICE_RUNNING], the worker's clock, the answer to the
    read the call may make, and the room the peer's socket has for a write
    the call may make. *)
Record invocation : Type := mkInvocation {
  running : bool;
  time_ms : Z;             (* client->worker->time_ms *)
  current_time_sec : Z;    (* client->worker->current_time.tv_sec *)
  rd : read_reply;
  wr_room : Z
}.

Definition latch_error (c : client_t) (r : read_reply) : client_t :=
  if rd_error r then with_connection c (set_error (connection c)) else c.

(* --------------------------------------------------------------------- *)
(** ** Request preamble reader and legacy-protocol adapter                *)
(* --------------------------------------------------------------------- *)

(** How a call of [http_client_request] ends. Parsing the headers and the
    dispatch on the request type belong to collaborators
    (httpp, auth, fserve); the embedding stops where they take over. *)
Inductive request_result : Type :=
| Done (ret : Z) (c : client_t)
    (* [return ret] *)
| FlashPolicy (c : client_t)
    (* [return fserve_setup_client_fb (client, &fb)] *)
| Headers (c : client_t) (ptr : Z).
    (* a blank line ends at offset [ptr]: parse and dispatch *)

Definition policy_file_request : bytes := str "<policy-file-request/>".

(** The three blank-line forms, tried in the order of the code; the result
    is the offset just behind the one found. *)
Definition find_blank_line (buf : bytes) : option Z :=
  match strstr buf [CR; LF; CR; LF] with
  | Some i => Some (Z.of_nat i + 4)
  | None =>
      match strstr buf [LF; LF] with
      | Some i => Some (Z.of_nat i + 2)
      | None =>
          match strstr buf [CR; CR; LF; CR; CR; LF] with
          | Some i => Some (Z.of_nat i + 6)
          | None => None
          end
      end
  end.

(** Modelled from the spec: [format_generic_write_to_client] (format.c) is
    not in src. The spec has the adapter emit the response through the
    connection's write (4.2, 4.6 step 5), which takes a prefix of what it is
    offered or would block: the bytes of [client->refbuf] from [client->pos]
    on are offered, the peer takes as many as it has room for, and [pos]
    advances by that count. The result is the client and the bytes sent. A
    write that fails for good latches the error flag and the next call gives
    up; such a session never switches and is not followed here. *)
Definition format_generic_write_to_client (room : Z) (c : client_t)
  : client_t * bytes :=
  match refbuf c with
  | Some r =>
      let offered := drop (Z.to_nat (pos c)) (data r) in
      if room <=? 0 then (c, [])
      else
        let sent := take (Z.to_nat room) offered in
        (with_pos c (pos c + Z.of_nat (length sent)), sent)
  | None => (c, [])
  end.

Section Preamble.

(** [PER_CLIENT_REFBUF_SIZE] is defined in a header that is not in src (the
    spec: a bounded size B, typically 4 KiB); it is a parameter here. *)
Variable PER_CLIENT_REFBUF_SIZE : Z.

(** [http_client_request]. *)
Definition http_client_request (e : invocation) (client : client_t)
  : request_result :=
  if negb (running e) then Done (-1) client
  else
    let refbuf0 :=
      match shared_data client with
      | Some r => r
      | None => mkRefbuf [] None
      end in
    let client := with_shared_data client (Some refbuf0) in
    let remaining := PER_CLIENT_REFBUF_SIZE - 1 - len refbuf0 in
    let fail c := Done (-1) (with_shared_data c None) in
    if negb (remaining =? 0)
       && (discon_time (connection client) >? current_time_sec e)
    then
      let ret := rd_ret (rd e) in
      let client := latch_error client (rd e) in
      if ret >? 0 then
        let refbuf1 := mkRefbuf (data refbuf0 ++ rd_data (rd e)) (associated refbuf0) in
        let client := with_shared_data client (Some refbuf1) in
        if bytes_eqb (take 23 (data refbuf1 ++ [NUL])) (policy_file_request ++ [NUL])
        then FlashPolicy (with_shared_data (with_respcode client 200) None)
        else
          match find_blank_line (cstr (data refbuf1)) with
          | Some ptr =>
              Headers
                (with_connection
                   (with_shared_data (with_refbuf client (Some refbuf1)) None)
                   (set_discon_time (connection client) 0))
                ptr
          | None => Done 0 (with_schedule_ms client (u64 (time_ms e + 100)))
          end
      else if negb (ret =? 0) && negb (error (connection client)) then
        (* scale up the retry time, very short initially, usual case *)
        let diff := u64 (time_ms e - counter client) in
        let diff := Z.shiftr diff 1 in
        let diff := if diff >? 200 then 200 else diff in
        Done 0 (with_schedule_ms client (u64 (time_ms e + 6 + diff)))
      else fail client
    else fail client.

(** The response [shoutcast_source_client] sends and the request it builds
    from the password line [password] and the bytes [rest] read behind it. *)
Definition shoutcast_response : bytes :=
  snprintf 30 (str "OK2" ++ [CR; LF] ++ str "icy-caps:11" ++ [CR; LF; CR; LF]).

Definition shoutcast_request (mount : string) (password rest : bytes) : bytes :=
  let header := snprintf 128 (str "source:" ++ password) in
  let esc_header := util_base64_encode header in
  snprintf (Z.to_nat PER_CLIENT_REFBUF_SIZE)
    (str "SOURCE " ++ str mount ++ str " HTTP/1.0" ++ [CR; LF]
     ++ str "Authorization: Basic " ++ esc_header ++ [CR; LF] ++ rest).

(** Where the password block of [shoutcast_source_client] leaves the call. *)
Inductive password_step : Type :=
| Break (c : client_t)       (* [break]: fall to the failure tail *)
| Return0 (c : client_t)     (* [return 0] *)
| Continue (c : client_t).   (* go on to the write *)

Definition shoutcast_password (e : invocation) (client : client_t)
  : password_step :=
  match shared_data client with
  | Some refbuf0 =>  (* need to get password first *)
      let remaining := PER_CLIENT_REFBUF_SIZE - 2 - len refbuf0 in
      if remaining =? 0 then Break client
      else
        let ret := rd_ret (rd e) in
        let client := latch_error client (rd e) in
        if (ret =? 0) || error (connection client) || negb (running e)
        then Break client
        else if ret <? 0 then Return0 client
        else
          let refbuf1 := mkRefbuf (data refbuf0 ++ rd_data (rd e)) (associated refbuf0) in
          let client := with_shared_data client (Some refbuf1) in
          let text := cstr (data refbuf1) in
          let n := strcspn_eol text in
          if (n =? length text)%nat then Return0 client  (* no EOL yet *)
          else
            let password := take n text in
            let n' := (n + 1 + strspn_eol (drop (n + 1) text))%nat in
            let r := mkRefbuf
                       (shoutcast_request (shoutcast_mount (server_conn client))
                                          password (drop n' text))
                       None in
            let resp := mkRefbuf shoutcast_response (Some r) in
            Continue
              (with_shared_data (with_refbuf (with_respcode client 200) (Some resp)) None)
  | None => Continue client
  end.

(** [shoutcast_source_client]: the result, the client, and the bytes sent to
    the peer by this call. The code reads [client->refbuf] without a test
    once the password block is behind it; the branch for a NULL pointer is
    there for totality and no session that starts from a fresh client gets
    to it. *)
Definition shoutcast_source_client (e : invocation) (client : client_t)
  : Z * client_t * bytes :=
  let con := connection client in
  if error con || (discon_time con <=? current_time_sec e) then
    (-1, with_shared_data client None, [])
  else
    match shoutcast_password e client with
    | Break c => (-1, with_shared_data c None, [])
    | Return0 c => (0, c, [])
    | Continue c =>
        let '(c, sent) := format_generic_write_to_client (wr_room e) c in
        let c :=
          match refbuf c with
          | Some r =>
              if pos c =? len r then
                with_pos (with_ops (with_refbuf (with_shared_data c (associated r)) None)
                                   http_request_ops) 0
              else c
          | None => c
          end in
        (0, with_schedule_ms c (u64 (time_ms e + 100)), sent)
    end.

(** The bytes a call of [shoutcast_source_client] that does not fail adds
    to the scratch buffer: what its read stored, while the password is still
    awaited. *)
Definition shoutcast_stored (e : invocation) (client : client_t) : bytes :=
  match shared_data client with
  | Some _ => rd_data (rd e)
  | None => []
  end.

(** A legacy session: [shoutcast_source_client] is called once per
    invocation for as long as it is the client's operation and has not
    failed. The result is the client, everything sent to the peer and
    everything read from it, or [None] once a call has returned [-1]. *)
Fixpoint shoutcast_session (es : list invocation) (client : client_t)
    (sent received : bytes) : option (client_t * bytes * bytes) :=
  match es with
  | [] => Some (client, sent, received)
  | e :: es' =>
      match ops client with
      | shoutcast_source_ops =>
          let '(ret, c, out) := shoutcast_source_client e client in
          if ret <? 0 then None
          else shoutcast_session es' c (sent ++ out)
                                 (received ++ shoutcast_stored e client)
      | _ => Some (client, sent, received)
      end
  end.

(** The call gets as far as [client_read_bytes]: the server is running,
    the scratch buffer has room left and the deadline has not passed. *)
Definition http_client_request_reads (e : invocation) (client : client_t) : bool :=
  running e
  && negb (PER_CLIENT_REFBUF_SIZE - 1
           - len match shared_data client with
                 | Some r => r
                 | None => mkRefbuf [] None
                 end =? 0)
  && (discon_time (connection client) >? current_time_sec e).

End Preamble.

(* --------------------------------------------------------------------- *)
(** ** Credential check                                                   *)
(* --------------------------------------------------------------------- *)

(** A computation that looks at request variables: its value and the names
    it passed to [httpp_getvar], in order. *)
Definition looked (A : Type) : Type := A * list string.

Definition ret_ {A : Type} (a : A) : looked A := (a, []).

Definition bind_ {A B : Type} (m : looked A) (k : A -> looked B) : looked B :=
  let '(a, l1) := m in
  let '(b, l2) := k a in
  (b, l1 ++ l2).

Notation "'let*' x ':=' m 'in' k" := (bind_ m (fun x => k))
  (at level 10, x name, k at level 200).

(** The parsed request: [httpp_getvar] is a lookup by name. *)
Definition http_parser_t : Type := gmap string string.

Definition httpp_getvar (parser : http_parser_t) (name : string)
  : looked (option string) :=
  (parser !! name, [name]).

Fixpoint strchr_colon (s : bytes) : option nat :=
  match s with
  | [] => None
  | c :: s' => if Ascii.eqb c ":"%char then Some 0%nat
               else option_map S (strchr_colon s')
  end.

Section Credentials.

(** [HTTPP_VAR_PROTOCOL] and [HTTPP_VAR_ICYPASSWORD] are names defined in
    httpp.h, which is not in src; they are parameters here. *)
Variables HTTPP_VAR_PROTOCOL HTTPP_VAR_ICYPASSWORD : string.

Definition _check_pass_http (parser : http_parser_t)
    (correctuser correctpass : string) : looked Z :=
  let* header := httpp_getvar parser "authorization" in
  match header with
  | None => ret_ 0
  | Some header =>
      if negb (is_prefix (str "Basic ") (str header)) then ret_ 0
      else
        match util_base64_decode (drop 6 (str header)) with
        | None => ret_ 0
        | Some decoded =>
            let userpass := cstr decoded in
            match strchr_colon userpass with
            | None => ret_ 0
            | Some i =>
                let username := take i userpass in
                let password := drop (S i) userpass in
                if negb (bytes_eqb username (str correctuser))
                   || negb (bytes_eqb password (str correctpass))
                then ret_ 0
                else ret_ 1
            end
        end
  end.

Definition _check_pass_icy (parser : http_parser_t) (correctpass : string)
  : looked Z :=
  let* password := httpp_getvar parser HTTPP_VAR_ICYPASSWORD in
  match password with
  | None => ret_ 0
  | Some password => if String.eqb password correctpass then ret_ 1 else ret_ 0
  end.

Definition _check_pass_ice (parser : http_parser_t) (correctpass : string)
  : looked Z :=
  let* password := httpp_getvar parser "ice-password" in
  let password := match password with Some p => p | None => ""%string end in
  if String.eqb password correctpass then ret_ 1 else ret_ 0.

(** [connection_check_pass]; [pass] is [None] for a NULL pointer and
    [ice_login] is [config->ice_login]. The comment above the function in
    the source reads: return 0 for failed, 1 for ok. *)
Definition connection_check_pass (ice_login : bool) (parser : http_parser_t)
    (user : string) (pass : option string) : looked Z :=
  match pass with
  | None => ret_ (-1)    (* "No source password set, rejecting source" *)
  | Some pass =>
      let* protocol := httpp_getvar parser HTTPP_VAR_PROTOCOL in
      let is_icy :=
        match protocol with
        | Some protocol => String.eqb protocol "ICY"
        | None => false
        end in
      if is_icy then _check_pass_icy parser pass
      else
        let* r := _check_pass_http parser user pass in
        if (r =? 0) && ice_login then _check_pass_ice parser pass
        else ret_ r
  end.

End Credentials.

(** A C condition [if (x)] takes the branch when [x] is not zero. *)
Definition c_true (x : Z) : bool := negb (x =? 0).

(* --------------------------------------------------------------------- *)
(** ** Listen-socket manager                                              *)
(* --------------------------------------------------------------------- *)

Definition sock_t : Type := Z.
Definition SOCK_ERROR : sock_t := -1.

(** The listen-socket part of [global]: two parallel arrays (NULL or
    allocated) and the number of slots in use. *)
Module global.
Record t : Type := mk {
  serversock : option (list sock_t);
  server_conn : option (list listener_t);
  server_sockets : Z
}.
End global.

(** [ice_config_t]: the list of listeners hanging off [config->listen_sock]. *)
Record ice_config_t : Type := mkConfig {
  listen_sock : list listener_t
}.

(** Calls into the socket layer and the config module, in program order. *)
Inductive listen_event : Type :=
| sock_close (s : sock_t)
| config_clear_listener (l : listener_t).

Definition bind_or_empty (l : listener_t) : string :=
  match bind_address l with Some b => b | None => ""%string end.

(** The inner [while (listener)] loop: the first configured listener with
    the port and the bind address of the open one. *)
Fixpoint find_listener (listener : list listener_t) (open : listener_t)
  : option listener_t :=
  match listener with
  | [] => None
  | l :: next =>
      if (port l =? port open) && String.eqb (bind_or_empty l) (bind_or_empty open)
      then Some l
      else find_listener next open
  end.

(** The [for (; old < cur; old++)] loop of [connection_listen_sockets_close]
    with [n] iterations to go. The state is [new], the two arrays,
    [global.server_sockets] and the calls made so far. An index outside the
    arrays ends the loop (the C code would read past the allocation). *)
Fixpoint close_loop (config : option ice_config_t) (all_sockets : Z)
    (n old new : nat) (socks : list sock_t) (conns : list listener_t)
    (nsocks : Z) (evs : list listen_event)
  : nat * list sock_t * list listener_t * Z * list listen_event :=
  match n with
  | O => (new, socks, conns, nsocks, evs)
  | S n' =>
      match socks !! old, conns !! old with
      | Some sock, Some conn =>
          let listener :=
            match config with
            | Some cfg =>
                if (all_sockets =? 0) && (port conn <? 1024)
                then find_listener (listen_sock cfg) conn
                else None
            | None => None
            end in
          match listener with
          | Some _ =>     (* "Leaving port %d (%s) open" *)
              let '(socks1, conns1) :=
                if (new <? old)%nat
                then (<[new := sock]> socks, <[new := conn]> conns)
                else (socks, conns) in
              close_loop config all_sockets n' (S old) (S new) socks1 conns1 nsocks evs
          | None =>
              close_loop config all_sockets n' (S old) new
                (<[old := SOCK_ERROR]> socks) conns (nsocks - 1)
                (evs ++ [sock_close sock; config_clear_listener conn])
          end
      | _, _ => (new, socks, conns, nsocks, evs)
      end
  end.

(** [connection_listen_sockets_close]. *)
Definition connection_listen_sockets_close (config : option ice_config_t)
    (all_sockets : Z) (g : global.t) : global.t * list listen_event :=
  match global.serversock g with
  | Some socks =>
      let conns := match global.server_conn g with Some c => c | None => [] end in
      let cur := global.server_sockets g in
      let '(_, socks', conns', nsocks, evs) :=
        close_loop config all_sockets (Z.to_nat cur) 0 0 socks conns cur [] in
      if nsocks =? 0
      then (global.mk None None nsocks, evs)
      else (global.mk (Some socks') (Some conns') nsocks, evs)
  | None => (g, [])
  end.

(** The specification's condition in its own words: the port is privileged and the
    supplied config has a listener with the same port and the same bind
    address, a NULL bind address counting as the empty string. *)
Definition stays_open (cfg : ice_config_t) (open : listener_t) : bool :=
  (port open <? 1024)
  && existsb (fun l => (port l =? port open)
                       && String.eqb (bind_or_empty l) (bind_or_empty open))
             (listen_sock cfg).

(** The slots in use, as (socket, profile) pairs. *)
Definition open_slots (g : global.t) : list (sock_t * listener_t) :=
  let n := Z.to_nat (global.server_sockets g) in
  combine (take n (match global.serversock g with Some s => s | None => [] end))
          (take n (match global.server_conn g with Some c => c | None => [] end)).

Definition closings (slots : list (sock_t * listener_t)) : list listen_event :=
  flat_map (fun '(s, l) => [sock_close s; config_clear_listener l]) slots.

(** The arrays are allocated and hold at least [server_sockets] slots. *)
Definition global_wf (g : global.t) : bool :=
  match global.serversock g, global.server_conn g with
  | Some socks, Some conns =>
      (0 <=? global.server_sockets g)
      && (global.server_sockets g <=? Z.of_nat (length socks))
      && (global.server_sockets g <=? Z.of_nat (length conns))
  | _, _ => false
  end.

(* --------------------------------------------------------------------- *)
(** ** IP access cache                                                    *)
(* --------------------------------------------------------------------- *)

(** [struct banned_entry]: [ip] is the text held in [char ip[16]] (at most
    15 characters); the union [a] is read as [timeout] for the entries of
    the literal map. *)
Record banned_entry : Type := mkBanned {
  ip : string;
  timeout : Z
}.

(** [strcmp]: negative, zero or positive by unsigned byte order. *)
Definition strcmp (a b : string) : Z :=
  match String.compare a b with
  | Eq => 0
  | Lt => -1
  | Gt => 1
  end.

(** [compare_banned_ip (arg, a, b)]. [now] is the [time_t] behind [arg],
    [this] the text at the start of [a] (the lookup key, or the [ip] field of
    an entry being inserted), [that] the entry in the tree. The global
    [ban_entry_removal] is threaded through: it goes in as [removal] and
    comes out beside the result. *)
Definition compare_banned_ip (now : Z) (this : string) (that : banned_entry)
    (removal : option banned_entry) : Z * option banned_entry :=
  let ret := strcmp this (ip that) in
  match removal with
  | None =>
      if negb (ret =? 0) && negb (timeout that =? 0) && (timeout that <? now - 60)
      then (ret, Some that)   (* identify possible removal *)
      else (ret, None)
  | Some _ => (ret, removal)
  end.

(** Modelled from the spec: the AVL library (avl/avl.c: [avl_insert],
    [avl_get_by_key], [avl_delete]) is not in src. The spec describes an
    ordered map keyed by the IP text whose comparator is consulted during
    the traversal. The model is a binary search tree in which every
    operation calls the comparator at each node on its way down and follows
    its sign; rebalancing is left out, and the theorems below hold for trees
    of every shape. The spec does not say what an insert does with a key
    that is already present: here the comparator alone decides where an
    entry goes, so the new entry is added beside the old one and nothing is
    overwritten. The statement on the lifetime of an entry assumes the key
    absent; the one on what a lookup may remove covers maps in which several
    entries carry one text. *)
Inductive avl_tree : Type :=
| avl_leaf
| avl_node (left : avl_tree) (key : banned_entry) (right : avl_tree).

(** The entries of a tree, in order. *)
Fixpoint avl_elements (t : avl_tree) : list banned_entry :=
  match t with
  | avl_leaf => []
  | avl_node l k r => avl_elements l ++ k :: avl_elements r
  end.

Fixpoint avl_insert (now : Z) (t : avl_tree) (e : banned_entry)
    (removal : option banned_entry) : avl_tree * option banned_entry :=
  match t with
  | avl_leaf => (avl_node avl_leaf e avl_leaf, removal)
  | avl_node l k r =>
      let '(c, removal) := compare_banned_ip now (ip e) k removal in
      if c <? 1 then
        let '(l', removal) := avl_insert now l e removal in
        (avl_node l' k r, removal)
      else
        let '(r', removal) := avl_insert now r e removal in
        (avl_node l k r', removal)
  end.

Fixpoint avl_get_by_key (now : Z) (t : avl_tree) (key : string)
    (removal : option banned_entry) : option banned_entry * option banned_entry :=
  match t with
  | avl_leaf => (None, removal)
  | avl_node l k r =>
      let '(c, removal) := compare_banned_ip now key k removal in
      if c =? 0 then (Some k, removal)
      else if c <? 0 then avl_get_by_key now l key removal
      else avl_get_by_key now r key removal
  end.

(** The leftmost entry of a tree and the tree without it. *)
Fixpoint avl_take_first (t : avl_tree) : option (banned_entry * avl_tree) :=
  match t with
  | avl_leaf => None
  | avl_node l k r =>
      match avl_take_first l with
      | Some (m, l') => Some (m, avl_node l' k r)
      | None => Some (k, r)
      end
  end.

Definition avl_join (l r : avl_tree) : avl_tree :=
  match avl_take_first r with
  | Some (m, r') => avl_node l m r'
  | None => l
  end.

Fixpoint avl_delete (now : Z) (t : avl_tree) (key : string)
    (removal : option banned_entry) : avl_tree * option banned_entry :=
  match t with
  | avl_leaf => (avl_leaf, removal)
  | avl_node l k r =>
      let '(c, removal) := compare_banned_ip now key k removal in
      if c =? 0 then (avl_join l r, removal)
      else if c <? 0 then
        let '(l', removal) := avl_delete now l key removal in
        (avl_node l' k r, removal)
      else
        let '(r', removal) := avl_delete now r key removal in
        (avl_node l k r', removal)
  end.

(** A write through the pointer [avl_get_by_key] handed out: the entry the
    search for [key] stops at is replaced by [f] of it. *)
Fixpoint avl_update_found (t : avl_tree) (key : string)
    (f : banned_entry -> banned_entry) : avl_tree :=
  match t with
  | avl_leaf => avl_leaf
  | avl_node l k r =>
      let c := strcmp key (ip k) in
      if c =? 0 then avl_node l (f k) r
      else if c <? 0 then avl_node (avl_update_found l key f) k r
      else avl_node l k (avl_update_found r key f)
  end.

(** The fields of [cache_file_contents] (declared outside src) that
    connection.c uses: the wildcard list, the literal map ([None] for a NULL
    [contents]) and the [time_t] that the map's comparator argument points
    at. *)
Record cache_file_contents : Type := mkCache {
  wildcards : list string;
  contents : option avl_tree;
  compare_arg : Z
}.

(** The globals of the IP filter. *)
Record ban_globals : Type := mkBan {
  banned_ip : cache_file_contents;
  ban_entry_removal : option banned_entry;
  cachefile_timecheck : Z
}.

Definition is_wildcard_char (c : ascii) : bool :=
  Ascii.eqb c "*"%char || Ascii.eqb c "?"%char || Ascii.eqb c "["%char.

(** [ip [strcspn (ip, "*?[")]] is not NUL. *)
Definition has_wildcard (ip : string) : bool :=
  existsb is_wildcard_char (list_ascii_of_string ip).

(** [snprintf (&banned->ip[0], sizeof (banned->ip), "%s", ip)]. *)
Definition ip_field (ip : string) : string := String.substring 0 15 ip.

Definition with_contents (c : cache_file_contents) (t : avl_tree)
  : cache_file_contents :=
  {| wildcards := wildcards c; contents := Some t; compare_arg := compare_arg c |}.

Definition set_timeout (v : Z) (e : banned_entry) : banned_entry :=
  {| ip := ip e; timeout := v |}.

Section IpFilter.

(** [cached_pattern_compare] (a wrapper of [fnmatch], outside src) answers 0
    when the text matches the pattern; it is a parameter here. *)
Variable cached_pattern_compare : string -> string -> Z.

(** [add_banned_ip (c, e, now)], with [HAVE_FNMATCH_H]; [c] is [None] for a
    NULL pointer. The global [ban_entry_removal] goes in and comes out
    because [avl_insert] runs the comparator. A NULL [c->contents] is left
    alone (the C code would hand it to [avl_insert]). *)
Definition add_banned_ip (c : option cache_file_contents) (e : string) (now : Z)
    (removal : option banned_entry)
  : option cache_file_contents * option banned_entry :=
  match c with
  | Some c =>
      if has_wildcard e then   (* if wildcard present *)
        (Some {| wildcards := e :: wildcards c; contents := contents c;
                 compare_arg := compare_arg c |}, removal)
      else
        match contents c with
        | Some t =>
            let banned := {| ip := ip_field e; timeout := now |} in
            let '(t', removal) := avl_insert (compare_arg c) t banned removal in
            (Some (with_contents c t'), removal)
        | None => (Some c, removal)
        end
  | None => (None, removal)
  end.

(** [connection_add_banned_ip (ip, duration)]; [time_now] is what
    [time (NULL)] returns. *)
Definition connection_add_banned_ip (g : ban_globals) (ip : string)
    (duration time_now : Z) : ban_globals :=
  let timeout := if duration >? 0 then time_now + duration else 0 in
  match contents (banned_ip g) with
  | Some _ =>
      match add_banned_ip (Some (banned_ip g)) ip timeout (ban_entry_removal g) with
      | (Some c, removal) =>
          {| banned_ip := c; ban_entry_removal := removal;
             cachefile_timecheck := cachefile_timecheck g |}
      | (None, _) => g
      end
  | None => g
  end.

(** The tail of [search_banned_ip_locked]: "we may of seen another one to
    remove". *)
Definition sweep_marked (g : ban_globals) (t : avl_tree)
    (removal : option banned_entry) : Z * ban_globals :=
  match removal with
  | Some marked =>
      let '(t', _) := avl_delete (compare_arg (banned_ip g)) t (ip marked) removal in
      (0, {| banned_ip := with_contents (banned_ip g) t';
             ban_entry_removal := None;
             cachefile_timecheck := cachefile_timecheck g |})
  | None =>
      (0, {| banned_ip := with_contents (banned_ip g) t;
             ban_entry_removal := None;
             cachefile_timecheck := cachefile_timecheck g |})
  end.

(** [search_banned_ip_locked (ip)]: -1 for no data (never returned by this
    code), 0 for no match and 1 for match. *)
Definition search_banned_ip_locked (g : ban_globals) (ip : string)
  : Z * ban_globals :=
  if existsb (fun pattern => cached_pattern_compare ip pattern =? 0)
             (wildcards (banned_ip g))
  then (1, g)
  else
    match contents (banned_ip g) with
    | Some t =>
        let now := compare_arg (banned_ip g) in
        let '(result, removal) := avl_get_by_key now t ip None in
        match result with
        | Some found =>
            if (timeout found =? 0) || (timeout found >? cachefile_timecheck g) then
              let t' :=
                if negb (timeout found =? 0)
                   && (cachefile_timecheck g + 300 >? timeout found)
                then avl_update_found t ip (set_timeout (cachefile_timecheck g + 300))
                else t in
              (1, {| banned_ip := with_contents (banned_ip g) t';
                     ban_entry_removal := removal;
                     cachefile_timecheck := cachefile_timecheck g |})
            else
              let '(t', removal) := avl_delete now t ip removal in
              sweep_marked g t' removal
        | None => sweep_marked g t removal
        end
    | None => (0, g)
    end.

(** [cachefile_timecheck = time (NULL)] in [accept_ip_address], then the
    search. *)
Definition search_at (g : ban_globals) (ip : string) (time_now : Z)
  : Z * ban_globals :=
  search_banned_ip_locked
    {| banned_ip := banned_ip g; ban_entry_removal := ban_entry_removal g;
       cachefile_timecheck := time_now |} ip.

End IpFilter.

(** The entries of the literal map. *)
Definition literal_entries (g : ban_globals) : list banned_entry :=
  match contents (banned_ip g) with
  | Some t => avl_elements t
  | None => []
  end.

(** No entry of the map has this IP text. *)
Definition ip_absent (key : string) (l : list banned_entry) : bool :=
  forallb (fun e => negb (String.eqb (ip e) key)) l.

(** No two entries of the map have the same IP text. *)
Fixpoint ips_unique (l : list banned_entry) : bool :=
  match l with
  | [] => true
  | e :: l' => ip_absent (ip e) l' && ips_unique l'
  end.

(** Every stored IP text fits the 16-byte field. *)
Definition entries_fit (l : list banned_entry) : bool :=
  forallb (fun e => (String.length (ip e) <=? 15)%nat) l.

(** No wildcard pattern of the cache matches the text. *)
Definition no_wildcard_matches (cached_pattern_compare : string -> string -> Z)
    (g : ban_globals) (key : string) : bool :=
  negb (existsb (fun pattern => cached_pattern_compare key pattern =? 0)
                (wildcards (banned_ip g))).

(** The soft renewal of a matching entry: a nonzero timeout with less than
    300 s left at [tc] becomes [tc + 300]. *)
Definition renew (tc : Z) (e : banned_entry) : banned_entry :=
  if negb (timeout e =? 0) && (tc + 300 >? timeout e)
  then set_timeout (tc + 300) e
  else e.

(** The entry is still in force at [tc]: permanent, or not yet timed out. *)
Definition in_force (tc : Z) (e : banned_entry) : bool :=
  (timeout e =? 0) || (timeout e >? tc).

(** [after] is [before] without at most one entry, one that carries the IP
    text of the marked entry; nothing goes when nothing is marked. *)
Definition swept (mark : option banned_entry) (before after : list banned_entry)
  : Prop :=
  match mark with
  | None => after = before
  | Some m =>
      after = before \/
      exists e l1 l2, before = l1 ++ e :: l2 /\ after = l1 ++ l2 /\ ip e = ip m
  end.

(** A pattern matcher in the manner of [fnmatch], used for the examples:
    [*] stands for any run of characters, [?] for any one character, every
    other character for itself. The result is 0 for a match, as
    [cached_pattern_compare] has it. *)
Fixpoint glob (pattern text : list ascii) : bool :=
  match pattern with
  | [] => match text with [] => true | _ => false end
  | p :: pattern' =>
      if Ascii.eqb p "*"%char then
        (fix star (text : list ascii) : bool :=
           glob pattern' text
           || match text with
              | [] => false
              | _ :: text' => star text'
              end) text
      else
        match text with
        | [] => false
        | c :: text' =>
            (Ascii.eqb p "?"%char || Ascii.eqb p c) && glob pattern' text'
        end
  end.

Definition glob_compare (text pattern : string) : Z :=
  if glob (list_ascii_of_string pattern) (list_ascii_of_string text) then 0 else 1.

(** The shape of a legacy dialogue, in the specification's words: a password line
    free of CR, LF and NUL; a non-empty run of CR and LF that ends it; header
    bytes free of NUL that do not begin with CR or LF. *)
Definition not_nul (c : ascii) : bool := negb (Ascii.eqb c NUL).

Definition password_line (P : bytes) : bool :=
  forallb (fun c => negb (is_eol c) && not_nul c) P.

Definition eol_run (E : bytes) : bool :=
  match E with
  | [] => false
  | _ => forallb is_eol E
  end.

Definition header_bytes (H : bytes) : bool :=
  forallb not_nul H
  && match H with
     | [] => true
     | c :: _ => negb (is_eol c)
     end.

(** A client as [accept_client] hands it to the legacy adapter: an empty
    scratch buffer, nothing to send, position 0. *)
Definition shoutcast_fresh (c : client_t) : bool :=
  match ops c, shared_data c, refbuf c with
  | shoutcast_source_ops, Some (mkRefbuf [] None), None => pos c =? 0
  | _, _, _ => false
  end.

Section LegacyRequest.

Variable PER_CLIENT_REFBUF_SIZE : Z.

(** The request [shoutcast_source_client] builds once the scratch buffer
    [received] holds an end of line: the computation of its password block,
    from [strcspn] to the second [snprintf]. *)
Definition synthesised (mount : string) (received : bytes) : bytes :=
  let text := cstr received in
  let n := strcspn_eol text in
  let n' := (n + 1 + strspn_eol (drop (n + 1) text))%nat in
  shoutcast_request PER_CLIENT_REFBUF_SIZE mount (take n text) (drop n' text).

(** The request in the specification's words: the request line, one Authorization
    header with the base64 text [b64], and the header bytes. *)
Definition legacy_request (mount : string) (b64 H : bytes) : bytes :=
  str "SOURCE " ++ str mount ++ str " HTTP/1.0" ++ [CR; LF]
  ++ str "Authorization: Basic " ++ b64 ++ [CR; LF] ++ H.

(** The states of a legacy session: waiting for the end of the password
    line with nothing sent; the response partly sent and the built request
    parked behind it; switched to the HTTP preamble reader. *)
Definition session_inv (mount : string) (c : client_t) (sent received : bytes)
  : Prop :=
  shoutcast_mount (server_conn c) = mount /\
  ((ops c = shoutcast_source_ops /\ pos c = 0 /\ sent = [] /\
    (exists a, shared_data c = Some (mkRefbuf received a)) /\
    strcspn_eol (cstr received) = length (cstr received))
   \/
   (ops c = shoutcast_source_ops /\ shared_data c = None /\
    refbuf c = Some (mkRefbuf shoutcast_response
                              (Some (mkRefbuf (synthesised mount received) None))) /\
    0 <= pos c < 20 /\
    sent = take (Z.to_nat (pos c)) shoutcast_response)
   \/
   (ops c = http_request_ops /\
    shared_data c = Some (mkRefbuf (synthesised mount received) None) /\
    sent = shoutcast_response)).

End LegacyRequest.

(* --------------------------------------------------------------------- *)
(** ** I/O adapter: single reads and writes, buffer set-up, chunk framing  *)
(* --------------------------------------------------------------------- *)

(** What the socket layer answers to one [sock_read_bytes] or
    [sock_write_bytes]: the C result and [sock_recoverable (sock_error ())]
    after it. *)
Record sock_reply : Type := mkSockReply {
  sock_bytes : Z;
  sock_error_recoverable : bool
}.

(** [connection_read]: a zero result and a [-1] that is not recoverable set
    the error flag. *)
Definition connection_read (con : connection_t) (r : sock_reply)
  : Z * connection_t :=
  let bytes := sock_bytes r in
  let con := if bytes =? 0 then set_error con else con in
  let con := if (bytes =? -1) && negb (sock_error_recoverable r)
             then set_error con else con in
  (bytes, con).

(** [connection_send]. *)
Definition connection_send (con : connection_t) (r : sock_reply)
  : Z * connection_t :=
  let bytes := sock_bytes r in
  if bytes <? 0 then
    (bytes, if negb (sock_error_recoverable r) then set_error con else con)
  else (bytes, add_sent con bytes).

(** [connection_read_ssl], given what [SSL_read] and [SSL_get_error]
    answered. *)
Definition connection_read_ssl (con : connection_t) (r : Z * ssl_error)
  : Z * connection_t :=
  let '(bytes, code) := r in
  match code with
  | SSL_ERROR_NONE | SSL_ERROR_ZERO_RETURN => (bytes, con)
  | SSL_ERROR_WANT_READ | SSL_ERROR_WANT_WRITE => (-1, con)
  | SSL_ERROR_OTHER => (0, set_error con)
  end.

(** [connection_bufs_init (v, start)]: everything zeroed, and a block of
    [start] slots when [start] is not 0 and below 500. [start] is a C
    [short]; for a negative one the code asks [calloc] for an enormous block
    and stores the negative number in [max], which the [nat] field cannot
    hold: the embedding is faithful from 0 on. *)
Definition connection_bufs_init (start : Z) : connection_bufs :=
  if negb (start =? 0) && (start <? 500)
  then {| count := 0; max := Z.to_nat start; total := 0;
          block := replicate (Z.to_nat start) (mkIOVEC 0 0) |}
  else {| count := 0; max := 0; total := 0; block := [] |}.

(** [connection_bufs_release]: the block is freed and the struct zeroed. *)
Definition connection_bufs_release (v : connection_bufs) : connection_bufs :=
  {| count := 0; max := 0; total := 0; block := [] |}.

(** A run of [connection_bufs_append] calls, one per vector, as a caller
    queueing several blocks makes them. *)
Fixpoint connection_bufs_append_all (v : connection_bufs) (ios : list IOVEC)
  : outcome connection_bufs :=
  match ios with
  | [] => Returned v
  | io :: rest =>
      match connection_bufs_append v (iov_base io) (iov_len io) with
      | Aborted => Aborted
      | Returned (_, v') => connection_bufs_append_all v' rest
      end
  end.

(** [printf]'s [%x] of an [unsigned] (32 bits): the hexadecimal digits, most
    significant first, without leading zeros. [hex_loop] produces the digits
    from the least significant one; eight iterations cover 32 bits. *)
Definition hex_alphabet : bytes := str "0123456789abcdef".

Definition hex_digit (d : Z) : ascii := nth (Z.to_nat d) hex_alphabet "0"%char.

Fixpoint hex_loop (fuel : nat) (n : Z) (acc : bytes) : bytes :=
  match fuel with
  | O => acc
  | S fuel' =>
      let acc' := hex_digit (n mod 16) :: acc in
      if n / 16 =? 0 then acc' else hex_loop fuel' (n / 16) acc'
  end.

Definition sprintf_x (n : Z) : bytes := hex_loop 8 (n mod 2 ^ 32) [].

(** [strchr (s, c)] on a C string: offset of the first [c]. *)
Fixpoint strchr (s : bytes) (c : ascii) : option nat :=
  match s with
  | [] => None
  | x :: s' => if Ascii.eqb x c then Some 0%nat else option_map S (strchr s' c)
  end.

Section Chunks.

(** [CHUNK_HDR_SZ] is defined in connection.h, which is not in src; it is a
    parameter here. *)
Variable CHUNK_HDR_SZ : nat.

(** [connection_chunk_start]. [chunk_hdr] is the address of the caller's
    header buffer and [held] the C string it holds; the result is the C
    string it holds afterwards and the outcome of the append. [snprintf]
    returns the length of the whole formatted text, cut or not, and that is
    the length the vector gets. *)
Definition connection_chunk_start (bufs : connection_bufs) (chunk_hdr : Z)
    (held : bytes) (chunk_sz : Z) : bytes * outcome (Z * connection_bufs) :=
  let text := sprintf_x chunk_sz ++ [CR; LF] in
  let chunk_hdrlen := Z.of_nat (length text) in
  (match CHUNK_HDR_SZ with
   | O => held
   | S _ => snprintf CHUNK_HDR_SZ text
   end,
   connection_bufs_append bufs chunk_hdr chunk_hdrlen).

(** [connection_chunk_end]: the two bytes at the first CR of the header
    buffer are queued again; the process aborts when the buffer holds no CR
    followed by LF. *)
Definition connection_chunk_end (bufs : connection_bufs) (chunk_hdr : Z)
    (held : bytes) : outcome (Z * connection_bufs) :=
  match strchr held CR with
  | Some p =>
      match held !! S p with
      | Some c =>
          if Ascii.eqb c LF
          then connection_bufs_append bufs (chunk_hdr + Z.of_nat p) 2
          else Aborted
      | None => Aborted
      end
  | None => Aborted     (* "chunk has no EOL" *)
  end.

End Chunks.

(* --------------------------------------------------------------------- *)
(** ** IP access cache: release                                           *)
(* --------------------------------------------------------------------- *)

(** [connection_release_banned_ip (ip)]. [avl_delete] runs the comparator,
    so [ban_entry_removal] goes in and comes out. *)
Definition connection_release_banned_ip (g : ban_globals) (ip : string)
  : ban_globals :=
  match contents (banned_ip g) with
  | Some t =>
      let '(t', removal) :=
        avl_delete (compare_arg (banned_ip g)) t ip (ban_entry_removal g) in
      {| banned_ip := with_contents (banned_ip g) t';
         ban_entry_removal := removal;
         cachefile_timecheck := cachefile_timecheck g |}
  | None => g
  end.

(** A run of lookups, each at its own [time (NULL)], as [accept_ip_address]
    makes them for one peer after the other. *)
Fixpoint search_sequence (cached_pattern_compare : string -> string -> Z)
    (g : ban_globals) (lookups : list (string * Z)) : ban_globals :=
  match lookups with
  | [] => g
  | (ip, time_now) :: rest =>
      search_sequence cached_pattern_compare
        (snd (search_at cached_pattern_compare g ip time_now)) rest
  end.

(** One operation on the IP cache as the callers of this file make them: a
    lookup at a given [time (NULL)], as [accept_ip_address] makes it, an add
    and a release. *)
Inductive cache_op : Type :=
| cache_search (addr : string) (time_now : Z)
| cache_add (addr : string) (duration time_now : Z)
| cache_release (addr : string).

Definition cache_step (cached_pattern_compare : string -> string -> Z)
    (g : ban_globals) (op : cache_op) : ban_globals :=
  match op with
  | cache_search addr time_now => snd (search_at cached_pattern_compare g addr time_now)
  | cache_add addr duration time_now => connection_add_banned_ip g addr duration time_now
  | cache_release addr => connection_release_banned_ip g addr
  end.

(** A run of such operations, one after the other. *)
Fixpoint cache_run (cached_pattern_compare : string -> string -> Z)
    (g : ban_globals) (ops : list cache_op) : ban_globals :=
  match ops with
  | [] => g
  | op :: rest =>
      cache_run cached_pattern_compare (cache_step cached_pattern_compare g op) rest
  end.

(* --------------------------------------------------------------------- *)
(** ** Listen-socket manager: opening the sockets                         *)
(* --------------------------------------------------------------------- *)

(** What the socket layer answers while the listeners are opened.
    [sock_get_server_socket k port bind_address] is the socket returned by
    the [k]-th call of the run; [sock_listen sock qlen] the C result. *)
Record socket_layer : Type := mkSocketLayer {
  sock_get_server_socket : nat -> Z -> option string -> sock_t;
  sock_listen : sock_t -> Z -> Z
}.

(** The calls [connection_setup_sockets] makes besides, in program order. *)
Inductive setup_event : Type :=
| sock_set_send_buffer (s : sock_t) (n : Z)
| sock_set_mss (s : sock_t) (n : Z)
| sock_set_blocking (s : sock_t) (block : Z)
| setup_sock_close (s : sock_t)
| refcount_incremented (l : listener_t)     (* [listener->refcount++] *)
| setup_clear_listener (l : listener_t).    (* [config_clear_listener] *)

Section SetupSockets.

(** The fields [so_sndbuf], [so_mss] and [qlen] of a listener, which the
    record [listener_t] above leaves out, and [config->listen_sock_count]. *)
Variables so_sndbuf so_mss qlen : listener_t -> Z.
Variable listen_sock_count : Z.

Variable sl : socket_layer.

(** What the slots that [realloc] adds happen to hold. *)
Variable stale_sock : sock_t.
Variable stale_conn : listener_t.

(** The [while (listener)] loop. The state is the number [k] of the next
    [sock_get_server_socket] call, [count], the two arrays and the calls
    made; the first component of the result is the list left hanging off
    [config->listen_sock]. A listener that cannot be opened is taken out of
    that list: [config_clear_listener] (cfgfile.c, not in src) releases it
    and returns the one behind it, which the code stores through [prev]. A
    store at an index outside the arrays leaves them as they are (the C code
    would write past the allocation). *)
Fixpoint setup_loop (k : nat) (listener : list listener_t) (count : Z)
    (socks : list sock_t) (conns : list listener_t) (evs : list setup_event)
  : list listener_t * Z * list sock_t * list listener_t * list setup_event :=
  match listener with
  | [] => ([], count, socks, conns, evs)
  | l :: next =>
      if count >? listen_sock_count
      then (listener, count, socks, conns, evs)    (* "sockets seem odd", break *)
      else
        let sock := sock_get_server_socket sl k (port l) (bind_address l) in
        if sock =? SOCK_ERROR then
          (* remove failed connection *)
          setup_loop (S k) next count socks conns (evs ++ [setup_clear_listener l])
        else
          let evs :=
            evs ++ (if so_sndbuf l =? 0 then []
                    else [sock_set_send_buffer sock (so_sndbuf l)])
                ++ (if so_mss l =? 0 then [] else [sock_set_mss sock (so_mss l)]) in
          if sock_listen sl sock (qlen l) =? SOCK_ERROR then
            setup_loop (S k) next count socks conns
              (evs ++ [setup_sock_close sock; setup_clear_listener l])
          else
            let '(kept, count', socks', conns', evs') :=
              setup_loop (S k) next (count + 1)
                (<[Z.to_nat count := sock]> socks)
                (<[Z.to_nat count := l]> conns)
                (evs ++ [sock_set_blocking sock 0; refcount_incremented l]) in
            (l :: kept, count', socks', conns', evs')
  end.

(** [connection_setup_sockets]: the result, the config with its listener
    list, the globals and the calls made. Both [realloc]s are taken to
    succeed. *)
Definition connection_setup_sockets (config : ice_config_t) (g : global.t)
  : Z * ice_config_t * global.t * list setup_event :=
  if global.server_sockets g >=? listen_sock_count then (0, config, g, [])
  else
    let n := Z.to_nat listen_sock_count in
    let socks :=
      resize n stale_sock
        (match global.serversock g with Some s => s | None => [] end) in
    let conns :=
      resize n stale_conn
        (match global.server_conn g with Some c => c | None => [] end) in
    let '(kept, count, socks', conns', evs) :=
      setup_loop 0 (listen_sock config) (global.server_sockets g) socks conns [] in
    (count, {| listen_sock := kept |},
     global.mk (Some socks') (Some conns') count, evs).

(** The (socket, listener) pairs a run over [listener] opens: a listener
    counts when it gets a socket and the socket can listen. *)
Fixpoint sockets_opened (k : nat) (listener : list listener_t)
  : list (sock_t * listener_t) :=
  match listener with
  | [] => []
  | l :: next =>
      let sock := sock_get_server_socket sl k (port l) (bind_address l) in
      if (sock =? SOCK_ERROR) || (sock_listen sl sock (qlen l) =? SOCK_ERROR)
      then sockets_opened (S k) next
      else (sock, l) :: sockets_opened (S k) next
  end.

End SetupSockets.

(* --------------------------------------------------------------------- *)
(** ** Accept loop: waiting for a listen socket                           *)
(* --------------------------------------------------------------------- *)

(** The event bits of [<poll.h>] (their values on Linux). *)
Definition POLLIN : Z := 1.
Definition POLLERR : Z := 8.
Definition POLLHUP : Z := 16.
Definition POLLNVAL : Z := 32.

(** What [poll] answers: its result and the [revents] it stored, one per
    descriptor in the order of the array. *)
Record poll_reply : Type := mkPollReply {
  poll_ret : Z;
  poll_revents : list Z
}.

(** [ufds[i].revents], which the code sets to 0 before the call. *)
Definition revents_at (p : poll_reply) (i : nat) : Z :=
  match poll_revents p !! i with
  | Some r => r
  | None => 0
  end.

(** [revents & mask] is not zero. *)
Definition flagged (revents mask : Z) : bool := negb (Z.land revents mask =? 0).

(** The first [for] loop of [wait_for_serversock] behind a successful
    [poll] (the build with [HAVE_POLL] and without [HAVE_SIGNALFD]): [n]
    iterations to go at index [i]. The result is the socket returned from
    inside the loop, if any, the array and the calls made. [ufds[i].fd] is
    [global.serversock[i]] as it was before the call; the loop changes only
    slots it has passed, so the slot is read from the array as it stands. An
    index outside the array ends the loop (the C code would read past the
    allocation). *)
Fixpoint poll_scan (p : poll_reply) (n i : nat) (socks : list sock_t)
    (evs : list listen_event) : option sock_t * list sock_t * list listen_event :=
  match n with
  | O => (None, socks, evs)
  | S n' =>
      match socks !! i with
      | Some fd =>
          let revents := revents_at p i in
          if flagged revents POLLIN then (Some fd, socks, evs)
          else if flagged revents (Z.lor POLLHUP (Z.lor POLLERR POLLNVAL)) then
            let evs :=
              if flagged revents (Z.lor POLLHUP POLLERR)
              then evs ++ [sock_close fd]     (* "Had to close a listening socket" *)
              else evs in
            poll_scan p n' (S i) (<[i := SOCK_ERROR]> socks) evs
          else poll_scan p n' (S i) socks evs
      | None => (None, socks, evs)
      end
  end.

(** The second loop: "remove any closed sockets". The result is [dst] and
    the array. *)
Fixpoint poll_compact (n i dst : nat) (socks : list sock_t) : nat * list sock_t :=
  match n with
  | O => (dst, socks)
  | S n' =>
      match socks !! i with
      | Some s =>
          if s =? SOCK_ERROR then poll_compact n' (S i) dst socks
          else
            poll_compact n' (S i) (S dst)
              (if (i =? dst)%nat then socks else <[dst := s]> socks)
      | None => (dst, socks)
      end
  end.

(** [wait_for_serversock] in that build: the socket returned, the globals
    and the calls made. With a NULL [global.serversock] no loop runs as long
    as [global.server_sockets] is not positive (the code would read through
    the NULL pointer otherwise; the globals are then left alone here). *)
Definition wait_for_serversock (g : global.t) (p : poll_reply)
  : sock_t * global.t * list listen_event :=
  if poll_ret p <=? 0 then (SOCK_ERROR, g, [])
  else
    match global.serversock g with
    | Some socks =>
        let n := Z.to_nat (global.server_sockets g) in
        match poll_scan p n 0 socks [] with
        | (Some fd, socks1, evs) =>
            (fd, global.mk (Some socks1) (global.server_conn g)
                           (global.server_sockets g), evs)
        | (None, socks1, evs) =>
            let '(dst, socks2) := poll_compact n 0 0 socks1 in
            (SOCK_ERROR,
             global.mk (Some socks2) (global.server_conn g) (Z.of_nat dst), evs)
        end
    | None =>
        (SOCK_ERROR,
         if global.server_sockets g <=? 0
         then global.mk None (global.server_conn g) 0
         else g, [])
    end.

(** The [for] loop of [accept_client] that binds a client to its listener:
    the profile at the first index whose socket is [serversock]; [None] when
    the loop ends without a match and [client->server_conn] stays NULL. *)
Fixpoint accept_client_listener (n i : nat) (socks : list sock_t)
    (conns : list listener_t) (serversock : sock_t) : option listener_t :=
  match n with
  | O => None
  | S n' =>
      match socks !! i with
      | Some s =>
          if s =? serversock then conns !! i
          else accept_client_listener n' (S i) socks conns serversock
      | None => None
      end
  end.

(* --------------------------------------------------------------------- *)
(** ** Source set-up behind the headers                                   *)
(* --------------------------------------------------------------------- *)

(** [strcasecmp]: [strcmp] on the texts with the letters A to Z lowered. *)
Definition tolower (c : ascii) : ascii :=
  let n := nat_of_ascii c in
  if (65 <=? n)%nat && (n <=? 90)%nat then ascii_of_nat (n + 32) else c.

Definition strcasecmp (a b : string) : Z :=
  strcmp (string_of_list_ascii (map tolower (list_ascii_of_string a)))
         (string_of_list_ascii (map tolower (list_ascii_of_string b))).

(** A client with the two further fields [setup_source_client_callback]
    uses: [client->format_data] and the parsed request. *)
Record source_client : Type := mkSourceClient {
  client : client_t;
  format_data : option refbuf_t;
  parser : http_parser_t
}.

(** How a call of [setup_source_client_callback] ends; both ways return 0. *)
Inductive setup_result : Type :=
| SendBuffer (s : source_client)
    (* [client_send_buffer_callback (client, setup_source_client_callback)] *)
| SourceReady (s : source_client).
    (* [client->ops = &http_req_source_ops] *)

Definition continue_response : bytes :=
  str "HTTP/1.1 100 Continue" ++ [CR; LF; CR; LF].

Section SourceSetup.

Variable PER_CLIENT_REFBUF_SIZE : Z.

(** The tail of the function: [client->refbuf] is released and what hung
    behind it takes its place. *)
Definition install_stream (s : source_client) (buf : refbuf_t) : setup_result :=
  SourceReady
    {| client := with_ops (with_pos (with_refbuf (client s) (associated buf)) 0)
                          http_req_source_ops;
       format_data := None;
       parser := parser s |}.

(** [setup_source_client_callback]. The result is [None] where the code
    reads through a NULL [client->refbuf]. The block [refbuf_new] hands out
    for the stream data has nothing hanging behind it. With [client->pos]
    outside the buffer the code copies a negative number of bytes; the
    embedding is faithful for [0 <= pos <= len]. *)
Definition setup_source_client_callback (s : source_client)
  : option setup_result :=
  match refbuf (client s) with
  | None => None
  | Some buf =>
      match format_data s with
      | None =>
          let expect := fst (httpp_getvar (parser s) "expect") in
          let len := len buf - pos (client s) in
          let buf :=
            if len =? 0 then buf
            else
              (* "found %d bytes of stream data after headers" *)
              let stream :=
                mkRefbuf (drop (Z.to_nat (pos (client s))) (data buf)) None in
              mkRefbuf (take (Z.to_nat (pos (client s))) (data buf)) (Some stream) in
          let go_on := Some (install_stream s buf) in
          match expect with
          | Some expect =>
              if strcasecmp expect "100-continue" =? 0 then
                (* "client expects 100 continue" *)
                let buf :=
                  mkRefbuf (snprintf (Z.to_nat PER_CLIENT_REFBUF_SIZE) continue_response)
                           (associated buf) in
                Some (SendBuffer
                        {| client := with_pos (with_refbuf (client s) (Some buf)) 0;
                           format_data := Some buf;
                           parser := parser s |})
              else go_on
          | None => go_on
          end
      | Some _ => Some (install_stream s buf)
      end
  end.

End SourceSetup.

(* --------------------------------------------------------------------- *)
(** ** Credential check: administrators and relays                        *)
(* --------------------------------------------------------------------- *)

Section Administrators.

Variables HTTPP_VAR_PROTOCOL HTTPP_VAR_ICYPASSWORD : string.

(** [connection_check_admin_pass]; the two options are
    [config->admin_username] and [config->admin_password]. *)
Definition connection_check_admin_pass (admin_username admin_password : option string)
    (parser : http_parser_t) : looked Z :=
  match admin_password, admin_username with
  | Some pass, Some user =>
      let* protocol := httpp_getvar parser HTTPP_VAR_PROTOCOL in
      let is_icy :=
        match protocol with
        | Some protocol => String.eqb protocol "ICY"
        | None => false
        end in
      if is_icy then _check_pass_icy HTTPP_VAR_ICYPASSWORD parser pass
      else _check_pass_http parser user pass
  | _, _ => ret_ 0
  end.

(** [connection_check_relay_pass]. *)
Definition connection_check_relay_pass (relay_username relay_password : option string)
    (parser : http_parser_t) : looked Z :=
  match relay_password, relay_username with
  | Some pass, Some user => _check_pass_http parser user pass
  | _, _ => ret_ 0
  end.

End Administrators.

(* --------------------------------------------------------------------- *)
(** ** Request handling: forwarded addresses and access-log filtering      *)
(* --------------------------------------------------------------------- *)

(** [strcspn (s, ",")]. *)
Fixpoint strcspn_comma (s : bytes) : nat :=
  match s with
  | [] => 0%nat
  | c :: s' => if Ascii.eqb c ","%char then 0%nat else S (strcspn_comma s')
  end.

(** The [while] loop of [_check_for_x_forwarded_for] over the list
    [config->xforward]: the text [client->connection.ip] holds afterwards. *)
Fixpoint xforward_loop (xforward : list string) (hdr ip : string) : string :=
  match xforward with
  | [] => ip
  | x :: next =>
      if strcmp x ip =? 0 then
        let len := (strcspn_comma (str hdr) + 1)%nat in
        string_of_list_ascii (snprintf len (str hdr))  (* "x-forward match for %s" *)
      else xforward_loop next hdr ip
  end.

(** [_check_for_x_forwarded_for (config, client)]. *)
Definition _check_for_x_forwarded_for (xforward : list string)
    (parser : http_parser_t) (ip : string) : string :=
  match fst (httpp_getvar parser "x-forwarded-for") with
  | None => ip
  | Some hdr => xforward_loop xforward hdr ip
  end.

Definition SPACE : ascii := " "%char.

(** [strcspn (s, " ")] and [strspn (s, " ")]. *)
Fixpoint strcspn_space (s : bytes) : nat :=
  match s with
  | [] => 0%nat
  | c :: s' => if Ascii.eqb c SPACE then 0%nat else S (strcspn_space s')
  end.

Fixpoint strspn_space (s : bytes) : nat :=
  match s with
  | [] => 0%nat
  | c :: s' => if Ascii.eqb c SPACE then S (strspn_space s') else 0%nat
  end.

(** [strncmp (a, b, n)] on texts without NUL. *)
Definition strncmp (a b : bytes) (n : nat) : Z :=
  strcmp (string_of_list_ascii (take n a)) (string_of_list_ascii (take n b)).

(** [strrchr (s, c)]: the offset of the last [c]. *)
Fixpoint strrchr (s : bytes) (c : ascii) : option nat :=
  match s with
  | [] => None
  | x :: s' =>
      match strrchr s' c with
      | Some i => Some (S i)
      | None => if Ascii.eqb x c then Some 0%nat else None
      end
  end.

(** The [while] loop of [check_for_filtering] over [pattern]; [extension]
    is the text behind the dot. Every turn on a pattern that is not empty moves
    on in it, so fuel of the length of the pattern is enough. *)
Fixpoint exclude_loop (fuel : nat) (extension pattern : bytes) : bool :=
  match fuel with
  | O => false
  | S fuel' =>
      match pattern with
      | [] => false
      | _ :: _ =>
          let len := strcspn_space pattern in
          if (strncmp extension pattern len =? 0)
             && match extension !! len with
                | None => true
                | Some _ => false
                end
          then true
          else
            let pattern := drop len pattern in
            let len := strspn_space pattern in   (* find next pattern *)
            exclude_loop fuel' extension (drop len pattern)
      end
  end.

Section Filtering.

(** The flag bits are defined in client.h, which is not in src. *)
Variables CLIENT_WANTS_FLV CLIENT_SKIP_ACCESSLOG : Z.

(** [check_for_filtering (config, client, uri)]: [client->flags]
    afterwards. [exclude_ext] is [config->access_log.exclude_ext] ([None]
    for NULL) and [queryvars] what [httpp_get_query_param] looks names up
    in. *)
Definition check_for_filtering (exclude_ext : option string)
    (queryvars : http_parser_t) (flags : Z) (uri : string) : Z :=
  let pattern := exclude_ext in
  let extension := option_map (fun i => drop i (str uri)) (strrchr (str uri) "."%char) in
  let type := queryvars !! "type"%string in
  let flags :=
    if match extension with
       | Some e => bytes_eqb (drop 1 e) (str "flv")
       | None => false
       end
       || match type with
          | Some t => (strcmp t ".flv" =? 0) || (strcmp t ".fla" =? 0)
          | None => false
          end
    then Z.lor flags CLIENT_WANTS_FLV     (* "listener has requested FLV" *)
    else flags in
  match extension with
  | None => flags
  | Some e =>
      let extension := drop 1 e in
      match pattern with
      | None => flags
      | Some pattern =>
          if exclude_loop (length (str pattern)) extension (str pattern)
          then Z.lor flags CLIENT_SKIP_ACCESSLOG
          else flags
      end
  end.

End Filtering.

(* --------------------------------------------------------------------- *)
(** ** Connections: identity, set-up and close                            *)
(* --------------------------------------------------------------------- *)

(** The fields of [connection_t] that the record [connection_t] above leaves
    out: the socket, the id, the peer's address text ([None] for a NULL
    pointer) and the time of the connect. A connection in full is a pair of
    the two. *)
Record peer_t : Type := mkPeer {
  con_sock : sock_t;
  con_id : Z;
  con_ip : option string;
  con_time : Z
}.

(** A [connection_t] after [memset (con, 0, sizeof (connection_t))] or
    inside a client from [calloc]. *)
Definition zeroed : connection_t * peer_t :=
  (mkCon false 0 false 0, mkPeer 0 0 None 0).

(** [_next_connection_id]: [id = _current_id++] on a [uint64_t]; the result
    and the counter. *)
Definition _next_connection_id (_current_id : Z) : Z * Z :=
  (_current_id, u64 (_current_id + 1)).

(** [addr + (strncmp (addr, "::ffff:", 7) == 0 ? 7 : 0)]: the text without
    the prefix of an IPv4 address mapped into IPv6. *)
Definition skip_v4_mapped (addr : string) : string :=
  if is_prefix (str "::ffff:") (str addr)
  then string_of_list_ascii (drop 7 (str addr))
  else addr.

(** What [getpeername] returns and the text [getnameinfo] leaves in the
    buffer, which starts out as "unknown". *)
Record peer_name : Type := mkPeerName {
  getpeername : Z;
  getnameinfo : string
}.

(** The calls made while a connection is accepted or closed, in program
    order. *)
Inductive accept_event : Type :=
| listen_call (e : listen_event)         (* a call of [wait_for_serversock] *)
| peer_sock_close (s : sock_t)           (* [sock_close] on a peer's socket *)
| ssl_shutdown                           (* [SSL_shutdown] and [SSL_free] *)
| thread_sleep (us : Z)
| client_register
| listener_refcount_inc (l : listener_t).

(** [connection_close], in the build with OpenSSL. *)
Definition connection_close (con : connection_t * peer_t)
  : (connection_t * peer_t) * list accept_event :=
  let '(base, peer) := con in
  let evs := if negb (con_sock peer =? SOCK_ERROR)
             then [peer_sock_close (con_sock peer)] else [] in
  let evs := if ssl base then evs ++ [ssl_shutdown] else evs in
  let '(base, peer) := zeroed in
  ((base, mkPeer SOCK_ERROR (con_id peer) (con_ip peer) (con_time peer)), evs).

(** What the environment answers during one call of [accept_client]: to
    [poll], to [sock_accept] (the socket and the text it stores in [addr]),
    to [sock_recoverable (sock_error ())] after a failed accept, to
    [time (NULL)], to the three calls that prepare the socket, and whether
    [calloc] returned a block. *)
Record accept_reply : Type := mkAcceptReply {
  a_poll : poll_reply;
  a_accept : sock_t * string;
  a_recoverable : bool;
  a_time : Z;
  a_set_blocking : Z;
  a_set_cork : Z;
  a_set_nodelay : Z;
  a_calloc : bool
}.

(** The globals [accept_client] works on: the listen sockets, the IP filter
    and [_current_id]. *)
Record accept_state : Type := mkAcceptState {
  a_global : global.t;
  a_bans : ban_globals;
  a_current_id : Z
}.

(** What [accept_client] returns: NULL, a client, or a client whose
    [server_conn] and [ops] are still NULL because no slot in use holds the
    listen socket (of that client the connection and the scratch buffer are
    given). *)
Inductive accept_result : Type :=
| no_client
| new_client (c : client_t) (p : peer_t)
| unbound_client (con : connection_t) (p : peer_t) (shared_data : refbuf_t).

Section Accepting.

(** cachefile.c is not in src. [cached_pattern_compare] is as above;
    [cached_file_recheck (&banned_ip, now)] reloads the ban file when it has
    changed on disk; [cached_pattern_search (&allowed_ip, ip, now)] answers
    0 when the allow list refuses the address. They are parameters here. *)
Variable cached_pattern_compare : string -> string -> Z.
Variable cached_file_recheck : cache_file_contents -> Z -> cache_file_contents.
Variable allowed_ip_search : string -> Z -> Z.

(** [ssl_ok] and the field [ssl] of a listener, which the record
    [listener_t] leaves out. *)
Variable ssl_ok : bool.
Variable listener_ssl : listener_t -> bool.

(** [search_banned_ip]. *)
Definition search_banned_ip (g : ban_globals) (ip : string) : Z * ban_globals :=
  let g := {| banned_ip := cached_file_recheck (banned_ip g) (cachefile_timecheck g);
              ban_entry_removal := ban_entry_removal g;
              cachefile_timecheck := cachefile_timecheck g |} in
  search_banned_ip_locked cached_pattern_compare g ip.

(** [accept_ip_address (ip)]: 0 if the address is not to be handled, 1
    otherwise; [time_now] is what [time (NULL)] answers. *)
Definition accept_ip_address (g : ban_globals) (ip : string) (time_now : Z)
  : Z * ban_globals :=
  let g := {| banned_ip := banned_ip g; ban_entry_removal := ban_entry_removal g;
              cachefile_timecheck := time_now |} in
  let '(ret, g) := search_banned_ip g ip in
  if ret >? 0 then (0, g)                                      (* "%s banned" *)
  else if allowed_ip_search ip (cachefile_timecheck g) =? 0
       then (0, g)                                             (* "%s is not allowed" *)
       else (1, g).

(** [connection_init (con, sock, addr)], in the build with [getnameinfo]:
    the result, the connection, [_current_id] and the IP filter. [con] and
    [addr] are [None] for NULL pointers. *)
Definition connection_init (con : option (connection_t * peer_t)) (sock : sock_t)
    (addr : option string) (pn : peer_name) (time_now : Z)
    (_current_id : Z) (g : ban_globals)
  : Z * option (connection_t * peer_t) * Z * ban_globals :=
  match con with
  | Some (base, peer) =>
      let peer := mkPeer sock (con_id peer) (con_ip peer) (con_time peer) in
      if sock =? SOCK_ERROR then (-1, Some (base, peer), _current_id, g)
      else
        let '(id, _current_id) := _next_connection_id _current_id in
        let peer := mkPeer (con_sock peer) id (con_ip peer) (con_time peer) in
        let with_ip ip := mkPeer (con_sock peer) (con_id peer) (Some ip) (con_time peer) in
        let failed g :=
          let '(base, peer) := zeroed in
          (-1, Some (base, mkPeer SOCK_ERROR (con_id peer) (con_ip peer) (con_time peer)),
           _current_id, g) in
        match addr with
        | Some addr => (0, Some (base, with_ip (skip_v4_mapped addr)), _current_id, g)
        | None =>
            if getpeername pn =? 0 then
              let ip := skip_v4_mapped (getnameinfo pn) in
              let '(ok, g) := accept_ip_address g ip time_now in
              if c_true ok then (0, Some (base, with_ip ip), _current_id, g)
              else failed g
            else failed g
        end
  | None => (-1, None, _current_id, g)
  end.

(** [connection_uses_ssl], in the build with OpenSSL. *)
Definition connection_uses_ssl (con : connection_t) : connection_t :=
  mkCon true (sent_bytes con) (error con) (discon_time con).

(** [accept_client], in the build of [wait_for_serversock] above: what is
    returned, the globals and the calls made. [connection_init] is given the
    address, so it asks for no peer name. A slot that holds the listen
    socket but lies outside [global.server_conn] leaves the client unbound
    here (the C code would read past the array). [client->flags], which
    gets [CLIENT_ACTIVE], is not part of the record [client_t]. *)
Definition accept_client (r : accept_reply) (st : accept_state)
  : accept_result * accept_state * list accept_event :=
  let '(serversock, g, waited) := wait_for_serversock (a_global st) (a_poll r) in
  let evs := map listen_call waited in
  let st := mkAcceptState g (a_bans st) (a_current_id st) in
  if serversock =? SOCK_ERROR then (no_client, st, evs)
  else
    let '(sock, addr) := a_accept r in
    if sock =? SOCK_ERROR then
      if a_recoverable r then (no_client, st, evs)
      else (no_client, st, evs ++ [thread_sleep 500000])  (* "accept() failed with error" *)
    else
      let refused st := (no_client, st, evs ++ [peer_sock_close sock]) in
      let '(ok, bans) := accept_ip_address (a_bans st) addr (a_time r) in
      let st := mkAcceptState g bans (a_current_id st) in
      if ok =? 0 then refused st
      else if c_true (a_set_blocking r)
              || ((a_set_cork r <? 0) && c_true (a_set_nodelay r))
      then refused st                              (* "failed to set tcp options" *)
      else if negb (a_calloc r) then refused st
      else
        let '(ret, con, _current_id, bans) :=
          connection_init (Some zeroed) sock (Some addr) (mkPeerName (-1) "unknown")
                          (a_time r) (a_current_id st) (a_bans st) in
        let st := mkAcceptState g bans _current_id in
        match con with
        | Some (base, peer) =>
            if ret <? 0 then refused st
            else
              let r := mkRefbuf [] None in
              let evs := evs ++ [client_register] in
              let socks := match global.serversock g with Some s => s | None => [] end in
              let conns := match global.server_conn g with Some c => c | None => [] end in
              match accept_client_listener (Z.to_nat (global.server_sockets g)) 0
                      socks conns serversock with
              | Some l =>
                  (new_client
                     {| connection := if listener_ssl l && ssl_ok
                                      then connection_uses_ssl base else base;
                        shared_data := Some r;
                        refbuf := None;
                        pos := 0;
                        ops := if shoutcast_compat l then shoutcast_source_ops
                               else http_request_ops;
                        respcode := 0;
                        schedule_ms := 0;
                        counter := 0;
                        server_conn := l |}
                     peer,
                   st, evs ++ [listener_refcount_inc l])
              | None => (unbound_client base peer r, st, evs)
              end
        | None => refused st
        end.

(** The body of the loop of [connection_thread] for a client that
    [accept_client] returned: [now] is what [timing_get_time] answers, in
    milliseconds. *)
Definition connection_thread_schedule (header_timeout now : Z)
    (client : client_t) (peer : peer_t) : client_t * peer_t :=
  let client := mkClient (connection client) (shared_data client) (refbuf client)
                         (pos client) (ops client) (respcode client) now now
                         (server_conn client) in
  let peer := mkPeer (con_sock peer) (con_id peer) (con_ip peer)
                     (schedule_ms client / 1000) in
  let client := with_connection client
                  (set_discon_time (connection client) (con_time peer + header_timeout)) in
  (with_schedule_ms client (u64 (schedule_ms client + 6)), peer).

(** A run of the loop of [connection_thread]: one [accept_client] per reply,
    each with the time [timing_get_time] answers behind it; the clients
    handed to the workers, in order. The run ends at a client without [ops]:
    the worker that takes it calls through the NULL pointer. *)
Fixpoint connection_thread_run (header_timeout : Z) (rs : list (accept_reply * Z))
    (st : accept_state) : list (client_t * peer_t) * accept_state :=
  match rs with
  | [] => ([], st)
  | (r, now) :: rest =>
      let '(res, st, _) := accept_client r st in
      match res with
      | no_client => connection_thread_run header_timeout rest st
      | new_client c p =>
          let '(clients, st) := connection_thread_run header_timeout rest st in
          (connection_thread_schedule header_timeout now c p :: clients, st)
      | unbound_client _ _ _ => ([], st)
      end
  end.

End Accepting.

(* --------------------------------------------------------------------- *)
(** ** Notions used to state the properties                              *)
(* --------------------------------------------------------------------- *)

Definition kept_of (cfg : ice_config_t) (slots : list (sock_t * listener_t)) :=
  List.filter (fun p => stays_open cfg (snd p)) slots.

Definition gone_of (cfg : ice_config_t) (slots : list (sock_t * listener_t)) :=
  List.filter (fun p => negb (stays_open cfg (snd p))) slots.

(** An entry the comparator may mark while the tree is searched for [key]:
    another entry whose nonzero timeout lies more than 60 s before [now]. *)
Definition sweepable (now : Z) (key : string) (m : banned_entry) : Prop :=
  ip m <> key /\ timeout m <> 0 /\ timeout m < now - 60.

(** The mark after a traversal of [l]: an earlier mark is kept, a new one is
    a sweepable entry of [l]. *)
Definition mark_ok (now : Z) (key : string) (l : list banned_entry)
    (before after : option banned_entry) : Prop :=
  match before with
  | Some x => after = Some x
  | None => forall m, after = Some m -> In m l /\ sweepable now key m
  end.

(* --------------------------------------------------------------------- *)
(** ** Sample inputs                                                      *)
(* --------------------------------------------------------------------- *)

Definition demo_bufs : connection_bufs :=
  {| count := 2; max := 2; total := 15;
     block := [mkIOVEC 1000 10; mkIOVEC 2000 5] |}.

Definition demo_plain : transport :=
  {| sock_writev := fun ios => sum_len ios; sock_recoverable := true;
     SSL_write := fun _ io => (iov_len io, SSL_ERROR_NONE) |}.

(** A TLS peer that takes at most four bytes per write. *)
Definition demo_tls : transport :=
  {| sock_writev := fun _ => -1; sock_recoverable := true;
     SSL_write := fun _ io => (Z.max 0 (Z.min 4 (iov_len io)), SSL_ERROR_NONE) |}.

Definition demo_listener : listener_t :=
  {| port := 8001; bind_address := None; shoutcast_compat := true;
     shoutcast_mount := "/live" |}.

(** A client as [accept_client] leaves it at time 5000 ms with a header
    timeout of 15 s. *)
Definition demo_client (o : client_ops) : client_t :=
  {| connection := mkCon false 0 false 20;
     shared_data := Some (mkRefbuf [] None); refbuf := None; pos := 0;
     ops := o; respcode := 0; schedule_ms := 5006; counter := 5000;
     server_conn := demo_listener |}.

Definition would_block_at (now_ms : Z) : invocation :=
  {| running := true; time_ms := now_ms; current_time_sec := now_ms / 1000;
     rd := read_failed false; wr_room := 0 |}.

Definition demo_port (p : Z) : listener_t :=
  {| port := p; bind_address := None; shoutcast_compat := false;
     shoutcast_mount := "" |}.

(** Listeners open on ports 8000 and 80 (descriptors 7 and 9); the reloaded
    config lists 80 and 8001. *)
Definition demo_global : global.t :=
  global.mk (Some [7; 9]) (Some [demo_port 8000; demo_port 80]) 2.

Definition demo_config : ice_config_t :=
  {| listen_sock := [demo_port 80; demo_port 8001] |}.

(** An empty literal map, no wildcards. *)
Definition demo_bans : ban_globals :=
  {| banned_ip := {| wildcards := []; contents := Some avl_leaf; compare_arg := 0 |};
     ban_entry_removal := None; cachefile_timecheck := 0 |}.

(** A pattern matcher for which nothing matches. *)
Definition no_patterns (text pattern : string) : Z := 1.

(** A map holding one entry for 10.0.0.5 that times out at 110. *)
Definition demo_bans_one : ban_globals :=
  {| banned_ip := {| wildcards := [];
                     contents := Some (avl_node avl_leaf (mkBanned "10.0.0.5" 110) avl_leaf);
                     compare_arg := 100 |};
     ban_entry_removal := None; cachefile_timecheck := 100 |}.

(** Three entries at comparator time 1000: a permanent one, one that timed
    out at 50 (at the root) and one that runs until 2000. *)
Definition demo_bans_three : ban_globals :=
  {| banned_ip :=
       {| wildcards := [];
          contents := Some (avl_node
                              (avl_node avl_leaf (mkBanned "10.0.0.2" 0) avl_leaf)
                              (mkBanned "10.0.0.5" 50)
                              (avl_node avl_leaf (mkBanned "10.0.0.9" 2000) avl_leaf));
          compare_arg := 1000 |};
     ban_entry_removal := None; cachefile_timecheck := 1000 |}.

Definition demo_headers : bytes := str "icy-name:Test" ++ [CR; LF; CR; LF].

(** The peer of the spec's scenario: one read brings the password line and
    the headers; the socket takes the whole response. *)
Definition legacy_dialogue (P H : bytes) : invocation :=
  {| running := true; time_ms := 5100; current_time_sec := 5;
     rd := read_stored (P ++ [CR; LF] ++ H); wr_room := 64 |}.

(* --------------------------------------------------------------------- *)
(** ** Further notions used to state the properties                       *)
(* --------------------------------------------------------------------- *)

(** The vectors in use. *)
Definition in_use (v : connection_bufs) : list IOVEC := take (count v) (block v).

(** Vectors that [connection_bufs_append] takes (a length is an [unsigned]
    of at most [0xFFFFFF]) and whose lengths add up within a C [int]. *)
Definition appendable (ios : list IOVEC) : bool :=
  forallb (fun io => (0 <=? iov_len io) && (iov_len io <=? 16777215)) ios
  && (sum_len ios <=? 2147483647).

(** The number a run of hexadecimal digits stands for. *)
Definition hex_digit_value (c : ascii) : option Z :=
  option_map Z.of_nat (index_of c hex_alphabet).

Fixpoint hex_value_from (acc : Z) (text : bytes) : option Z :=
  match text with
  | [] => Some acc
  | c :: text' =>
      match hex_digit_value c with
      | Some d => hex_value_from (acc * 16 + d) text'
      | None => None
      end
  end.

Definition hex_value (text : bytes) : option Z :=
  match text with
  | [] => None
  | _ => hex_value_from 0 text
  end.

(** The tree is ordered by the comparator: at every node the entries on the
    left have a smaller IP text and those on the right a larger one. *)
Fixpoint avl_ordered (t : avl_tree) : bool :=
  match t with
  | avl_leaf => true
  | avl_node l k r =>
      forallb (fun x => strcmp (ip x) (ip k) <? 0) (avl_elements l)
      && forallb (fun x => strcmp (ip k) (ip x) <? 0) (avl_elements r)
      && avl_ordered l && avl_ordered r
  end.

Definition map_ordered (g : ban_globals) : bool :=
  match contents (banned_ip g) with
  | Some t => avl_ordered t
  | None => true
  end.

(** The tree is sorted by the comparator: at every node the entries on the
    left have an IP text that is not larger and those on the right one that
    is not smaller. Several entries may carry one text. The empty tree is
    sorted and every operation keeps a tree sorted. *)
Fixpoint avl_sorted (t : avl_tree) : bool :=
  match t with
  | avl_leaf => true
  | avl_node l k r =>
      forallb (fun x => strcmp (ip x) (ip k) <=? 0) (avl_elements l)
      && forallb (fun x => strcmp (ip k) (ip x) <=? 0) (avl_elements r)
      && avl_sorted l && avl_sorted r
  end.

Definition map_sorted (g : ban_globals) : bool :=
  match contents (banned_ip g) with
  | Some t => avl_sorted t
  | None => true
  end.

(** The entries that carry the text [key]. *)
Definition key_entries (key : string) (l : list banned_entry) : list banned_entry :=
  List.filter (fun e => String.eqb (ip e) key) l.

(** The operation is about another address than [key]: a lookup or a
    release of another text, the add of a pattern or of a text that is
    stored under another text. *)
Definition cache_op_elsewhere (key : string) (op : cache_op) : bool :=
  match op with
  | cache_search addr _ => negb (String.eqb addr key)
  | cache_add addr _ _ => has_wildcard addr || negb (String.eqb (ip_field addr) key)
  | cache_release addr => negb (String.eqb addr key)
  end.

(** An entry that the comparator may mark at the time [now]. *)
Definition stale_at (now : Z) (m : banned_entry) : Prop :=
  timeout m <> 0 /\ timeout m < now - 60.

(** What an operation on another address does to the entries of [key]:
    nothing, unless one of them is stale by the comparator's clock; then a
    lookup may take one of them. *)
Definition key_entries_step (key : string) (g g' : ban_globals) : Prop :=
  compare_arg (banned_ip g') = compare_arg (banned_ip g) /\
  (key_entries key (literal_entries g') = key_entries key (literal_entries g) \/
   exists m x a b,
     In m (literal_entries g) /\ ip m = key /\
     stale_at (compare_arg (banned_ip g)) m /\
     key_entries key (literal_entries g) = a ++ x :: b /\
     key_entries key (literal_entries g') = a ++ b).

(** The arrays, NULL or allocated, hold at least [server_sockets] slots. *)
Definition slots_allocated (g : global.t) : bool :=
  (0 <=? global.server_sockets g)
  && (global.server_sockets g
      <=? Z.of_nat (length (match global.serversock g with Some s => s | None => [] end)))
  && (global.server_sockets g
      <=? Z.of_nat (length (match global.server_conn g with Some c => c | None => [] end))).

(** The descriptors handed to [poll], each with the [revents] it got back. *)
Fixpoint pair_revents (p : poll_reply) (i : nat) (socks : list sock_t)
  : list (sock_t * Z) :=
  match socks with
  | [] => []
  | s :: rest => (s, revents_at p i) :: pair_revents p (S i) rest
  end.

(** A slot the first loop marks defunct, one that is still in use after the
    second loop, and the call the first loop makes for a slot. *)
Definition poll_dropped (u : sock_t * Z) : bool :=
  flagged (snd u) (Z.lor POLLHUP (Z.lor POLLERR POLLNVAL)).

Definition poll_survives (u : sock_t * Z) : bool :=
  negb (fst u =? SOCK_ERROR) && negb (poll_dropped u).

Definition poll_closes (u : sock_t * Z) : list listen_event :=
  if poll_dropped u && flagged (snd u) (Z.lor POLLHUP POLLERR)
  then [sock_close (fst u)] else [].

Definition poll_none_readable (l : list (sock_t * Z)) : bool :=
  forallb (fun u => negb (flagged (snd u) POLLIN)) l.

Definition live (s : sock_t) : bool := negb (s =? SOCK_ERROR).

(** The three forms of the blank line that ends the headers. *)
Definition blank_line_forms : list bytes :=
  [[CR; LF; CR; LF]; [LF; LF]; [CR; CR; LF; CR; CR; LF]].

(** The scratch buffer a call of [http_client_request] works on: the
    client's, or a new empty one. *)
Definition scratch (c : client_t) : refbuf_t :=
  match shared_data c with
  | Some r => r
  | None => mkRefbuf [] None
  end.

(** What lies in [client->refbuf] behind [client->pos]: the bytes the peer
    sent after the headers, or, when there are none, what already hung
    behind the buffer. *)
Definition stream_behind_headers (c : client_t) : option refbuf_t :=
  match refbuf c with
  | Some buf =>
      if len buf - pos c =? 0 then associated buf
      else Some (mkRefbuf (drop (Z.to_nat (pos c)) (data buf)) None)
  | None => None
  end.

Definition expects_continue (p : http_parser_t) : bool :=
  match p !! "expect"%string with
  | Some v => strcasecmp v "100-continue" =? 0
  | None => false
  end.

(** The request carries HTTP Basic credentials for [user] and [pass]: an
    [authorization] variable that reads [Basic ] and then base64 text whose
    decoding, up to its first NUL, is [user], a colon, [pass]. *)
Definition basic_credentials (parser : http_parser_t) (user pass : string) : Prop :=
  exists header b64 decoded,
    parser !! "authorization"%string = Some header /\
    str header = str "Basic " ++ b64 /\
    util_base64_decode b64 = Some decoded /\
    cstr decoded = str user ++ ":"%char :: str pass /\
    strchr_colon (str user) = None.

(** The header a client sends for [user] and [pass]. *)
Definition basic_header (user pass : string) : string :=
  string_of_list_ascii
    (str "Basic " ++ util_base64_encode (str user ++ ":"%char :: str pass)).

Definition is_icy_request (proto : string) (parser : http_parser_t) : bool :=
  match parser !! proto with
  | Some protocol => String.eqb protocol "ICY"
  | None => false
  end.

(** The [ice-password] variable, a missing one read as the empty string. *)
Definition ice_password (parser : http_parser_t) : string :=
  match parser !! "ice-password"%string with
  | Some p => p
  | None => ""%string
  end.

(* --------------------------------------------------------------------- *)
(** ** Further sample inputs                                              *)
(* --------------------------------------------------------------------- *)

Definition three_vectors : list IOVEC :=
  [mkIOVEC 1000 10; mkIOVEC 2000 0; mkIOVEC 3000 5].

(** A socket layer on which port 80 cannot be bound. *)
Definition demo_socket_layer : socket_layer :=
  {| sock_get_server_socket :=
       fun k port _ => if port =? 80 then SOCK_ERROR else 10 + Z.of_nat k;
     sock_listen := fun _ _ => 0 |}.

(** [poll] reports a hang-up on the first descriptor and nothing on the
    second. *)
Definition demo_hangup : poll_reply := {| poll_ret := 1; poll_revents := [POLLHUP; 0] |}.

Definition demo_get_request : invocation :=
  {| running := true; time_ms := 5100; current_time_sec := 5;
     rd := read_stored (str "GET /live HTTP/1.0" ++ [CR; LF; CR; LF]); wr_room := 0 |}.

(** A call at second 20, the deadline of [demo_client]. *)
Definition late_call : invocation :=
  {| running := true; time_ms := 20000; current_time_sec := 20;
     rd := read_stored (str "hackme" ++ [CR; LF]); wr_room := 64 |}.

(** A source request with four bytes of stream data behind its headers. *)
Definition demo_put_headers : bytes :=
  str "PUT /live HTTP/1.1" ++ [CR; LF] ++ str "Expect: 100-continue" ++ [CR; LF; CR; LF].

Definition demo_source (expect : string) : source_client :=
  {| client :=
       {| connection := mkCon false 0 false 0;
          shared_data := None;
          refbuf := Some (mkRefbuf (demo_put_headers ++ str "OggS") None);
          pos := Z.of_nat (length demo_put_headers);
          ops := http_request_ops; respcode := 0; schedule_ms := 5006; counter := 5000;
          server_conn := demo_listener |};
     format_data := None;
     parser := {[ "expect"%string := expect ]} |}.

Definition demo_basic_request : http_parser_t :=
  {[ "authorization"%string := basic_header "source" "hackme" ]}.


(** A lookup of another address, and an add and a release of a third. *)
Definition demo_cache_ops : list cache_op :=
  [cache_search "10.0.0.9" 110; cache_add "10.0.0.7" 0 115; cache_release "10.0.0.7"].

(* --------------------------------------------------------------------- *)
(** ** Notions for request handling and for accepted connections         *)
(* --------------------------------------------------------------------- *)

(** The words of a text: the runs between its spaces, empty ones
    included. *)
Fixpoint split_space (s : bytes) : list bytes :=
  match s with
  | [] => [[]]
  | c :: s' =>
      if Ascii.eqb c SPACE then [] :: split_space s'
      else match split_space s' with
           | w :: ws => (c :: w) :: ws
           | [] => [[c]]
           end
  end.

(** The text behind the last dot of the URI. *)
Definition uri_extension (uri : string) : option bytes :=
  option_map (fun i => drop (S i) (str uri)) (strrchr (str uri) "."%char).

Definition comma_free (s : bytes) : bool :=
  forallb (fun c => negb (Ascii.eqb c ","%char)) s.

(** The extension is one of the words of the pattern; an empty extension
    counts as listed when the pattern starts with a space. *)
Definition listed_extension (ext pattern : bytes) : bool :=
  match ext with
  | [] => match pattern with
          | c :: _ => Ascii.eqb c SPACE
          | [] => false
          end
  | _ :: _ => existsb (bytes_eqb ext) (split_space pattern)
  end.

(** The request asks for FLV: by the extension [flv] or by a query
    parameter [type] of [.flv] or [.fla]. *)
Definition wants_flv (queryvars : http_parser_t) (uri : string) : bool :=
  match uri_extension uri with
  | Some e => bytes_eqb e (str "flv")
  | None => false
  end
  || match queryvars !! "type"%string with
     | Some t => String.eqb t ".flv" || String.eqb t ".fla"
     | None => false
     end.

Definition is_peer_sock_close (e : accept_event) : bool :=
  match e with
  | peer_sock_close _ => true
  | _ => false
  end.

(** The globals as [accept_client] sees them once [wait_for_serversock] has
    returned. *)
Definition polled_global (st : accept_state) (r : accept_reply) : global.t :=
  snd (fst (wait_for_serversock (a_global st) (a_poll r))).

Definition polled_sock (st : accept_state) (r : accept_reply) : sock_t :=
  fst (fst (wait_for_serversock (a_global st) (a_poll r))).

Definition polled_calls (st : accept_state) (r : accept_reply) : list accept_event :=
  map listen_call (snd (wait_for_serversock (a_global st) (a_poll r))).

(** The socket was prepared: [sock_set_blocking] answered 0 and one of
    [sock_set_cork] and [sock_set_nodelay] did not fail. *)
Definition tcp_options_set (r : accept_reply) : bool :=
  negb (c_true (a_set_blocking r)
        || ((a_set_cork r <? 0) && c_true (a_set_nodelay r))).

(* --------------------------------------------------------------------- *)
(** ** Sample requests and peers                                          *)
(* --------------------------------------------------------------------- *)

Definition demo_forwarded : http_parser_t :=
  {[ "x-forwarded-for"%string := "203.0.113.7, 10.0.0.1"%string ]}.

(** Port 8000 for listeners (descriptor 7) and the legacy port 8001
    (descriptor 9). *)
Definition demo_legacy_global : global.t :=
  global.mk (Some [7; 9]) (Some [demo_port 8000; demo_listener]) 2.

(** A peer connects to the legacy port and is accepted on descriptor 12 at
    second 100. *)
Definition demo_accept (addr : string) : accept_reply :=
  {| a_poll := {| poll_ret := 1; poll_revents := [0; POLLIN] |};
     a_accept := (12, addr); a_recoverable := true; a_time := 100;
     a_set_blocking := 0; a_set_cork := 0; a_set_nodelay := 0; a_calloc := true |}.

Definition demo_accept_state : accept_state :=
  {| a_global := demo_legacy_global; a_bans := demo_bans_one; a_current_id := 41 |}.

(** A ban file that never changes and an allow list that lets everyone in. *)
Definition keep_cache (c : cache_file_contents) (now : Z) : cache_file_contents := c.
Definition all_allowed (ip : string) (now : Z) : Z := 1.

Definition demo_accepted : client_t :=
  {| connection := mkCon false 0 false 0;
     shared_data := Some (mkRefbuf [] None); refbuf := None; pos := 0;
     ops := shoutcast_source_ops; respcode := 0; schedule_ms := 0; counter := 0;
     server_conn := demo_listener |}.

(* ===================================================================== *)
(** * Part II: properties                                                 *)
(* ===================================================================== *)

(* --------------------------------------------------------------------- *)
(** ** Vector write                                                       *)
(* --------------------------------------------------------------------- *)

Lemma sum_len_app (a b : list IOVEC) : sum_len (a ++ b) = sum_len a + sum_len b.
Proof. induction a as [|x a IH]; simpl; [reflexivity | rewrite IH; lia]. Qed.

Lemma sum_len_nonneg (l : list IOVEC) :
  Forall (fun io => 0 <= iov_len io) l -> 0 <= sum_len l.
Proof. induction 1 as [|x l Hx _ IH]; simpl; lia. Qed.

Lemma bufs_wf_parts (v : connection_bufs) :
  bufs_wf v = true ->
  (count v <= length (block v))%nat /\
  Forall (fun io => 0 <= iov_len io) (take (count v) (block v)) /\
  total v = sum_len (take (count v) (block v)) /\
  total v <= 2147483647.
Proof.
  unfold bufs_wf. rewrite !andb_true_iff.
  intros [[[[H0 H1] H2] H3] H4].
  apply Nat.eqb_eq in H0. apply Nat.leb_le in H1.
  apply Z.eqb_eq in H3. apply Z.leb_le in H4.
  repeat split; try assumption; try lia.
  apply List.Forall_forall. intros io Hin.
  rewrite forallb_forall in H2. specialize (H2 io Hin).
  apply andb_true_iff in H2 as [H2 _]. apply Z.leb_le in H2. exact H2.
Qed.

Lemma connection_bufs_flush_wf (v : connection_bufs) :
  (length (block v) = max v)%nat -> bufs_wf (connection_bufs_flush v) = true.
Proof.
  intros Hlen. unfold bufs_wf, connection_bufs_flush. cbn.
  rewrite Hlen, Nat.eqb_refl. reflexivity.
Qed.

(** [connection_bufs_append] keeps buffers well formed as long as the total
    stays within a C [int]. *)
Lemma connection_bufs_append_wf (v v' : connection_bufs) (buf len t : Z) :
  bufs_wf v = true -> 0 <= len -> total v + len <= 2147483647 ->
  connection_bufs_append v buf len = Returned (t, v') ->
  bufs_wf v' = true /\ t = total v + len.
Proof.
  unfold bufs_wf at 1. rewrite !andb_true_iff.
  intros [[[[H0 H1] H2] H3] H4] Hlen Hsum.
  apply Nat.eqb_eq in H0. apply Nat.leb_le in H1.
  apply Z.eqb_eq in H3.
  unfold connection_bufs_append.
  destruct (Z.gtb_spec len 16777215) as [|Hbound]; [discriminate|].
  set (grown := take (max v + 16) (block v ++ replicate 16 (mkIOVEC 0 0))).
  assert (Hgrown : length grown = (max v + 16)%nat).
  { subst grown. rewrite length_take, length_app, length_replicate. lia. }
  assert (Hsame : take (count v) grown = take (count v) (block v)).
  { subst grown. rewrite take_take, Nat.min_l by lia.
    apply take_app_le. lia. }
  destruct (Nat.leb_spec (max v) (count v)) as [Hfull|Hroom];
    intros Hret; inversion Hret; subst t v'; clear Hret;
    (split; [|reflexivity]); unfold bufs_wf; cbn [count max total block].
  - rewrite length_insert, Hgrown, Nat.eqb_refl.
    replace (S (count v) <=? max v + 16)%nat with true
      by (symmetry; apply Nat.leb_le; lia).
    rewrite (take_S_r _ _ (mkIOVEC buf len))
      by (apply list_lookup_insert_eq; lia).
    rewrite take_insert_ge, Hsame by lia.
    rewrite forallb_app, H2, sum_len_app, <- H3. cbn.
    repeat (apply andb_true_iff; split); try reflexivity;
      try (apply Z.leb_le; lia); apply Z.eqb_eq; lia.
  - rewrite length_insert, H0, Nat.eqb_refl.
    replace (S (count v) <=? max v)%nat with true
      by (symmetry; apply Nat.leb_le; lia).
    rewrite (take_S_r _ _ (mkIOVEC buf len))
      by (apply list_lookup_insert_eq; lia).
    rewrite take_insert_ge by lia.
    rewrite forallb_app, H2, sum_len_app, <- H3. cbn.
    repeat (apply andb_true_iff; split); try reflexivity;
      try (apply Z.leb_le; lia); apply Z.eqb_eq; lia.
Qed.

(** Splitting the slots in use around slot [q]. *)
Lemma take_split_at (blk : list IOVEC) (c q : nat) (v : IOVEC) :
  blk !! q = Some v -> (q < c)%nat ->
  take c blk = take q blk ++ v :: take (c - S q) (drop (S q) blk).
Proof.
  intros Hq Hc.
  rewrite <- (take_drop_middle blk q v Hq) at 1.
  assert (Hlen : length (take q blk) = q).
  { rewrite length_take. apply lookup_lt_Some in Hq. lia. }
  replace c with (length (take q blk) + S (c - S q))%nat at 1 by lia.
  rewrite take_app_add'; [|reflexivity]. reflexivity.
Qed.

Lemma locate_loop_spec (blk : list IOVEC) (skip : Z) :
  forall i p sum q off,
    locate_loop blk i p sum skip = Some (q, off) ->
    sum <= skip ->
    exists v,
      blk !! q = Some v /\ (p <= q < p + i)%nat /\
      0 <= off < iov_len v /\
      off = skip - (sum + sum_len (take (q - p) (drop p blk))).
Proof.
  induction i as [|i IH]; intros p sum q off H Hsum; simpl in H; [discriminate|].
  destruct (blk !! p) as [v|] eqn:Hp; [|discriminate].
  destruct (sum + iov_len v >? skip) eqn:Hgt.
  - inversion H; subst q off. exists v. rewrite Nat.sub_diag. simpl.
    apply Z.gtb_lt in Hgt. repeat split; try lia. assumption.
  - assert (Hle : sum + iov_len v <= skip).
    { destruct (Z.gtb_spec (sum + iov_len v) skip); [discriminate | lia]. }
    destruct (IH _ _ _ _ H Hle) as (w & Hq & Hrange & Hoff & Heq).
    exists w. repeat split; try lia; try assumption.
    rewrite Heq.
    replace (q - p)%nat with (S (q - S p)) by lia.
    rewrite (drop_S blk v p Hp). simpl. lia.
Qed.

(** While [skip] is below [total] the scan finds a vector. *)
Lemma locate_loop_finds (blk : list IOVEC) (skip : Z) :
  forall i p sum,
    (p + i <= length blk)%nat ->
    sum <= skip < sum + sum_len (take i (drop p blk)) ->
    exists q off, locate_loop blk i p sum skip = Some (q, off).
Proof.
  induction i as [|i IH]; intros p sum Hlen Hlt; simpl.
  - rewrite take_0 in Hlt. simpl in Hlt. lia.
  - destruct (lookup_lt_is_Some_2 blk p) as [v Hp]; [lia|].
    rewrite Hp. destruct (Z.gtb_spec (sum + iov_len v) skip) as [Hgt|Hle]; [eauto|].
    apply IH; [lia|].
    rewrite (drop_S blk v p Hp) in Hlt. simpl in Hlt. lia.
Qed.

(** The TLS loop never adds more than it was offered. *)
Lemma ssl_loop_bound (tr : transport) :
  (forall k io, fst (SSL_write tr k io) <= iov_len io) ->
  forall ios k bytes con,
    Forall (fun io => 0 <= iov_len io) ios ->
    fst (ssl_loop tr k ios bytes con) <= bytes + sum_len ios.
Proof.
  intros Hb. induction ios as [|io rest IH]; intros k bytes con Hwf; simpl.
  - lia.
  - inversion Hwf as [|? ? Hio Hrest]; subst.
    pose proof (sum_len_nonneg rest Hrest) as Hnn.
    pose proof (Hb k io) as Hk.
    destruct (SSL_write tr k io) as [b code]; simpl in Hk.
    assert (Hv : fst (connection_send_ssl con (b, code)) <= iov_len io).
    { destruct code; simpl; lia. }
    destruct (connection_send_ssl con (b, code)) as [v con']; simpl in Hv.
    destruct (v >? 0) eqn:Hpos;
      destruct ((v <? 0) || (v <? iov_len io)); simpl;
      try (specialize (IH (S k) (if v >? 0 then bytes + v else bytes) con' Hrest);
           rewrite Hpos in IH); lia.
Qed.

(** The slots offered to the transport once slot [q] holds [w']. *)
Lemma residual_insert (blk : list IOVEC) (c q : nat) (w w' : IOVEC) :
  blk !! q = Some w -> (q < c)%nat ->
  take (c - q) (drop q (<[q := w']> blk)) = w' :: take (c - S q) (drop (S q) blk).
Proof.
  intros Hq Hc.
  assert (Hq' : (<[q := w']> blk) !! q = Some w').
  { apply list_lookup_insert_eq. eapply lookup_lt_Some; eassumption. }
  rewrite (drop_S _ _ _ Hq').
  replace (c - q)%nat with (S (c - S q)) by lia. simpl.
  rewrite drop_insert_lt by lia. reflexivity.
Qed.

Lemma insert_back (blk : list IOVEC) (q : nat) (w w' : IOVEC) :
  blk !! q = Some w -> <[q := w]> (<[q := w']> blk) = blk.
Proof.
  intros Hq. rewrite list_insert_insert_eq. apply list_insert_id. exact Hq.
Qed.

(** [connbufs_locate_start] on well-formed buffers: either [skip] is not
    below [total] and nothing changes, or slot [q] holds byte [skip] at
    offset [off] and is spliced exactly when [off] is not zero. *)
Lemma connbufs_locate_start_spec (v : connection_bufs) (skip : Z) :
  bufs_wf v = true -> 0 <= skip ->
  (total v <= skip /\ connbufs_locate_start v skip None 0 = (-1, v, None, 0)) \/
  (exists q w off,
      skip < total v /\ (q < count v)%nat /\ block v !! q = Some w /\
      0 <= off < iov_len w /\
      off = skip - sum_len (take q (block v)) /\
      connbufs_locate_start v skip None 0 =
        (if off =? 0 then (Z.of_nat q, v, None, off)
         else (Z.of_nat q,
               {| count := count v; max := max v; total := total v;
                  block := <[q := mkIOVEC (iov_base w + off) (iov_len w - off)]> (block v) |},
               Some w, off))).
Proof.
  intros Hwf Hskip. unfold connbufs_locate_start.
  destruct (Z.ltb_spec skip (total v)) as [Hlt|Hge]; [right | left; split; [lia | reflexivity]].
  destruct (bufs_wf_parts v Hwf) as (Hcnt & Hlens & Htot & _).
  destruct (locate_loop_finds (block v) skip (count v) 0 0) as (q & off & Hloc).
  { lia. }
  { rewrite drop_0. lia. }
  rewrite Hloc.
  destruct (locate_loop_spec _ _ _ _ _ _ _ Hloc Hskip) as (w & Hq & Hrange & Hoff & Heq).
  rewrite Nat.sub_0_r, drop_0 in Heq. rewrite Hq.
  exists q, w, off. repeat split; try lia; try assumption.
Qed.


Lemma bufs_transmit_bound (tr : transport) (con : connection_t)
    (residual : list IOVEC) :
  transport_bounded tr ->
  Forall (fun io => 0 <= iov_len io) residual ->
  0 <= fst (bufs_transmit tr con residual) ->
  fst (bufs_transmit tr con residual) <= sum_len residual.
Proof.
  intros [Hw Hs] Hlens. unfold bufs_transmit.
  destruct (not_ssl_connection con); simpl.
  - intros _. apply Hw.
  - pose proof (ssl_loop_bound tr Hs residual 0%nat 0 con Hlens) as Hb.
    destruct (ssl_loop tr 0 residual 0 con) as [bytes con']; simpl in *.
    destruct (bytes >? 0); simpl; lia.
Qed.

(** What is offered to the transport is what lies after [skip]. *)
Lemma residual_sum (v : connection_bufs) (q : nat) (w w' : IOVEC) (skip : Z) :
  bufs_wf v = true -> (q < count v)%nat -> block v !! q = Some w ->
  iov_len w' = iov_len w - (skip - sum_len (take q (block v))) ->
  0 <= iov_len w' ->
  let residual := take (count v - q) (drop q (<[q := w']> (block v))) in
  sum_len residual = total v - skip /\ Forall (fun io => 0 <= iov_len io) residual.
Proof.
  intros Hwf Hq Hw Hlen Hpos residual.
  destruct (bufs_wf_parts v Hwf) as (Hcnt & Hlens & Htot & _).
  subst residual. rewrite (residual_insert _ _ _ w w' Hw Hq).
  rewrite (take_split_at _ _ _ _ Hw Hq) in Htot, Hlens.
  rewrite sum_len_app in Htot. simpl in Htot. simpl.
  split; [lia|].
  apply Forall_app in Hlens as [_ Hlens]. inversion Hlens; subst.
  constructor; assumption.
Qed.

(** C6. A vector write on well-formed buffers with [0 <= skip <= total],
    over a transport that never reports more than it was offered, returns
    (it does not abort); the buffers it leaves behind are the buffers it was
    given, so a first vector spliced to start mid-vector has its base and
    length back; and a result [n >= 0] satisfies [skip + n <= ] the sum of
    the lengths of the vectors in use. *)
Theorem connection_bufs_send_within_total (tr : transport) (con : connection_t)
    (v : connection_bufs) (skip : Z) :
  bufs_wf v = true ->
  0 <= skip <= total v ->
  transport_bounded tr ->
  exists n con',
    connection_bufs_send tr con v skip = Returned (n, con', v) /\
    (0 <= n -> skip + n <= sum_len (take (count v) (block v))).
Proof.
  intros Hwf [Hskip Hle] Htr.
  destruct (bufs_wf_parts v Hwf) as (Hcnt & Hlens & Htot & _).
  unfold connection_bufs_send.
  destruct (Z.gtb_spec skip (total v)) as [Hgt|_]; [lia|].
  destruct (connbufs_locate_start_spec v skip Hwf Hskip)
    as [[Hge Heq] | (q & w & off & Hlt & Hq & Hw & Hoff & Hoffeq & Heq)];
    rewrite Heq.
  - simpl. exists (-1), con. split; [reflexivity | lia].
  - destruct (Z.eqb_spec off 0) as [H0|Hn0].
    + (* byte [skip] is the first byte of slot [q]: nothing is spliced *)
      assert (Hpos : (0 <=? Z.of_nat q) = true) by (apply Z.leb_le; lia).
      rewrite Hpos, Nat2Z.id.
      destruct (residual_sum v q w w skip Hwf Hq Hw ltac:(lia) ltac:(lia))
        as [Hsum Hres].
      rewrite (list_insert_id _ _ _ Hw) in Hsum, Hres.
      pose proof (bufs_transmit_bound tr con _ Htr Hres) as Hb.
      destruct (bufs_transmit tr con _) as [ret con1]; simpl in Hb.
      rewrite H0. simpl.
      eexists _, _. split; [reflexivity|]. intros Hn. specialize (Hb Hn). lia.
    + (* slot [q] is spliced for the write and restored after it *)
      assert (Hpos : (0 <=? Z.of_nat q) = true) by (apply Z.leb_le; lia).
      rewrite Hpos, Nat2Z.id. simpl count. simpl block.
      set (w' := mkIOVEC (iov_base w + off) (iov_len w - off)).
      destruct (residual_sum v q w w' skip Hwf Hq Hw ltac:(simpl; lia) ltac:(simpl; lia))
        as [Hsum Hres].
      pose proof (bufs_transmit_bound tr con _ Htr Hres) as Hb.
      destruct (bufs_transmit tr con _) as [ret con1]; simpl in Hb.
      destruct (Z.eqb_spec off 0) as [?|_]; [contradiction|].
      simpl. rewrite (insert_back _ _ w w' Hw).
      eexists _, _. split; [destruct v; reflexivity|].
      intros Hn. specialize (Hb Hn). lia.
Qed.

Lemma connection_bufs_send_within_total_witness :
  exists n con',
    connection_bufs_send demo_plain (mkCon false 0 false 0) demo_bufs 4
      = Returned (n, con', demo_bufs) /\
    (0 <= n -> 4 + n <= sum_len (take (count demo_bufs) (block demo_bufs))).
Proof.
  apply (connection_bufs_send_within_total demo_plain (mkCon false 0 false 0) demo_bufs 4).
  - reflexivity.
  - simpl; lia.
  - split; simpl; intros; lia.
Defined.

(** Every byte the TLS loop reports has already been added to [sent_bytes]
    by [connection_send_ssl]. *)
Lemma ssl_loop_sent (tr : transport) :
  ssl_counts_nonneg tr ->
  forall ios k bytes con,
    sent_bytes (snd (ssl_loop tr k ios bytes con)) - sent_bytes con
    = fst (ssl_loop tr k ios bytes con) - bytes.
Proof.
  intros Hnn. induction ios as [|io rest IH]; intros k bytes con; simpl.
  - lia.
  - pose proof (Hnn k io) as Hk.
    destruct (SSL_write tr k io) as [b code]; simpl in Hk.
    assert (Hstep : forall c1 : connection_t,
               sent_bytes (snd (ssl_loop tr (S k) rest bytes c1)) - sent_bytes c1
               = fst (ssl_loop tr (S k) rest bytes c1) - bytes) by (intros; apply IH).
    destruct code; simpl;
      try (assert (0 <= b) by (apply Hk; auto));
      try destruct (Z.gtb_spec b 0);
      try destruct ((b <? 0) || (b <? iov_len io));
      try destruct ((-1 <? iov_len io)); simpl;
      try (specialize (IH (S k) (bytes + b) (add_sent con b)); simpl in IH);
      try (specialize (Hstep (add_sent con b)); simpl in Hstep);
      lia.
Qed.

(** C9. A vector write that returns [n > 0] adds [2 * n] to [sent_bytes] on
    a TLS connection (each chunk is counted in [connection_send_ssl] and the
    total is added again at the end) and [n] on a plain connection. The TLS
    case assumes that a write reporting success reports no negative count. *)
Theorem connection_bufs_send_counts_tls_twice (tr : transport)
    (con con' : connection_t) (v v' : connection_bufs) (skip n : Z) :
  connection_bufs_send tr con v skip = Returned (n, con', v') ->
  0 < n ->
  (ssl con = true -> ssl_counts_nonneg tr) ->
  sent_bytes con' = sent_bytes con + (if ssl con then 2 * n else n).
Proof.
  unfold connection_bufs_send. intros Hsend Hn Hnn.
  destruct (skip >? total v); [discriminate|].
  destruct (connbufs_locate_start v skip None 0) as [[[i v1] old] off].
  destruct (0 <=? i); [|inversion Hsend; lia].
  unfold bufs_transmit, not_ssl_connection in Hsend.
  destruct (ssl con) eqn:Hssl; simpl in Hsend.
  - pose proof (ssl_loop_sent tr (Hnn eq_refl)
                  (take (count v1 - Z.to_nat i) (drop (Z.to_nat i) (block v1)))
                  0%nat 0 con) as Hloop.
    destruct (ssl_loop tr 0 _ 0 con) as [bytes c1]; simpl in Hloop.
    destruct (Z.gtb_spec bytes 0) as [Hb|Hb].
    + destruct (Z.gtb_spec bytes 0) as [_|?]; [|lia].
      inversion Hsend; subst. simpl. lia.
    + simpl in Hsend. inversion Hsend; lia.
  - destruct (Z.gtb_spec (sock_writev tr
                (take (count v1 - Z.to_nat i) (drop (Z.to_nat i) (block v1)))) 0)
      as [Hb|Hb]; inversion Hsend; subst; [|lia].
    destruct (Z.ltb_spec (sock_writev tr
                (take (count v1 - Z.to_nat i) (drop (Z.to_nat i) (block v1)))) 0);
      [lia|]. simpl. reflexivity.
Qed.

Lemma connection_bufs_send_counts_tls_twice_witness :
  connection_bufs_send demo_tls (mkCon true 100 false 0) demo_bufs 4
    = Returned (4, (mkCon true 108 false 0), demo_bufs) /\
  sent_bytes (mkCon true 108 false 0) = 100 + 2 * 4.
Proof.
  split; [reflexivity|].
  apply (connection_bufs_send_counts_tls_twice demo_tls (mkCon true 100 false 0)
           (mkCon true 108 false 0) demo_bufs demo_bufs 4 4).
  - reflexivity.
  - lia.
  - intros _ k io _. simpl. lia.
Defined.

Example connection_bufs_send_plain_counts_once :
  connection_bufs_send demo_plain (mkCon false 100 false 0) demo_bufs 4
    = Returned (11, (mkCon false 111 false 0), demo_bufs).
Proof. reflexivity. Qed.

(* --------------------------------------------------------------------- *)
(** ** Base64                                                             *)
(* --------------------------------------------------------------------- *)

Example base64_source_hackme :
  util_base64_encode (str "source:hackme") = str "c291cmNlOmhhY2ttZQ==".
Proof. reflexivity. Qed.

Lemma byte_val_range (c : ascii) : 0 <= byte_val c < 256.
Proof.
  unfold byte_val. pose proof (N_ascii_bounded c) as H. lia.
Qed.

Lemma byte_of_val (c : ascii) : byte_of (byte_val c) = c.
Proof.
  unfold byte_of, byte_val. rewrite N2Z.id. apply ascii_N_embedding.
Qed.

Lemma base64_value_digit (n : Z) :
  0 <= n < 64 -> base64_value (base64_digit n) = Some n.
Proof.
  intros Hn.
  assert (Hall : forallb (fun k => match base64_value (base64_digit (Z.of_nat k)) with
                                   | Some m => m =? Z.of_nat k
                                   | None => false
                                   end) (seq 0 64) = true) by (vm_compute; reflexivity).
  rewrite forallb_forall in Hall.
  specialize (Hall (Z.to_nat n)).
  rewrite Z2Nat.id in Hall by lia.
  destruct (base64_value (base64_digit n)) as [m|].
  - f_equal. apply Z.eqb_eq. apply Hall. apply in_seq. lia.
  - discriminate Hall. apply in_seq. lia.
Qed.

Lemma base64_digit_not_pad (n : Z) : 0 <= n < 64 -> is_pad (base64_digit n) = false.
Proof.
  intros Hn.
  assert (Hall : forallb (fun k => negb (is_pad (base64_digit (Z.of_nat k)))) (seq 0 64) = true)
    by (vm_compute; reflexivity).
  rewrite forallb_forall in Hall.
  specialize (Hall (Z.to_nat n)).
  rewrite Z2Nat.id in Hall by lia.
  apply negb_true_iff, Hall, in_seq. lia.
Qed.

Lemma list_ind3 {A : Type} (P : list A -> Prop) :
  P [] -> (forall a, P [a]) -> (forall a b, P [a; b]) ->
  (forall a b c l, P l -> P (a :: b :: c :: l)) ->
  forall l, P l.
Proof.
  intros H0 H1 H2 H3 l.
  enough (H : P l /\ (forall a, P (a :: l)) /\ (forall a b, P (a :: b :: l))) by apply H.
  induction l as [|x l (IH0 & IH1 & IH2)]; [auto|].
  repeat split; auto.
Qed.

Ltac b64_digits :=
  repeat (rewrite base64_value_digit by (Z.div_mod_to_equations; lia));
  repeat (rewrite base64_digit_not_pad by (Z.div_mod_to_equations; lia)).

Lemma byte_of_eq (c : ascii) (z : Z) : z = byte_val c -> byte_of z = c.
Proof. intros ->. apply byte_of_val. Qed.

Ltac b64_byte c :=
  rewrite (byte_of_eq c) by (Z.div_mod_to_equations; lia).

(** Decoding undoes encoding. *)
Lemma util_base64_decode_encode (data : bytes) :
  util_base64_decode (util_base64_encode data) = Some data.
Proof.
  induction data as [| a | a b | a b c rest IH] using list_ind3.
  - reflexivity.
  - pose proof (byte_val_range a) as Ha.
    cbn [util_base64_encode util_base64_decode].
    b64_digits. simpl. b64_byte a. reflexivity.
  - pose proof (byte_val_range a) as Ha. pose proof (byte_val_range b) as Hb.
    cbn [util_base64_encode util_base64_decode].
    b64_digits. simpl. b64_byte a. b64_byte b. reflexivity.
  - pose proof (byte_val_range a) as Ha. pose proof (byte_val_range b) as Hb.
    pose proof (byte_val_range c) as Hc.
    cbn [util_base64_encode util_base64_decode].
    b64_digits. simpl. rewrite IH.
    b64_byte a. b64_byte b. b64_byte c. reflexivity.
Qed.

(* --------------------------------------------------------------------- *)
(** ** Request preamble reader                                            *)
(* --------------------------------------------------------------------- *)

(** C7. When a call of [http_client_request] reads, the read comes back
    negative and the connection's error flag is clear, the call returns [0]
    (the client is rescheduled, not dropped); the delay added to the worker's
    clock is at least 6 and at most 206 ms; and for a counter not ahead of
    that clock, [schedule_ms = now + 6 + min ((now - counter) / 2, 200)]. *)
Theorem http_client_request_would_block (B : Z) (e : invocation) (client : client_t) :
  http_client_request_reads B e client = true ->
  rd_ret (rd e) < 0 ->
  error (connection client) = false -> rd_error (rd e) = false ->
  0 <= time_ms e -> time_ms e + 206 < 2 ^ 64 ->
  exists c',
    http_client_request B e client = Done 0 c' /\
    6 <= schedule_ms c' - time_ms e <= 206 /\
    (0 <= counter client <= time_ms e ->
     schedule_ms c' = time_ms e + 6 + Z.min ((time_ms e - counter client) / 2) 200).
Proof.
  unfold http_client_request_reads, http_client_request.
  intros Hreads Hret Herr Hrd Hnow0 Hnow.
  apply andb_true_iff in Hreads as [Hreads Hdl].
  apply andb_true_iff in Hreads as [Hrun Hrem].
  rewrite Hrun. cbn [negb connection with_shared_data].
  rewrite Hrem, Hdl. cbn [andb].
  destruct (Z.gtb_spec (rd_ret (rd e)) 0) as [?|_]; [lia|].
  destruct (Z.eqb_spec (rd_ret (rd e)) 0) as [?|_]; [lia|].
  unfold latch_error. rewrite Hrd. cbn [connection with_shared_data].
  rewrite Herr. cbn [negb andb counter].
  eexists. split; [reflexivity|].
  cbn [schedule_ms with_schedule_ms counter with_shared_data].
  unfold u64. rewrite Z.shiftr_div_pow2 by lia. change (2 ^ 1) with 2.
  pose proof (Z.mod_pos_bound (time_ms e - counter client) (2 ^ 64) ltac:(lia)) as Hmod.
  pose proof (Z.div_pos ((time_ms e - counter client) mod 2 ^ 64) 2
                ltac:(lia) ltac:(lia)) as Hdiv.
  split.
  - destruct (Z.gtb_spec (((time_ms e - counter client) mod 2 ^ 64) / 2) 200);
      rewrite Z.mod_small by lia; lia.
  - intros Hcnt. rewrite (Z.mod_small (time_ms e - counter client)) in * by lia.
    destruct (Z.gtb_spec ((time_ms e - counter client) / 2) 200);
      rewrite Z.mod_small by lia; lia.
Qed.

Lemma http_client_request_would_block_witness :
  exists c',
    http_client_request 4096 (would_block_at 5100) (demo_client http_request_ops)
      = Done 0 c' /\
    6 <= schedule_ms c' - 5100 <= 206 /\
    (0 <= 5000 <= 5100 -> schedule_ms c' = 5100 + 6 + Z.min ((5100 - 5000) / 2) 200).
Proof.
  apply (http_client_request_would_block 4096 (would_block_at 5100)
           (demo_client http_request_ops)).
  - reflexivity.
  - simpl; lia.
  - reflexivity.
  - reflexivity.
  - simpl; lia.
  - simpl; lia.
Defined.

(* --------------------------------------------------------------------- *)
(** ** Credential check                                                   *)
(* --------------------------------------------------------------------- *)

(** C10. With no source password configured (a NULL [pass]),
    [connection_check_pass] returns [-1] for every request and every user
    without asking the parser for any variable; [-1] is neither of the
    documented results [0] and [1], and a caller that tests the result for
    non-zero takes the branch for success. *)
Theorem connection_check_pass_null_password (proto icy : string)
    (ice_login : bool) (parser : http_parser_t) (user : string) :
  connection_check_pass proto icy ice_login parser user None = (-1, []) /\
  fst (connection_check_pass proto icy ice_login parser user None) <> 0 /\
  fst (connection_check_pass proto icy ice_login parser user None) <> 1 /\
  c_true (fst (connection_check_pass proto icy ice_login parser user None)) = true.
Proof. repeat split; simpl; discriminate. Qed.

(** Case analysis on the innermost scrutinee first. *)
Ltac split_matches :=
  repeat match goal with
         | |- context [match ?x with _ => _ end] =>
             lazymatch x with
             | context [match _ with _ => _ end] => fail
             | _ => destruct x; simpl; auto
             end
         end.

(** With a password configured the documented results are the only ones. *)
Lemma connection_check_pass_documented (proto icy : string) (ice_login : bool)
    (parser : http_parser_t) (user pass : string) :
  let r := fst (connection_check_pass proto icy ice_login parser user (Some pass)) in
  r = 0 \/ r = 1.
Proof.
  assert (Hhttp : fst (_check_pass_http parser user pass) = 0
                  \/ fst (_check_pass_http parser user pass) = 1).
  { unfold _check_pass_http, httpp_getvar, bind_, ret_. split_matches. }
  assert (Hicy : fst (_check_pass_icy icy parser pass) = 0
                 \/ fst (_check_pass_icy icy parser pass) = 1).
  { unfold _check_pass_icy, httpp_getvar, bind_, ret_. split_matches. }
  assert (Hice : fst (_check_pass_ice parser pass) = 0
                 \/ fst (_check_pass_ice parser pass) = 1).
  { unfold _check_pass_ice, httpp_getvar, bind_, ret_. split_matches. }
  simpl. unfold connection_check_pass, bind_, httpp_getvar.
  destruct (match parser !! proto with Some p => String.eqb p "ICY" | None => false end).
  - destruct (_check_pass_icy icy parser pass); simpl in *; assumption.
  - destruct (_check_pass_http parser user pass) as [r l]; simpl in Hhttp.
    destruct ((r =? 0) && ice_login).
    + destruct (_check_pass_ice parser pass); simpl in *; assumption.
    + simpl. assumption.
Qed.

(* --------------------------------------------------------------------- *)
(** ** Listen-socket manager                                              *)
(* --------------------------------------------------------------------- *)

Lemma find_listener_existsb (ls : list listener_t) (open : listener_t) :
  match find_listener ls open with Some _ => true | None => false end
  = existsb (fun l => (port l =? port open)
                      && String.eqb (bind_or_empty l) (bind_or_empty open)) ls.
Proof.
  induction ls as [|l ls IH]; simpl; [reflexivity|].
  destruct ((port l =? port open) && String.eqb (bind_or_empty l) (bind_or_empty open));
    simpl; [reflexivity | exact IH].
Qed.

(** What the code decides for an open listener when a config is supplied
    and [all_sockets] is 0 is the specification's condition. *)
Lemma kept_iff_stays_open (cfg : ice_config_t) (open : listener_t) :
  match (if (0 =? 0) && (port open <? 1024)
         then find_listener (listen_sock cfg) open else None) with
  | Some _ => true
  | None => false
  end = stays_open cfg open.
Proof.
  unfold stays_open. simpl. destruct (port open <? 1024); simpl; [|reflexivity].
  apply find_listener_existsb.
Qed.

Lemma stays_open_iff (cfg : ice_config_t) (open : listener_t) :
  stays_open cfg open = true <->
  port open < 1024 /\
  exists l, In l (listen_sock cfg) /\ port l = port open /\
            bind_or_empty l = bind_or_empty open.
Proof.
  unfold stays_open. rewrite andb_true_iff, Z.ltb_lt, existsb_exists.
  split; intros [Hp (l & Hin & Hl)]; split; try assumption; exists l; split; try assumption.
  - apply andb_true_iff in Hl as [H1 H2].
    apply Z.eqb_eq in H1. apply String.eqb_eq in H2. auto.
  - destruct Hl as [H1 H2]. apply andb_true_iff. split.
    + apply Z.eqb_eq; assumption.
    + apply String.eqb_eq; assumption.
Qed.

Lemma closings_app (a b : list (sock_t * listener_t)) :
  closings (a ++ b) = closings a ++ closings b.
Proof. unfold closings. apply flat_map_app. Qed.

(** The loop invariant, stated for the iterations still to run: the slots
    from [old] on are compacted behind the [new] slots already kept. *)
Lemma close_loop_spec (cfg : ice_config_t) :
  forall k old new socks conns nsocks evs,
    (new <= old)%nat ->
    (old + k <= length socks)%nat -> (old + k <= length conns)%nat ->
    let rest := combine (take k (drop old socks)) (take k (drop old conns)) in
    exists socks' conns',
      close_loop (Some cfg) 0 k old new socks conns nsocks evs
      = ((new + length (kept_of cfg rest))%nat, socks', conns',
         nsocks - Z.of_nat (length (gone_of cfg rest)),
         evs ++ closings (gone_of cfg rest)) /\
      take (new + length (kept_of cfg rest)) socks'
      = take new socks ++ map fst (kept_of cfg rest) /\
      take (new + length (kept_of cfg rest)) conns'
      = take new conns ++ map snd (kept_of cfg rest).
Proof.
  induction k as [|k IH]; intros old new socks conns nsocks evs Hnew Hs Hc rest.
  - subst rest. simpl. exists socks, conns.
    rewrite Nat.add_0_r, Z.sub_0_r, !app_nil_r. auto.
  - destruct (lookup_lt_is_Some_2 socks old) as [sock Hsock]; [lia|].
    destruct (lookup_lt_is_Some_2 conns old) as [conn Hconn]; [lia|].
    assert (Hrest : rest = (sock, conn)
                           :: combine (take k (drop (S old) socks))
                                      (take k (drop (S old) conns))).
    { subst rest. rewrite (drop_S _ _ _ Hsock), (drop_S _ _ _ Hconn). reflexivity. }
    cbn [close_loop]. rewrite Hsock, Hconn.
    pose proof (kept_iff_stays_open cfg conn) as Hdec.
    rewrite Hrest. unfold kept_of, gone_of. cbn [List.filter snd].
    destruct (if (0 =? 0) && (port conn <? 1024)
              then find_listener (listen_sock cfg) conn else None) as [l|];
      rewrite <- Hdec; cbn [negb].
    + (* the slot is kept and moves down to index [new] *)
      set (socks1 := if (new <? old)%nat then <[new := sock]> socks else socks).
      set (conns1 := if (new <? old)%nat then <[new := conn]> conns else conns).
      replace (let '(socks1, conns1) :=
                 if (new <? old)%nat
                 then (<[new := sock]> socks, <[new := conn]> conns)
                 else (socks, conns) in
               close_loop (Some cfg) 0 k (S old) (S new) socks1 conns1 nsocks evs)
        with (close_loop (Some cfg) 0 k (S old) (S new) socks1 conns1 nsocks evs)
        by (subst socks1 conns1; destruct (new <? old)%nat; reflexivity).
      assert (Hds : drop (S old) socks1 = drop (S old) socks).
      { subst socks1. destruct (Nat.ltb_spec new old); [|reflexivity].
        apply drop_insert_lt. lia. }
      assert (Hdc : drop (S old) conns1 = drop (S old) conns).
      { subst conns1. destruct (Nat.ltb_spec new old); [|reflexivity].
        apply drop_insert_lt. lia. }
      assert (Hts : take (S new) socks1 = take new socks ++ [sock]).
      { subst socks1. destruct (Nat.ltb_spec new old) as [Hlt|Hge].
        - assert (Hl : (new < length socks)%nat) by lia.
          rewrite (take_S_r (<[new := sock]> socks) new sock)
            by (apply list_lookup_insert_eq; exact Hl).
          rewrite take_insert_ge by lia. reflexivity.
        - assert (new = old) by lia. subst new. apply take_S_r. exact Hsock. }
      assert (Htc : take (S new) conns1 = take new conns ++ [conn]).
      { subst conns1. destruct (Nat.ltb_spec new old) as [Hlt|Hge].
        - assert (Hl : (new < length conns)%nat) by lia.
          rewrite (take_S_r (<[new := conn]> conns) new conn)
            by (apply list_lookup_insert_eq; exact Hl).
          rewrite take_insert_ge by lia. reflexivity.
        - assert (new = old) by lia. subst new. apply take_S_r. exact Hconn. }
      assert (Hls : length socks1 = length socks).
      { subst socks1. destruct (new <? old)%nat; [apply length_insert | reflexivity]. }
      assert (Hlc : length conns1 = length conns).
      { subst conns1. destruct (new <? old)%nat; [apply length_insert | reflexivity]. }
      destruct (IH (S old) (S new) socks1 conns1 nsocks evs)
        as (socks' & conns' & Hrun & Htake_s & Htake_c); try lia.
      rewrite Hds, Hdc in Hrun, Htake_s, Htake_c.
      exists socks', conns'. cbn [length map fst snd].
      replace (new + S _)%nat
        with (S new + length (kept_of cfg (combine (take k (drop (S old) socks))
                                                    (take k (drop (S old) conns)))))%nat
        by (unfold kept_of; lia).
      split; [exact Hrun|].
      rewrite Htake_s, Htake_c, Hts, Htc, <- !app_assoc. auto.
    + (* the slot is closed *)
      destruct (IH (S old) new (<[old := SOCK_ERROR]> socks) conns (nsocks - 1)
                  (evs ++ [sock_close sock; config_clear_listener conn]))
        as (socks' & conns' & Hrun & Htake_s & Htake_c);
        try (rewrite ?length_insert; lia).
      rewrite drop_insert_lt in Hrun, Htake_s, Htake_c by lia.
      rewrite take_insert_ge in Htake_s by lia.
      exists socks', conns'. cbn [length].
      split; [|auto].
      rewrite Hrun. unfold gone_of. f_equal; [f_equal; lia|].
      rewrite <- app_assoc. reflexivity.
Qed.

Lemma combine_fst_snd {A B : Type} (l : list (A * B)) :
  combine (map fst l) (map snd l) = l.
Proof. induction l as [|[a b] l IH]; simpl; [reflexivity | rewrite IH; reflexivity]. Qed.

Lemma kept_gone_length (cfg : ice_config_t) (slots : list (sock_t * listener_t)) :
  (length (kept_of cfg slots) + length (gone_of cfg slots) = length slots)%nat.
Proof.
  unfold kept_of, gone_of. induction slots as [|p slots IH]; simpl; [reflexivity|].
  destruct (stays_open cfg (snd p)); simpl; lia.
Qed.

(** C2. Closing the listen sockets with a config supplied and [all_sockets]
    0: a slot stays exactly when its port is below 1024 and the config has a
    listener with the same port and bind address (NULL read as the empty
    string); the slots in use afterwards are the ones that stay, each with
    its original socket and profile, in their original order from index 0;
    [server_sockets] is their number; and every other slot has its socket
    closed and its profile released, once and in order. *)
Theorem connection_listen_sockets_close_keeps_privileged
    (cfg : ice_config_t) (g : global.t) :
  global_wf g = true ->
  (forall open, stays_open cfg open = true <->
                port open < 1024 /\
                exists l, In l (listen_sock cfg) /\ port l = port open /\
                          bind_or_empty l = bind_or_empty open) /\
  open_slots (fst (connection_listen_sockets_close (Some cfg) 0 g))
  = List.filter (fun p => stays_open cfg (snd p)) (open_slots g) /\
  global.server_sockets (fst (connection_listen_sockets_close (Some cfg) 0 g))
  = Z.of_nat (length (List.filter (fun p => stays_open cfg (snd p)) (open_slots g))) /\
  snd (connection_listen_sockets_close (Some cfg) 0 g)
  = closings (List.filter (fun p => negb (stays_open cfg (snd p))) (open_slots g)).
Proof.
  intros Hwf. split; [apply stays_open_iff|].
  unfold global_wf in Hwf. unfold connection_listen_sockets_close, open_slots.
  destruct g as [[socks|] [conns|] n]; cbn [global.serversock global.server_conn
    global.server_sockets] in *; try discriminate.
  rewrite !andb_true_iff, !Z.leb_le in Hwf. destruct Hwf as [[H0 Hs] Hc].
  destruct (close_loop_spec cfg (Z.to_nat n) 0 0 socks conns n []
              ltac:(lia) ltac:(lia) ltac:(lia))
    as (socks' & conns' & Hrun & Htake_s & Htake_c).
  rewrite !drop_0 in Hrun, Htake_s, Htake_c.
  set (slots := combine (take (Z.to_nat n) socks) (take (Z.to_nat n) conns)) in *.
  fold (kept_of cfg slots). fold (gone_of cfg slots).
  rewrite Hrun. cbn [Nat.add app take] in *.
  pose proof (kept_gone_length cfg slots) as Hlen.
  assert (Hslots : length slots = Z.to_nat n).
  { subst slots. rewrite length_combine, !length_take. lia. }
  assert (Hn : n - Z.of_nat (length (gone_of cfg slots))
               = Z.of_nat (length (kept_of cfg slots))) by lia.
  rewrite Hn.
  destruct (Z.eqb_spec (Z.of_nat (length (kept_of cfg slots))) 0) as [Hz|Hnz];
    cbn [fst snd global.serversock global.server_conn global.server_sockets].
  - destruct (kept_of cfg slots) eqn:Hk; [|simpl in Hz; lia].
    rewrite Hz. simpl. auto.
  - rewrite Nat2Z.id, Htake_s, Htake_c, !take_0. cbn [app].
    rewrite combine_fst_snd. auto.
Qed.

Lemma connection_listen_sockets_close_keeps_privileged_witness :
  open_slots (fst (connection_listen_sockets_close (Some demo_config) 0 demo_global))
  = [(9, demo_port 80)] /\
  snd (connection_listen_sockets_close (Some demo_config) 0 demo_global)
  = [sock_close 7; config_clear_listener (demo_port 8000)].
Proof.
  destruct (connection_listen_sockets_close_keeps_privileged demo_config demo_global)
    as (_ & Hopen & _ & Hclosed).
  - reflexivity.
  - rewrite Hopen, Hclosed. split; reflexivity.
Defined.

(* --------------------------------------------------------------------- *)
(** ** IP access cache                                                    *)
(* --------------------------------------------------------------------- *)

Lemma string_compare_refl (a : string) : String.compare a a = Eq.
Proof.
  induction a as [|c a IH]; simpl; [reflexivity|].
  unfold Ascii.compare. rewrite N.compare_refl. exact IH.
Qed.

Lemma strcmp_eq (a b : string) : strcmp a b = 0 <-> a = b.
Proof.
  unfold strcmp. split.
  - destruct (String.compare a b) eqn:E; try discriminate.
    intros _. apply String.compare_eq_iff. exact E.
  - intros ->. rewrite string_compare_refl. reflexivity.
Qed.

Lemma strcmp_refl (a : string) : strcmp a a = 0.
Proof. apply strcmp_eq. reflexivity. Qed.

Lemma compare_banned_ip_fst (now : Z) (this : string) (that : banned_entry)
    (removal : option banned_entry) :
  fst (compare_banned_ip now this that removal) = strcmp this (ip that).
Proof.
  unfold compare_banned_ip. destruct removal; [reflexivity|].
  destruct (_ && _); reflexivity.
Qed.

Lemma compare_banned_ip_marked (now : Z) (this : string) (that x : banned_entry) :
  snd (compare_banned_ip now this that (Some x)) = Some x.
Proof. reflexivity. Qed.

Lemma compare_banned_ip_marks (now : Z) (this : string) (that m : banned_entry) :
  snd (compare_banned_ip now this that None) = Some m ->
  m = that /\ sweepable now this m.
Proof.
  unfold compare_banned_ip, sweepable.
  destruct (negb (strcmp this (ip that) =? 0)) eqn:Hc; simpl; [|discriminate].
  destruct (negb (timeout that =? 0)) eqn:Ht; simpl; [|discriminate].
  destruct (Z.ltb_spec (timeout that) (now - 60)) as [Hlt|_]; simpl; [|discriminate].
  intros Hm; inversion Hm; subst m.
  apply negb_true_iff in Hc, Ht. apply Z.eqb_neq in Hc, Ht.
  repeat split; try assumption.
  intros Heq. apply Hc. apply strcmp_eq. symmetry. exact Heq.
Qed.

Lemma mark_ok_refl now key l removal : mark_ok now key l removal removal.
Proof. destruct removal; simpl; [reflexivity | discriminate]. Qed.

Lemma mark_ok_step now key l1 k l2 before mid after :
  mid = snd (compare_banned_ip now key k before) ->
  mark_ok now key l2 mid after ->
  (forall x, In x l2 -> In x (l1 ++ k :: l2) ) ->
  incl l2 (l1 ++ k :: l2) ->
  mark_ok now key (l1 ++ k :: l2) before after.
Proof.
  intros Hmid Hafter _ Hincl. destruct before as [x|]; simpl in *.
  - subst mid. simpl in Hafter. exact Hafter.
  - intros m Hm. destruct mid as [y|] eqn:Hy; simpl in Hafter.
    + rewrite Hafter in Hm. inversion Hm; subst y.
      symmetry in Hmid. apply compare_banned_ip_marks in Hmid as [-> Hs].
      split; [|exact Hs]. apply in_or_app. right. left. reflexivity.
    + destruct (Hafter m Hm) as [Hin Hs]. split; [|exact Hs].
      apply Hincl. exact Hin.
Qed.

Lemma mark_ok_left now key l k r before mid after :
  mid = snd (compare_banned_ip now key k before) ->
  mark_ok now key l mid after ->
  mark_ok now key (l ++ k :: r) before after.
Proof.
  intros Hmid Hafter. destruct before as [x|]; simpl in *.
  - subst mid. exact Hafter.
  - intros m Hm. destruct mid as [y|] eqn:Hy; simpl in Hafter.
    + rewrite Hafter in Hm. inversion Hm; subst y.
      symmetry in Hmid. apply compare_banned_ip_marks in Hmid as [-> Hs].
      split; [|exact Hs]. apply in_or_app. right. left. reflexivity.
    + destruct (Hafter m Hm) as [Hin Hs]. split; [|exact Hs].
      apply in_or_app. left. exact Hin.
Qed.

Lemma mark_ok_right now key l k r before mid after :
  mid = snd (compare_banned_ip now key k before) ->
  mark_ok now key r mid after ->
  mark_ok now key (l ++ k :: r) before after.
Proof.
  intros Hmid Hafter.
  apply (mark_ok_step now key l k r before mid after Hmid Hafter).
  - intros x Hx. apply in_or_app. right. right. exact Hx.
  - intros x Hx. apply in_or_app. right. right. exact Hx.
Qed.

Lemma mark_ok_here now key l k r before :
  mark_ok now key (l ++ k :: r) before (snd (compare_banned_ip now key k before)).
Proof.
  apply (mark_ok_left now key l k r before _ _ eq_refl). apply mark_ok_refl.
Qed.

(** Unfolding one comparator call: its sign is [strcmp]'s. *)
Ltac compare_step now key k removal c mid Hc Hmid :=
  let Hcmp := fresh "Hcmp" in
  destruct (compare_banned_ip now key k removal) as [c mid] eqn:Hcmp;
  assert (Hc : c = strcmp key (ip k))
    by (rewrite <- (compare_banned_ip_fst now key k removal), Hcmp; reflexivity);
  assert (Hmid : mid = snd (compare_banned_ip now key k removal))
    by (rewrite Hcmp; reflexivity);
  clear Hcmp.

Lemma avl_get_by_key_spec (now : Z) (key : string) :
  forall t removal,
    (forall e, fst (avl_get_by_key now t key removal) = Some e ->
               In e (avl_elements t) /\ ip e = key) /\
    mark_ok now key (avl_elements t) removal
            (snd (avl_get_by_key now t key removal)).
Proof.
  induction t as [|l IHl k r IHr]; intros removal; cbn [avl_get_by_key avl_elements].
  - split; [discriminate | apply mark_ok_refl].
  - compare_step now key k removal c mid Hc Hmid.
    destruct (Z.eqb_spec c 0) as [H0|Hn0]; cbn [fst snd].
    + split.
      * intros e He. inversion He; subst e. split.
        -- apply in_or_app. right. left. reflexivity.
        -- symmetry. apply strcmp_eq. congruence.
      * rewrite Hmid. apply mark_ok_here.
    + destruct (c <? 0).
      * destruct (IHl mid) as [Hf Hm]. split.
        -- intros e He. destruct (Hf e He) as [Hin Hip]. split; [|exact Hip].
           apply in_or_app. left. exact Hin.
        -- eapply mark_ok_left; [exact Hmid | exact Hm].
      * destruct (IHr mid) as [Hf Hm]. split.
        -- intros e He. destruct (Hf e He) as [Hin Hip]. split; [|exact Hip].
           apply in_or_app. right. right. exact Hin.
        -- eapply mark_ok_right; [exact Hmid | exact Hm].
Qed.

Lemma ip_absent_app (key : string) (a b : list banned_entry) :
  ip_absent key (a ++ b) = ip_absent key a && ip_absent key b.
Proof. unfold ip_absent. apply forallb_app. Qed.

Lemma ip_absent_in (key : string) (l : list banned_entry) (e : banned_entry) :
  ip_absent key l = true -> In e l -> ip e <> key.
Proof.
  unfold ip_absent. rewrite forallb_forall. intros H Hin Heq.
  specialize (H e Hin). apply negb_true_iff in H.
  apply String.eqb_neq in H. contradiction.
Qed.

Lemma ip_absent_incl (key : string) (l l' : list banned_entry) :
  incl l' l -> ip_absent key l = true -> ip_absent key l' = true.
Proof.
  unfold ip_absent. rewrite !forallb_forall. intros Hi H e He. apply H, Hi, He.
Qed.

(** A key that no entry carries is not found. *)
Lemma avl_get_by_key_absent (now : Z) (key : string) :
  forall t removal,
    ip_absent key (avl_elements t) = true ->
    fst (avl_get_by_key now t key removal) = None.
Proof.
  induction t as [|l IHl k r IHr]; intros removal Habs;
    cbn [avl_get_by_key avl_elements] in *; [reflexivity|].
  rewrite ip_absent_app in Habs. cbn [ip_absent forallb] in Habs.
  apply andb_true_iff in Habs as [Hl Hkr].
  apply andb_true_iff in Hkr as [Hk Hr].
  compare_step now key k removal c mid Hc Hmid.
  destruct (Z.eqb_spec c 0) as [H0|Hn0].
  - exfalso. apply negb_true_iff, String.eqb_neq in Hk. apply Hk.
    symmetry. apply strcmp_eq. congruence.
  - destruct (c <? 0); [apply IHl | apply IHr]; assumption.
Qed.

Lemma avl_take_first_elements (t : avl_tree) :
  match avl_take_first t with
  | Some (m, t') => avl_elements t = m :: avl_elements t'
  | None => avl_elements t = []
  end.
Proof.
  induction t as [|l IHl k r _]; cbn [avl_take_first avl_elements]; [reflexivity|].
  destruct (avl_take_first l) as [[m l']|].
  - rewrite IHl. reflexivity.
  - rewrite IHl. reflexivity.
Qed.

Lemma avl_join_elements (l r : avl_tree) :
  avl_elements (avl_join l r) = avl_elements l ++ avl_elements r.
Proof.
  unfold avl_join. pose proof (avl_take_first_elements r) as H.
  destruct (avl_take_first r) as [[m r']|]; rewrite H.
  - reflexivity.
  - rewrite app_nil_r. reflexivity.
Qed.

(** [avl_delete] walks the way [avl_get_by_key] walks: it leaves the same
    mark, and it takes out exactly the entry the search finds, which is also
    the entry a write through the search result changes. *)
Lemma avl_delete_spec (now : Z) (key : string) :
  forall t removal,
    snd (avl_delete now t key removal) = snd (avl_get_by_key now t key removal) /\
    match fst (avl_get_by_key now t key removal) with
    | Some e =>
        exists l1 l2,
          avl_elements t = l1 ++ e :: l2 /\
          avl_elements (fst (avl_delete now t key removal)) = l1 ++ l2 /\
          forall f, avl_elements (avl_update_found t key f) = l1 ++ f e :: l2
    | None => fst (avl_delete now t key removal) = t
    end.
Proof.
  induction t as [|l IHl k r IHr]; intros removal;
    cbn [avl_delete avl_get_by_key avl_update_found avl_elements].
  - split; reflexivity.
  - compare_step now key k removal c mid Hc Hmid. rewrite <- Hc.
    destruct (Z.eqb_spec c 0) as [H0|Hn0]; cbn [fst snd].
    + split; [reflexivity|].
      exists (avl_elements l), (avl_elements r). split; [reflexivity|].
      split; [apply avl_join_elements | reflexivity].
    + destruct (c <? 0).
      * destruct (IHl mid) as [Hs Hf].
        destruct (avl_delete now l key mid) as [l' rem']. cbn [fst snd] in *.
        split; [exact Hs|].
        destruct (fst (avl_get_by_key now l key mid)) as [e|].
        -- destruct Hf as (l1 & l2 & H1 & H2 & H3).
           exists l1, (l2 ++ k :: avl_elements r). cbn [avl_elements].
           rewrite H1, H2, <- !app_assoc. repeat split.
           intros f. rewrite H3, <- app_assoc. reflexivity.
        -- subst l'. reflexivity.
      * destruct (IHr mid) as [Hs Hf].
        destruct (avl_delete now r key mid) as [r' rem']. cbn [fst snd] in *.
        split; [exact Hs|].
        destruct (fst (avl_get_by_key now r key mid)) as [e|].
        -- destruct Hf as (l1 & l2 & H1 & H2 & H3).
           exists (avl_elements l ++ k :: l1), l2. cbn [avl_elements].
           rewrite H1, H2, <- !app_assoc. repeat split.
           intros f. rewrite H3, <- app_assoc. reflexivity.
        -- subst r'. reflexivity.
Qed.

(** The search result does not depend on the mark. *)
Lemma avl_get_by_key_fst (now now' : Z) (key : string) :
  forall t removal removal',
    fst (avl_get_by_key now t key removal) = fst (avl_get_by_key now' t key removal').
Proof.
  induction t as [|l IHl k r IHr]; intros removal removal';
    cbn [avl_get_by_key]; [reflexivity|].
  compare_step now key k removal c mid Hc Hmid.
  compare_step now' key k removal' c' mid' Hc' Hmid'.
  rewrite Hc, Hc'.
  destruct (strcmp key (ip k) =? 0); [reflexivity|].
  destruct (strcmp key (ip k) <? 0); [apply IHl | apply IHr].
Qed.

(** [avl_insert] adds the entry and moves nothing else. *)
Lemma avl_insert_elements (now : Z) (e : banned_entry) :
  forall t removal,
    exists l1 l2,
      avl_elements t = l1 ++ l2 /\
      avl_elements (fst (avl_insert now t e removal)) = l1 ++ e :: l2.
Proof.
  induction t as [|l IHl k r IHr]; intros removal; cbn [avl_insert avl_elements].
  - exists [], []. split; reflexivity.
  - compare_step now (ip e) k removal c mid Hc Hmid.
    destruct (c <? 1).
    + destruct (IHl mid) as (l1 & l2 & H1 & H2).
      destruct (avl_insert now l e mid) as [l' rem']. cbn [fst avl_elements] in *.
      exists l1, (l2 ++ k :: avl_elements r).
      rewrite H1, H2, <- !app_assoc. split; reflexivity.
    + destruct (IHr mid) as (l1 & l2 & H1 & H2).
      destruct (avl_insert now r e mid) as [r' rem']. cbn [fst avl_elements] in *.
      exists (avl_elements l ++ k :: l1), l2.
      rewrite H1, H2, <- !app_assoc. split; reflexivity.
Qed.

(** An entry inserted under a key that was absent is the one a search for
    that key finds, and deleting the key gives back the entries there were. *)
Lemma avl_insert_found (now now' now'' : Z) (e : banned_entry) :
  forall t removal removal',
    ip_absent (ip e) (avl_elements t) = true ->
    fst (avl_get_by_key now' (fst (avl_insert now t e removal)) (ip e) removal')
    = Some e /\
    avl_elements (fst (avl_delete now'' (fst (avl_insert now t e removal)) (ip e) removal'))
    = avl_elements t.
Proof.
  induction t as [|l IHl k r IHr]; intros removal removal' Habs;
    cbn [avl_insert avl_elements] in *.
  - cbn [fst avl_get_by_key avl_delete].
    compare_step now' (ip e) e removal' c mid Hc Hmid.
    compare_step now'' (ip e) e removal' c' mid' Hc' Hmid'.
    rewrite strcmp_refl in Hc, Hc'. subst c c'. split; reflexivity.
  - rewrite ip_absent_app in Habs. cbn [ip_absent forallb] in Habs.
    apply andb_true_iff in Habs as [Hl Hkr].
    apply andb_true_iff in Hkr as [Hk Hr].
    assert (Hne : strcmp (ip e) (ip k) <> 0).
    { intros H0. apply strcmp_eq in H0.
      apply negb_true_iff, String.eqb_neq in Hk. congruence. }
    compare_step now (ip e) k removal c mid Hc Hmid.
    destruct (Z.ltb_spec c 1) as [Hlt|Hge].
    + destruct (avl_insert now l e mid) as [l' rem'] eqn:Hins.
      cbn [fst avl_get_by_key avl_delete].
      compare_step now' (ip e) k removal' c1 mid1 Hc1 Hmid1.
      compare_step now'' (ip e) k removal' c2 mid2 Hc2 Hmid2.
      destruct (Z.eqb_spec c1 0) as [?|_]; [congruence|].
      destruct (Z.eqb_spec c2 0) as [?|_]; [congruence|].
      destruct (Z.ltb_spec c1 0) as [_|?]; [|lia].
      destruct (Z.ltb_spec c2 0) as [_|?]; [|lia].
      destruct (IHl mid mid1 Hl) as [Hg _].
      destruct (IHl mid mid2 Hl) as [_ Hd].
      rewrite Hins in Hg, Hd. cbn [fst] in Hg, Hd.
      split; [exact Hg|].
      destruct (avl_delete now'' l' (ip e) mid2) as [l'' rem'']. cbn [fst avl_elements] in *.
      rewrite Hd. reflexivity.
    + destruct (avl_insert now r e mid) as [r' rem'] eqn:Hins.
      cbn [fst avl_get_by_key avl_delete].
      compare_step now' (ip e) k removal' c1 mid1 Hc1 Hmid1.
      compare_step now'' (ip e) k removal' c2 mid2 Hc2 Hmid2.
      destruct (Z.eqb_spec c1 0) as [?|_]; [congruence|].
      destruct (Z.eqb_spec c2 0) as [?|_]; [congruence|].
      destruct (Z.ltb_spec c1 0) as [?|_]; [lia|].
      destruct (Z.ltb_spec c2 0) as [?|_]; [lia|].
      destruct (IHr mid mid1 Hr) as [Hg _].
      destruct (IHr mid mid2 Hr) as [_ Hd].
      rewrite Hins in Hg, Hd. cbn [fst] in Hg, Hd.
      split; [exact Hg|].
      destruct (avl_delete now'' r' (ip e) mid2) as [r'' rem'']. cbn [fst avl_elements] in *.
      rewrite Hd. reflexivity.
Qed.

Lemma ips_unique_eq (l : list banned_entry) (x y : banned_entry) :
  ips_unique l = true -> In x l -> In y l -> ip x = ip y -> x = y.
Proof.
  induction l as [|e l IH]; simpl; [contradiction|].
  intros Hu Hx Hy Hip. apply andb_true_iff in Hu as [Ha Hu].
  destruct Hx as [->|Hx], Hy as [->|Hy]; auto.
  - exfalso. apply (ip_absent_in _ _ _ Ha Hy). symmetry. exact Hip.
  - exfalso. apply (ip_absent_in _ _ _ Ha Hx). exact Hip.
Qed.

Lemma ip_field_length (key : string) :
  String.length (ip_field key) = Nat.min 15 (String.length key).
Proof.
  unfold ip_field. generalize 15%nat as n. revert key.
  induction key as [|c key IH]; intros [|n]; simpl; try reflexivity.
  rewrite IH. reflexivity.
Qed.

Lemma ip_field_short (key : string) :
  (String.length key <= 15)%nat -> ip_field key = key.
Proof.
  unfold ip_field. generalize 15%nat as n. revert key.
  induction key as [|c key IH]; intros [|n] Hlen; simpl in *; try reflexivity; try lia.
  rewrite IH by lia. reflexivity.
Qed.

(** What [connection_add_banned_ip] does to the literal map when there is
    one and the text holds no wildcard character: one entry is added, with
    the truncated text and the timeout computed from the duration, and the
    entries that were there stay as they are. *)
Lemma connection_add_banned_ip_entries (g : ban_globals) (t : avl_tree)
    (key : string) (duration time_now : Z) :
  contents (banned_ip g) = Some t ->
  has_wildcard key = false ->
  let added := {| ip := ip_field key;
                  timeout := if duration >? 0 then time_now + duration else 0 |} in
  let g1 := connection_add_banned_ip g key duration time_now in
  contents (banned_ip g1)
  = Some (fst (avl_insert (compare_arg (banned_ip g)) t added (ban_entry_removal g))) /\
  wildcards (banned_ip g1) = wildcards (banned_ip g) /\
  compare_arg (banned_ip g1) = compare_arg (banned_ip g) /\
  exists l1 l2,
    literal_entries g = l1 ++ l2 /\ literal_entries g1 = l1 ++ added :: l2.
Proof.
  intros Ht Hw added g1. subst g1.
  unfold connection_add_banned_ip, add_banned_ip, literal_entries.
  rewrite Ht, Hw. fold added.
  destruct (avl_insert_elements (compare_arg (banned_ip g)) added t (ban_entry_removal g))
    as (l1 & l2 & H1 & H2).
  destruct (avl_insert (compare_arg (banned_ip g)) t added (ban_entry_removal g))
    as [t' rem']. cbn [fst banned_ip contents with_contents wildcards compare_arg] in *.
  repeat split. exists l1, l2. split; assumption.
Qed.

Lemma entries_fit_absent (l : list banned_entry) (key : string) :
  entries_fit l = true -> (15 < String.length key)%nat -> ip_absent key l = true.
Proof.
  unfold entries_fit, ip_absent. rewrite !forallb_forall.
  intros Hfit Hlong e He. specialize (Hfit e He). apply Nat.leb_le in Hfit.
  apply negb_true_iff, String.eqb_neq. intros Heq. rewrite Heq in Hfit. lia.
Qed.

(** A lookup that no wildcard decides and that finds no entry says 0. *)
Lemma search_banned_ip_locked_absent (cpc : string -> string -> Z)
    (g : ban_globals) (key : string) :
  no_wildcard_matches cpc g key = true ->
  ip_absent key (literal_entries g) = true ->
  fst (search_banned_ip_locked cpc g key) = 0.
Proof.
  unfold no_wildcard_matches, search_banned_ip_locked, literal_entries.
  intros Hw Habs. apply negb_true_iff in Hw. rewrite Hw.
  destruct (contents (banned_ip g)) as [t|]; [|reflexivity].
  pose proof (avl_get_by_key_absent (compare_arg (banned_ip g)) key t None Habs) as Hnone.
  destruct (avl_get_by_key (compare_arg (banned_ip g)) t key None) as [res mark].
  cbn [fst] in Hnone. subst res.
  unfold sweep_marked. destruct mark as [m|]; [|reflexivity].
  destruct (avl_delete _ _ _ _). reflexivity.
Qed.

(** C8. A literal entry keeps at most 15 characters of the IP text. For an
    IP text longer than that (and free of wildcard characters), add stores
    the first 15 characters, which is not the text; and in a map whose
    entries all came through that field, a lookup with the full text finds
    no entry, so that the lookup says no match unless a wildcard does. *)
Theorem literal_ban_of_long_ip_ineffective (cpc : string -> string -> Z)
    (g : ban_globals) (t : avl_tree) (key : string) (duration t0 now : Z) :
  contents (banned_ip g) = Some t ->
  entries_fit (avl_elements t) = true ->
  has_wildcard key = false ->
  (15 < String.length key)%nat ->
  let g1 := connection_add_banned_ip g key duration t0 in
  (exists l1 l2,
      literal_entries g = l1 ++ l2 /\
      literal_entries g1
      = l1 ++ {| ip := ip_field key;
                 timeout := if duration >? 0 then t0 + duration else 0 |} :: l2) /\
  String.length (ip_field key) = 15%nat /\ ip_field key <> key /\
  entries_fit (literal_entries g1) = true /\
  ip_absent key (literal_entries g1) = true /\
  (no_wildcard_matches cpc g key = true -> fst (search_at cpc g1 key now) = 0).
Proof.
  intros Ht Hfit Hw Hlong g1.
  destruct (connection_add_banned_ip_entries g t key duration t0 Ht Hw)
    as (_ & Hwild & _ & l1 & l2 & H1 & H2).
  fold g1 in Hwild, H2.
  assert (Hlen : String.length (ip_field key) = 15%nat)
    by (rewrite ip_field_length; lia).
  assert (Hfit1 : entries_fit (literal_entries g1) = true).
  { rewrite H2. unfold literal_entries in H1. rewrite Ht in H1. rewrite H1 in Hfit.
    unfold entries_fit in *. rewrite forallb_app in *. cbn [forallb ip].
    apply andb_true_iff in Hfit as [Ha Hb]. rewrite Ha, Hb, Hlen. reflexivity. }
  assert (Habs : ip_absent key (literal_entries g1) = true)
    by (apply entries_fit_absent; assumption).
  split; [exists l1, l2; split; assumption|].
  split; [exact Hlen|].
  split; [intros Heq; rewrite Heq in Hlen; lia|].
  split; [exact Hfit1|].
  split; [exact Habs|].
  intros Hnw. unfold search_at. apply search_banned_ip_locked_absent.
  - unfold no_wildcard_matches in *. cbn [banned_ip]. rewrite Hwild. exact Hnw.
  - exact Habs.
Qed.

Lemma literal_ban_of_long_ip_ineffective_witness :
  literal_entries (connection_add_banned_ip demo_bans "2001:db8::ff00:42:8329" 50 100)
  = [{| ip := "2001:db8::ff00:"; timeout := 150 |}] /\
  fst (search_at no_patterns
         (connection_add_banned_ip demo_bans "2001:db8::ff00:42:8329" 50 100)
         "2001:db8::ff00:42:8329" 101) = 0.
Proof.
  destruct (literal_ban_of_long_ip_ineffective no_patterns demo_bans avl_leaf
              "2001:db8::ff00:42:8329" 50 100 101)
    as (_ & _ & _ & _ & _ & Hsearch).
  - reflexivity.
  - reflexivity.
  - reflexivity.
  - simpl; lia.
  - split; [reflexivity|]. apply Hsearch. reflexivity.
Defined.

Lemma avl_delete_swept (now : Z) (t : avl_tree) (m : banned_entry)
    (removal : option banned_entry) :
  swept (Some m) (avl_elements t)
        (avl_elements (fst (avl_delete now t (ip m) removal))).
Proof.
  destruct (avl_delete_spec now (ip m) t removal) as [_ Hd].
  destruct (avl_get_by_key_spec now (ip m) t removal) as [Hg _].
  destruct (fst (avl_get_by_key now t (ip m) removal)) as [e|].
  - destruct Hd as (l1 & l2 & H1 & H2 & _). destruct (Hg e eq_refl) as [_ Hip].
    right. exists e, l1, l2. auto.
  - left. rewrite Hd. reflexivity.
Qed.

Lemma sweep_marked_spec (g : ban_globals) (t : avl_tree)
    (mark : option banned_entry) :
  fst (sweep_marked g t mark) = 0 /\
  swept mark (avl_elements t) (literal_entries (snd (sweep_marked g t mark))).
Proof.
  unfold sweep_marked. destruct mark as [m|].
  - pose proof (avl_delete_swept (compare_arg (banned_ip g)) t m (Some m)) as Hs.
    destruct (avl_delete (compare_arg (banned_ip g)) t (ip m) (Some m)) as [t' rem'].
    split; [reflexivity | exact Hs].
  - split; reflexivity.
Qed.

(** Deleting the key just searched for leaves the mark of the search. *)
Lemma avl_delete_keeps_mark (now : Z) (key : string) (t : avl_tree) :
  snd (avl_delete now t key (snd (avl_get_by_key now t key None)))
  = snd (avl_get_by_key now t key None).
Proof.
  destruct (avl_delete_spec now key t (snd (avl_get_by_key now t key None))) as [Hs _].
  rewrite Hs.
  destruct (snd (avl_get_by_key now t key None)) as [m|] eqn:Hmark.
  - destruct (avl_get_by_key_spec now key t (Some m)) as [_ Hm]. exact Hm.
  - exact Hmark.
Qed.

(** The five ways a lookup can go. *)
Lemma search_banned_ip_locked_cases (cpc : string -> string -> Z)
    (g : ban_globals) (key : string) :
  let r := search_banned_ip_locked cpc g key in
  let now := compare_arg (banned_ip g) in
  let tc := cachefile_timecheck g in
  (no_wildcard_matches cpc g key = false /\ r = (1, g)) \/
  (no_wildcard_matches cpc g key = true /\ contents (banned_ip g) = None /\ r = (0, g)) \/
  (no_wildcard_matches cpc g key = true /\
   exists t, contents (banned_ip g) = Some t /\
     match fst (avl_get_by_key now t key None) with
     | Some e =>
         exists l1 l2, avl_elements t = l1 ++ e :: l2 /\
           if in_force tc e
           then fst r = 1 /\ literal_entries (snd r) = l1 ++ renew tc e :: l2
           else fst r = 0 /\
                swept (snd (avl_get_by_key now t key None)) (l1 ++ l2)
                      (literal_entries (snd r))
     | None =>
         fst r = 0 /\
         swept (snd (avl_get_by_key now t key None)) (avl_elements t)
               (literal_entries (snd r))
     end).
Proof.
  intros r now tc. subst r. unfold search_banned_ip_locked, no_wildcard_matches.
  destruct (existsb _ (wildcards (banned_ip g))); cbn [negb]; [left; auto | right].
  destruct (contents (banned_ip g)) as [t|] eqn:Ht; [right | left; auto].
  split; [reflexivity|]. exists t. split; [reflexivity|].
  fold now tc.
  pose proof (avl_delete_keeps_mark now key t) as Hkeep.
  pose proof (avl_delete_spec now key t (snd (avl_get_by_key now t key None))) as [_ Hdel].
  rewrite (avl_get_by_key_fst now now key t _ None) in Hdel.
  destruct (avl_get_by_key now t key None) as [res mark]. cbn [fst snd] in *.
  destruct res as [e|].
  - destruct Hdel as (l1 & l2 & H1 & H2 & H3). exists l1, l2. split; [exact H1|].
    unfold in_force, renew.
    destruct ((timeout e =? 0) || (timeout e >? tc)).
    + split; [reflexivity|]. unfold literal_entries. cbn [snd banned_ip contents with_contents].
      destruct (negb (timeout e =? 0) && (tc + 300 >? timeout e)); [apply H3 | exact H1].
    + destruct (avl_delete now t key mark) as [t1 mark1]. cbn [fst snd] in *.
      subst mark1.
      destruct (sweep_marked_spec g t1 mark) as [Hz Hs].
      split; [exact Hz|]. rewrite <- H2. exact Hs.
  - destruct (sweep_marked_spec g t mark) as [Hz Hs]. split; assumption.
Qed.

Lemma swept_incl (mark : option banned_entry) (before after : list banned_entry) :
  swept mark before after -> incl after before.
Proof.
  unfold swept. destruct mark as [m|].
  - intros [->|(e & l1 & l2 & -> & -> & _)]; [apply incl_refl|].
    intros x Hx. apply in_app_or in Hx as [Hx|Hx]; apply in_or_app; [left | right; right];
      exact Hx.
  - intros ->. apply incl_refl.
Qed.

(** Where an element occurs once, the split around it is determined. *)
Lemma split_around_unique {A : Type} (x : A) (la lb l1 l2 : list A) :
  ~ In x la -> ~ In x lb ->
  la ++ x :: lb = l1 ++ x :: l2 -> la = l1 /\ lb = l2.
Proof.
  revert l1. induction la as [|a la IH]; intros [|y l1] Ha Hb Heq; simpl in *.
  - inversion Heq. auto.
  - inversion Heq; subst. exfalso. apply Hb. apply in_elt.
  - inversion Heq; subst. exfalso. apply Ha. left. reflexivity.
  - inversion Heq; subst.
    destruct (IH l1) as [-> ->]; auto.
Qed.

Lemma ip_absent_not_in (l : list banned_entry) (e : banned_entry) :
  ip_absent (ip e) l = true -> ~ In e l.
Proof. intros Habs Hin. exact (ip_absent_in _ _ _ Habs Hin eq_refl). Qed.

(** C4 (as amended). With a literal map present and a text free of wildcard
    characters, [connection_add_banned_ip] adds one entry, whose timeout is
    [now + seconds] for [seconds > 0] and [0] otherwise, and leaves every
    entry that was in the map, with its timeout, where it was. The
    extension to [now + 300] is made by a lookup: a lookup at [tc] that
    finds an entry with a nonzero timeout in [tc < timeout < tc + 300]
    reports a match and rewrites that timeout to [tc + 300]. *)
Theorem connection_add_banned_ip_inserts_only (cpc : string -> string -> Z)
    (g : ban_globals) (t : avl_tree) (key : string) (seconds now : Z) :
  contents (banned_ip g) = Some t ->
  has_wildcard key = false ->
  (exists l1 l2,
      literal_entries g = l1 ++ l2 /\
      literal_entries (connection_add_banned_ip g key seconds now)
      = l1 ++ {| ip := ip_field key;
                 timeout := if seconds >? 0 then now + seconds else 0 |} :: l2) /\
  (forall (e : banned_entry) (tc : Z),
      no_wildcard_matches cpc g key = true ->
      fst (avl_get_by_key (compare_arg (banned_ip g)) t key None) = Some e ->
      timeout e <> 0 -> tc < timeout e < tc + 300 ->
      fst (search_at cpc g key tc) = 1 /\
      exists l1 l2,
        literal_entries g = l1 ++ e :: l2 /\
        literal_entries (snd (search_at cpc g key tc))
        = l1 ++ set_timeout (tc + 300) e :: l2).
Proof.
  intros Ht Hw. split.
  - destruct (connection_add_banned_ip_entries g t key seconds now Ht Hw)
      as (_ & _ & _ & l1 & l2 & H1 & H2).
    exists l1, l2. split; assumption.
  - intros e tc Hnw Hfound Hnz Hrange. unfold search_at.
    set (g' := {| banned_ip := banned_ip g; ban_entry_removal := ban_entry_removal g;
                  cachefile_timecheck := tc |}).
    destruct (search_banned_ip_locked_cases cpc g' key)
      as [[Hno _] | [(_ & Hnone & _) | (_ & t' & Ht' & Hcase)]].
    + unfold no_wildcard_matches in *. cbn [banned_ip g'] in Hno. congruence.
    + cbn [banned_ip g'] in Hnone. congruence.
    + cbn [banned_ip g' cachefile_timecheck] in Ht', Hcase.
      assert (t' = t) by congruence. subst t'.
      rewrite Hfound in Hcase. destruct Hcase as (l1 & l2 & H1 & Hcase).
      assert (Hforce : in_force tc e = true).
      { unfold in_force. apply orb_true_iff. right. apply Z.gtb_lt. lia. }
      rewrite Hforce in Hcase. destruct Hcase as [Hr Hent].
      split; [exact Hr|]. exists l1, l2.
      unfold literal_entries at 1. rewrite Ht. split; [exact H1|].
      rewrite Hent. unfold renew.
      destruct (Z.eqb_spec (timeout e) 0) as [?|_]; [contradiction|].
      destruct (Z.gtb_spec (tc + 300) (timeout e)) as [_|?]; [reflexivity | lia].
Qed.

Lemma connection_add_banned_ip_inserts_only_witness :
  (exists l1 l2,
      literal_entries demo_bans_one = l1 ++ l2 /\
      literal_entries (connection_add_banned_ip demo_bans_one "10.0.0.5" 1000 100)
      = l1 ++ mkBanned "10.0.0.5" 1100 :: l2) /\
  fst (search_at no_patterns demo_bans_one "10.0.0.5" 100) = 1.
Proof.
  destruct (connection_add_banned_ip_inserts_only no_patterns demo_bans_one
              (avl_node avl_leaf (mkBanned "10.0.0.5" 110) avl_leaf)
              "10.0.0.5" 1000 100 eq_refl eq_refl)
    as [Hadd Hrenew].
  split; [exact Hadd|].
  destruct (Hrenew (mkBanned "10.0.0.5" 110) 100 eq_refl eq_refl) as [Hret _].
  - discriminate.
  - simpl; lia.
  - exact Hret.
Defined.

(** C4, counterexample. At time 100 the map holds an entry for 10.0.0.5 with
    10 s left. Adding 10.0.0.5 for 1000 s leaves that entry at 110: add does
    not extend it to 100 + 300. *)
Lemma connection_add_banned_ip_does_not_extend :
  110 - 100 < 300 /\
  In (mkBanned "10.0.0.5" 110)
     (literal_entries (connection_add_banned_ip demo_bans_one "10.0.0.5" 1000 100)) /\
  ~ In (mkBanned "10.0.0.5" (100 + 300))
       (literal_entries (connection_add_banned_ip demo_bans_one "10.0.0.5" 1000 100)).
Proof.
  split; [lia|]. split.
  - vm_compute. auto.
  - vm_compute. intros [H|[H|[]]]; discriminate.
Qed.

(** What a sweep can take from a map with one entry per IP text: nothing
    but the marked entry itself. *)
Lemma swept_unique (mark : option banned_entry) (all before after : list banned_entry) :
  ips_unique all = true -> incl before all ->
  (forall m, mark = Some m -> In m all) ->
  swept mark before after ->
  forall e, In e before -> mark <> Some e -> In e after.
Proof.
  intros Hu Hincl Hmark Hs e He Hne. unfold swept in Hs.
  destruct mark as [m|]; [|subst after; exact He].
  destruct Hs as [->|(e2 & l1 & l2 & -> & -> & Hip)]; [exact He|].
  apply in_elt_inv in He as [Heq|He]; [|exact He].
  exfalso. apply Hne. f_equal. subst e2.
  apply (ips_unique_eq all); auto.
  apply Hincl. apply in_elt.
Qed.




(** The map stays a map: an add of a text that is absent and a lookup both
    leave one entry per IP text. *)
Lemma ips_unique_NoDup (l : list banned_entry) :
  ips_unique l = true <-> List.NoDup (map ip l).
Proof.
  induction l as [|e l IH]; simpl.
  - split; [constructor | reflexivity].
  - rewrite andb_true_iff, IH. split.
    + intros [Ha Hn]. constructor; [|exact Hn].
      intros Hin. apply in_map_iff in Hin as (x & Hx & Hin).
      exact (ip_absent_in _ _ _ Ha Hin Hx).
    + intros Hn. inversion Hn as [|? ? Hnotin Hn']; subst. split; [|exact Hn'].
      unfold ip_absent. apply forallb_forall. intros x Hx.
      apply negb_true_iff, String.eqb_neq. intros Heq. apply Hnotin.
      apply in_map_iff. exists x. auto.
Qed.

Lemma connection_add_banned_ip_keeps_unique (g : ban_globals) (t : avl_tree)
    (key : string) (seconds now : Z) :
  contents (banned_ip g) = Some t ->
  has_wildcard key = false ->
  ips_unique (literal_entries g) = true ->
  ip_absent (ip_field key) (literal_entries g) = true ->
  ips_unique (literal_entries (connection_add_banned_ip g key seconds now)) = true.
Proof.
  intros Ht Hw Hu Habs.
  destruct (connection_add_banned_ip_entries g t key seconds now Ht Hw)
    as (_ & _ & _ & l1 & l2 & H1 & H2).
  rewrite H2. rewrite H1 in Hu, Habs.
  apply ips_unique_NoDup. apply ips_unique_NoDup in Hu.
  rewrite map_app in *. cbn [map ip].
  apply (Permutation.Permutation_NoDup
           (Permutation.Permutation_middle (map ip l1) (map ip l2) (ip_field key))).
  constructor; [|exact Hu].
  rewrite <- map_app. intros Hin. apply in_map_iff in Hin as (x & Hx & Hin).
  exact (ip_absent_in _ _ _ Habs Hin Hx).
Qed.

Lemma NoDup_map_ip_drop (l1 l2 : list banned_entry) (e : banned_entry) :
  List.NoDup (map ip (l1 ++ e :: l2)) -> List.NoDup (map ip (l1 ++ l2)).
Proof.
  rewrite !map_app. cbn [map]. apply List.NoDup_remove_1.
Qed.

Lemma swept_keeps_unique (mark : option banned_entry) (before after : list banned_entry) :
  swept mark before after ->
  List.NoDup (map ip before) -> List.NoDup (map ip after).
Proof.
  unfold swept. destruct mark as [m|].
  - intros [->|(e & l1 & l2 & -> & -> & _)]; [auto | apply NoDup_map_ip_drop].
  - intros ->. auto.
Qed.

Lemma search_banned_ip_locked_keeps_unique (cpc : string -> string -> Z)
    (g : ban_globals) (key : string) :
  ips_unique (literal_entries g) = true ->
  ips_unique (literal_entries (snd (search_banned_ip_locked cpc g key))) = true.
Proof.
  intros Hu.
  destruct (search_banned_ip_locked_cases cpc g key)
    as [[_ Hr] | [(_ & _ & Hr) | (_ & t & Ht & Hcase)]];
    try (rewrite Hr; exact Hu).
  unfold literal_entries in Hu at 1. rewrite Ht in Hu.
  apply ips_unique_NoDup in Hu. apply ips_unique_NoDup.
  destruct (fst (avl_get_by_key (compare_arg (banned_ip g)) t key None)) as [e|].
  - destruct Hcase as (l1 & l2 & Hsplit & Hcase). rewrite Hsplit in Hu.
    destruct (in_force (cachefile_timecheck g) e).
    + destruct Hcase as [_ ->].
      replace (map ip (l1 ++ renew (cachefile_timecheck g) e :: l2))
        with (map ip (l1 ++ e :: l2)); [exact Hu|].
      rewrite !map_app. cbn [map]. unfold renew.
      destruct (_ && _); reflexivity.
    + destruct Hcase as [_ Hs].
      apply (swept_keeps_unique _ _ _ Hs). apply (NoDup_map_ip_drop _ _ _ Hu).
  - destruct Hcase as [_ Hs]. apply (swept_keeps_unique _ _ _ Hs). exact Hu.
Qed.

(** The lookup of an absent text passes the root, marks it and removes it
    afterwards; the lookup of 10.0.0.9 passes the root too, finds its entry
    in force and removes nothing. *)
Example search_sweeps_one_stale_entry :
  search_banned_ip_locked no_patterns demo_bans_three "10.0.0.7"
  = (0, {| banned_ip :=
             {| wildcards := [];
                contents := Some (avl_node
                                    (avl_node avl_leaf (mkBanned "10.0.0.2" 0) avl_leaf)
                                    (mkBanned "10.0.0.9" 2000)
                                    avl_leaf);
                compare_arg := 1000 |};
           ban_entry_removal := None; cachefile_timecheck := 1000 |}) /\
  fst (search_banned_ip_locked no_patterns demo_bans_three "10.0.0.9") = 1 /\
  literal_entries (snd (search_banned_ip_locked no_patterns demo_bans_three "10.0.0.9"))
  = literal_entries demo_bans_three.
Proof. repeat split. Qed.

(* --------------------------------------------------------------------- *)
(** ** Legacy-protocol adapter                                            *)
(* --------------------------------------------------------------------- *)

Lemma cstr_no_nul (b : bytes) : forallb not_nul b = true -> cstr b = b.
Proof.
  induction b as [|c b IH]; simpl; [reflexivity|].
  intros H. apply andb_true_iff in H as [Hc Hb]. unfold not_nul in Hc.
  apply negb_true_iff in Hc. rewrite Hc, IH by assumption. reflexivity.
Qed.

Lemma strcspn_eol_line (P rest : bytes) :
  forallb (fun c => negb (is_eol c)) P = true ->
  strcspn_eol (P ++ rest) = (length P + strcspn_eol rest)%nat.
Proof.
  induction P as [|c P IH]; simpl; [reflexivity|].
  intros H. apply andb_true_iff in H as [Hc HP].
  apply negb_true_iff in Hc. rewrite Hc, IH by assumption. reflexivity.
Qed.

Lemma strspn_eol_run (E rest : bytes) :
  forallb is_eol E = true ->
  match rest with [] => true | c :: _ => negb (is_eol c) end = true ->
  strspn_eol (E ++ rest) = length E.
Proof.
  intros HE Hrest. induction E as [|c E IH]; simpl.
  - destruct rest as [|c rest]; simpl; [reflexivity|].
    apply negb_true_iff in Hrest. rewrite Hrest. reflexivity.
  - simpl in HE. apply andb_true_iff in HE as [Hc HE].
    rewrite Hc, IH by assumption. reflexivity.
Qed.

Lemma password_line_parts (P : bytes) :
  password_line P = true ->
  forallb (fun c => negb (is_eol c)) P = true /\ forallb not_nul P = true.
Proof.
  unfold password_line. induction P as [|c P IH]; simpl; [auto|].
  intros H. apply andb_true_iff in H as [Hc HP].
  apply andb_true_iff in Hc as [H1 H2].
  destruct (IH HP) as [H3 H4]. rewrite H1, H2, H3, H4. auto.
Qed.

Lemma eol_run_parts (E : bytes) :
  eol_run E = true ->
  exists c E', E = c :: E' /\ is_eol c = true /\ forallb is_eol E' = true
               /\ forallb not_nul E = true.
Proof.
  destruct E as [|c E']; simpl; [discriminate|].
  intros H. apply andb_true_iff in H as [Hc HE].
  exists c, E'. repeat split; try assumption.
  assert (Hnn : forall l, forallb is_eol l = true -> forallb not_nul l = true).
  { induction l as [|x l IH]; simpl; [reflexivity|].
    intros Hx. apply andb_true_iff in Hx as [Hx Hl]. rewrite (IH Hl), andb_true_r.
    unfold is_eol, not_nul in *.
    destruct (Ascii.eqb_spec x NUL) as [->|]; [discriminate | reflexivity]. }
  change (forallb not_nul (c :: E') = true). apply Hnn. simpl. rewrite Hc. exact HE.
Qed.

(** What the adapter builds from a buffer that holds a password line, its
    end of line and header bytes: when [source:P] fits the 128-byte header
    and the whole request fits the buffer, the request of the specification, with a
    base64 text that decodes to [source:P]. *)
Lemma synthesised_dialogue (B : Z) (mount : string) (P E H : bytes) :
  password_line P = true -> eol_run E = true -> header_bytes H = true ->
  (length P <= 120)%nat ->
  Z.of_nat (length (legacy_request mount (util_base64_encode (str "source:" ++ P)) H))
  <= B - 1 ->
  synthesised B mount (P ++ E ++ H)
  = legacy_request mount (util_base64_encode (str "source:" ++ P)) H.
Proof.
  intros HP HE HH Hlen Hfit.
  destruct (password_line_parts P HP) as [HPeol HPnul].
  destruct (eol_run_parts E HE) as (c & E' & -> & Hc & HE' & HEnul).
  unfold header_bytes in HH. apply andb_true_iff in HH as [HHnul HHhd].
  unfold synthesised.
  rewrite cstr_no_nul by (rewrite !forallb_app, HPnul, HEnul, HHnul; reflexivity).
  rewrite (strcspn_eol_line P _ HPeol). cbn [app strcspn_eol]. rewrite Hc.
  rewrite Nat.add_0_r.
  rewrite take_app_length.
  replace (length P + 1)%nat with (length (P ++ [c])) by (rewrite length_app; simpl; lia).
  replace (P ++ c :: E' ++ H) with ((P ++ [c]) ++ E' ++ H)
    by (rewrite <- app_assoc; reflexivity).
  rewrite drop_app_length.
  rewrite (strspn_eol_run E' H HE' HHhd).
  replace (length (P ++ [c]) + length E')%nat with (length ((P ++ [c]) ++ E'))
    by (rewrite !length_app; reflexivity).
  replace ((P ++ [c]) ++ E' ++ H) with (((P ++ [c]) ++ E') ++ H)
    by (rewrite <- !app_assoc; reflexivity).
  rewrite drop_app_length.
  unfold shoutcast_request, snprintf.
  rewrite (take_ge (str "source:" ++ P)) by (rewrite length_app; simpl; lia).
  fold (legacy_request mount (util_base64_encode (str "source:" ++ P)) H).
  apply take_ge. lia.
Qed.

Lemma shoutcast_response_length : length shoutcast_response = 20%nat.
Proof. reflexivity. Qed.

Lemma take_then_more {A : Type} (l : list A) (p k : nat) :
  take p l ++ take k (drop p l) = take (p + length (take k (drop p l))) l.
Proof.
  rewrite <- take_take_drop. f_equal.
  generalize (drop p l) as x. intros x. revert k.
  induction x as [|a x IH]; intros [|k]; simpl; try reflexivity.
  rewrite <- IH. reflexivity.
Qed.

(** The write, the test for completion and the switch, from a state in
    which the response is (partly) sent. *)
Lemma shoutcast_send_step (B : Z) (mount : string) (e : invocation)
    (c : client_t) (sent received : bytes) :
  shoutcast_mount (server_conn c) = mount ->
  ops c = shoutcast_source_ops -> shared_data c = None ->
  refbuf c = Some (mkRefbuf shoutcast_response
                            (Some (mkRefbuf (synthesised B mount received) None))) ->
  0 <= pos c < 20 ->
  sent = take (Z.to_nat (pos c)) shoutcast_response ->
  forall c1 out, format_generic_write_to_client (wr_room e) c = (c1, out) ->
  session_inv B mount
    (with_schedule_ms
       match refbuf c1 with
       | Some r =>
           if pos c1 =? len r then
             with_pos (with_ops (with_refbuf (with_shared_data c1 (associated r)) None)
                                http_request_ops) 0
           else c1
       | None => c1
       end (u64 (time_ms e + 100)))
    (sent ++ out) received.
Proof.
  intros Hm Hops Hsd Hrb Hpos Hsent c1 out Hw.
  pose proof shoutcast_response_length as Hlen.
  destruct c as [con sd rb p o rc sm cnt sc].
  cbn -[shoutcast_response] in Hm, Hops, Hsd, Hrb, Hpos, Hsent.
  subst sd rb o. unfold format_generic_write_to_client in Hw.
  cbn -[shoutcast_response] in Hw.
  assert (Hlen' : forall a, len (mkRefbuf shoutcast_response a) = 20)
    by (intros a; unfold len; cbn -[shoutcast_response]; rewrite Hlen; reflexivity).
  unfold session_inv.
  destruct (wr_room e <=? 0).
  - inversion Hw; subst c1 out. cbn [refbuf pos]. rewrite Hlen'.
    destruct (Z.eqb_spec p 20) as [?|_]; [lia|].
    split; [exact Hm|]. right. left. cbn -[shoutcast_response].
    rewrite app_nil_r. auto.
  - inversion Hw; subst c1 out. cbn [refbuf pos with_pos]. rewrite Hlen'.
    set (out := take (Z.to_nat (wr_room e)) (drop (Z.to_nat p) shoutcast_response)).
    assert (Hjoin : sent ++ out
                    = take (Z.to_nat (p + Z.of_nat (length out))) shoutcast_response).
    { subst sent out. rewrite take_then_more. f_equal. lia. }
    assert (Hout : (length out <= 20 - Z.to_nat p)%nat).
    { subst out. rewrite length_take, length_drop, Hlen. lia. }
    destruct (Z.eqb_spec (p + Z.of_nat (length out)) 20) as [Hdone|Hmore].
    + split; [exact Hm|]. right. right. cbn -[shoutcast_response].
      repeat split; try reflexivity.
      rewrite Hjoin, Hdone. rewrite take_ge by (rewrite Hlen; simpl; lia). reflexivity.
    + split; [exact Hm|]. right. left. cbn -[shoutcast_response].
      repeat split; try reflexivity; try lia. exact Hjoin.
Qed.

(** One call of the adapter that does not fail takes a session state to a
    session state. *)
Lemma shoutcast_source_client_step (B : Z) (mount : string) (e : invocation)
    (c : client_t) (sent received : bytes) :
  session_inv B mount c sent received ->
  ops c = shoutcast_source_ops ->
  forall ret c' out,
    shoutcast_source_client B e c = (ret, c', out) ->
    (ret <? 0) = false ->
    session_inv B mount c' (sent ++ out) (received ++ shoutcast_stored e c).
Proof.
  intros [Hm [P1 | [P2 | P3]]] Hops ret c' out Hcall Hret.
  - (* waiting for the end of the password line *)
    destruct P1 as (_ & Hpos & Hsent & [a Hsd] & Hnoeol).
    unfold shoutcast_source_client in Hcall.
    destruct (error (connection c) || (discon_time (connection c) <=? current_time_sec e))
      eqn:Hfirst; [inversion Hcall; subst; discriminate|].
    apply orb_false_iff in Hfirst as [Herr _].
    unfold shoutcast_password, shoutcast_stored in *. rewrite Hsd in *.
    destruct (B - 2 - len (mkRefbuf received a) =? 0);
      [inversion Hcall; subst; discriminate|].
    destruct (rd e) as [d | l | l]; cbn [rd_ret rd_data rd_error latch_error] in *.
    + unfold latch_error in Hcall. cbn [rd_error] in Hcall. rewrite Herr in Hcall.
      destruct ((Z.of_nat (length d) =? 0) || false || negb (running e));
        [inversion Hcall; subst; discriminate|].
      destruct (Z.ltb_spec (Z.of_nat (length d)) 0) as [?|_]; [lia|].
      cbn [data associated shared_data with_shared_data connection server_conn] in Hcall.
      destruct (Nat.eqb_spec (strcspn_eol (cstr (received ++ d)))
                             (length (cstr (received ++ d)))) as [Hno|Hyes].
      * (* no end of line yet *)
        inversion Hcall; subst ret c' out. rewrite app_nil_r.
        split; [destruct c; exact Hm|]. left.
        destruct c; cbn in *. repeat split; try assumption. eauto.
      * (* the password line is complete: build the request, start sending *)
        set (c2 := with_shared_data (with_refbuf (with_respcode _ 200) _) None) in Hcall.
        destruct (format_generic_write_to_client (wr_room e) c2) as [c3 out3] eqn:Hw.
        inversion Hcall; subst ret c' out. subst sent. cbn [app].
        apply (shoutcast_send_step B mount e c2 [] (received ++ d)); try exact Hw;
          subst c2; destruct c; cbn -[shoutcast_response] in *; subst;
          try reflexivity; try lia.
    + inversion Hcall; subst; discriminate.
    + unfold latch_error in Hcall. cbn [rd_error] in Hcall.
      destruct l.
      * cbn in Hcall. inversion Hcall; subst; discriminate.
      * rewrite Herr in Hcall. cbn [orb Z.eqb] in Hcall.
        destruct (negb (running e)); [inversion Hcall; subst; discriminate|].
        cbn in Hcall. inversion Hcall; subst ret c' out. rewrite !app_nil_r.
        split; [exact Hm|]. left. repeat split; try assumption. eauto.
  - (* the response is being sent *)
    destruct P2 as (_ & Hsd & Hrb & Hpos & Hsent).
    unfold shoutcast_source_client in Hcall.
    destruct (error (connection c) || (discon_time (connection c) <=? current_time_sec e));
      [inversion Hcall; subst; discriminate|].
    unfold shoutcast_password, shoutcast_stored in *. rewrite Hsd in *.
    destruct (format_generic_write_to_client (wr_room e) c) as [c3 out3] eqn:Hw.
    inversion Hcall; subst ret c' out. rewrite app_nil_r.
    apply (shoutcast_send_step B mount e c sent received); assumption.
  - destruct P3 as (Hops' & _). congruence.
Qed.

Lemma shoutcast_session_inv (B : Z) (mount : string) :
  forall es c sent received c' sent' received',
    session_inv B mount c sent received ->
    shoutcast_session B es c sent received = Some (c', sent', received') ->
    session_inv B mount c' sent' received'.
Proof.
  induction es as [|e es IH]; intros c sent received c' sent' received' Hinv Hrun;
    cbn [shoutcast_session] in Hrun.
  - inversion Hrun; subst. exact Hinv.
  - destruct (ops c) eqn:Hops; try (inversion Hrun; subst; exact Hinv).
    destruct (shoutcast_source_client B e c) as [[ret c1] out] eqn:Hcall.
    destruct (ret <? 0) eqn:Hret; [discriminate|].
    apply (IH _ _ _ _ _ _ (shoutcast_source_client_step B mount e c sent received
                             Hinv Hops ret c1 out Hcall Hret) Hrun).
Qed.

Lemma shoutcast_fresh_inv (B : Z) (c : client_t) :
  shoutcast_fresh c = true ->
  session_inv B (shoutcast_mount (server_conn c)) c [] [].
Proof.
  unfold shoutcast_fresh, session_inv. intros Hfresh. split; [reflexivity|]. left.
  destruct (ops c); try discriminate.
  destruct (shared_data c) as [[[|] [|]]|]; try discriminate.
  destruct (refbuf c); try discriminate.
  apply Z.eqb_eq in Hfresh. repeat split; eauto.
Qed.

(** C1 (as amended). In a legacy session that starts from a fresh client and
    has switched to the HTTP preamble reader, everything sent to the peer is
    [OK2\r\nicy-caps:11\r\n\r\n], all of it, so the response is out before
    the switch. When what the session read is a password line [P], the run
    of CR and LF ending it and header bytes [H], with [P] of at most 120
    bytes and the built request within [B - 1] bytes, the client's buffer is
    [SOURCE <mount> HTTP/1.0\r\nAuthorization: Basic <b64>\r\n] followed by
    [H], and [b64] decodes to [source:P]. *)
Theorem shoutcast_session_builds_request (B : Z) (es : list invocation)
    (c c' : client_t) (sent P E H : bytes) :
  shoutcast_fresh c = true ->
  shoutcast_session B es c [] [] = Some (c', sent, P ++ E ++ H) ->
  ops c' = http_request_ops ->
  password_line P = true -> eol_run E = true -> header_bytes H = true ->
  (length P <= 120)%nat ->
  Z.of_nat (length (legacy_request (shoutcast_mount (server_conn c))
                                   (util_base64_encode (str "source:" ++ P)) H))
  <= B - 1 ->
  sent = str "OK2" ++ [CR; LF] ++ str "icy-caps:11" ++ [CR; LF; CR; LF] /\
  exists b64,
    shared_data c'
    = Some (mkRefbuf (legacy_request (shoutcast_mount (server_conn c)) b64 H) None) /\
    util_base64_decode b64 = Some (str "source:" ++ P).
Proof.
  intros Hfresh Hrun Hops HP HE HH Hlen Hfit.
  pose proof (shoutcast_session_inv B _ es c [] [] c' sent (P ++ E ++ H)
                (shoutcast_fresh_inv B c Hfresh) Hrun) as [_ [P1 | [P2 | P3]]].
  - destruct P1 as (Hops' & _). congruence.
  - destruct P2 as (Hops' & _). congruence.
  - destruct P3 as (_ & Hsd & Hsent). split; [exact Hsent|].
    exists (util_base64_encode (str "source:" ++ P)).
    rewrite Hsd, (synthesised_dialogue B _ P E H HP HE HH Hlen Hfit).
    split; [reflexivity | apply util_base64_decode_encode].
Qed.

Lemma shoutcast_session_builds_request_witness :
  exists c' b64,
    shoutcast_session 4096 [legacy_dialogue (str "hackme") demo_headers]
                      (demo_client shoutcast_source_ops) [] []
    = Some (c', str "OK2" ++ [CR; LF] ++ str "icy-caps:11" ++ [CR; LF; CR; LF],
            str "hackme" ++ [CR; LF] ++ demo_headers) /\
    shared_data c' = Some (mkRefbuf (legacy_request "/live" b64 demo_headers) None) /\
    util_base64_decode b64 = Some (str "source:hackme").
Proof.
  destruct (shoutcast_session 4096 [legacy_dialogue (str "hackme") demo_headers]
                              (demo_client shoutcast_source_ops) [] [])
    as [[[c' sent] received]|] eqn:Hrun; [|discriminate Hrun].
  assert (Hrec : received = str "hackme" ++ [CR; LF] ++ demo_headers)
    by (vm_compute in Hrun; inversion Hrun; reflexivity).
  assert (Hops : ops c' = http_request_ops)
    by (vm_compute in Hrun; inversion Hrun; reflexivity).
  subst received.
  destruct (shoutcast_session_builds_request 4096
              [legacy_dialogue (str "hackme") demo_headers]
              (demo_client shoutcast_source_ops) c' sent
              (str "hackme") [CR; LF] demo_headers)
    as [Hsent (b64 & Hsd & Hdec)];
    try reflexivity; try assumption; try (vm_compute; lia).
  - vm_compute. discriminate.
  - exists c', b64. subst sent. repeat split; assumption.
Defined.

(** C1, counterexample. The peer sends a password line of 121 letters and
    the headers of the scenario. The session switches with the response
    sent, and the buffer has the specified form, but its base64 text is
    that of [source:] and the first 120 letters: the 128-byte [header] of
    [shoutcast_source_client] cut the password, and decoding does not give
    [source:P]. *)
Lemma shoutcast_long_password_is_cut :
  let P := repeat "a"%char 121 in
  let cut := str "source:" ++ repeat "a"%char 120 in
  exists c',
    shoutcast_session 4096 [legacy_dialogue P demo_headers]
                      (demo_client shoutcast_source_ops) [] []
    = Some (c', shoutcast_response, P ++ [CR; LF] ++ demo_headers) /\
    ops c' = http_request_ops /\
    shared_data c'
    = Some (mkRefbuf (legacy_request "/live" (util_base64_encode cut) demo_headers) None) /\
    util_base64_decode (util_base64_encode cut) = Some cut /\
    cut <> str "source:" ++ P.
Proof.
  intros P cut. eexists. split; [vm_compute; reflexivity|].
  split; [reflexivity|]. split; [vm_compute; reflexivity|].
  split; [apply util_base64_decode_encode|].
  intros Heq. apply (f_equal (@length ascii)) in Heq. vm_compute in Heq. discriminate.
Qed.

(** The same dialogue in pieces: the password line arrives over two reads,
    the socket first would block, then takes 5 and then 15 bytes of the
    response. The switch comes with the last byte of the response. *)
Example shoutcast_session_in_pieces :
  let e1 := {| running := true; time_ms := 5100; current_time_sec := 5;
               rd := read_stored (str "hack"); wr_room := 0 |} in
  let e2 := {| running := true; time_ms := 5200; current_time_sec := 5;
               rd := read_stored (str "me" ++ [CR; LF] ++ demo_headers); wr_room := 0 |} in
  let e3 := {| running := true; time_ms := 5300; current_time_sec := 5;
               rd := read_failed false; wr_room := 5 |} in
  let e4 := {| running := true; time_ms := 5400; current_time_sec := 5;
               rd := read_failed false; wr_room := 15 |} in
  option_map (fun r => (ops (fst (fst r)), snd (fst r)))
    (shoutcast_session 4096 [e1; e2; e3] (demo_client shoutcast_source_ops) [] [])
  = Some (shoutcast_source_ops, str "OK2" ++ [CR; LF]) /\
  option_map (fun r => (ops (fst (fst r)), snd (fst r)))
    (shoutcast_session 4096 [e1; e2; e3; e4] (demo_client shoutcast_source_ops) [] [])
  = Some (http_request_ops, shoutcast_response).
Proof. split; vm_compute; reflexivity. Qed.

(** The other bound of the amended statement: in a 64-byte buffer the built
    request is cut after 63 bytes and the header bytes are lost. *)
Example shoutcast_request_is_cut_to_the_buffer :
  synthesised 64 "/live" (str "hackme" ++ [CR; LF] ++ demo_headers)
  = take 63 (legacy_request "/live" (str "c291cmNlOmhhY2ttZQ==") demo_headers) /\
  synthesised 64 "/live" (str "hackme" ++ [CR; LF] ++ demo_headers)
  <> legacy_request "/live" (str "c291cmNlOmhhY2ttZQ==") demo_headers.
Proof. split; [vm_compute; reflexivity | vm_compute; discriminate]. Qed.

(** Why the amended statement asks for bytes free of NUL: the adapter reads
    its buffer as a C string, so a NUL in the password line hides the end of
    line behind it and the adapter goes on waiting. *)
Example shoutcast_nul_hides_end_of_line :
  let e := {| running := true; time_ms := 5100; current_time_sec := 5;
              rd := read_stored (str "hack" ++ [NUL] ++ str "me" ++ [CR; LF] ++ demo_headers);
              wr_room := 64 |} in
  option_map (fun r => (ops (fst (fst r)), snd (fst r)))
    (shoutcast_session 4096 [e] (demo_client shoutcast_source_ops) [] [])
  = Some (shoutcast_source_ops, []).
Proof. vm_compute. reflexivity. Qed.

(** A session does get to the switch: when one read brings the password
    line, its end and the header bytes, and the socket takes the whole
    response, the first call switches. *)
Lemma shoutcast_session_one_call (B : Z) (c : client_t) (e : invocation)
    (P E H : bytes) :
  shoutcast_fresh c = true ->
  error (connection c) = false ->
  current_time_sec e < discon_time (connection c) ->
  running e = true -> B - 2 <> 0 -> 20 <= wr_room e ->
  rd e = read_stored (P ++ E ++ H) ->
  password_line P = true -> eol_run E = true -> header_bytes H = true ->
  exists c',
    shoutcast_session B [e] c [] [] = Some (c', shoutcast_response, P ++ E ++ H) /\
    ops c' = http_request_ops.
Proof.
  intros Hfresh Herr Hdl Hrun HB Hroom Hrd HP HE HH.
  pose proof shoutcast_response_length as Hlen.
  destruct (password_line_parts P HP) as [HPeol HPnul].
  destruct (eol_run_parts E HE) as (x & E' & -> & Hx & HE' & HEnul).
  pose proof HH as HH'. unfold header_bytes in HH'.
  apply andb_true_iff in HH' as [HHnul _].
  assert (Hnn : forallb not_nul (P ++ (x :: E') ++ H) = true)
    by (rewrite !forallb_app, HPnul, HEnul, HHnul; reflexivity).
  unfold shoutcast_fresh in Hfresh.
  destruct c as [con sd rb p o rc sm cnt sc]. cbn in Hfresh, Herr, Hdl.
  destruct o; try discriminate.
  destruct sd as [[[|] [|]]|]; try discriminate.
  destruct rb; try discriminate. apply Z.eqb_eq in Hfresh. subst p.
  cbn [shoutcast_session ops].
  unfold shoutcast_source_client, shoutcast_password, shoutcast_stored, latch_error.
  cbn [connection shared_data]. rewrite Herr, Hrd. cbn [orb rd_ret rd_data rd_error].
  destruct (Z.leb_spec (discon_time con) (current_time_sec e)) as [?|_]; [lia|].
  change (len (mkRefbuf [] None)) with 0. rewrite Z.sub_0_r.
  destruct (Z.eqb_spec (B - 2) 0) as [?|_]; [contradiction|].
  cbn [connection]. rewrite Herr, Hrun. cbn [negb orb].
  destruct (Z.eqb_spec (Z.of_nat (length (P ++ (x :: E') ++ H))) 0) as [Hz|_].
  { rewrite !length_app in Hz. simpl in Hz. lia. }
  destruct (Z.ltb_spec (Z.of_nat (length (P ++ (x :: E') ++ H))) 0) as [?|_]; [lia|].
  cbn [data app associated].
  rewrite cstr_no_nul by exact Hnn.
  rewrite (strcspn_eol_line P _ HPeol). cbn [app strcspn_eol]. rewrite Hx, Nat.add_0_r.
  destruct (Nat.eqb_spec (length P) (length (P ++ x :: E' ++ H))) as [Heq|_].
  { rewrite length_app in Heq. simpl in Heq. lia. }
  unfold format_generic_write_to_client.
  cbn -[shoutcast_response shoutcast_request].
  destruct (Z.leb_spec (wr_room e) 0) as [?|_]; [lia|].
  change (Z.to_nat 0) with 0%nat. rewrite drop_0.
  rewrite (take_ge shoutcast_response) by (rewrite Hlen; lia).
  unfold len. cbn -[shoutcast_response shoutcast_request]. rewrite !Hlen.
  cbn -[shoutcast_response shoutcast_request].
  eexists. split; reflexivity.
Qed.

(* --------------------------------------------------------------------- *)
(** ** I/O adapter: what the buffers hold and what a write offers       *)
(* --------------------------------------------------------------------- *)

Lemma take_S_insert {A : Type} (l : list A) (c : nat) (x : A) :
  (c < length l)%nat -> take (S c) (<[c := x]> l) = take c l ++ [x].
Proof.
  intros Hc. rewrite (take_S_r _ _ x) by (apply list_lookup_insert_eq; exact Hc).
  rewrite take_insert_ge by lia. reflexivity.
Qed.

Lemma connection_bufs_init_wf (start : Z) :
  bufs_wf (connection_bufs_init start) = true /\ count (connection_bufs_init start) = 0%nat.
Proof.
  unfold connection_bufs_init, bufs_wf.
  destruct (negb (start =? 0) && (start <? 500)); cbn; [|auto].
  rewrite length_replicate, Nat.eqb_refl. auto.
Qed.

(** One append on well-formed buffers: the vector goes behind the vectors
    in use, also when the block had to grow. *)
Lemma connection_bufs_append_in_use (v : connection_bufs) (buf len : Z) :
  bufs_wf v = true -> 0 <= len <= 16777215 -> total v + len <= 2147483647 ->
  exists v',
    connection_bufs_append v buf len = Returned (total v + len, v') /\
    bufs_wf v' = true /\
    in_use v' = in_use v ++ [mkIOVEC buf len] /\
    total v' = total v + len.
Proof.
  intros Hwf Hlen Hsum.
  destruct (connection_bufs_append v buf len) as [|[t v']] eqn:Happ.
  { unfold connection_bufs_append in Happ.
    destruct (Z.gtb_spec len 16777215); [exfalso; lia|].
    destruct (if (max v <=? count v)%nat then _ else _). discriminate. }
  destruct (connection_bufs_append_wf v v' buf len t Hwf ltac:(lia) Hsum Happ) as [Hwf' ->].
  exists v'. split; [reflexivity|]. split; [exact Hwf'|]. clear Hwf'.
  unfold bufs_wf in Hwf. rewrite !andb_true_iff in Hwf.
  destruct Hwf as [[[[H0 H1] _] _] _].
  apply Nat.eqb_eq in H0. apply Nat.leb_le in H1.
  unfold connection_bufs_append in Happ.
  destruct (Z.gtb_spec len 16777215); [exfalso; lia|].
  unfold in_use.
  assert (Hfill : length (replicate 16%nat (mkIOVEC 0 0)) = 16%nat)
    by apply length_replicate.
  remember (replicate 16%nat (mkIOVEC 0 0)) as fill eqn:Efill. clear Efill.
  destruct (Nat.leb_spec (max v) (count v)) as [Hfull|Hroom];
    inversion Happ; subst v'; clear Happ; cbn [count block total];
    (split; [|reflexivity]).
  - rewrite take_S_insert.
    2:{ rewrite length_take, length_app, Hfill. lia. }
    rewrite take_take. f_equal.
    replace (count v `min` (max v + 16))%nat with (count v) by lia.
    rewrite take_app_le by lia. reflexivity.
  - apply take_S_insert. lia.
Qed.

Lemma connection_bufs_append_all_in_use (ios : list IOVEC) :
  forall v,
    bufs_wf v = true ->
    forallb (fun io => (0 <=? iov_len io) && (iov_len io <=? 16777215)) ios = true ->
    total v + sum_len ios <= 2147483647 ->
    exists v',
      connection_bufs_append_all v ios = Returned v' /\
      bufs_wf v' = true /\
      in_use v' = in_use v ++ ios /\
      total v' = total v + sum_len ios.
Proof.
  induction ios as [|io ios IH]; intros v Hwf Hok Hsum.
  - exists v. cbn. rewrite app_nil_r, Z.add_0_r. auto.
  - change (sum_len (io :: ios)) with (iov_len io + sum_len ios) in *.
    cbn [connection_bufs_append_all forallb] in *.
    apply andb_true_iff in Hok as [Hio Hok].
    apply andb_true_iff in Hio as [Hlo Hhi]. apply Z.leb_le in Hlo, Hhi.
    assert (Hnn : 0 <= sum_len ios).
    { apply sum_len_nonneg. apply List.Forall_forall. intros x Hx.
      rewrite forallb_forall in Hok. specialize (Hok x Hx).
      apply andb_true_iff in Hok as [Hx0 _]. apply Z.leb_le in Hx0. exact Hx0. }
    destruct (connection_bufs_append_in_use v (iov_base io) (iov_len io) Hwf)
      as (v1 & Happ & Hwf1 & Hin1 & Htot1); [lia | lia |].
    rewrite Happ.
    destruct (IH v1 Hwf1 Hok) as (v' & Hall & Hwf' & Hin' & Htot'); [lia|].
    exists v'. rewrite Hall, Hin', Hin1, Htot', Htot1, <- app_assoc.
    destruct io as [b l]. cbn [iov_base iov_len app]. repeat split; auto. lia.
Qed.

Lemma in_use_count (v : connection_bufs) :
  bufs_wf v = true -> length (in_use v) = count v.
Proof.
  intros Hwf. destruct (bufs_wf_parts v Hwf) as (Hcnt & _).
  unfold in_use. rewrite length_take. lia.
Qed.

(** X1. Buffers set up by [connection_bufs_init] with any [start >= 0] and
    filled by a run of [connection_bufs_append] whose lengths are each at
    most [0xFFFFFF] and add up to at most 2147483647, so that the [int]
    [total] does not wrap, hold exactly the vectors appended, in order,
    however often the block had to grow, and [total] is the sum of their
    lengths. After [connection_bufs_flush] the same buffers take the next
    such run the same way. *)
Theorem connection_bufs_hold_what_was_appended (start : Z)
    (ios more : list IOVEC) :
  0 <= start ->
  appendable ios = true ->
  appendable more = true ->
  exists v v2,
    connection_bufs_append_all (connection_bufs_init start) ios = Returned v /\
    in_use v = ios /\ count v = length ios /\ total v = sum_len ios /\
    bufs_wf v = true /\
    connection_bufs_append_all (connection_bufs_flush v) more = Returned v2 /\
    in_use v2 = more /\ total v2 = sum_len more.
Proof.
  intros _ Hios Hmore. unfold appendable in *.
  apply andb_true_iff in Hios as [Hok Hsum]. apply Z.leb_le in Hsum.
  apply andb_true_iff in Hmore as [Hok2 Hsum2]. apply Z.leb_le in Hsum2.
  destruct (connection_bufs_init_wf start) as [Hwf0 Hc0].
  assert (Ht0 : total (connection_bufs_init start) = 0).
  { unfold connection_bufs_init. destruct (_ && _); reflexivity. }
  destruct (connection_bufs_append_all_in_use ios _ Hwf0 Hok) as (v & Hall & Hwf & Hin & Htot);
    [lia|].
  unfold in_use at 2 in Hin. rewrite Hc0, take_0 in Hin. cbn [app] in Hin.
  assert (Hflush : bufs_wf (connection_bufs_flush v) = true).
  { apply connection_bufs_flush_wf. unfold bufs_wf in Hwf.
    rewrite !andb_true_iff in Hwf. destruct Hwf as [[[[H0 _] _] _] _].
    apply Nat.eqb_eq in H0. exact H0. }
  destruct (connection_bufs_append_all_in_use more _ Hflush Hok2)
    as (v2 & Hall2 & _ & Hin2 & Htot2); [cbn; lia|].
  exists v, v2. cbn [total connection_bufs_flush] in Htot2.
  repeat split; auto; try lia.
  rewrite <- (in_use_count v Hwf), Hin. reflexivity.
Qed.

Lemma connection_bufs_hold_what_was_appended_witness :
  exists v v2,
    connection_bufs_append_all (connection_bufs_init 1) three_vectors = Returned v /\
    in_use v = three_vectors /\ count v = length three_vectors /\
    total v = sum_len three_vectors /\
    bufs_wf v = true /\
    connection_bufs_append_all (connection_bufs_flush v) [mkIOVEC 4000 7] = Returned v2 /\
    in_use v2 = [mkIOVEC 4000 7] /\ total v2 = sum_len [mkIOVEC 4000 7].
Proof.
  apply (connection_bufs_hold_what_was_appended 1 three_vectors [mkIOVEC 4000 7]).
  - lia.
  - reflexivity.
  - reflexivity.
Defined.

(** X2. On a plain socket a vector write with [skip] below [total] offers
    [sock_writev] exactly the bytes behind [skip]: the vector that holds byte
    [skip], advanced by the offset into it, and the vectors in use behind it;
    their lengths add up to [total - skip]. The result is what [sock_writev]
    answers; a positive answer is added to [sent_bytes] once, a negative one
    sets the error flag unless it is recoverable; and the buffers are handed
    back as they were. *)
Theorem connection_bufs_send_offers_unsent (tr : transport) (con : connection_t)
    (v : connection_bufs) (skip : Z) :
  bufs_wf v = true ->
  0 <= skip < total v ->
  ssl con = false ->
  exists q w residual,
    (q < count v)%nat /\ block v !! q = Some w /\
    0 <= skip - sum_len (take q (block v)) < iov_len w /\
    residual
    = mkIOVEC (iov_base w + (skip - sum_len (take q (block v))))
              (iov_len w - (skip - sum_len (take q (block v))))
      :: take (count v - S q) (drop (S q) (block v)) /\
    sum_len residual = total v - skip /\
    connection_bufs_send tr con v skip
    = Returned (sock_writev tr residual,
                (if sock_writev tr residual >? 0
                 then add_sent con (sock_writev tr residual)
                 else if (sock_writev tr residual <? 0) && negb (sock_recoverable tr)
                      then set_error con else con),
                v).
Proof.
  intros Hwf [Hskip Hlt] Hssl.
  unfold connection_bufs_send.
  destruct (Z.gtb_spec skip (total v)) as [Hgt|_]; [exfalso; lia|].
  destruct (connbufs_locate_start_spec v skip Hwf Hskip)
    as [[Hge Heq] | (q & w & off & _ & Hq & Hw & Hoff & Hoffeq & Heq)];
    [exfalso; lia|].
  rewrite Heq. clear Heq.
  set (w' := mkIOVEC (iov_base w + off) (iov_len w - off)).
  destruct (residual_sum v q w w' skip Hwf Hq Hw ltac:(simpl; lia) ltac:(simpl; lia))
    as [Hsum _].
  rewrite (residual_insert _ _ _ w w' Hw Hq) in Hsum.
  exists q, w, (w' :: take (count v - S q) (drop (S q) (block v))).
  rewrite <- Hoffeq. fold w'.
  split; [exact Hq|]. split; [exact Hw|]. split; [exact Hoff|].
  split; [reflexivity|]. split; [exact Hsum|].
  assert (Hpos : (0 <=? Z.of_nat q) = true) by (apply Z.leb_le; lia).
  unfold bufs_transmit, not_ssl_connection. rewrite Hssl. cbn [negb].
  destruct (Z.eqb_spec off 0) as [H0|Hn0].
  - rewrite Hpos, Nat2Z.id.
    assert (Hres : take (count v - q) (drop q (block v))
                   = w' :: take (count v - S q) (drop (S q) (block v))).
    { rewrite <- (residual_insert _ _ _ w w' Hw Hq).
      replace w' with w; [rewrite (list_insert_id _ _ _ Hw); reflexivity|].
      subst w'. destruct w as [b l]. cbn. rewrite H0, Z.add_0_r, Z.sub_0_r. reflexivity. }
    rewrite Hres.
    set (ret := sock_writev tr _).
    rewrite H0. cbn [Z.eqb].
    destruct (Z.gtb_spec ret 0) as [Hg|Hg].
    + destruct (Z.ltb_spec ret 0); [exfalso; lia|]. reflexivity.
    + reflexivity.
  - rewrite Hpos, Nat2Z.id. cbn [count block max total].
    rewrite (residual_insert _ _ _ w w' Hw Hq).
    set (ret := sock_writev tr _).
    destruct (Z.eqb_spec off 0) as [?|_]; [contradiction|].
    rewrite (insert_back _ _ w w' Hw).
    destruct (Z.gtb_spec ret 0) as [Hg|Hg].
    + destruct (Z.ltb_spec ret 0); [exfalso; lia|]. destruct v; reflexivity.
    + destruct v; reflexivity.
Qed.

Lemma connection_bufs_send_offers_unsent_witness :
  exists q w residual,
    (q < count demo_bufs)%nat /\ block demo_bufs !! q = Some w /\
    0 <= 4 - sum_len (take q (block demo_bufs)) < iov_len w /\
    residual
    = mkIOVEC (iov_base w + (4 - sum_len (take q (block demo_bufs))))
              (iov_len w - (4 - sum_len (take q (block demo_bufs))))
      :: take (count demo_bufs - S q) (drop (S q) (block demo_bufs)) /\
    sum_len residual = total demo_bufs - 4 /\
    connection_bufs_send demo_plain (mkCon false 0 false 0) demo_bufs 4
    = Returned (sock_writev demo_plain residual,
                (if sock_writev demo_plain residual >? 0
                 then add_sent (mkCon false 0 false 0) (sock_writev demo_plain residual)
                 else if (sock_writev demo_plain residual <? 0)
                         && negb (sock_recoverable demo_plain)
                      then set_error (mkCon false 0 false 0)
                      else mkCon false 0 false 0),
                demo_bufs).
Proof.
  apply (connection_bufs_send_offers_unsent demo_plain (mkCon false 0 false 0) demo_bufs 4).
  - reflexivity.
  - simpl; lia.
  - reflexivity.
Defined.

Lemma ssl_loop_keeps_error (tr : transport) :
  forall ios k bytes con,
    error con = true -> error (snd (ssl_loop tr k ios bytes con)) = true.
Proof.
  induction ios as [|io rest IH]; intros k bytes con Herr; cbn [ssl_loop].
  - exact Herr.
  - unfold connection_send_ssl.
    destruct (SSL_write tr k io) as [b code].
    destruct code;
      match goal with
      | |- context [if ?c then _ else _] => destruct c
      end; cbn [snd]; try apply IH; cbn; auto.
Qed.

(** X3. No call of the I/O adapter clears a latched error: with the flag
    set before [connection_read], [connection_send], [connection_read_ssl],
    [connection_send_ssl] or [connection_bufs_send], it is set after. *)
Theorem connection_io_keeps_error (con : connection_t) :
  error con = true ->
  (forall r, error (snd (connection_read con r)) = true) /\
  (forall r, error (snd (connection_send con r)) = true) /\
  (forall r, error (snd (connection_read_ssl con r)) = true) /\
  (forall r, error (snd (connection_send_ssl con r)) = true) /\
  (forall tr v skip ret con' v',
      connection_bufs_send tr con v skip = Returned (ret, con', v') ->
      error con' = true).
Proof.
  intros Herr. repeat split.
  - intros r. unfold connection_read.
    destruct (sock_bytes r =? 0), ((sock_bytes r =? -1) && _); cbn; auto.
  - intros r. unfold connection_send.
    destruct (sock_bytes r <? 0); [destruct (negb _)|]; cbn; auto.
  - intros [b code]. destruct code; cbn; auto.
  - intros [b code]. destruct code; cbn; auto.
  - intros tr v skip ret con' v'. unfold connection_bufs_send.
    destruct (skip >? total v); [discriminate|].
    destruct (connbufs_locate_start v skip None 0) as [[[i v1] old] off].
    destruct (0 <=? i); [|intros H; inversion H; subst; exact Herr].
    unfold bufs_transmit.
    destruct (not_ssl_connection con).
    + intros H. inversion H; subst.
      destruct (_ >? 0), (_ && _); cbn; auto.
    + pose proof (ssl_loop_keeps_error tr
                    (take (count v1 - Z.to_nat i) (drop (Z.to_nat i) (block v1)))
                    0%nat 0 con Herr) as Hloop.
      destruct (ssl_loop tr 0 _ 0 con) as [bytes c1]. cbn [snd] in Hloop.
      intros H. inversion H; subst.
      repeat match goal with
             | |- context [if ?c then _ else _] => destruct c
             end; cbn; auto.
Qed.

Lemma connection_io_keeps_error_witness :
  (forall r, error (snd (connection_read (mkCon false 0 true 0) r)) = true) /\
  (forall r, error (snd (connection_send (mkCon false 0 true 0) r)) = true) /\
  (forall r, error (snd (connection_read_ssl (mkCon false 0 true 0) r)) = true) /\
  (forall r, error (snd (connection_send_ssl (mkCon false 0 true 0) r)) = true) /\
  (forall tr v skip ret con' v',
      connection_bufs_send tr (mkCon false 0 true 0) v skip = Returned (ret, con', v') ->
      error con' = true).
Proof.
  apply (connection_io_keeps_error (mkCon false 0 true 0)). reflexivity.
Defined.

(* --------------------------------------------------------------------- *)
(** ** Chunk framing                                                    *)
(* --------------------------------------------------------------------- *)

Lemma hex_digit_value_digit (d : Z) :
  0 <= d < 16 ->
  hex_digit_value (hex_digit d) = Some d /\ Ascii.eqb (hex_digit d) CR = false.
Proof.
  intros Hd.
  assert (Hall : forallb (fun k => match hex_digit_value (hex_digit (Z.of_nat k)) with
                                   | Some m => (m =? Z.of_nat k)
                                               && negb (Ascii.eqb (hex_digit (Z.of_nat k)) CR)
                                   | None => false
                                   end) (seq 0 16) = true) by (vm_compute; reflexivity).
  rewrite forallb_forall in Hall.
  specialize (Hall (Z.to_nat d)). rewrite Z2Nat.id in Hall by lia.
  assert (Hin : In (Z.to_nat d) (seq 0 16)) by (apply in_seq; lia).
  specialize (Hall Hin).
  destruct (hex_digit_value (hex_digit d)) as [m|]; [|discriminate].
  apply andb_true_iff in Hall as [Hm Hcr].
  apply Z.eqb_eq in Hm. apply negb_true_iff in Hcr. subst m. auto.
Qed.

Lemma hex_loop_S (fuel : nat) (n : Z) (acc : bytes) :
  hex_loop (S fuel) n acc
  = if n / 16 =? 0 then hex_digit (n mod 16) :: acc
    else hex_loop fuel (n / 16) (hex_digit (n mod 16) :: acc).
Proof. reflexivity. Qed.

(** The digits [hex_loop] puts before [acc] read back as the number, there
    is at least one and none is a CR. *)
Lemma hex_loop_spec (fuel : nat) :
  forall n acc,
    0 <= n < 16 ^ Z.of_nat (S fuel) ->
    hex_value_from 0 (hex_loop (S fuel) n acc) = hex_value_from n acc /\
    (exists digits,
        hex_loop (S fuel) n acc = digits ++ acc /\
        (1 <= length digits <= S fuel)%nat /\
        strchr digits CR = None).
Proof.
  induction fuel as [|fuel IH]; intros n acc Hn;
    assert (Hmod : 0 <= n mod 16 < 16) by (apply Z.mod_pos_bound; lia);
    destruct (hex_digit_value_digit (n mod 16) Hmod) as [Hval Hcr];
    rewrite hex_loop_S;
    (destruct (Z.eqb_spec (n / 16) 0) as [Hz|Hnz];
     [ split;
       [ cbn [hex_value_from]; rewrite Hval; f_equal;
         rewrite (Z.div_mod n 16) at 2 by lia; lia
       | exists [hex_digit (n mod 16)]; cbn [app length strchr];
         rewrite Hcr; repeat split; lia ]
     | ]).
  - exfalso. apply Hnz. apply Z.div_small. change (16 ^ Z.of_nat 1) with 16 in Hn. lia.
  - assert (Hdiv : 0 <= n / 16 < 16 ^ Z.of_nat (S fuel)).
    { rewrite (Nat2Z.inj_succ (S fuel)), Z.pow_succ_r in Hn by lia.
      split; [apply Z.div_pos; lia | apply Z.div_lt_upper_bound; lia]. }
    destruct (IH (n / 16) (hex_digit (n mod 16) :: acc) Hdiv)
      as [Hv (digits & Hd & Hlen & Hchr)].
    split.
    + rewrite Hv. cbn [hex_value_from]. rewrite Hval. f_equal.
      rewrite (Z.div_mod n 16) at 3 by lia. lia.
    + exists (digits ++ [hex_digit (n mod 16)]).
      rewrite Hd, <- app_assoc, length_app. cbn [app length].
      repeat split; try lia.
      clear - Hchr Hcr. induction digits as [|x digits IHd]; cbn [app strchr] in *.
      * rewrite Hcr. reflexivity.
      * destruct (Ascii.eqb x CR); [discriminate|].
        destruct (strchr digits CR); [discriminate|].
        rewrite IHd by reflexivity. reflexivity.
Qed.

Lemma sprintf_x_spec (n : Z) :
  0 <= n < 2 ^ 32 ->
  hex_value (sprintf_x n) = Some n /\
  (1 <= length (sprintf_x n) <= 8)%nat /\
  strchr (sprintf_x n) CR = None.
Proof.
  intros Hn. unfold sprintf_x. rewrite Z.mod_small by lia.
  destruct (hex_loop_spec 7 n [] ltac:(change (16 ^ Z.of_nat 8) with (2 ^ 32); lia))
    as [Hv (digits & Hd & Hlen & Hchr)].
  rewrite app_nil_r in Hd. rewrite Hd in *.
  repeat split; try lia; try assumption.
  unfold hex_value. destruct digits; [cbn in Hlen; lia | exact Hv].
Qed.

Lemma strchr_app_found (a b : bytes) (c : ascii) :
  strchr a c = None -> strchr (a ++ c :: b) c = Some (length a).
Proof.
  induction a as [|x a IH]; cbn [app strchr length]; intros H.
  - rewrite Ascii.eqb_refl. reflexivity.
  - destruct (Ascii.eqb x c); [discriminate|].
    destruct (strchr a c); [discriminate|].
    rewrite IH by reflexivity. reflexivity.
Qed.

(** X4. With a header buffer of at least 11 bytes and a chunk size of 32
    bits, [connection_chunk_start] leaves in the buffer the size in
    hexadecimal (one to eight digits that read back as the size) followed by
    CR LF, and queues the buffer with that length. [connection_chunk_end] on
    that buffer does not abort for want of an end of line: it is the append
    of the two bytes at the CR. *)
Theorem connection_chunk_header_round_trip (CHUNK_HDR_SZ : nat)
    (bufs : connection_bufs) (chunk_hdr : Z) (held : bytes) (chunk_sz : Z) :
  (11 <= CHUNK_HDR_SZ)%nat ->
  0 <= chunk_sz < 2 ^ 32 ->
  bufs_wf bufs = true ->
  total bufs + 10 <= 2147483647 ->
  exists digits v1,
    connection_chunk_start CHUNK_HDR_SZ bufs chunk_hdr held chunk_sz
    = (digits ++ [CR; LF],
       Returned (total bufs + Z.of_nat (length digits) + 2, v1)) /\
    hex_value digits = Some chunk_sz /\
    (1 <= length digits <= 8)%nat /\
    in_use v1 = in_use bufs ++ [mkIOVEC chunk_hdr (Z.of_nat (length digits) + 2)] /\
    bufs_wf v1 = true /\
    forall v,
      connection_chunk_end v chunk_hdr (digits ++ [CR; LF])
      = connection_bufs_append v (chunk_hdr + Z.of_nat (length digits)) 2.
Proof.
  intros Hsz Hn Hwf Htot.
  destruct (sprintf_x_spec chunk_sz Hn) as (Hval & Hlen & Hchr).
  unfold connection_chunk_start.
  set (digits := sprintf_x chunk_sz) in *.
  assert (Hl : Z.of_nat (length (digits ++ [CR; LF])) = Z.of_nat (length digits) + 2).
  { rewrite length_app. cbn [length]. lia. }
  destruct (connection_bufs_append_in_use bufs chunk_hdr
              (Z.of_nat (length digits) + 2) Hwf ltac:(lia) ltac:(lia))
    as (v1 & Happ & Hwf1 & Hin1 & _).
  exists digits, v1. rewrite Hl, Happ.
  split.
  { f_equal; [|f_equal; f_equal; lia].
    destruct CHUNK_HDR_SZ as [|k]; [lia|].
    unfold snprintf. apply take_ge. rewrite length_app. cbn [length]. lia. }
  repeat split; try assumption; try lia.
  intros v. unfold connection_chunk_end.
  rewrite (strchr_app_found digits [LF] CR Hchr).
  replace (S (length digits)) with (length digits + 1)%nat by lia.
  unfold bytes. rewrite lookup_app_r by lia.
  replace (length digits + 1 - length digits)%nat with 1%nat by lia.
  cbn. reflexivity.
Qed.

Lemma connection_chunk_header_round_trip_witness :
  exists digits v1,
    connection_chunk_start 16 demo_bufs 5000 [] 4096
    = (digits ++ [CR; LF],
       Returned (total demo_bufs + Z.of_nat (length digits) + 2, v1)) /\
    hex_value digits = Some 4096 /\
    (1 <= length digits <= 8)%nat /\
    in_use v1 = in_use demo_bufs ++ [mkIOVEC 5000 (Z.of_nat (length digits) + 2)] /\
    bufs_wf v1 = true /\
    forall v,
      connection_chunk_end v 5000 (digits ++ [CR; LF])
      = connection_bufs_append v (5000 + Z.of_nat (length digits)) 2.
Proof.
  apply (connection_chunk_header_round_trip 16 demo_bufs 5000 [] 4096).
  - lia.
  - lia.
  - reflexivity.
  - simpl; lia.
Defined.

Example connection_chunk_start_4096 :
  fst (connection_chunk_start 16 demo_bufs 5000 [] 4096) = str "1000" ++ [CR; LF].
Proof. reflexivity. Qed.

(** In a buffer of 5 bytes the end of line is cut off, and
    [connection_chunk_end] aborts. *)
Example connection_chunk_end_short_buffer_aborts :
  connection_chunk_end demo_bufs 5000
    (fst (connection_chunk_start 5 demo_bufs 5000 [] 4096)) = Aborted.
Proof. reflexivity. Qed.

(* --------------------------------------------------------------------- *)
(** ** IP access cache: ordered maps                                    *)
(* --------------------------------------------------------------------- *)

Lemma ascii_compare_lt_trans (a b c : ascii) :
  Ascii.compare a b = Lt -> Ascii.compare b c = Lt -> Ascii.compare a c = Lt.
Proof.
  unfold Ascii.compare. rewrite !N.compare_lt_iff. lia.
Qed.

Lemma ascii_compare_eq (a b : ascii) : Ascii.compare a b = Eq -> a = b.
Proof.
  unfold Ascii.compare. rewrite N.compare_eq_iff. intros H.
  rewrite <- (ascii_N_embedding a), <- (ascii_N_embedding b), H. reflexivity.
Qed.

Lemma string_compare_lt_trans (a : string) :
  forall b c, String.compare a b = Lt -> String.compare b c = Lt ->
              String.compare a c = Lt.
Proof.
  induction a as [|x a IH]; intros [|y b] [|z c]; cbn [String.compare];
    try discriminate; try reflexivity.
  destruct (Ascii.compare x y) eqn:Hxy; try discriminate;
    destruct (Ascii.compare y z) eqn:Hyz; try discriminate; intros H1 H2.
  - apply ascii_compare_eq in Hxy, Hyz. subst.
    replace (Ascii.compare z z) with Eq; [eapply IH; eassumption|].
    unfold Ascii.compare. rewrite N.compare_refl. reflexivity.
  - apply ascii_compare_eq in Hxy. subst. rewrite Hyz. reflexivity.
  - apply ascii_compare_eq in Hyz. subst. rewrite Hxy. reflexivity.
  - rewrite (ascii_compare_lt_trans _ _ _ Hxy Hyz). reflexivity.
Qed.

Lemma strcmp_lt (a b : string) : strcmp a b < 0 <-> String.compare a b = Lt.
Proof.
  unfold strcmp. destruct (String.compare a b); split; intros H;
    try reflexivity; try discriminate H; try lia; exfalso; lia.
Qed.

Lemma strcmp_gt (a b : string) : 0 < strcmp a b <-> strcmp b a < 0.
Proof.
  unfold strcmp. rewrite (String.compare_antisym a b).
  destruct (String.compare b a); cbn; lia.
Qed.

Lemma strcmp_lt_trans (a b c : string) :
  strcmp a b < 0 -> strcmp b c < 0 -> strcmp a c < 0.
Proof. rewrite !strcmp_lt. apply string_compare_lt_trans. Qed.

Lemma strcmp_lt_neq (a b : string) : strcmp a b < 0 -> a <> b.
Proof. intros H ->. rewrite strcmp_refl in H. lia. Qed.

Lemma avl_ordered_node (l r : avl_tree) (k : banned_entry) :
  avl_ordered (avl_node l k r) = true <->
  (forall x, In x (avl_elements l) -> strcmp (ip x) (ip k) < 0) /\
  (forall x, In x (avl_elements r) -> strcmp (ip k) (ip x) < 0) /\
  avl_ordered l = true /\ avl_ordered r = true.
Proof.
  cbn [avl_ordered]. rewrite !andb_true_iff, !forallb_forall.
  split.
  - intros [[[Hl Hr] Hol] Hor]. repeat split; try assumption;
      intros x Hx; apply Z.ltb_lt; auto.
  - intros (Hl & Hr & Hol & Hor). repeat split; try assumption;
      intros x Hx; apply Z.ltb_lt; auto.
Qed.

(** In an ordered tree the search for the text of an entry finds it. *)
Lemma avl_ordered_find (now : Z) :
  forall t removal e,
    avl_ordered t = true -> In e (avl_elements t) ->
    fst (avl_get_by_key now t (ip e) removal) = Some e.
Proof.
  induction t as [|l IHl k r IHr]; intros removal e Hord Hin;
    cbn [avl_get_by_key avl_elements] in *; [contradiction|].
  apply avl_ordered_node in Hord as (Hl & Hr & Hol & Hor).
  compare_step now (ip e) k removal c mid Hc Hmid.
  apply in_app_or in Hin as [Hin | [Heq | Hin]].
  - specialize (Hl e Hin).
    destruct (Z.eqb_spec c 0); [exfalso; lia|].
    destruct (Z.ltb_spec c 0); [|exfalso; lia]. apply IHl; assumption.
  - subst e. rewrite strcmp_refl in Hc. subst c. reflexivity.
  - specialize (Hr e Hin). apply strcmp_gt in Hr.
    destruct (Z.eqb_spec c 0); [exfalso; lia|].
    destruct (Z.ltb_spec c 0); [exfalso; lia|]. apply IHr; assumption.
Qed.

Lemma ips_unique_app (a b : list banned_entry) :
  ips_unique (a ++ b)
  = ips_unique a && ips_unique b && forallb (fun x => ip_absent (ip x) b) a.
Proof.
  induction a as [|x a IH]; cbn [app ips_unique forallb].
  - rewrite andb_true_r. reflexivity.
  - rewrite IH, ip_absent_app.
    destruct (ip_absent (ip x) a), (ip_absent (ip x) b), (ips_unique a), (ips_unique b);
      cbn; try reflexivity; rewrite ?andb_false_r; reflexivity.
Qed.

Lemma ip_absent_intro (key : string) (l : list banned_entry) :
  (forall x, In x l -> ip x <> key) -> ip_absent key l = true.
Proof.
  intros H. unfold ip_absent. apply forallb_forall. intros x Hx.
  apply negb_true_iff, String.eqb_neq. apply H, Hx.
Qed.

(** An ordered tree holds one entry per IP text. *)
Lemma avl_ordered_unique (t : avl_tree) :
  avl_ordered t = true -> ips_unique (avl_elements t) = true.
Proof.
  induction t as [|l IHl k r IHr]; intros Hord; cbn [avl_elements]; [reflexivity|].
  apply avl_ordered_node in Hord as (Hl & Hr & Hol & Hor).
  rewrite ips_unique_app. cbn [ips_unique].
  rewrite (IHl Hol), (IHr Hor). cbn [andb].
  rewrite (ip_absent_intro (ip k) (avl_elements r)).
  2:{ intros x Hx. apply not_eq_sym. apply strcmp_lt_neq. apply Hr, Hx. }
  cbn [andb]. apply forallb_forall. intros x Hx.
  apply ip_absent_intro. intros y [Hy|Hy].
  - subst y. apply not_eq_sym, strcmp_lt_neq, Hl, Hx.
  - apply not_eq_sym, strcmp_lt_neq.
    apply (strcmp_lt_trans _ (ip k)); [apply Hl, Hx | apply Hr, Hy].
Qed.

(** Insert, delete and a write through a search result keep a tree
    ordered. *)
Lemma avl_insert_ordered (now : Z) (e : banned_entry) :
  forall t removal,
    avl_ordered t = true -> ip_absent (ip e) (avl_elements t) = true ->
    avl_ordered (fst (avl_insert now t e removal)) = true.
Proof.
  induction t as [|l IHl k r IHr]; intros removal Hord Habs;
    cbn [avl_insert avl_elements] in *; [reflexivity|].
  apply avl_ordered_node in Hord as (Hl & Hr & Hol & Hor).
  rewrite ip_absent_app in Habs. cbn [ip_absent forallb] in Habs.
  apply andb_true_iff in Habs as [Hal Hkr].
  apply andb_true_iff in Hkr as [Hk Har].
  apply negb_true_iff, String.eqb_neq in Hk.
  compare_step now (ip e) k removal c mid Hc Hmid.
  assert (Hne : c <> 0).
  { intros H0. apply Hk. symmetry. apply strcmp_eq. congruence. }
  destruct (Z.ltb_spec c 1) as [Hlt|Hge].
  - specialize (IHl mid Hol Hal).
    destruct (avl_insert_elements now e l mid) as (l1 & l2 & H1 & H2).
    destruct (avl_insert now l e mid) as [l' rem']. cbn [fst] in *.
    apply avl_ordered_node. repeat split; try assumption.
    intros x Hx. rewrite H2 in Hx. apply in_app_or in Hx as [Hx | [Hx | Hx]].
    + apply Hl. rewrite H1. apply in_or_app. auto.
    + subst x. lia.
    + apply Hl. rewrite H1. apply in_or_app. auto.
  - specialize (IHr mid Hor Har).
    destruct (avl_insert_elements now e r mid) as (l1 & l2 & H1 & H2).
    destruct (avl_insert now r e mid) as [r' rem']. cbn [fst] in *.
    apply avl_ordered_node. repeat split; try assumption.
    intros x Hx. rewrite H2 in Hx. apply in_app_or in Hx as [Hx | [Hx | Hx]].
    + apply Hr. rewrite H1. apply in_or_app. auto.
    + subst x. apply strcmp_gt. lia.
    + apply Hr. rewrite H1. apply in_or_app. auto.
Qed.

Lemma avl_take_first_ordered :
  forall t m t',
    avl_ordered t = true -> avl_take_first t = Some (m, t') ->
    avl_ordered t' = true /\
    (forall x, In x (avl_elements t') -> strcmp (ip m) (ip x) < 0).
Proof.
  induction t as [|l IHl k r _]; intros m t' Hord Htake;
    cbn [avl_take_first] in Htake; [discriminate|].
  apply avl_ordered_node in Hord as (Hl & Hr & Hol & Hor).
  pose proof (avl_take_first_elements l) as Hel.
  destruct (avl_take_first l) as [[m0 l']|]; inversion Htake; subst; clear Htake.
  - destruct (IHl m l' Hol eq_refl) as [Hol' Hmin].
    assert (Hm : strcmp (ip m) (ip k) < 0) by (apply Hl; rewrite Hel; left; reflexivity).
    split.
    + apply avl_ordered_node. repeat split; try assumption.
      intros x Hx. apply Hl. rewrite Hel. right. exact Hx.
    + cbn [avl_elements]. intros x Hx. apply in_app_or in Hx as [Hx | [Hx | Hx]].
      * apply Hmin, Hx.
      * subst x. exact Hm.
      * apply (strcmp_lt_trans _ (ip k)); [exact Hm | apply Hr, Hx].
  - split; assumption.
Qed.

Lemma avl_join_ordered (l r : avl_tree) (k : banned_entry) :
  avl_ordered (avl_node l k r) = true -> avl_ordered (avl_join l r) = true.
Proof.
  intros Hord. apply avl_ordered_node in Hord as (Hl & Hr & Hol & Hor).
  unfold avl_join.
  pose proof (avl_take_first_elements r) as Her.
  destruct (avl_take_first r) as [[m r']|] eqn:Htake; [|exact Hol].
  destruct (avl_take_first_ordered r m r' Hor Htake) as [Hor' Hmin].
  apply avl_ordered_node. repeat split; try assumption.
  intros x Hx. apply (strcmp_lt_trans _ (ip k)); [apply Hl, Hx|].
  apply Hr. rewrite Her. left. reflexivity.
Qed.

Lemma avl_delete_incl (now : Z) (key : string) (t : avl_tree)
    (removal : option banned_entry) :
  incl (avl_elements (fst (avl_delete now t key removal))) (avl_elements t).
Proof.
  destruct (avl_delete_spec now key t removal) as [_ Hd].
  destruct (fst (avl_get_by_key now t key removal)) as [e|].
  - destruct Hd as (l1 & l2 & H1 & H2 & _). rewrite H1, H2.
    intros x Hx. apply in_app_or in Hx as [Hx|Hx]; apply in_or_app; [left | right; right];
      exact Hx.
  - rewrite Hd. apply incl_refl.
Qed.

Lemma avl_delete_ordered (now : Z) (key : string) :
  forall t removal,
    avl_ordered t = true ->
    avl_ordered (fst (avl_delete now t key removal)) = true.
Proof.
  induction t as [|l IHl k r IHr]; intros removal Hord;
    cbn [avl_delete]; [reflexivity|].
  compare_step now key k removal c mid Hc Hmid.
  destruct (c =? 0); [cbn [fst]; eapply avl_join_ordered; exact Hord|].
  apply avl_ordered_node in Hord as (Hl & Hr & Hol & Hor).
  destruct (c <? 0).
  - pose proof (avl_delete_incl now key l mid) as Hincl.
    specialize (IHl mid Hol).
    destruct (avl_delete now l key mid) as [l' rem']. cbn [fst] in *.
    apply avl_ordered_node. repeat split; try assumption.
    intros x Hx. apply Hl, Hincl, Hx.
  - pose proof (avl_delete_incl now key r mid) as Hincl.
    specialize (IHr mid Hor).
    destruct (avl_delete now r key mid) as [r' rem']. cbn [fst] in *.
    apply avl_ordered_node. repeat split; try assumption.
    intros x Hx. apply Hr, Hincl, Hx.
Qed.

Lemma avl_update_found_ips (key : string) (f : banned_entry -> banned_entry) :
  (forall e, ip (f e) = ip e) ->
  forall t, map ip (avl_elements (avl_update_found t key f)) = map ip (avl_elements t).
Proof.
  intros Hf. induction t as [|l IHl k r IHr]; cbn [avl_update_found avl_elements];
    [reflexivity|].
  destruct (strcmp key (ip k) =? 0); [|destruct (strcmp key (ip k) <? 0)];
    cbn [avl_elements]; rewrite !map_app; cbn [map]; rewrite ?IHl, ?IHr, ?Hf; reflexivity.
Qed.

Lemma in_map_ip (x : banned_entry) (l l' : list banned_entry) :
  map ip l = map ip l' -> In x l -> exists y, In y l' /\ ip y = ip x.
Proof.
  intros Hmap Hin. apply (in_map ip) in Hin. rewrite Hmap in Hin.
  apply in_map_iff in Hin as (y & Hy & Hin). exists y. auto.
Qed.

Lemma avl_update_found_ordered (key : string) (f : banned_entry -> banned_entry) :
  (forall e, ip (f e) = ip e) ->
  forall t, avl_ordered t = true -> avl_ordered (avl_update_found t key f) = true.
Proof.
  intros Hf. induction t as [|l IHl k r IHr]; intros Hord;
    cbn [avl_update_found]; [reflexivity|].
  apply avl_ordered_node in Hord as (Hl & Hr & Hol & Hor).
  destruct (strcmp key (ip k) =? 0); [|destruct (strcmp key (ip k) <? 0)];
    apply avl_ordered_node; rewrite ?Hf; repeat split; auto.
  - intros x Hx.
    destruct (in_map_ip x _ _ (avl_update_found_ips key f Hf l) Hx) as (y & Hy & Hip).
    rewrite <- Hip. apply Hl, Hy.
  - intros x Hx.
    destruct (in_map_ip x _ _ (avl_update_found_ips key f Hf r) Hx) as (y & Hy & Hip).
    rewrite <- Hip. apply Hr, Hy.
Qed.

Lemma sweep_marked_ordered (g : ban_globals) (t : avl_tree)
    (mark : option banned_entry) :
  avl_ordered t = true -> map_ordered (snd (sweep_marked g t mark)) = true.
Proof.
  intros Hord. unfold sweep_marked, map_ordered. destruct mark as [m|].
  - pose proof (avl_delete_ordered (compare_arg (banned_ip g)) (ip m) t (Some m) Hord) as H.
    destruct (avl_delete _ t (ip m) (Some m)) as [t' rem']. exact H.
  - exact Hord.
Qed.

(** Lookups, and adds of a text the map does not hold, keep the map
    ordered. *)
Lemma search_banned_ip_locked_keeps_ordered (cpc : string -> string -> Z)
    (g : ban_globals) (key : string) :
  map_ordered g = true ->
  map_ordered (snd (search_banned_ip_locked cpc g key)) = true.
Proof.
  intros Hord. unfold search_banned_ip_locked.
  destruct (existsb _ _); [exact Hord|].
  unfold map_ordered in Hord.
  destruct (contents (banned_ip g)) as [t|] eqn:Ht;
    [|unfold map_ordered; cbn [snd]; rewrite Ht; reflexivity].
  destruct (avl_get_by_key (compare_arg (banned_ip g)) t key None) as [[found|] mark].
  - destruct ((timeout found =? 0) || (timeout found >? cachefile_timecheck g)).
    + unfold map_ordered. cbn [snd banned_ip contents with_contents].
      destruct (_ && _); [|exact Hord].
      apply avl_update_found_ordered; [reflexivity | exact Hord].
    + pose proof (avl_delete_ordered (compare_arg (banned_ip g)) key t mark Hord) as H.
      destruct (avl_delete _ t key mark) as [t' rem']. cbn [fst] in H.
      apply sweep_marked_ordered. exact H.
  - apply sweep_marked_ordered. exact Hord.
Qed.

Lemma connection_add_banned_ip_keeps_ordered (g : ban_globals) (key : string)
    (duration time_now : Z) :
  map_ordered g = true ->
  ip_absent (ip_field key) (literal_entries g) = true ->
  map_ordered (connection_add_banned_ip g key duration time_now) = true.
Proof.
  intros Hord Habs. unfold connection_add_banned_ip, add_banned_ip.
  destruct (contents (banned_ip g)) as [t|] eqn:Ht; [|exact Hord].
  unfold map_ordered, literal_entries in Hord, Habs. rewrite Ht in Hord, Habs.
  destruct (has_wildcard key).
  - unfold map_ordered. cbn [banned_ip contents]. try rewrite Ht. exact Hord.
  - set (added := {| ip := ip_field key;
                     timeout := if duration >? 0 then time_now + duration else 0 |}).
    pose proof (avl_insert_ordered (compare_arg (banned_ip g)) added t
                  (ban_entry_removal g) Hord Habs) as H.
    destruct (avl_insert _ t added _) as [t' rem']. exact H.
Qed.

(* --------------------------------------------------------------------- *)
(** ** IP access cache: release, lookups of known entries, wildcards    *)
(* --------------------------------------------------------------------- *)

Lemma connection_release_banned_ip_entries (g : ban_globals) (key : string) :
  literal_entries (connection_release_banned_ip g key)
  = match contents (banned_ip g) with
    | Some t => avl_elements (fst (avl_delete (compare_arg (banned_ip g)) t key
                                              (ban_entry_removal g)))
    | None => []
    end /\
  wildcards (banned_ip (connection_release_banned_ip g key)) = wildcards (banned_ip g).
Proof.
  unfold connection_release_banned_ip, literal_entries.
  destruct (contents (banned_ip g)) as [t|] eqn:Ht.
  - destruct (avl_delete _ t key _) as [t' rem']. split; reflexivity.
  - rewrite Ht. split; reflexivity.
Qed.

Lemma filter_ip_absent (key : string) (l : list banned_entry) :
  ip_absent key l = true ->
  List.filter (fun e => negb (String.eqb (ip e) key)) l = l.
Proof.
  unfold ip_absent. induction l as [|x l IH]; cbn [forallb List.filter]; [reflexivity|].
  intros H. apply andb_true_iff in H as [Hx Hl]. rewrite Hx, IH by exact Hl. reflexivity.
Qed.

(** X5. [connection_release_banned_ip] on an ordered map takes out the
    entry with the given text and nothing else (the map is left alone when
    no entry has it), leaves the wildcard list as it is and keeps the map
    ordered; a lookup of the text right after it says no match unless a
    wildcard pattern matches. *)
Theorem connection_release_banned_ip_removes (cpc : string -> string -> Z)
    (g : ban_globals) (key : string) :
  map_ordered g = true ->
  let g' := connection_release_banned_ip g key in
  literal_entries g'
  = List.filter (fun e => negb (String.eqb (ip e) key)) (literal_entries g) /\
  wildcards (banned_ip g') = wildcards (banned_ip g) /\
  map_ordered g' = true /\
  (no_wildcard_matches cpc g key = true ->
   fst (search_banned_ip_locked cpc g' key) = 0).
Proof.
  intros Hord g'. subst g'.
  destruct (connection_release_banned_ip_entries g key) as [Hent Hwild].
  assert (Hfilter : literal_entries (connection_release_banned_ip g key)
            = List.filter (fun e => negb (String.eqb (ip e) key)) (literal_entries g)).
  { rewrite Hent. unfold literal_entries, map_ordered in *.
    destruct (contents (banned_ip g)) as [t|]; [|reflexivity].
    set (now := compare_arg (banned_ip g)). set (rem := ban_entry_removal g).
    pose proof (avl_ordered_unique t Hord) as Hu.
    destruct (avl_delete_spec now key t rem) as [_ Hd].
    destruct (avl_get_by_key_spec now key t rem) as [Hg _].
    destruct (fst (avl_get_by_key now t key rem)) as [e|] eqn:Hget.
    - destruct Hd as (l1 & l2 & H1 & H2 & _). destruct (Hg e eq_refl) as [_ Hip].
      rewrite H2, H1. rewrite H1 in Hu.
      rewrite ips_unique_app in Hu. cbn [ips_unique] in Hu.
      rewrite !andb_true_iff in Hu. destruct Hu as [[_ [Hl2 _]] Hl1].
      rewrite List.filter_app. cbn [List.filter].
      replace (String.eqb (ip e) key) with true by (symmetry; apply String.eqb_eq; exact Hip).
      cbn [negb]. rewrite Hip in Hl2.
      rewrite (filter_ip_absent key l2 Hl2). f_equal.
      symmetry. apply filter_ip_absent. apply ip_absent_intro.
      intros x Hx Hxk. rewrite forallb_forall in Hl1. specialize (Hl1 x Hx).
      cbn [ip_absent forallb] in Hl1. apply andb_true_iff in Hl1 as [Hne _].
      apply negb_true_iff, String.eqb_neq in Hne. apply Hne. congruence.
    - rewrite Hd. symmetry. apply filter_ip_absent. apply ip_absent_intro.
      intros x Hx Hxk. subst key.
      rewrite (avl_ordered_find now t rem x Hord Hx) in Hget. discriminate. }
  split; [exact Hfilter|]. split; [exact Hwild|]. split.
  - unfold connection_release_banned_ip, map_ordered in *.
    destruct (contents (banned_ip g)) as [t|] eqn:Ht; [|rewrite Ht; reflexivity].
    pose proof (avl_delete_ordered (compare_arg (banned_ip g)) key t
                  (ban_entry_removal g) Hord) as H.
    destruct (avl_delete _ t key _) as [t' rem']. exact H.
  - intros Hnw. apply search_banned_ip_locked_absent.
    + unfold no_wildcard_matches in *. rewrite Hwild. exact Hnw.
    + rewrite Hfilter. apply ip_absent_intro. intros x Hx.
      apply List.filter_In in Hx as [_ Hx].
      apply negb_true_iff, String.eqb_neq in Hx. exact Hx.
Qed.

Lemma connection_release_banned_ip_removes_witness :
  let g' := connection_release_banned_ip demo_bans_three "10.0.0.9" in
  literal_entries g'
  = List.filter (fun e => negb (String.eqb (ip e) "10.0.0.9"))
                (literal_entries demo_bans_three) /\
  wildcards (banned_ip g') = wildcards (banned_ip demo_bans_three) /\
  map_ordered g' = true /\
  (no_wildcard_matches no_patterns demo_bans_three "10.0.0.9" = true ->
   fst (search_banned_ip_locked no_patterns g' "10.0.0.9") = 0).
Proof.
  apply (connection_release_banned_ip_removes no_patterns demo_bans_three "10.0.0.9").
  reflexivity.
Defined.

Lemma ips_unique_split_absent (l1 l2 : list banned_entry) (e : banned_entry) :
  ips_unique (l1 ++ e :: l2) = true -> ip_absent (ip e) (l1 ++ l2) = true.
Proof.
  rewrite ips_unique_app. cbn [ips_unique]. rewrite !andb_true_iff.
  intros [[_ [Hl2 _]] Hl1]. rewrite ip_absent_app, Hl2, andb_true_r.
  apply ip_absent_intro. intros x Hx Heq.
  rewrite forallb_forall in Hl1. specialize (Hl1 x Hx).
  cbn [ip_absent forallb] in Hl1. apply andb_true_iff in Hl1 as [Hne _].
  apply negb_true_iff, String.eqb_neq in Hne. apply Hne. congruence.
Qed.

Lemma search_banned_ip_locked_known_entry (cpc : string -> string -> Z)
    (g : ban_globals) (e : banned_entry) :
  map_ordered g = true ->
  In e (literal_entries g) ->
  let r := search_banned_ip_locked cpc g (ip e) in
  let tc := cachefile_timecheck g in
  (in_force tc e = true ->
   fst r = 1 /\
   (no_wildcard_matches cpc g (ip e) = true ->
    In (renew tc e) (literal_entries (snd r)))) /\
  (in_force tc e = false -> no_wildcard_matches cpc g (ip e) = true ->
   fst r = 0 /\ ip_absent (ip e) (literal_entries (snd r)) = true).
Proof.
  intros Hord Hin r tc. subst r tc.
  destruct (search_banned_ip_locked_cases cpc g (ip e))
    as [[Hw Hr] | [(_ & Hnone & _) | (Hw & t & Ht & Hcase)]].
  - rewrite Hr, Hw. cbn [fst]. split; [split; [reflexivity | discriminate] | discriminate].
  - unfold literal_entries in Hin. rewrite Hnone in Hin. contradiction.
  - unfold literal_entries, map_ordered in Hin, Hord. rewrite Ht in Hin, Hord.
    rewrite (avl_ordered_find _ t None e Hord Hin) in Hcase.
    destruct Hcase as (l1 & l2 & Hsplit & Hcase).
    pose proof (avl_ordered_unique t Hord) as Hu. rewrite Hsplit in Hu.
    destruct (in_force (cachefile_timecheck g) e).
    + destruct Hcase as [H1 Hent]. split; [|discriminate].
      intros _. split; [exact H1|]. intros _. rewrite Hent.
      apply in_or_app. right. left. reflexivity.
    + destruct Hcase as [H0 Hs]. split; [discriminate|].
      intros _ _. split; [exact H0|].
      apply (ip_absent_incl _ (l1 ++ l2)); [exact (swept_incl _ _ _ Hs)|].
      apply ips_unique_split_absent. exact Hu.
Qed.

(** X6. A lookup of the text of an entry of an ordered map is decided by
    that entry's timeout. In force (permanent, or not timed out at
    [cachefile_timecheck]) it says match and, when no wildcard decides, the
    entry is in the map afterwards with its timeout renewed. Timed out, and
    with no wildcard matching, it says no match and no entry for the text is
    left. *)
Theorem search_banned_ip_locked_decides_by_timeout (cpc : string -> string -> Z)
    (g : ban_globals) (e : banned_entry) :
  map_ordered g = true ->
  In e (literal_entries g) ->
  let r := search_banned_ip_locked cpc g (ip e) in
  let tc := cachefile_timecheck g in
  (in_force tc e = true ->
   fst r = 1 /\
   (no_wildcard_matches cpc g (ip e) = true ->
    In (renew tc e) (literal_entries (snd r)))) /\
  (in_force tc e = false -> no_wildcard_matches cpc g (ip e) = true ->
   fst r = 0 /\ ip_absent (ip e) (literal_entries (snd r)) = true).
Proof. apply search_banned_ip_locked_known_entry. Qed.

Lemma search_banned_ip_locked_decides_by_timeout_witness :
  let e := mkBanned "10.0.0.9" 2000 in
  let r := search_banned_ip_locked no_patterns demo_bans_three (ip e) in
  let tc := cachefile_timecheck demo_bans_three in
  (in_force tc e = true ->
   fst r = 1 /\
   (no_wildcard_matches no_patterns demo_bans_three (ip e) = true ->
    In (renew tc e) (literal_entries (snd r)))) /\
  (in_force tc e = false -> no_wildcard_matches no_patterns demo_bans_three (ip e) = true ->
   fst r = 0 /\ ip_absent (ip e) (literal_entries (snd r)) = true).
Proof.
  apply (search_banned_ip_locked_decides_by_timeout no_patterns demo_bans_three
           (mkBanned "10.0.0.9" 2000)).
  - reflexivity.
  - simpl. auto.
Defined.

Lemma search_at_entries (cpc : string -> string -> Z) (g : ban_globals)
    (key : string) (time_now : Z) :
  search_at cpc g key time_now
  = search_banned_ip_locked cpc
      {| banned_ip := banned_ip g; ban_entry_removal := ban_entry_removal g;
         cachefile_timecheck := time_now |} key.
Proof. reflexivity. Qed.

Lemma search_banned_ip_locked_wildcards (cpc : string -> string -> Z)
    (g : ban_globals) (key : string) :
  wildcards (banned_ip (snd (search_banned_ip_locked cpc g key)))
  = wildcards (banned_ip g).
Proof.
  unfold search_banned_ip_locked.
  destruct (existsb _ _); [reflexivity|].
  destruct (contents (banned_ip g)) as [t|]; [|reflexivity].
  destruct (avl_get_by_key _ t key None) as [[found|] mark].
  - destruct (_ || _); [reflexivity|].
    destruct (avl_delete _ t key mark) as [t' mark'].
    unfold sweep_marked. destruct mark' as [m|]; [destruct (avl_delete _ _ _ _)|];
      reflexivity.
  - unfold sweep_marked. destruct mark as [m|]; [destruct (avl_delete _ _ _ _)|];
      reflexivity.
Qed.

(** One lookup leaves a permanent entry in the map. *)
Lemma search_banned_ip_locked_keeps_permanent (cpc : string -> string -> Z)
    (g : ban_globals) (key : string) (e : banned_entry) :
  map_ordered g = true -> In e (literal_entries g) -> timeout e = 0 ->
  In e (literal_entries (snd (search_banned_ip_locked cpc g key))).
Proof.
  intros Hord Hin Hperm.
  destruct (search_banned_ip_locked_cases cpc g key)
    as [[_ Hr] | [(_ & _ & Hr) | (_ & t & Ht & Hcase)]];
    try (rewrite Hr; exact Hin).
  unfold literal_entries, map_ordered in Hin, Hord. rewrite Ht in Hin, Hord.
  pose proof (avl_ordered_unique t Hord) as Hu.
  set (now := compare_arg (banned_ip g)) in *.
  destruct (avl_get_by_key_spec now key t None) as [Hfound Hmark].
  cbn [mark_ok] in Hmark.
  assert (Hnotmark : snd (avl_get_by_key now t key None) <> Some e).
  { intros Hm. destruct (Hmark e Hm) as [_ (_ & Hnz & _)]. contradiction. }
  assert (Hmarkin : forall m, snd (avl_get_by_key now t key None) = Some m ->
                              In m (avl_elements t)).
  { intros m Hm. apply (Hmark m Hm). }
  destruct (fst (avl_get_by_key now t key None)) as [found|].
  - destruct Hcase as (l1 & l2 & Hsplit & Hcase).
    destruct (in_force (cachefile_timecheck g) found) eqn:Hforce.
    + destruct Hcase as [_ Hent]. rewrite Hent. rewrite Hsplit in Hin.
      apply in_app_or in Hin as [Hin | [Heq | Hin]]; apply in_or_app.
      * left. exact Hin.
      * right. left. subst found. unfold renew. rewrite Hperm. reflexivity.
      * right. right. exact Hin.
    + destruct Hcase as [_ Hs].
      apply (swept_unique (snd (avl_get_by_key now t key None)) (avl_elements t) (l1 ++ l2) _ Hu);
        try assumption.
      * rewrite Hsplit. intros x Hx. apply in_app_or in Hx as [Hx|Hx]; apply in_or_app;
          [left | right; right]; exact Hx.
      * rewrite Hsplit in Hin.
        apply in_app_or in Hin as [Hin | [Heq | Hin]]; apply in_or_app.
        -- left. exact Hin.
        -- subst found. unfold in_force in Hforce. rewrite Hperm in Hforce. discriminate.
        -- right. exact Hin.
  - destruct Hcase as [_ Hs].
    apply (swept_unique (snd (avl_get_by_key now t key None)) (avl_elements t)
             (avl_elements t) _ Hu); try assumption.
    apply incl_refl.
Qed.

Lemma search_sequence_invariant (cpc : string -> string -> Z)
    (lookups : list (string * Z)) :
  forall g e,
    map_ordered g = true -> In e (literal_entries g) -> timeout e = 0 ->
    map_ordered (search_sequence cpc g lookups) = true /\
    In e (literal_entries (search_sequence cpc g lookups)).
Proof.
  induction lookups as [|[key time_now] rest IH]; intros g e Hord Hin Hperm;
    cbn [search_sequence]; [auto|].
  rewrite search_at_entries.
  set (g0 := {| banned_ip := banned_ip g; ban_entry_removal := ban_entry_removal g;
                cachefile_timecheck := time_now |}).
  apply IH; [| |exact Hperm].
  - apply search_banned_ip_locked_keeps_ordered. exact Hord.
  - apply search_banned_ip_locked_keeps_permanent; assumption.
Qed.

(** X7. A permanent entry (timeout 0) of an ordered map outlasts any run of
    lookups, for whatever texts and at whatever times: it is in the map
    after them, and a lookup of its text says match. *)
Theorem permanent_ban_survives_lookups (cpc : string -> string -> Z)
    (g : ban_globals) (e : banned_entry) (lookups : list (string * Z))
    (time_now : Z) :
  map_ordered g = true ->
  In e (literal_entries g) ->
  timeout e = 0 ->
  let g' := search_sequence cpc g lookups in
  In e (literal_entries g') /\
  fst (search_at cpc g' (ip e) time_now) = 1.
Proof.
  intros Hord Hin Hperm g'. subst g'.
  destruct (search_sequence_invariant cpc lookups g e Hord Hin Hperm) as [Hord' Hin'].
  split; [exact Hin'|].
  rewrite search_at_entries.
  set (g0 := {| banned_ip := banned_ip (search_sequence cpc g lookups);
                ban_entry_removal := ban_entry_removal (search_sequence cpc g lookups);
                cachefile_timecheck := time_now |}).
  destruct (search_banned_ip_locked_known_entry cpc g0 e Hord' Hin') as [Hforce _].
  apply Hforce. unfold in_force. rewrite Hperm. reflexivity.
Qed.

Lemma permanent_ban_survives_lookups_witness :
  let g' := search_sequence no_patterns demo_bans_three
              [("10.0.0.7"%string, 1000); ("10.0.0.9"%string, 5000)] in
  In (mkBanned "10.0.0.2" 0) (literal_entries g') /\
  fst (search_at no_patterns g' (ip (mkBanned "10.0.0.2" 0)) 9000) = 1.
Proof.
  apply (permanent_ban_survives_lookups no_patterns demo_bans_three
           (mkBanned "10.0.0.2" 0)
           [("10.0.0.7"%string, 1000); ("10.0.0.9"%string, 5000)] 9000).
  - reflexivity.
  - simpl. auto.
  - reflexivity.
Defined.

Lemma search_sequence_wildcards (cpc : string -> string -> Z)
    (lookups : list (string * Z)) :
  forall g, wildcards (banned_ip (search_sequence cpc g lookups)) = wildcards (banned_ip g).
Proof.
  induction lookups as [|[key time_now] rest IH]; intros g; cbn [search_sequence];
    [reflexivity|].
  rewrite IH, search_at_entries, search_banned_ip_locked_wildcards. reflexivity.
Qed.

(** X8. A ban whose text holds a wildcard character goes to the wildcard
    list whatever the duration given, and the literal map is not touched.
    [connection_release_banned_ip] does not take it back and no lookup does:
    a text the pattern matches is reported as a match at every later
    time. *)
Theorem wildcard_ban_never_expires (cpc : string -> string -> Z)
    (g : ban_globals) (t : avl_tree) (pattern key : string)
    (duration now : Z) (lookups : list (string * Z)) (time_now : Z) :
  contents (banned_ip g) = Some t ->
  has_wildcard pattern = true ->
  cpc key pattern = 0 ->
  let g1 := connection_add_banned_ip g pattern duration now in
  wildcards (banned_ip g1) = pattern :: wildcards (banned_ip g) /\
  literal_entries g1 = literal_entries g /\
  fst (search_at cpc
         (search_sequence cpc (connection_release_banned_ip g1 pattern) lookups)
         key time_now) = 1.
Proof.
  intros Ht Hw Hmatch g1.
  assert (Hg1 : wildcards (banned_ip g1) = pattern :: wildcards (banned_ip g) /\
                literal_entries g1 = literal_entries g).
  { subst g1. unfold connection_add_banned_ip, add_banned_ip, literal_entries.
    rewrite Ht, Hw. cbn [banned_ip wildcards contents]. rewrite ?Ht. auto. }
  destruct Hg1 as [Hwild Hent]. split; [exact Hwild|]. split; [exact Hent|].
  rewrite search_at_entries. unfold search_banned_ip_locked.
  cbn [banned_ip wildcards].
  rewrite search_sequence_wildcards.
  destruct (connection_release_banned_ip_entries g1 pattern) as [_ Hrel].
  rewrite Hrel, Hwild. cbn [existsb]. rewrite Hmatch. reflexivity.
Qed.

Lemma wildcard_ban_never_expires_witness :
  let g1 := connection_add_banned_ip demo_bans "10.0.*" 60 100 in
  wildcards (banned_ip g1) = "10.0.*"%string :: wildcards (banned_ip demo_bans) /\
  literal_entries g1 = literal_entries demo_bans /\
  fst (search_at glob_compare
         (search_sequence glob_compare (connection_release_banned_ip g1 "10.0.*")
                          [("10.0.3.4"%string, 5000)])
         "10.0.3.4" 1000000) = 1.
Proof.
  apply (wildcard_ban_never_expires glob_compare demo_bans avl_leaf "10.0.*" "10.0.3.4"
           60 100 [("10.0.3.4"%string, 5000)] 1000000).
  - reflexivity.
  - reflexivity.
  - reflexivity.
Defined.

(** X9. Adding a literal text of at most 15 characters that the map does
    not hold and releasing it again gives back the entries there were. *)
Theorem connection_add_then_release_restores (g : ban_globals) (t : avl_tree)
    (key : string) (duration now : Z) :
  contents (banned_ip g) = Some t ->
  has_wildcard key = false ->
  (String.length key <= 15)%nat ->
  ip_absent key (literal_entries g) = true ->
  literal_entries
    (connection_release_banned_ip (connection_add_banned_ip g key duration now) key)
  = literal_entries g.
Proof.
  intros Ht Hw Hlen Habs.
  destruct (connection_add_banned_ip_entries g t key duration now Ht Hw)
    as (Hc & _ & Harg & _).
  destruct (connection_release_banned_ip_entries
              (connection_add_banned_ip g key duration now) key) as [Hent _].
  rewrite Hent, Hc, Harg.
  unfold literal_entries in *. rewrite Ht in *.
  rewrite (ip_field_short key Hlen).
  set (added := {| ip := key; timeout := if duration >? 0 then now + duration else 0 |}).
  destruct (avl_insert_found (compare_arg (banned_ip g)) (compare_arg (banned_ip g))
              (compare_arg (banned_ip g)) added t (ban_entry_removal g)
              (ban_entry_removal (connection_add_banned_ip g key duration now)) Habs)
    as [_ Hdel].
  exact Hdel.
Qed.

Lemma connection_add_then_release_restores_witness :
  literal_entries
    (connection_release_banned_ip
       (connection_add_banned_ip demo_bans_three "10.0.0.7" 60 1000) "10.0.0.7")
  = literal_entries demo_bans_three.
Proof.
  apply (connection_add_then_release_restores demo_bans_three
           (avl_node (avl_node avl_leaf (mkBanned "10.0.0.2" 0) avl_leaf)
                     (mkBanned "10.0.0.5" 50)
                     (avl_node avl_leaf (mkBanned "10.0.0.9" 2000) avl_leaf))
           "10.0.0.7" 60 1000).
  - reflexivity.
  - reflexivity.
  - simpl; lia.
  - reflexivity.
Defined.

(* --------------------------------------------------------------------- *)
(** ** IP access cache: the lifetime of an entry across other operations  *)
(* --------------------------------------------------------------------- *)

Lemma strcmp_le (a b : string) : strcmp a b <= 0 <-> a = b \/ strcmp a b < 0.
Proof.
  split.
  - intros H. destruct (Z.eq_dec (strcmp a b) 0) as [H0|H0].
    + left. apply strcmp_eq. exact H0.
    + right. lia.
  - intros [->|H]; [rewrite strcmp_refl|]; lia.
Qed.

Lemma strcmp_le_lt_trans (a b c : string) :
  strcmp a b <= 0 -> strcmp b c < 0 -> strcmp a c < 0.
Proof.
  intros H1 H2. apply strcmp_le in H1 as [->|H1]; [exact H2|].
  eapply strcmp_lt_trans; eassumption.
Qed.

Lemma strcmp_lt_le_trans (a b c : string) :
  strcmp a b < 0 -> strcmp b c <= 0 -> strcmp a c < 0.
Proof.
  intros H1 H2. apply strcmp_le in H2 as [<-|H2]; [exact H1|].
  eapply strcmp_lt_trans; eassumption.
Qed.

Lemma strcmp_le_trans (a b c : string) :
  strcmp a b <= 0 -> strcmp b c <= 0 -> strcmp a c <= 0.
Proof.
  intros H1 H2. apply strcmp_le in H2 as [<-|H2]; [exact H1|].
  pose proof (strcmp_le_lt_trans a b c H1 H2). lia.
Qed.

Lemma strcmp_ge (a b : string) : 0 <= strcmp a b <-> strcmp b a <= 0.
Proof.
  unfold strcmp. rewrite (String.compare_antisym a b).
  destruct (String.compare b a); cbn; lia.
Qed.

Lemma avl_sorted_node (l r : avl_tree) (k : banned_entry) :
  avl_sorted (avl_node l k r) = true <->
  (forall x, In x (avl_elements l) -> strcmp (ip x) (ip k) <= 0) /\
  (forall x, In x (avl_elements r) -> strcmp (ip k) (ip x) <= 0) /\
  avl_sorted l = true /\ avl_sorted r = true.
Proof.
  cbn [avl_sorted]. rewrite !andb_true_iff, !forallb_forall.
  split.
  - intros [[[Hl Hr] Hol] Hor]. repeat split; try assumption;
      intros x Hx; apply Z.leb_le; auto.
  - intros (Hl & Hr & Hol & Hor). repeat split; try assumption;
      intros x Hx; apply Z.leb_le; auto.
Qed.

Lemma key_entries_app (key : string) (a b : list banned_entry) :
  key_entries key (a ++ b) = key_entries key a ++ key_entries key b.
Proof. apply List.filter_app. Qed.

Lemma key_entries_cons (key : string) (e : banned_entry) (l : list banned_entry) :
  key_entries key (e :: l)
  = if String.eqb (ip e) key then e :: key_entries key l else key_entries key l.
Proof. reflexivity. Qed.

Lemma key_entries_other (key : string) (e : banned_entry) (a b : list banned_entry) :
  ip e <> key -> key_entries key (a ++ e :: b) = key_entries key (a ++ b).
Proof.
  intros Hne. rewrite !key_entries_app, key_entries_cons.
  apply String.eqb_neq in Hne. rewrite Hne. reflexivity.
Qed.

Lemma key_entries_in (key : string) (e : banned_entry) (l : list banned_entry) :
  In e (key_entries key l) <-> In e l /\ ip e = key.
Proof.
  unfold key_entries. rewrite List.filter_In, String.eqb_eq. reflexivity.
Qed.

Lemma key_entries_nil (key : string) (l : list banned_entry) :
  key_entries key l = [] <-> ip_absent key l = true.
Proof.
  unfold key_entries, ip_absent. induction l as [|e l IH]; cbn [List.filter forallb].
  - split; reflexivity.
  - destruct (String.eqb (ip e) key); cbn [negb andb].
    + split; discriminate.
    + exact IH.
Qed.

(** A sorted tree that holds one entry for a text hands that entry out. *)
Lemma avl_sorted_find (now : Z) (key : string) (e : banned_entry) :
  forall t removal,
    avl_sorted t = true ->
    key_entries key (avl_elements t) = [e] ->
    fst (avl_get_by_key now t key removal) = Some e.
Proof.
  induction t as [|l IHl k r IHr]; intros removal Hs Hk;
    cbn [avl_get_by_key avl_elements] in *; [discriminate Hk|].
  apply avl_sorted_node in Hs as (Hl & Hr & Hsl & Hsr).
  rewrite key_entries_app, key_entries_cons in Hk.
  compare_step now key k removal c mid Hc Hmid.
  assert (Hnone_l : 0 < c -> key_entries key (avl_elements l) = []).
  { intros Hpos. apply key_entries_nil, ip_absent_intro. intros x Hx Heq.
    specialize (Hl x Hx). rewrite Heq in Hl. lia. }
  assert (Hnone_r : c < 0 -> key_entries key (avl_elements r) = []).
  { intros Hneg. apply key_entries_nil, ip_absent_intro. intros x Hx Heq.
    specialize (Hr x Hx). rewrite Heq in Hr. apply strcmp_ge in Hr. lia. }
  destruct (Z.eqb_spec c 0) as [H0|Hn0].
  - cbn [fst]. assert (Hip : key = ip k) by (apply strcmp_eq; congruence).
    assert (Hin : In k (key_entries key (avl_elements l) ++
                        (if String.eqb (ip k) key then k :: key_entries key (avl_elements r)
                         else key_entries key (avl_elements r)))).
    { apply in_or_app. right. rewrite <- Hip, String.eqb_refl. left. reflexivity. }
    rewrite Hk in Hin. destruct Hin as [->|[]]. reflexivity.
  - assert (Hne : String.eqb (ip k) key = false).
    { apply String.eqb_neq. intros Heq. apply Hn0. rewrite Hc, <- Heq. apply strcmp_refl. }
    rewrite Hne in Hk.
    destruct (Z.ltb_spec c 0) as [Hneg|Hpos].
    + apply IHl; [exact Hsl|]. rewrite (Hnone_r Hneg), app_nil_r in Hk. exact Hk.
    + apply IHr; [exact Hsr|]. rewrite Hnone_l in Hk by lia. exact Hk.
Qed.

Lemma avl_insert_sorted (now : Z) (e : banned_entry) :
  forall t removal,
    avl_sorted t = true -> avl_sorted (fst (avl_insert now t e removal)) = true.
Proof.
  induction t as [|l IHl k r IHr]; intros removal Hs;
    cbn [avl_insert avl_elements] in *; [reflexivity|].
  apply avl_sorted_node in Hs as (Hl & Hr & Hsl & Hsr).
  compare_step now (ip e) k removal c mid Hc Hmid.
  destruct (Z.ltb_spec c 1) as [Hlt|Hge].
  - specialize (IHl mid Hsl).
    destruct (avl_insert_elements now e l mid) as (l1 & l2 & H1 & H2).
    destruct (avl_insert now l e mid) as [l' rem']. cbn [fst] in *.
    apply avl_sorted_node. repeat split; try assumption.
    intros x Hx. rewrite H2 in Hx. apply in_app_or in Hx as [Hx | [Hx | Hx]].
    + apply Hl. rewrite H1. apply in_or_app. auto.
    + subst x. lia.
    + apply Hl. rewrite H1. apply in_or_app. auto.
  - specialize (IHr mid Hsr).
    destruct (avl_insert_elements now e r mid) as (l1 & l2 & H1 & H2).
    destruct (avl_insert now r e mid) as [r' rem']. cbn [fst] in *.
    apply avl_sorted_node. repeat split; try assumption.
    intros x Hx. rewrite H2 in Hx. apply in_app_or in Hx as [Hx | [Hx | Hx]].
    + apply Hr. rewrite H1. apply in_or_app. auto.
    + subst x. apply strcmp_ge. lia.
    + apply Hr. rewrite H1. apply in_or_app. auto.
Qed.

Lemma avl_take_first_sorted :
  forall t m t',
    avl_sorted t = true -> avl_take_first t = Some (m, t') ->
    avl_sorted t' = true /\
    (forall x, In x (avl_elements t') -> strcmp (ip m) (ip x) <= 0).
Proof.
  induction t as [|l IHl k r _]; intros m t' Hs Htake;
    cbn [avl_take_first] in Htake; [discriminate|].
  apply avl_sorted_node in Hs as (Hl & Hr & Hsl & Hsr).
  pose proof (avl_take_first_elements l) as Hel.
  destruct (avl_take_first l) as [[m0 l']|]; inversion Htake; subst; clear Htake.
  - destruct (IHl m l' Hsl eq_refl) as [Hsl' Hmin].
    assert (Hm : strcmp (ip m) (ip k) <= 0) by (apply Hl; rewrite Hel; left; reflexivity).
    split.
    + apply avl_sorted_node. repeat split; try assumption.
      intros x Hx. apply Hl. rewrite Hel. right. exact Hx.
    + cbn [avl_elements]. intros x Hx. apply in_app_or in Hx as [Hx | [Hx | Hx]].
      * apply Hmin, Hx.
      * subst x. exact Hm.
      * apply (strcmp_le_trans _ (ip k)); [exact Hm | apply Hr, Hx].
  - split; assumption.
Qed.

Lemma avl_join_sorted (l r : avl_tree) (k : banned_entry) :
  avl_sorted (avl_node l k r) = true -> avl_sorted (avl_join l r) = true.
Proof.
  intros Hs. apply avl_sorted_node in Hs as (Hl & Hr & Hsl & Hsr).
  unfold avl_join.
  pose proof (avl_take_first_elements r) as Her.
  destruct (avl_take_first r) as [[m r']|] eqn:Htake; [|exact Hsl].
  destruct (avl_take_first_sorted r m r' Hsr Htake) as [Hsr' Hmin].
  apply avl_sorted_node. repeat split; try assumption.
  intros x Hx. apply (strcmp_le_trans _ (ip k)); [apply Hl, Hx|].
  apply Hr. rewrite Her. left. reflexivity.
Qed.

Lemma avl_delete_sorted (now : Z) (key : string) :
  forall t removal,
    avl_sorted t = true ->
    avl_sorted (fst (avl_delete now t key removal)) = true.
Proof.
  induction t as [|l IHl k r IHr]; intros removal Hs;
    cbn [avl_delete]; [reflexivity|].
  compare_step now key k removal c mid Hc Hmid.
  destruct (c =? 0); [cbn [fst]; eapply avl_join_sorted; exact Hs|].
  apply avl_sorted_node in Hs as (Hl & Hr & Hsl & Hsr).
  destruct (c <? 0).
  - pose proof (avl_delete_incl now key l mid) as Hincl.
    specialize (IHl mid Hsl).
    destruct (avl_delete now l key mid) as [l' rem']. cbn [fst] in *.
    apply avl_sorted_node. repeat split; try assumption.
    intros x Hx. apply Hl, Hincl, Hx.
  - pose proof (avl_delete_incl now key r mid) as Hincl.
    specialize (IHr mid Hsr).
    destruct (avl_delete now r key mid) as [r' rem']. cbn [fst] in *.
    apply avl_sorted_node. repeat split; try assumption.
    intros x Hx. apply Hr, Hincl, Hx.
Qed.

Lemma avl_update_found_sorted (key : string) (f : banned_entry -> banned_entry) :
  (forall e, ip (f e) = ip e) ->
  forall t, avl_sorted t = true -> avl_sorted (avl_update_found t key f) = true.
Proof.
  intros Hf. induction t as [|l IHl k r IHr]; intros Hs;
    cbn [avl_update_found]; [reflexivity|].
  apply avl_sorted_node in Hs as (Hl & Hr & Hsl & Hsr).
  destruct (strcmp key (ip k) =? 0); [|destruct (strcmp key (ip k) <? 0)];
    apply avl_sorted_node; rewrite ?Hf; repeat split; auto.
  - intros x Hx.
    destruct (in_map_ip x _ _ (avl_update_found_ips key f Hf l) Hx) as (y & Hy & Hip).
    rewrite <- Hip. apply Hl, Hy.
  - intros x Hx.
    destruct (in_map_ip x _ _ (avl_update_found_ips key f Hf r) Hx) as (y & Hy & Hip).
    rewrite <- Hip. apply Hr, Hy.
Qed.

Lemma sweep_marked_sorted (g : ban_globals) (t : avl_tree)
    (mark : option banned_entry) :
  avl_sorted t = true -> map_sorted (snd (sweep_marked g t mark)) = true.
Proof.
  intros Hs. unfold sweep_marked, map_sorted. destruct mark as [m|].
  - pose proof (avl_delete_sorted (compare_arg (banned_ip g)) (ip m) t (Some m) Hs) as H.
    destruct (avl_delete _ t (ip m) (Some m)) as [t' rem']. exact H.
  - exact Hs.
Qed.

Lemma search_banned_ip_locked_keeps_sorted (cpc : string -> string -> Z)
    (g : ban_globals) (key : string) :
  map_sorted g = true ->
  map_sorted (snd (search_banned_ip_locked cpc g key)) = true.
Proof.
  intros Hs. unfold search_banned_ip_locked.
  destruct (existsb _ _); [exact Hs|].
  unfold map_sorted in Hs.
  destruct (contents (banned_ip g)) as [t|] eqn:Ht;
    [|unfold map_sorted; cbn [snd]; rewrite Ht; reflexivity].
  destruct (avl_get_by_key (compare_arg (banned_ip g)) t key None) as [[found|] mark].
  - destruct ((timeout found =? 0) || (timeout found >? cachefile_timecheck g)).
    + unfold map_sorted. cbn [snd banned_ip contents with_contents].
      destruct (_ && _); [|exact Hs].
      apply avl_update_found_sorted; [reflexivity | exact Hs].
    + pose proof (avl_delete_sorted (compare_arg (banned_ip g)) key t mark Hs) as H.
      destruct (avl_delete _ t key mark) as [t' rem']. cbn [fst] in H.
      apply sweep_marked_sorted. exact H.
  - apply sweep_marked_sorted. exact Hs.
Qed.

Lemma connection_add_banned_ip_keeps_sorted (g : ban_globals) (key : string)
    (duration time_now : Z) :
  map_sorted g = true ->
  map_sorted (connection_add_banned_ip g key duration time_now) = true.
Proof.
  intros Hs. unfold connection_add_banned_ip, add_banned_ip.
  destruct (contents (banned_ip g)) as [t|] eqn:Ht; [|exact Hs].
  unfold map_sorted in Hs. rewrite Ht in Hs.
  destruct (has_wildcard key).
  - unfold map_sorted. cbn [banned_ip contents]. try rewrite Ht. exact Hs.
  - set (added := {| ip := ip_field key;
                     timeout := if duration >? 0 then time_now + duration else 0 |}).
    pose proof (avl_insert_sorted (compare_arg (banned_ip g)) added t
                  (ban_entry_removal g) Hs) as H.
    destruct (avl_insert _ t added _) as [t' rem']. exact H.
Qed.

Lemma connection_release_banned_ip_keeps_sorted (g : ban_globals) (key : string) :
  map_sorted g = true ->
  map_sorted (connection_release_banned_ip g key) = true.
Proof.
  intros Hs. unfold connection_release_banned_ip.
  destruct (contents (banned_ip g)) as [t|] eqn:Ht; [|exact Hs].
  unfold map_sorted in Hs. rewrite Ht in Hs.
  pose proof (avl_delete_sorted (compare_arg (banned_ip g)) key t (ban_entry_removal g) Hs)
    as H.
  destruct (avl_delete _ t key _) as [t' rem']. exact H.
Qed.

(** Every operation keeps the map sorted. *)
Lemma cache_run_keeps_sorted (cpc : string -> string -> Z) (ops : list cache_op) :
  forall g, map_sorted g = true -> map_sorted (cache_run cpc g ops) = true.
Proof.
  induction ops as [|op ops IH]; intros g Hs; [exact Hs|].
  cbn [cache_run]. apply IH. destruct op as [addr tn|addr d tn|addr]; cbn [cache_step].
  - unfold search_at. apply search_banned_ip_locked_keeps_sorted. exact Hs.
  - apply connection_add_banned_ip_keeps_sorted. exact Hs.
  - apply connection_release_banned_ip_keeps_sorted. exact Hs.
Qed.

(** What a sweep does to the entries of one text. *)
Lemma swept_key_entries (key : string) (mark : option banned_entry)
    (before after : list banned_entry) :
  swept mark before after ->
  key_entries key after = key_entries key before \/
  exists m x a b,
    mark = Some m /\ ip m = key /\
    key_entries key before = a ++ x :: b /\ key_entries key after = a ++ b.
Proof.
  unfold swept. destruct mark as [m|]; [|intros ->; left; reflexivity].
  intros [->|(x & l1 & l2 & -> & -> & Hip)]; [left; reflexivity|].
  destruct (String.eqb_spec (ip x) key) as [Heq|Hne].
  - right. exists m, x, (key_entries key l1), (key_entries key l2).
    split; [reflexivity|]. split; [congruence|].
    rewrite !key_entries_app, key_entries_cons.
    apply String.eqb_eq in Heq. rewrite Heq. split; reflexivity.
  - left. symmetry. apply key_entries_other. exact Hne.
Qed.


Lemma search_banned_ip_locked_compare_arg (cpc : string -> string -> Z)
    (g : ban_globals) (key : string) :
  compare_arg (banned_ip (snd (search_banned_ip_locked cpc g key)))
  = compare_arg (banned_ip g).
Proof.
  unfold search_banned_ip_locked.
  destruct (existsb _ _); [reflexivity|].
  destruct (contents (banned_ip g)) as [t|]; [|reflexivity].
  destruct (avl_get_by_key _ t key None) as [[found|] removal].
  - destruct ((timeout found =? 0) || _); [reflexivity|].
    destruct (avl_delete _ _ _ _) as [t' removal'].
    unfold sweep_marked. destruct removal'; [destruct (avl_delete _ _ _ _)|]; reflexivity.
  - unfold sweep_marked. destruct removal; [destruct (avl_delete _ _ _ _)|]; reflexivity.
Qed.

Lemma search_elsewhere (cpc : string -> string -> Z) (g : ban_globals)
    (key addr : string) :
  addr <> key ->
  key_entries_step key g (snd (search_banned_ip_locked cpc g addr)).
Proof.
  intros Hne. split; [apply search_banned_ip_locked_compare_arg|].
  destruct (search_banned_ip_locked_cases cpc g addr)
    as [[_ Hr] | [(_ & _ & Hr) | (_ & t & Ht & Hcase)]].
  - rewrite Hr. left. reflexivity.
  - rewrite Hr. left. reflexivity.
  - assert (HL : literal_entries g = avl_elements t)
      by (unfold literal_entries; rewrite Ht; reflexivity).
    rewrite HL.
    destruct (avl_get_by_key_spec (compare_arg (banned_ip g)) addr t None) as [Hfound Hmark].
    cbn [mark_ok] in Hmark.
    assert (Hsweep : forall before,
               key_entries key before = key_entries key (avl_elements t) ->
               swept (snd (avl_get_by_key (compare_arg (banned_ip g)) t addr None)) before
                     (literal_entries (snd (search_banned_ip_locked cpc g addr))) ->
               key_entries key (literal_entries (snd (search_banned_ip_locked cpc g addr)))
               = key_entries key (avl_elements t) \/
               exists m x a b,
                 In m (avl_elements t) /\ ip m = key /\
                 stale_at (compare_arg (banned_ip g)) m /\
                 key_entries key (avl_elements t) = a ++ x :: b /\
                 key_entries key (literal_entries (snd (search_banned_ip_locked cpc g addr)))
                 = a ++ b).
    { intros before Hsame Hs.
      destruct (swept_key_entries key _ _ _ Hs) as [Heq|(m & x & a & b & Hm & Hip & Hb & Ha)].
      - left. rewrite Heq. exact Hsame.
      - right. destruct (Hmark m Hm) as [Hin (_ & H2 & H3)].
        exists m, x, a, b. rewrite <- Hsame. repeat split; assumption. }
    destruct (fst (avl_get_by_key (compare_arg (banned_ip g)) t addr None)) as [e0|] eqn:Hres.
    + destruct (Hfound e0 eq_refl) as [Hin0 Hip0].
      assert (Hne0 : ip e0 <> key) by congruence.
      destruct Hcase as (l1 & l2 & Hsplit & Hcase).
      destruct (in_force (cachefile_timecheck g) e0).
      * destruct Hcase as [_ Hent]. left. rewrite Hent, Hsplit.
        rewrite !key_entries_other; [reflexivity|exact Hne0|].
        unfold renew. destruct (_ && _); exact Hne0.
      * destruct Hcase as [_ Hs]. apply (Hsweep (l1 ++ l2)); [|exact Hs].
        rewrite Hsplit. symmetry. apply key_entries_other. exact Hne0.
    + destruct Hcase as [_ Hs]. apply (Hsweep (avl_elements t)); [reflexivity|exact Hs].
Qed.

Lemma add_elsewhere (g : ban_globals) (key addr : string) (duration time_now : Z) :
  has_wildcard addr || negb (String.eqb (ip_field addr) key) = true ->
  key_entries_step key g (connection_add_banned_ip g addr duration time_now).
Proof.
  intros He.
  destruct (contents (banned_ip g)) as [t|] eqn:Ht.
  - destruct (has_wildcard addr) eqn:Hw.
    + unfold connection_add_banned_ip. rewrite Ht. unfold add_banned_ip. rewrite Hw.
      split; [reflexivity|left; reflexivity].
    + cbn [orb] in He. apply negb_true_iff, String.eqb_neq in He.
      destruct (connection_add_banned_ip_entries g t addr duration time_now Ht Hw)
        as (_ & _ & Harg & la & lb & Ha & Hb).
      split; [exact Harg|]. left. rewrite Ha, Hb.
      apply key_entries_other. exact He.
  - unfold connection_add_banned_ip. rewrite Ht. split; [reflexivity|left; reflexivity].
Qed.

Lemma release_elsewhere (g : ban_globals) (key addr : string) :
  addr <> key ->
  key_entries_step key g (connection_release_banned_ip g addr).
Proof.
  intros Hne.
  destruct (connection_release_banned_ip_entries g addr) as [Hent _].
  split.
  - unfold connection_release_banned_ip.
    destruct (contents (banned_ip g)); [destruct (avl_delete _ _ _ _)|]; reflexivity.
  - left. rewrite Hent. unfold literal_entries.
    destruct (contents (banned_ip g)) as [t|]; [|reflexivity].
    destruct (avl_delete_spec (compare_arg (banned_ip g)) addr t (ban_entry_removal g))
      as [_ Hdel].
    destruct (avl_get_by_key_spec (compare_arg (banned_ip g)) addr t (ban_entry_removal g))
      as [Hfound _].
    destruct (fst (avl_get_by_key _ t addr _)) as [e|].
    + destruct (Hfound e eq_refl) as [_ Hip].
      destruct Hdel as (l1 & l2 & H1 & H2 & _). rewrite H1, H2. symmetry.
      apply key_entries_other. congruence.
    + rewrite Hdel. reflexivity.
Qed.

Lemma cache_step_elsewhere (cpc : string -> string -> Z) (g : ban_globals)
    (key : string) (op : cache_op) :
  cache_op_elsewhere key op = true ->
  key_entries_step key g (cache_step cpc g op).
Proof.
  destruct op as [addr tn|addr d tn|addr]; cbn [cache_op_elsewhere cache_step]; intros He.
  - apply negb_true_iff, String.eqb_neq in He. unfold search_at.
    apply (search_elsewhere cpc
             {| banned_ip := banned_ip g; ban_entry_removal := ban_entry_removal g;
                cachefile_timecheck := tn |} key addr He).
  - apply add_elsewhere. exact He.
  - apply negb_true_iff, String.eqb_neq in He. apply release_elsewhere. exact He.
Qed.

(** Across a run of operations on other addresses the one entry of [key]
    stays, unless it is stale by the comparator's clock; nothing is added to
    it. *)
Lemma cache_run_elsewhere (cpc : string -> string -> Z) (key : string)
    (e : banned_entry) (ops : list cache_op) :
  forallb (cache_op_elsewhere key) ops = true ->
  forall g,
    let g' := cache_run cpc g ops in
    compare_arg (banned_ip g') = compare_arg (banned_ip g) /\
    (key_entries key (literal_entries g) = [] ->
     key_entries key (literal_entries g') = []) /\
    (key_entries key (literal_entries g) = [e] ->
     (key_entries key (literal_entries g') = [] \/
      key_entries key (literal_entries g') = [e]) /\
     (~ stale_at (compare_arg (banned_ip g)) e ->
      key_entries key (literal_entries g') = [e])).
Proof.
  induction ops as [|op ops IH]; intros Hall g; cbn [cache_run].
  - cbv zeta. split; [reflexivity|]. split; [auto|]. intros H. split; auto.
  - cbn [forallb] in Hall. apply andb_true_iff in Hall as [Hop Hall].
    destruct (cache_step_elsewhere cpc g key op Hop) as [Harg Hstep].
    destruct (IH Hall (cache_step cpc g op)) as (Harg' & Hnil & Hone).
    cbv zeta. split; [congruence|]. split.
    + intros H0. apply Hnil.
      destruct Hstep as [Heq|(m & x & a & b & _ & _ & _ & Hb & _)]; [congruence|].
      rewrite H0 in Hb. destruct a; discriminate Hb.
    + intros H1.
      destruct Hstep as [Heq|(m & x & a & b & Hin & Hip & Hstale & Hb & Ha)].
      * rewrite <- Heq in H1. destruct (Hone H1) as [Hsub Hkeep].
        split; [exact Hsub|]. intros Hns. apply Hkeep. rewrite Harg. exact Hns.
      * rewrite H1 in Hb.
        assert (a = [] /\ x = e /\ b = []) as (-> & -> & ->).
        { destruct a as [|y a]; [inversion Hb; auto|].
          inversion Hb as [[Hy Hrest]]. destruct a; discriminate Hrest. }
        cbn [app] in Ha. split; [left; apply Hnil; exact Ha|].
        intros Hns. exfalso. apply Hns.
        assert (Hm : In m (key_entries key (literal_entries g)))
          by (apply key_entries_in; auto).
        rewrite H1 in Hm. destruct Hm as [<-|[]]. exact Hstale.
Qed.

(** C3 (as amended). An IP text of at most 15 characters, free of wildcard
    characters, is added at [t0 >= 0] with duration [d > 0] to a sorted
    literal map that holds no entry for it. Any run of lookups, adds and
    releases that are about other addresses may follow. A lookup of the text
    at [now] then reports a match when [now < t0 + d], as long as the
    comparator's clock is not more than 60 s past [t0 + d]; and then (no
    wildcard pattern matching) the lookup changes this one entry only and
    leaves it with timeout [max (t0 + d) (now + 300)]. When [t0 + d <= now],
    so in particular when [t0 + d + 300 <= now], and no wildcard pattern
    matches, the lookup reports no match and the map holds no entry for the
    text afterwards. *)
Theorem ban_entry_lifetime (cpc : string -> string -> Z) (g : ban_globals)
    (t : avl_tree) (key : string) (d t0 now : Z) (ops : list cache_op) :
  contents (banned_ip g) = Some t ->
  avl_sorted t = true ->
  has_wildcard key = false ->
  (String.length key <= 15)%nat ->
  ip_absent key (avl_elements t) = true ->
  0 < d -> 0 <= t0 ->
  forallb (cache_op_elsewhere key) ops = true ->
  let g1 := connection_add_banned_ip g key d t0 in
  let g2 := cache_run cpc g1 ops in
  (now < t0 + d -> compare_arg (banned_ip g) <= t0 + d + 60 ->
   fst (search_at cpc g2 key now) = 1 /\
   (no_wildcard_matches cpc g2 key = true ->
    exists l1 l2,
      literal_entries g2 = l1 ++ mkBanned key (t0 + d) :: l2 /\
      ip_absent key (l1 ++ l2) = true /\
      literal_entries (snd (search_at cpc g2 key now))
      = l1 ++ mkBanned key (Z.max (t0 + d) (now + 300)) :: l2)) /\
  (t0 + d <= now -> no_wildcard_matches cpc g2 key = true ->
   fst (search_at cpc g2 key now) = 0 /\
   ip_absent key (literal_entries (snd (search_at cpc g2 key now))) = true).
Proof.
  intros Ht Hsorted Hw Hlen Habs Hd Ht0 Hops g1 g2.
  destruct (connection_add_banned_ip_entries g t key d t0 Ht Hw)
    as (_ & _ & Harg & la & lb & Ha & Hb).
  fold g1 in Harg, Hb.
  rewrite (ip_field_short key Hlen) in Hb.
  destruct (Z.gtb_spec d 0) as [_|?]; [|lia].
  set (added := mkBanned key (t0 + d)) in *.
  unfold literal_entries in Ha. rewrite Ht in Ha.
  assert (Hone : key_entries key (literal_entries g1) = [added]).
  { rewrite Hb, key_entries_app, key_entries_cons. cbn [ip added].
    rewrite String.eqb_refl.
    rewrite Ha, ip_absent_app in Habs. apply andb_true_iff in Habs as [H1 H2].
    apply key_entries_nil in H1, H2. rewrite H1, H2. reflexivity. }
  assert (Hs1 : map_sorted g1 = true).
  { apply connection_add_banned_ip_keeps_sorted. unfold map_sorted. rewrite Ht. exact Hsorted. }
  pose proof (cache_run_keeps_sorted cpc ops g1 Hs1) as Hs2. fold g2 in Hs2.
  destruct (cache_run_elsewhere cpc key added ops Hops g1) as (Harg2 & _ & Hrun).
  fold g2 in Harg2, Hrun. destruct (Hrun Hone) as [Hsub Hkeep]. clear Hrun.
  unfold search_at.
  set (g' := {| banned_ip := banned_ip g2; ban_entry_removal := ban_entry_removal g2;
                cachefile_timecheck := now |}).
  assert (Hnw : no_wildcard_matches cpc g' key = no_wildcard_matches cpc g2 key)
    by reflexivity.
  assert (HL : literal_entries g' = literal_entries g2) by reflexivity.
  destruct (search_banned_ip_locked_cases cpc g' key)
    as [[Hno Hr] | [(_ & Hnone & Hr) | (_ & t' & Ht' & Hcase)]].
  - (* a wildcard pattern decides the lookup *)
    rewrite Hnw in Hno. rewrite Hr. cbn [fst snd].
    split; [intros _ _; split; [reflexivity | congruence] | congruence].
  - (* no map *)
    rewrite Hr. cbn [fst snd]. rewrite HL.
    assert (Hempty : literal_entries g2 = []).
    { unfold literal_entries. cbn [banned_ip g'] in Hnone. rewrite Hnone. reflexivity. }
    split.
    + intros _ Hclock. exfalso.
      assert (Hk : key_entries key (literal_entries g2) = [added]).
      { apply Hkeep. unfold stale_at. cbn [timeout added]. rewrite Harg. lia. }
      rewrite Hempty in Hk. discriminate Hk.
    + intros _ _. split; [reflexivity|]. rewrite Hempty. reflexivity.
  - cbn [banned_ip g' cachefile_timecheck] in Ht', Hcase.
    assert (Hel : literal_entries g2 = avl_elements t')
      by (unfold literal_entries; rewrite Ht'; reflexivity).
    assert (Hst : avl_sorted t' = true)
      by (unfold map_sorted in Hs2; rewrite Ht' in Hs2; exact Hs2).
    (* the lookup when the entry is still there *)
    assert (Hthere : key_entries key (literal_entries g2) = [added] ->
              exists l1 l2,
                avl_elements t' = l1 ++ added :: l2 /\
                ip_absent key (l1 ++ l2) = true /\
                if in_force now added
                then fst (search_banned_ip_locked cpc g' key) = 1 /\
                     literal_entries (snd (search_banned_ip_locked cpc g' key))
                     = l1 ++ renew now added :: l2
                else fst (search_banned_ip_locked cpc g' key) = 0 /\
                     swept (snd (avl_get_by_key (compare_arg (banned_ip g2)) t' key None))
                           (l1 ++ l2)
                           (literal_entries (snd (search_banned_ip_locked cpc g' key)))).
    { intros Hk. rewrite Hel in Hk.
      rewrite (avl_sorted_find (compare_arg (banned_ip g2)) key added t' None Hst Hk)
        in Hcase.
      destruct Hcase as (l1 & l2 & H1 & Hcase). exists l1, l2.
      split; [exact H1|]. split; [|exact Hcase].
      rewrite H1, key_entries_app, key_entries_cons in Hk. cbn [ip added] in Hk.
      rewrite String.eqb_refl in Hk.
      rewrite ip_absent_app. apply andb_true_iff.
      destruct (key_entries key l1) as [|y l1'] eqn:E1.
      - cbn [app] in Hk. inversion Hk as [Hk2].
        split; apply key_entries_nil; assumption.
      - cbn [app] in Hk. inversion Hk as [[Hy Hrest]].
        destruct l1'; discriminate Hrest. }
    split.
    + intros Hlive Hclock.
      assert (Hk : key_entries key (literal_entries g2) = [added]).
      { apply Hkeep. unfold stale_at. cbn [timeout added]. rewrite Harg. lia. }
      destruct (Hthere Hk) as (l1 & l2 & H1 & Hab & Hin).
      assert (Hf : in_force now added = true).
      { unfold in_force. cbn [timeout added]. apply orb_true_iff. right.
        apply Z.gtb_lt. exact Hlive. }
      rewrite Hf in Hin. destruct Hin as [Hr Hent].
      split; [exact Hr|]. intros _. exists l1, l2.
      split; [rewrite Hel; exact H1|]. split; [exact Hab|].
      rewrite Hent. unfold renew. cbn [timeout added].
      destruct (Z.eqb_spec (t0 + d) 0) as [?|_]; [lia|]. cbn [negb andb].
      destruct (Z.gtb_spec (now + 300) (t0 + d)); unfold set_timeout; cbn [ip added];
        [rewrite Z.max_r by lia | rewrite Z.max_l by lia]; reflexivity.
    + intros Hdead _.
      destruct Hsub as [Hk|Hk].
      * (* the entry went with a sweep *)
        rewrite Hel in Hk. apply key_entries_nil in Hk.
        rewrite (avl_get_by_key_absent (compare_arg (banned_ip g2)) key t' None Hk) in Hcase.
        destruct Hcase as [Hr Hs]. split; [exact Hr|].
        apply (ip_absent_incl key (avl_elements t')); [|exact Hk].
        eapply swept_incl. exact Hs.
      * destruct (Hthere Hk) as (l1 & l2 & H1 & Hab & Hin).
        assert (Hf : in_force now added = false).
        { unfold in_force. cbn [timeout added]. apply orb_false_iff. split.
          - apply Z.eqb_neq. lia.
          - rewrite Z.gtb_ltb. apply Z.ltb_ge. exact Hdead. }
        rewrite Hf in Hin. destruct Hin as [Hr Hs]. split; [exact Hr|].
        apply (ip_absent_incl key (l1 ++ l2)); [|exact Hab].
        eapply swept_incl. exact Hs.
Qed.

Lemma ban_entry_lifetime_witness :
  fst (search_at no_patterns
         (cache_run no_patterns (connection_add_banned_ip demo_bans "10.0.0.5" 50 100)
                    demo_cache_ops)
         "10.0.0.5" 120) = 1 /\
  fst (search_at no_patterns
         (cache_run no_patterns (connection_add_banned_ip demo_bans "10.0.0.5" 50 100)
                    demo_cache_ops)
         "10.0.0.5" 500) = 0.
Proof.
  split.
  - apply (ban_entry_lifetime no_patterns demo_bans avl_leaf "10.0.0.5" 50 100 120
             demo_cache_ops); try reflexivity; simpl; lia.
  - apply (ban_entry_lifetime no_patterns demo_bans avl_leaf "10.0.0.5" 50 100 500
             demo_cache_ops); try reflexivity; simpl; lia.
Defined.

(** C3, counterexample. A literal IPv6 text of 22 characters is added at
    time 100 for 50 s; the lookup of that text at time 101 reports no match,
    although 101 < 100 + 50. *)
Lemma ban_entry_lifetime_fails_for_long_ip :
  has_wildcard "2001:db8::ff00:42:8329" = false /\
  0 < 50 /\ 101 < 100 + 50 /\
  fst (search_at no_patterns
         (connection_add_banned_ip demo_bans "2001:db8::ff00:42:8329" 50 100)
         "2001:db8::ff00:42:8329" 101) = 0.
Proof. repeat split; try reflexivity; lia. Qed.

(** Why the amended statement asks that no wildcard pattern matches: with
    the pattern [10.*] in the wildcard list the lookup still reports a match
    long after the literal entry has timed out, and the entry stays. *)
Example wildcard_outlives_literal_entry :
  let g := {| banned_ip := {| wildcards := ["10.*"%string]; contents := Some avl_leaf;
                              compare_arg := 0 |};
              ban_entry_removal := None; cachefile_timecheck := 0 |} in
  let r := search_at glob_compare (connection_add_banned_ip g "10.0.0.5" 50 100)
                     "10.0.0.5" 1000 in
  fst r = 1 /\ literal_entries (snd r) = [mkBanned "10.0.0.5" 150].
Proof. split; reflexivity. Qed.

(** Why the amended statement asks that the map holds no entry for the text
    yet: in the tree model an entry added beside a stale one for the same
    text is hidden by it, and the first lookup removes the stale one and
    reports no match. *)
Example stale_entry_hides_new_entry :
  let g := {| banned_ip := {| wildcards := [];
                              contents := Some (avl_node avl_leaf (mkBanned "10.0.0.5" 5)
                                                         avl_leaf);
                              compare_arg := 0 |};
              ban_entry_removal := None; cachefile_timecheck := 0 |} in
  let r := search_at no_patterns (connection_add_banned_ip g "10.0.0.5" 50 100)
                     "10.0.0.5" 101 in
  fst r = 0 /\ literal_entries (snd r) = [mkBanned "10.0.0.5" 150].
Proof. split; reflexivity. Qed.

(** Why the amended statement bounds the comparator's clock: with that
    clock at 1000 the entry added at 100 for 50 s is stale for the
    comparator; the lookup of another address at 120 marks it and takes it,
    and the lookup of its text at 121 reports no match. *)
Example stale_clock_sweeps_live_entry :
  let g := {| banned_ip := {| wildcards := []; contents := Some avl_leaf;
                              compare_arg := 1000 |};
              ban_entry_removal := None; cachefile_timecheck := 0 |} in
  let g2 := cache_run no_patterns (connection_add_banned_ip g "10.0.0.5" 50 100)
                      [cache_search "10.0.0.9" 120] in
  literal_entries g2 = [] /\ fst (search_at no_patterns g2 "10.0.0.5" 121) = 0.
Proof. split; reflexivity. Qed.

(** Why the amended statement asks for a sorted map: in this tree, which no
    run of operations builds, 10.0.0.1 hangs to the right of 10.0.0.4. The
    entry for 10.0.0.3 goes to the left of the root; the lookup of 10.0.0.9
    takes the stale root away, 10.0.0.1 moves up, and the search for
    10.0.0.3 then turns right and misses the entry, which is still in the
    map. *)
Example unsorted_tree_loses_entry :
  let g := {| banned_ip :=
                {| wildcards := [];
                   contents := Some (avl_node avl_leaf (mkBanned "10.0.0.4" 5)
                                       (avl_node avl_leaf (mkBanned "10.0.0.1" 0) avl_leaf));
                   compare_arg := 1000 |};
              ban_entry_removal := None; cachefile_timecheck := 0 |} in
  let g2 := cache_run no_patterns (connection_add_banned_ip g "10.0.0.3" 50 2000)
                      [cache_search "10.0.0.9" 2001] in
  map_sorted g = false /\
  literal_entries g2 = [mkBanned "10.0.0.3" 2050; mkBanned "10.0.0.1" 0] /\
  fst (search_at no_patterns g2 "10.0.0.3" 2002) = 0.
Proof. repeat split. Qed.

(* --------------------------------------------------------------------- *)
(** ** Listen-socket manager: closing everything, opening               *)
(* --------------------------------------------------------------------- *)

Lemma close_loop_all (config : option ice_config_t) (all_sockets : Z) :
  (config = None \/ all_sockets <> 0) ->
  forall k old new socks conns nsocks evs,
    (old + k <= length socks)%nat -> (old + k <= length conns)%nat ->
    exists socks',
      close_loop config all_sockets k old new socks conns nsocks evs
      = (new, socks', conns, nsocks - Z.of_nat k,
         evs ++ closings (combine (take k (drop old socks)) (take k (drop old conns)))).
Proof.
  intros Hall. induction k as [|k IH]; intros old new socks conns nsocks evs Hs Hc.
  - exists socks. cbn. rewrite Z.sub_0_r, app_nil_r. reflexivity.
  - destruct (lookup_lt_is_Some_2 socks old) as [sock Hsock]; [lia|].
    destruct (lookup_lt_is_Some_2 conns old) as [conn Hconn]; [lia|].
    cbn [close_loop]. rewrite Hsock, Hconn.
    assert (Hnone : match config with
                    | Some cfg =>
                        if (all_sockets =? 0) && (port conn <? 1024)
                        then find_listener (listen_sock cfg) conn
                        else None
                    | None => None
                    end = None).
    { destruct Hall as [-> | Hne]; [reflexivity|].
      destruct config; [|reflexivity].
      destruct (Z.eqb_spec all_sockets 0); [contradiction | reflexivity]. }
    rewrite Hnone.
    destruct (IH (S old) new (<[old := SOCK_ERROR]> socks) conns (nsocks - 1)
                (evs ++ [sock_close sock; config_clear_listener conn]))
      as (socks' & Hrun); try (rewrite ?length_insert; lia).
    rewrite drop_insert_lt in Hrun by lia.
    exists socks'. rewrite Hrun.
    rewrite (drop_S _ _ _ Hsock), (drop_S _ _ _ Hconn).
    cbn [take combine closings flat_map]. rewrite <- app_assoc.
    f_equal. f_equal. lia.
Qed.

(** X10. With no config or with [all_sockets] not 0,
    [connection_listen_sockets_close] closes every slot: each socket in use
    is closed and its profile released, once and in order, the arrays are
    freed and [server_sockets] is 0. *)
Theorem connection_listen_sockets_close_all (config : option ice_config_t)
    (all_sockets : Z) (g : global.t) :
  global_wf g = true ->
  config = None \/ all_sockets <> 0 ->
  connection_listen_sockets_close config all_sockets g
  = (global.mk None None 0, closings (open_slots g)).
Proof.
  intros Hwf Hall. unfold global_wf in Hwf.
  unfold connection_listen_sockets_close, open_slots.
  destruct g as [[socks|] [conns|] n]; cbn [global.serversock global.server_conn
    global.server_sockets] in *; try discriminate.
  rewrite !andb_true_iff, !Z.leb_le in Hwf. destruct Hwf as [[H0 Hs] Hc].
  destruct (close_loop_all config all_sockets Hall (Z.to_nat n) 0 0 socks conns n []
              ltac:(lia) ltac:(lia)) as (socks' & Hrun).
  rewrite Hrun, !drop_0, Z2Nat.id, Z.sub_diag by lia. reflexivity.
Qed.

Lemma connection_listen_sockets_close_all_witness :
  connection_listen_sockets_close None 1 demo_global
  = (global.mk None None 0, closings (open_slots demo_global)).
Proof.
  apply (connection_listen_sockets_close_all None 1 demo_global).
  - reflexivity.
  - left. reflexivity.
Defined.

(** The loop of [connection_setup_sockets] while there is room for the
    sockets that open: the guard never trips and no store leaves the
    arrays. *)
Lemma setup_loop_spec (so_sndbuf so_mss qlen : listener_t -> Z) (lsc : Z)
    (sl : socket_layer) :
  forall listener k count socks conns evs,
    0 <= count ->
    count + Z.of_nat (length (sockets_opened qlen sl k listener)) <= lsc ->
    lsc <= Z.of_nat (length socks) -> lsc <= Z.of_nat (length conns) ->
    let opened := sockets_opened qlen sl k listener in
    exists socks' conns' evs',
      setup_loop so_sndbuf so_mss qlen lsc sl k listener count socks conns evs
      = (map snd opened, count + Z.of_nat (length opened), socks', conns', evs') /\
      take (Z.to_nat count + length opened) socks'
      = take (Z.to_nat count) socks ++ map fst opened /\
      take (Z.to_nat count + length opened) conns'
      = take (Z.to_nat count) conns ++ map snd opened /\
      length socks' = length socks /\ length conns' = length conns.
Proof.
  induction listener as [|l next IH]; intros k count socks conns evs H0 Hroom Hs Hc opened.
  - subst opened. cbn. exists socks, conns, evs.
    rewrite Z.add_0_r, Nat.add_0_r, !app_nil_r. auto.
  - subst opened. cbn [setup_loop sockets_opened] in *.
    assert (Hnn : 0 <= Z.of_nat (length (sockets_opened qlen sl (S k) next))) by lia.
    set (sock := sock_get_server_socket sl k (port l) (bind_address l)) in *.
    destruct (sock =? SOCK_ERROR); cbn [orb] in *.
    { destruct (Z.gtb_spec count lsc) as [Hgt|_]; [exfalso; lia|]. apply IH; lia. }
    destruct (sock_listen sl sock (qlen l) =? SOCK_ERROR).
    { destruct (Z.gtb_spec count lsc) as [Hgt|_]; [exfalso; lia|]. apply IH; lia. }
    cbn [length] in Hroom.
    destruct (Z.gtb_spec count lsc) as [Hgt|_]; [exfalso; lia|].
    set (evs1 := (evs ++ _ ++ _) ++ _).
    destruct (IH (S k) (count + 1) (<[Z.to_nat count := sock]> socks)
                (<[Z.to_nat count := l]> conns) evs1)
      as (socks' & conns' & evs' & Hrun & Hts & Htc & Hls & Hlc);
      try (rewrite ?length_insert; lia).
    rewrite Hrun. exists socks', conns', evs'.
    cbn [map fst snd length].
    replace (Z.to_nat count + S (length (sockets_opened qlen sl (S k) next)))%nat
      with (Z.to_nat (count + 1) + length (sockets_opened qlen sl (S k) next))%nat by lia.
    rewrite Hts, Htc, Hls, Hlc, !length_insert.
    replace (Z.to_nat (count + 1)) with (S (Z.to_nat count)) by lia.
    rewrite !take_S_insert by lia.
    rewrite <- !app_assoc. cbn [app].
    repeat split; try reflexivity.
    do 4 f_equal. lia.
Qed.

Lemma combine_app_same {A B : Type} (a1 a2 : list A) (b1 b2 : list B) :
  length a1 = length b1 ->
  combine (a1 ++ a2) (b1 ++ b2) = combine a1 b1 ++ combine a2 b2.
Proof.
  revert b1. induction a1 as [|x a1 IH]; intros [|y b1] Hlen; cbn in *;
    try discriminate; [reflexivity|].
  rewrite IH by lia. reflexivity.
Qed.

(** X11. [connection_setup_sockets], called with fewer sockets open than
    the config counts and with room for those that open: every configured
    listener is tried once, in order; the ones that get a socket that can
    listen are appended, each with its socket, behind the slots already in
    use; the config keeps exactly those listeners; the result and
    [server_sockets] are the number of slots then in use. *)
Theorem connection_setup_sockets_opens_configured
    (so_sndbuf so_mss qlen : listener_t -> Z) (listen_sock_count : Z)
    (sl : socket_layer) (stale_sock : sock_t) (stale_conn : listener_t)
    (config : ice_config_t) (g : global.t) :
  slots_allocated g = true ->
  global.server_sockets g < listen_sock_count ->
  let opened := sockets_opened qlen sl 0 (listen_sock config) in
  global.server_sockets g + Z.of_nat (length opened) <= listen_sock_count ->
  exists g' evs,
    connection_setup_sockets so_sndbuf so_mss qlen listen_sock_count sl
      stale_sock stale_conn config g
    = (global.server_sockets g + Z.of_nat (length opened),
       {| listen_sock := map snd opened |}, g', evs) /\
    global.server_sockets g' = global.server_sockets g + Z.of_nat (length opened) /\
    open_slots g' = open_slots g ++ opened.
Proof.
  intros Hwf Hlt opened Hroom. unfold slots_allocated in Hwf.
  rewrite !andb_true_iff, !Z.leb_le in Hwf. destruct Hwf as [[H0 Hs] Hc].
  unfold connection_setup_sockets.
  destruct (Z.geb_spec (global.server_sockets g) listen_sock_count) as [Hge|_];
    [exfalso; lia|].
  set (socks0 := match global.serversock g with Some s => s | None => [] end) in *.
  set (conns0 := match global.server_conn g with Some c => c | None => [] end) in *.
  set (n := Z.to_nat listen_sock_count).
  destruct (setup_loop_spec so_sndbuf so_mss qlen listen_sock_count sl
              (listen_sock config) 0 (global.server_sockets g)
              (resize n stale_sock socks0) (resize n stale_conn conns0) [] H0 Hroom)
    as (socks' & conns' & evs' & Hrun & Hts & Htc & _ & _);
    try (rewrite length_resize; lia).
  fold opened in Hrun, Hts, Htc. rewrite Hrun.
  eexists _, evs'. split; [reflexivity|]. split; [reflexivity|].
  unfold open_slots. cbn [global.serversock global.server_conn global.server_sockets].
  fold socks0 conns0.
  rewrite Z2Nat.inj_add, Nat2Z.id by lia.
  rewrite Hts, Htc.
  rewrite !take_resize_le, !resize_le by lia.
  rewrite combine_app_same.
  - rewrite combine_fst_snd. reflexivity.
  - rewrite !length_take. lia.
Qed.

Lemma connection_setup_sockets_opens_configured_witness :
  exists g' evs,
    connection_setup_sockets (fun _ => 0) (fun _ => 0) (fun _ => 5) 2
      demo_socket_layer 0 (demo_port 0) demo_config (global.mk None None 0)
    = (1, {| listen_sock := [demo_port 8001] |}, g', evs) /\
    global.server_sockets g' = 1 /\
    open_slots g' = [(11, demo_port 8001)].
Proof.
  apply (connection_setup_sockets_opens_configured (fun _ => 0) (fun _ => 0) (fun _ => 5) 2
           demo_socket_layer 0 (demo_port 0) demo_config (global.mk None None 0)).
  - reflexivity.
  - simpl; lia.
  - simpl; lia.
Defined.

(* --------------------------------------------------------------------- *)
(** ** Accept loop: the sweep of the listen sockets                     *)
(* --------------------------------------------------------------------- *)

Lemma poll_scan_spec (p : poll_reply) :
  forall n i socks evs,
    (i + n <= length socks)%nat ->
    let u := pair_revents p i (take n (drop i socks)) in
    poll_none_readable u = true ->
    poll_scan p n i socks evs
    = (None,
       take i socks
       ++ map (fun x => if poll_dropped x then SOCK_ERROR else fst x) u
       ++ drop (i + n) socks,
       evs ++ flat_map poll_closes u).
Proof.
  induction n as [|n IH]; intros i socks evs Hlen u Hnone.
  - subst u. rewrite take_0. cbn. rewrite Nat.add_0_r, take_drop, app_nil_r. reflexivity.
  - destruct (lookup_lt_is_Some_2 socks i) as [fd Hfd]; [lia|].
    subst u. rewrite (drop_S _ _ _ Hfd) in *.
    cbn [take pair_revents poll_none_readable forallb map flat_map fst snd] in *.
    apply andb_true_iff in Hnone as [Hin Hnone]. apply negb_true_iff in Hin.
    cbn [poll_scan]. rewrite Hfd, Hin.
    assert (Hti : forall x, take (S i) (<[i := x]> socks) = take i socks ++ [x]).
    { intros x. apply take_S_insert. lia. }
    assert (Hpd : poll_dropped (fd, revents_at p i)
                  = flagged (revents_at p i) (Z.lor POLLHUP (Z.lor POLLERR POLLNVAL)))
      by reflexivity.
    unfold poll_closes at 1. cbn [fst snd]. rewrite !Hpd.
    destruct (flagged (revents_at p i) (Z.lor POLLHUP (Z.lor POLLERR POLLNVAL))).
    + rewrite IH.
      2:{ rewrite length_insert. lia. }
      2:{ rewrite drop_insert_lt by lia. exact Hnone. }
      rewrite Hti, !drop_insert_lt by lia.
      replace (S i + n)%nat with (i + S n)%nat by lia.
      rewrite <- !app_assoc. cbn [app andb].
      destruct (flagged (revents_at p i) (Z.lor POLLHUP POLLERR));
        rewrite <- ?app_assoc; reflexivity.
    + rewrite IH by (try lia; exact Hnone).
      rewrite (take_S_r _ _ _ Hfd).
      replace (S i + n)%nat with (i + S n)%nat by lia.
      rewrite <- !app_assoc. cbn [app andb]. reflexivity.
Qed.

Lemma poll_compact_spec :
  forall n i dst socks,
    (dst <= i)%nat -> (i + n <= length socks)%nat ->
    let kept := List.filter live (take n (drop i socks)) in
    exists socks',
      poll_compact n i dst socks = ((dst + length kept)%nat, socks') /\
      take (dst + length kept) socks' = take dst socks ++ kept.
Proof.
  induction n as [|n IH]; intros i dst socks Hdst Hlen kept.
  - subst kept. cbn. exists socks. rewrite Nat.add_0_r, app_nil_r. auto.
  - destruct (lookup_lt_is_Some_2 socks i) as [s Hs]; [lia|].
    subst kept. rewrite (drop_S _ _ _ Hs).
    cbn [take List.filter].
    assert (Hlive : live s = negb (s =? SOCK_ERROR)) by reflexivity.
    rewrite Hlive.
    destruct (s =? SOCK_ERROR) eqn:Hse; cbn [negb].
    + destruct (IH (S i) dst socks) as (socks' & Hrun & Htake); try lia.
      exists socks'. split; [|exact Htake].
      cbn [poll_compact]. unfold sock_t in *. rewrite Hs, Hse. exact Hrun.
    + set (socks1 := if (i =? dst)%nat then socks else <[dst := s]> socks).
      assert (Hd : drop (S i) socks1 = drop (S i) socks).
      { subst socks1. destruct (i =? dst)%nat; [reflexivity|].
        apply drop_insert_lt. lia. }
      assert (Ht : take (S dst) socks1 = take dst socks ++ [s]).
      { subst socks1. destruct (Nat.eqb_spec i dst) as [->|Hne].
        - apply take_S_r. exact Hs.
        - apply take_S_insert. lia. }
      assert (Hl : length socks1 = length socks).
      { subst socks1. destruct (i =? dst)%nat; [reflexivity | apply length_insert]. }
      destruct (IH (S i) (S dst) socks1) as (socks' & Hrun & Htake); try lia.
      rewrite Hd in Hrun, Htake.
      exists socks'. cbn [length].
      replace (dst + S (length (List.filter live (take n (drop (S i) socks)))))%nat
        with (S dst + length (List.filter live (take n (drop (S i) socks))))%nat by lia.
      split; [|rewrite Htake, Ht, <- app_assoc; reflexivity].
      cbn [poll_compact]. unfold sock_t in *. rewrite Hs, Hse. exact Hrun.
Qed.

Lemma filter_live_scanned (u : list (sock_t * Z)) :
  List.filter live (map (fun x => if poll_dropped x then SOCK_ERROR else fst x) u)
  = map fst (List.filter poll_survives u).
Proof.
  induction u as [|x u IH]; cbn [map List.filter]; [reflexivity|].
  unfold poll_survives at 1. unfold live at 1.
  destruct (poll_dropped x); cbn [negb andb].
  - rewrite andb_false_r. exact IH.
  - rewrite andb_true_r. destruct (fst x =? SOCK_ERROR); cbn [negb map];
      rewrite IH; reflexivity.
Qed.

Lemma pair_revents_length (p : poll_reply) (l : list sock_t) :
  forall i, length (pair_revents p i l) = length l.
Proof. induction l as [|s l IH]; intros i; cbn; [reflexivity | rewrite IH; reflexivity]. Qed.

Lemma wait_for_serversock_spec (g : global.t) (p : poll_reply) :
  global_wf g = true ->
  0 < poll_ret p ->
  let socks := match global.serversock g with Some s => s | None => [] end in
  let u := pair_revents p 0 (take (Z.to_nat (global.server_sockets g)) socks) in
  poll_none_readable u = true ->
  exists socks',
    wait_for_serversock g p
    = (SOCK_ERROR,
       global.mk (Some socks') (global.server_conn g)
                 (Z.of_nat (length (List.filter poll_survives u))),
       flat_map poll_closes u) /\
    take (length (List.filter poll_survives u)) socks'
    = map fst (List.filter poll_survives u).
Proof.
  intros Hwf Hret socks u Hnone. unfold global_wf in Hwf.
  unfold wait_for_serversock.
  destruct (Z.leb_spec (poll_ret p) 0) as [?|_]; [exfalso; lia|].
  destruct g as [[socks0|] [conns|] n]; cbn [global.serversock global.server_conn
    global.server_sockets] in *; try discriminate.
  rewrite !andb_true_iff, !Z.leb_le in Hwf. destruct Hwf as [[H0 Hs] Hc].
  subst socks.
  pose proof (poll_scan_spec p (Z.to_nat n) 0 socks0 [] ltac:(lia)) as Hscan.
  rewrite drop_0 in Hscan. specialize (Hscan Hnone). fold u in Hscan.
  rewrite take_0 in Hscan. cbn [app Nat.add] in Hscan.
  rewrite Hscan.
  set (socks1 := map _ u ++ drop (Z.to_nat n) socks0).
  assert (Hlu : length u = Z.to_nat n).
  { subst u. rewrite pair_revents_length, length_take. lia. }
  assert (Hl1 : (Z.to_nat n <= length socks1)%nat).
  { subst socks1. rewrite length_app, length_map. lia. }
  destruct (poll_compact_spec (Z.to_nat n) 0 0 socks1 ltac:(lia) ltac:(lia))
    as (socks' & Hrun & Htake).
  rewrite drop_0 in Hrun, Htake. rewrite take_0 in Htake.
  cbn [Nat.add app] in Hrun, Htake.
  assert (Hfirst : take (Z.to_nat n) socks1
                   = map (fun x => if poll_dropped x then SOCK_ERROR else fst x) u).
  { subst socks1. rewrite take_app_length'; [reflexivity|]. rewrite length_map.
    symmetry. exact Hlu. }
  rewrite Hfirst, filter_live_scanned in Hrun, Htake.
  rewrite Hrun. exists socks'. rewrite length_map in *. split; [reflexivity | exact Htake].
Qed.

(** X12. [wait_for_serversock] after a [poll] that reports events but no
    readable listen socket: the result is [SOCK_ERROR]; the sockets in use
    afterwards are the earlier ones that were neither defunct nor flagged
    with hang-up, error or invalid, in order from index 0, and
    [server_sockets] is their number; a socket flagged with hang-up or error
    is closed; and [global.server_conn] is the array it was: the profiles do
    not move with the sockets. *)
Theorem wait_for_serversock_compacts_sockets_only (g : global.t) (p : poll_reply) :
  global_wf g = true ->
  0 < poll_ret p ->
  let socks := match global.serversock g with Some s => s | None => [] end in
  let u := pair_revents p 0 (take (Z.to_nat (global.server_sockets g)) socks) in
  poll_none_readable u = true ->
  exists socks',
    wait_for_serversock g p
    = (SOCK_ERROR,
       global.mk (Some socks') (global.server_conn g)
                 (Z.of_nat (length (List.filter poll_survives u))),
       flat_map poll_closes u) /\
    take (length (List.filter poll_survives u)) socks'
    = map fst (List.filter poll_survives u).
Proof. apply wait_for_serversock_spec. Qed.

Lemma wait_for_serversock_compacts_sockets_only_witness :
  exists socks',
    wait_for_serversock demo_global demo_hangup
    = (SOCK_ERROR,
       global.mk (Some socks') (global.server_conn demo_global) 1,
       [sock_close 7]) /\
    take 1 socks' = [9].
Proof.
  apply (wait_for_serversock_compacts_sockets_only demo_global demo_hangup).
  - reflexivity.
  - simpl; lia.
  - reflexivity.
Defined.

Lemma accept_client_listener_spec (conns : list listener_t) (s : sock_t) :
  forall n i socks j,
    (i + n <= length socks)%nat ->
    List.NoDup (take n (drop i socks)) ->
    take n (drop i socks) !! j = Some s ->
    accept_client_listener n i socks conns s = conns !! (i + j)%nat.
Proof.
  induction n as [|n IH]; intros i socks j Hlen Hnd Hj.
  - rewrite take_0 in Hj. discriminate.
  - destruct (lookup_lt_is_Some_2 socks i) as [x Hx]; [lia|].
    rewrite (drop_S _ _ _ Hx) in Hnd, Hj. cbn [take] in Hnd, Hj.
    cbn [accept_client_listener]. unfold sock_t in *. rewrite Hx.
    inversion Hnd as [|? ? Hnotin Hnd']; subst.
    destruct j as [|j]; cbn in Hj.
    + inversion Hj; subst x. rewrite Z.eqb_refl, Nat.add_0_r. reflexivity.
    + destruct (Z.eqb_spec x s) as [->|Hne].
      * exfalso. apply Hnotin. apply list_elem_of_In.
        eapply list_elem_of_lookup_2. exact Hj.
      * rewrite (IH (S i) socks j) by (try lia; assumption).
        f_equal. lia.
Qed.

(** X13. After such a sweep [accept_client] binds a client that arrives
    through the socket now at index [j] to the profile at index [j] of the
    profile array, which was not compacted: the socket's own profile only
    when no slot before it was dropped. *)
Theorem accept_client_after_compaction (g : global.t) (p : poll_reply)
    (s : sock_t) (j : nat) :
  global_wf g = true ->
  0 < poll_ret p ->
  let socks := match global.serversock g with Some s => s | None => [] end in
  let conns := match global.server_conn g with Some c => c | None => [] end in
  let u := pair_revents p 0 (take (Z.to_nat (global.server_sockets g)) socks) in
  let survivors := map fst (List.filter poll_survives u) in
  poll_none_readable u = true ->
  List.NoDup survivors ->
  survivors !! j = Some s ->
  let g' := snd (fst (wait_for_serversock g p)) in
  accept_client_listener (Z.to_nat (global.server_sockets g')) 0
    (match global.serversock g' with Some s => s | None => [] end)
    (match global.server_conn g' with Some c => c | None => [] end) s
  = conns !! j.
Proof.
  intros Hwf Hret socks conns u survivors Hnone Hnd Hj g'.
  destruct (wait_for_serversock_spec g p Hwf Hret Hnone)
    as (socks' & Hrun & Htake).
  fold socks u in Hrun, Htake. subst g'. rewrite Hrun.
  cbn [fst snd global.serversock global.server_conn global.server_sockets].
  fold conns. rewrite Nat2Z.id.
  fold survivors in Htake.
  assert (Hlen : length survivors = length (List.filter poll_survives u))
    by (subst survivors; apply length_map).
  rewrite <- Hlen in *.
  assert (Hle : (length survivors <= length socks')%nat).
  { rewrite <- Htake at 1. rewrite length_take. lia. }
  rewrite (accept_client_listener_spec conns s (length survivors) 0 socks' j);
    rewrite ?drop_0, ?Htake; try assumption; try lia. reflexivity.
Qed.

Lemma accept_client_after_compaction_witness :
  let g' := snd (fst (wait_for_serversock demo_global demo_hangup)) in
  accept_client_listener (Z.to_nat (global.server_sockets g')) 0
    (match global.serversock g' with Some s => s | None => [] end)
    (match global.server_conn g' with Some c => c | None => [] end) 9
  = [demo_port 8000; demo_port 80] !! 0%nat.
Proof.
  apply (accept_client_after_compaction demo_global demo_hangup 9 0).
  - reflexivity.
  - simpl; lia.
  - reflexivity.
  - repeat constructor. simpl. tauto.
  - reflexivity.
Defined.

(** Two listeners, ports 8000 and 80: once the first socket has hung up, a
    client arriving on port 80 gets the profile of port 8000. *)
Example accept_client_listener_before_and_after_hangup :
  accept_client_listener 2 0 [7; 9] [demo_port 8000; demo_port 80] 9
  = Some (demo_port 80) /\
  (let g' := snd (fst (wait_for_serversock demo_global demo_hangup)) in
   accept_client_listener (Z.to_nat (global.server_sockets g')) 0
     (match global.serversock g' with Some s => s | None => [] end)
     (match global.server_conn g' with Some c => c | None => [] end) 9)
  = Some (demo_port 8000).
Proof. split; reflexivity. Qed.

(* --------------------------------------------------------------------- *)
(** ** Request preamble reader: bounds and deadline                     *)
(* --------------------------------------------------------------------- *)

Lemma is_prefix_take (p s : bytes) :
  is_prefix p s = true -> take (length p) s = p.
Proof.
  revert s. induction p as [|x p IH]; intros [|y s]; cbn; try discriminate; try reflexivity.
  intros H. apply andb_true_iff in H as [Hxy Hp].
  apply Ascii.eqb_eq in Hxy. subst y. rewrite (IH s Hp). reflexivity.
Qed.

Lemma strstr_found (needle : bytes) :
  forall hay i,
    strstr hay needle = Some i ->
    take (length needle) (drop i hay) = needle /\
    (i + length needle <= length hay)%nat.
Proof.
  induction hay as [|c hay IH]; intros i H; cbn [strstr] in H.
  - destruct (is_prefix needle []) eqn:Hp; [|discriminate].
    inversion H; subst i. split; [apply is_prefix_take, Hp|].
    destruct needle; [cbn; lia | discriminate].
  - destruct (is_prefix needle (c :: hay)) eqn:Hp.
    + inversion H; subst i. split; [apply is_prefix_take, Hp|].
      pose proof (is_prefix_take _ _ Hp) as Ht.
      apply (f_equal (@length ascii)) in Ht. rewrite length_take in Ht. cbn in *. lia.
    + destruct (strstr hay needle) as [k|] eqn:Hk; [|discriminate].
      inversion H; subst i. destruct (IH k eq_refl) as [Ht Hl].
      split; [exact Ht | cbn; lia].
Qed.

Lemma cstr_prefix (b : bytes) : exists rest, b = cstr b ++ rest.
Proof.
  induction b as [|c b [rest IH]]; cbn [cstr].
  - exists []. reflexivity.
  - destruct (Ascii.eqb c NUL).
    + exists (c :: b). reflexivity.
    + exists rest. cbn. rewrite <- IH. reflexivity.
Qed.

Lemma find_blank_line_found (buf : bytes) (ptr : Z) :
  find_blank_line (cstr buf) = Some ptr ->
  exists form,
    In form blank_line_forms /\
    Z.of_nat (length form) <= ptr <= Z.of_nat (length buf) /\
    take (length form) (drop (Z.to_nat ptr - length form) buf) = form.
Proof.
  intros H. destruct (cstr_prefix buf) as [rest Hbuf].
  assert (Hgen : forall needle i,
             strstr (cstr buf) needle = Some i ->
             Z.of_nat (length needle) <= Z.of_nat i + Z.of_nat (length needle)
               <= Z.of_nat (length buf) /\
             take (length needle)
               (drop (Z.to_nat (Z.of_nat i + Z.of_nat (length needle)) - length needle) buf)
             = needle).
  { intros needle i Hs. destruct (strstr_found needle _ i Hs) as [Ht Hl].
    assert (Hlb : (length (cstr buf) <= length buf)%nat).
    { rewrite Hbuf at 2. rewrite length_app. lia. }
    split; [lia|].
    replace (Z.to_nat (Z.of_nat i + Z.of_nat (length needle)) - length needle)%nat
      with i by lia.
    rewrite Hbuf. rewrite drop_app_le by lia. rewrite take_app_le; [exact Ht|].
    rewrite length_drop. lia. }
  unfold find_blank_line in H. unfold blank_line_forms.
  destruct (strstr (cstr buf) [CR; LF; CR; LF]) as [i|] eqn:H1.
  { inversion H; subst ptr. exists [CR; LF; CR; LF].
    destruct (Hgen _ _ H1) as [Hr Ht]. cbn [In]. auto. }
  destruct (strstr (cstr buf) [LF; LF]) as [i|] eqn:H2.
  { inversion H; subst ptr. exists [LF; LF].
    destruct (Hgen _ _ H2) as [Hr Ht]. cbn [In]. auto. }
  destruct (strstr (cstr buf) [CR; CR; LF; CR; CR; LF]) as [i|] eqn:H3; [|discriminate].
  inversion H; subst ptr. exists [CR; CR; LF; CR; CR; LF].
  destruct (Hgen _ _ H3) as [Hr Ht]. cbn [In]. auto 6.
Qed.

Lemma latch_error_fields (c : client_t) (r : read_reply) :
  shared_data (latch_error c r) = shared_data c /\
  refbuf (latch_error c r) = refbuf c /\
  respcode (latch_error c r) = respcode c /\
  discon_time (connection (latch_error c r)) = discon_time (connection c) /\
  ops (latch_error c r) = ops c /\
  pos (latch_error c r) = pos c /\
  server_conn (latch_error c r) = server_conn c.
Proof. unfold latch_error. destruct (rd_error r); cbn; auto 10. Qed.

(** X14. One call of [http_client_request] on a scratch buffer of at most
    [B - 1] bytes, with a read that stores no more than the room it was
    given. The buffer never exceeds [B - 1] bytes and grows only by what was
    read. A call that reschedules keeps the buffer; a call that fails
    releases it (while the server is running; a call made during shutdown
    leaves the client as it is). A call that finds the end of the headers
    hands the buffer on as [client->refbuf] with the deadline cleared, and
    the offset it reports lies within the buffer, right behind one of the
    three blank-line forms. *)
Theorem http_client_request_stays_within_buffer (B : Z) (e : invocation)
    (c : client_t) :
  len (scratch c) <= B - 1 ->
  rd_ret (rd e) <= B - 1 - len (scratch c) ->
  match http_client_request B e c with
  | Done ret c' =>
      (ret = -1 /\ if running e then shared_data c' = None else c' = c) \/
      (ret = 0 /\
       exists r', shared_data c' = Some r' /\
                  data r' = data (scratch c) ++ rd_data (rd e) /\
                  len r' <= B - 1)
  | FlashPolicy c' => shared_data c' = None /\ respcode c' = 200
  | Headers c' ptr =>
      shared_data c' = None /\ discon_time (connection c') = 0 /\
      exists r',
        refbuf c' = Some r' /\
        data r' = data (scratch c) ++ rd_data (rd e) /\
        len r' <= B - 1 /\
        exists form,
          In form blank_line_forms /\
          Z.of_nat (length form) <= ptr <= len r' /\
          take (length form) (drop (Z.to_nat ptr - length form) (data r')) = form
  end.
Proof.
  intros Hfit Hread. unfold http_client_request. fold (scratch c).
  set (r0 := scratch c) in *.
  destruct (running e); cbn [negb]; [|left; auto].
  destruct (negb (B - 1 - len r0 =? 0) && _); [|cbv beta iota; left; auto].
  destruct (latch_error_fields (with_shared_data c (Some r0)) (rd e))
    as (Hsd & Hrb & Hrc & Hdt & _).
  set (c1 := latch_error (with_shared_data c (Some r0)) (rd e)) in *.
  assert (Hlen : len (mkRefbuf (data r0 ++ rd_data (rd e)) (associated r0)) <= B - 1).
  { unfold len in *. cbn [data]. rewrite length_app.
    destruct (rd e); cbn [rd_ret rd_data length] in *; lia. }
  destruct (Z.gtb_spec (rd_ret (rd e)) 0) as [Hpos|Hnpos].
  - destruct (bytes_eqb _ _).
    + cbv beta iota. split; reflexivity.
    + cbn [data].
      destruct (find_blank_line (cstr (data r0 ++ rd_data (rd e)))) as [ptr|] eqn:Hfind.
      * cbv beta iota.
        split; [reflexivity|]. split; [reflexivity|].
        eexists. split; [reflexivity|]. split; [reflexivity|]. split; [exact Hlen|].
        destruct (find_blank_line_found _ _ Hfind) as (form & Hin & Hr & Ht).
        exists form. unfold len. cbn [data]. auto.
      * cbv beta iota. right. split; [reflexivity|]. eexists.
        split; [reflexivity|]. split; [reflexivity | exact Hlen].
  - destruct (negb (rd_ret (rd e) =? 0) && negb (error (connection c1))) eqn:Hwb;
      [|cbv beta iota; left; auto].
    cbv beta iota. right. split; [reflexivity|]. exists r0.
    split; [exact Hsd|].
    apply andb_true_iff in Hwb as [Hnz _]. apply negb_true_iff, Z.eqb_neq in Hnz.
    destruct (rd e) as [d|l|l]; cbn [rd_ret rd_data] in *.
    + exfalso. lia.
    + contradiction.
    + rewrite app_nil_r. auto.
Qed.

Lemma http_client_request_stays_within_buffer_witness :
  match http_client_request 4096 demo_get_request (demo_client http_request_ops) with
  | Done ret c' =>
      (ret = -1 /\ if running demo_get_request then shared_data c' = None
                   else c' = demo_client http_request_ops) \/
      (ret = 0 /\
       exists r', shared_data c' = Some r' /\
                  data r' = data (scratch (demo_client http_request_ops))
                            ++ rd_data (rd demo_get_request) /\
                  len r' <= 4096 - 1)
  | FlashPolicy c' => shared_data c' = None /\ respcode c' = 200
  | Headers c' ptr =>
      shared_data c' = None /\ discon_time (connection c') = 0 /\
      exists r',
        refbuf c' = Some r' /\
        data r' = data (scratch (demo_client http_request_ops))
                  ++ rd_data (rd demo_get_request) /\
        len r' <= 4096 - 1 /\
        exists form,
          In form blank_line_forms /\
          Z.of_nat (length form) <= ptr <= len r' /\
          take (length form) (drop (Z.to_nat ptr - length form) (data r')) = form
  end.
Proof.
  apply (http_client_request_stays_within_buffer 4096 demo_get_request
           (demo_client http_request_ops)).
  - vm_compute. discriminate.
  - vm_compute. discriminate.
Defined.

Example http_client_request_finds_header_end :
  exists c', http_client_request 4096 demo_get_request (demo_client http_request_ops)
             = Headers c' 22.
Proof. eexists. reflexivity. Qed.

Lemma format_generic_write_to_client_connection (room : Z) (c : client_t) :
  connection (fst (format_generic_write_to_client room c)) = connection c.
Proof.
  unfold format_generic_write_to_client.
  destruct (refbuf c); [destruct (room <=? 0)|]; reflexivity.
Qed.

Lemma shoutcast_source_client_deadline (B : Z) (e : invocation) (c : client_t) :
  (discon_time (connection c) <= current_time_sec e ->
   shoutcast_source_client B e c = (-1, with_shared_data c None, [])) /\
  discon_time (connection (snd (fst (shoutcast_source_client B e c))))
  = discon_time (connection c).
Proof.
  unfold shoutcast_source_client. split.
  - intros Hd. destruct (Z.leb_spec (discon_time (connection c)) (current_time_sec e));
      [|exfalso; lia].
    rewrite orb_true_r. reflexivity.
  - destruct (error (connection c) || _); [reflexivity|].
    unfold shoutcast_password.
    destruct (latch_error_fields c (rd e)) as (_ & _ & _ & Hdt & _).
    destruct (shared_data c) as [r0|].
    + destruct (B - 2 - len r0 =? 0); [reflexivity|].
      destruct ((rd_ret (rd e) =? 0) || _ || _); [exact Hdt|].
      destruct (rd_ret (rd e) <? 0); [exact Hdt|].
      destruct (_ =? _)%nat; [exact Hdt|].
      match goal with
      | |- context [format_generic_write_to_client ?room ?cl] =>
          pose proof (format_generic_write_to_client_connection room cl) as Hw;
          destruct (format_generic_write_to_client room cl) as [c2 sent]
      end.
      cbn [fst] in Hw. cbn [fst snd].
      destruct (refbuf c2) as [r|]; [destruct (pos c2 =? len r)|];
        cbn; rewrite Hw; exact Hdt.
    + match goal with
      | |- context [format_generic_write_to_client ?room ?cl] =>
          pose proof (format_generic_write_to_client_connection room cl) as Hw;
          destruct (format_generic_write_to_client room cl) as [c2 sent]
      end.
      cbn [fst] in Hw. cbn [fst snd].
      destruct (refbuf c2) as [r|]; [destruct (pos c2 =? len r)|];
        cbn; rewrite Hw; reflexivity.
Qed.

(** X15. A legacy session does not outlive the header deadline: when a call
    comes at or after [discon.time], either the session had switched to the
    HTTP reader before that call, or it ends in failure there. *)
Theorem shoutcast_session_ends_at_deadline (B : Z)
    (before after : list invocation) (e : invocation) (c : client_t)
    (sent received : bytes) :
  discon_time (connection c) <= current_time_sec e ->
  shoutcast_session B (before ++ e :: after) c sent received
  = match shoutcast_session B before c sent received with
    | Some (c1, sent1, received1) =>
        match ops c1 with
        | shoutcast_source_ops => None
        | _ => Some (c1, sent1, received1)
        end
    | None => None
    end.
Proof.
  revert c sent received.
  induction before as [|e0 before IH]; intros c sent received Hd;
    cbn [app shoutcast_session].
  - destruct (ops c); try reflexivity.
    rewrite (proj1 (shoutcast_source_client_deadline B e c) Hd). reflexivity.
  - destruct (ops c) eqn:Hops; try (rewrite Hops; reflexivity).
    pose proof (proj2 (shoutcast_source_client_deadline B e0 c)) as Hkeep.
    destruct (shoutcast_source_client B e0 c) as [[ret c'] out]. cbn [fst snd] in Hkeep.
    destruct (ret <? 0); [reflexivity|].
    apply IH. rewrite Hkeep. exact Hd.
Qed.

Lemma shoutcast_session_ends_at_deadline_witness :
  shoutcast_session 4096 ([would_block_at 5050] ++ late_call :: [])
    (demo_client shoutcast_source_ops) [] []
  = match shoutcast_session 4096 [would_block_at 5050]
            (demo_client shoutcast_source_ops) [] [] with
    | Some (c1, sent1, received1) =>
        match ops c1 with
        | shoutcast_source_ops => None
        | _ => Some (c1, sent1, received1)
        end
    | None => None
    end.
Proof.
  apply (shoutcast_session_ends_at_deadline 4096 [would_block_at 5050] [] late_call
           (demo_client shoutcast_source_ops) [] []).
  simpl. lia.
Defined.

(* --------------------------------------------------------------------- *)
(** ** Source set-up behind the headers                                 *)
(* --------------------------------------------------------------------- *)

(** X16. [setup_source_client_callback] hands the bytes received behind the
    headers to the source handler unchanged. Without an [Expect] header that
    reads [100-continue] (letter case aside) one call installs them as
    [client->refbuf] at position 0 with the source operations. With it, the
    first call queues [HTTP/1.1 100 Continue] for sending with the bytes
    parked behind it, and the call made once that buffer is sent installs
    the same bytes. *)
Theorem setup_source_client_callback_keeps_stream (B : Z) (s : source_client)
    (buf : refbuf_t) :
  refbuf (client s) = Some buf ->
  format_data s = None ->
  0 <= pos (client s) <= len buf ->
  if expects_continue (parser s) then
    exists s1 reply,
      setup_source_client_callback B s = Some (SendBuffer s1) /\
      refbuf (client s1) = Some reply /\
      data reply = snprintf (Z.to_nat B) continue_response /\
      pos (client s1) = 0 /\
      forall s2 reply2,
        refbuf (client s2) = Some reply2 ->
        associated reply2 = associated reply ->
        format_data s2 = format_data s1 ->
        exists s3,
          setup_source_client_callback B s2 = Some (SourceReady s3) /\
          refbuf (client s3) = stream_behind_headers (client s) /\
          pos (client s3) = 0 /\ ops (client s3) = http_req_source_ops /\
          format_data s3 = None
  else
    exists s3,
      setup_source_client_callback B s = Some (SourceReady s3) /\
      refbuf (client s3) = stream_behind_headers (client s) /\
      pos (client s3) = 0 /\ ops (client s3) = http_req_source_ops /\
      format_data s3 = None.
Proof.
  intros Hbuf Hfmt _.
  unfold setup_source_client_callback, expects_continue, stream_behind_headers,
    httpp_getvar, install_stream.
  rewrite Hbuf, Hfmt. cbn [fst].
  assert (Hassoc :
            associated (if len buf - pos (client s) =? 0 then buf
                        else mkRefbuf (take (Z.to_nat (pos (client s))) (data buf))
                               (Some (mkRefbuf (drop (Z.to_nat (pos (client s))) (data buf))
                                               None)))
            = if len buf - pos (client s) =? 0 then associated buf
              else Some (mkRefbuf (drop (Z.to_nat (pos (client s))) (data buf)) None)).
  { destruct (len buf - pos (client s) =? 0); reflexivity. }
  destruct (parser s !! "expect"%string) as [v|].
  - destruct (strcasecmp v "100-continue" =? 0).
    + eexists _, _. split; [reflexivity|]. cbn [client refbuf with_pos with_refbuf data pos].
      split; [reflexivity|]. split; [reflexivity|]. split; [reflexivity|].
      intros s2 reply2 Hr2 Ha2 Hf2. rewrite Hr2, Hf2. cbn [format_data].
      eexists. split; [reflexivity|].
      cbn [client refbuf with_ops with_pos with_refbuf pos ops format_data associated].
      rewrite Ha2. cbn [associated]. rewrite Hassoc. auto.
    + eexists. split; [reflexivity|].
      cbn [client refbuf with_ops with_pos with_refbuf pos ops format_data].
      rewrite Hassoc. auto.
  - eexists. split; [reflexivity|].
    cbn [client refbuf with_ops with_pos with_refbuf pos ops format_data].
    rewrite Hassoc. auto.
Qed.

Lemma setup_source_client_callback_keeps_stream_witness :
  if expects_continue (parser (demo_source "100-Continue")) then
    exists s1 reply,
      setup_source_client_callback 4096 (demo_source "100-Continue")
      = Some (SendBuffer s1) /\
      refbuf (client s1) = Some reply /\
      data reply = snprintf (Z.to_nat 4096) continue_response /\
      pos (client s1) = 0 /\
      forall s2 reply2,
        refbuf (client s2) = Some reply2 ->
        associated reply2 = associated reply ->
        format_data s2 = format_data s1 ->
        exists s3,
          setup_source_client_callback 4096 s2 = Some (SourceReady s3) /\
          refbuf (client s3) = stream_behind_headers (client (demo_source "100-Continue")) /\
          pos (client s3) = 0 /\ ops (client s3) = http_req_source_ops /\
          format_data s3 = None
  else
    exists s3,
      setup_source_client_callback 4096 (demo_source "100-Continue")
      = Some (SourceReady s3) /\
      refbuf (client s3) = stream_behind_headers (client (demo_source "100-Continue")) /\
      pos (client s3) = 0 /\ ops (client s3) = http_req_source_ops /\
      format_data s3 = None.
Proof.
  apply (setup_source_client_callback_keeps_stream 4096 (demo_source "100-Continue")
           (mkRefbuf (demo_put_headers ++ str "OggS") None)).
  - reflexivity.
  - reflexivity.
  - vm_compute. split; discriminate.
Defined.

Example setup_source_client_callback_sends_continue_first :
  expects_continue (parser (demo_source "100-Continue")) = true /\
  stream_behind_headers (client (demo_source "100-Continue"))
  = Some (mkRefbuf (str "OggS") None) /\
  exists s1,
    setup_source_client_callback 4096 (demo_source "100-Continue") = Some (SendBuffer s1) /\
    refbuf (client s1)
    = Some (mkRefbuf continue_response (Some (mkRefbuf (str "OggS") None))).
Proof.
  split; [vm_compute; reflexivity|]. split; [vm_compute; reflexivity|].
  eexists. split; vm_compute; reflexivity.
Qed.

(* --------------------------------------------------------------------- *)
(** ** Credential check: what is accepted                               *)
(* --------------------------------------------------------------------- *)

Lemma bytes_eqb_eq (a b : bytes) : bytes_eqb a b = true <-> a = b.
Proof.
  revert b. induction a as [|x a IH]; intros [|y b]; cbn; split; try discriminate;
    try reflexivity.
  - intros H. apply andb_true_iff in H as [Hxy Hab].
    apply Ascii.eqb_eq in Hxy. apply IH in Hab. congruence.
  - intros H. inversion H; subst. rewrite Ascii.eqb_refl. cbn. apply IH. reflexivity.
Qed.

Lemma is_prefix_app (p s : bytes) : is_prefix p (p ++ s) = true.
Proof. induction p as [|x p IH]; cbn; [reflexivity|]. rewrite Ascii.eqb_refl. exact IH. Qed.

Lemma is_prefix_split (p s : bytes) :
  is_prefix p s = true -> s = p ++ drop (length p) s.
Proof.
  revert s. induction p as [|x p IH]; intros [|y s]; cbn; try discriminate; try reflexivity.
  intros H. apply andb_true_iff in H as [Hxy Hp].
  apply Ascii.eqb_eq in Hxy. subst y. f_equal. apply IH, Hp.
Qed.

Lemma strchr_colon_split (s : bytes) (i : nat) :
  strchr_colon s = Some i ->
  s = take i s ++ ":"%char :: drop (S i) s /\ strchr_colon (take i s) = None.
Proof.
  revert i. induction s as [|c s IH]; intros i H; cbn [strchr_colon] in H; [discriminate|].
  destruct (Ascii.eqb c ":"%char) eqn:Hc.
  - inversion H; subst i. apply Ascii.eqb_eq in Hc. subst c. cbn. auto.
  - destruct (strchr_colon s) as [k|] eqn:Hk; [|discriminate].
    inversion H; subst i. destruct (IH k eq_refl) as [Hs Hn].
    cbn [take drop app strchr_colon]. rewrite Hc, Hn. split; [f_equal; exact Hs | reflexivity].
Qed.

Lemma strchr_colon_app (a b : bytes) :
  strchr_colon a = None -> strchr_colon (a ++ ":"%char :: b) = Some (length a).
Proof.
  induction a as [|c a IH]; cbn [app strchr_colon length]; intros H.
  - reflexivity.
  - destruct (Ascii.eqb c ":"%char); [discriminate|].
    destruct (strchr_colon a); [discriminate|].
    rewrite IH by reflexivity. reflexivity.
Qed.

Lemma _check_pass_http_spec (parser : http_parser_t) (user pass : string) :
  (fst (_check_pass_http parser user pass) = 1 <-> basic_credentials parser user pass) /\
  (fst (_check_pass_http parser user pass) = 0 \/
   fst (_check_pass_http parser user pass) = 1).
Proof.
  unfold _check_pass_http, httpp_getvar, bind_, ret_, basic_credentials.
  destruct (parser !! "authorization"%string) as [header|];
    [|split; [split; [discriminate | intros (h & b & d & H & _); discriminate] | auto]].
  destruct (is_prefix (str "Basic ") (str header)) eqn:Hp; cbn [negb].
  2:{ split; [|auto]. split; [discriminate|].
      intros (h & b & d & H & Hs & _). inversion H; subst h.
      rewrite Hs, is_prefix_app in Hp. discriminate. }
  apply is_prefix_split in Hp. change (length (str "Basic ")) with 6%nat in Hp.
  destruct (util_base64_decode (drop 6 (str header))) as [decoded|] eqn:Hdec.
  2:{ split; [|auto]. split; [discriminate|].
      intros (h & b & d & H & Hs & Hd & _). inversion H; subst h.
      rewrite Hs in Hdec. change (drop 6 (str "Basic " ++ b)) with b in Hdec.
      congruence. }
  destruct (strchr_colon (cstr decoded)) as [i|] eqn:Hcolon.
  2:{ split; [|auto]. split; [discriminate|].
      intros (h & b & d & H & Hs & Hd & Hc & Hu). inversion H; subst h.
      rewrite Hs in Hdec. change (drop 6 (str "Basic " ++ b)) with b in Hdec.
      assert (d = decoded) by congruence. subst d.
      rewrite Hc, (strchr_colon_app _ _ Hu) in Hcolon. discriminate. }
  destruct (strchr_colon_split _ _ Hcolon) as [Hsplit Hnone].
  destruct (bytes_eqb (take i (cstr decoded)) (str user)) eqn:Hu; cbn [negb orb].
  2:{ split; [|auto]. split; [discriminate|].
      intros (h & b & d & H & Hs & Hd & Hc & Hn). inversion H; subst h.
      rewrite Hs in Hdec. change (drop 6 (str "Basic " ++ b)) with b in Hdec.
      assert (d = decoded) by congruence. subst d.
      rewrite Hc, (strchr_colon_app _ _ Hn) in Hcolon. inversion Hcolon; subst i.
      rewrite Hc, take_app_length in Hu.
      assert (bytes_eqb (str user) (str user) = true) by (apply bytes_eqb_eq; reflexivity).
      congruence. }
  destruct (bytes_eqb (drop (S i) (cstr decoded)) (str pass)) eqn:Hpw; cbn [negb].
  2:{ split; [|auto]. split; [discriminate|].
      intros (h & b & d & H & Hs & Hd & Hc & Hn). inversion H; subst h.
      rewrite Hs in Hdec. change (drop 6 (str "Basic " ++ b)) with b in Hdec.
      assert (d = decoded) by congruence. subst d.
      rewrite Hc, (strchr_colon_app _ _ Hn) in Hcolon. inversion Hcolon; subst i.
      rewrite Hc in Hpw.
      replace (drop (S (length (str user))) (str user ++ ":"%char :: str pass))
        with (str pass) in Hpw.
      - assert (bytes_eqb (str pass) (str pass) = true) by (apply bytes_eqb_eq; reflexivity).
        congruence.
      - change (str user ++ ":"%char :: str pass)
          with (str user ++ [":"%char] ++ str pass).
        rewrite app_assoc.
        replace (S (length (str user))) with (length (str user ++ [":"%char]))
          by (rewrite length_app; cbn; lia).
        rewrite drop_app_length. reflexivity. }
  split; [|auto]. split; [|reflexivity]. intros _.
  apply bytes_eqb_eq in Hu, Hpw.
  exists header, (drop 6 (str header)), decoded.
  split; [reflexivity|]. split; [exact Hp|]. split; [exact Hdec|].
  split; [rewrite Hsplit at 1; rewrite Hu, Hpw; reflexivity|].
  rewrite <- Hu. exact Hnone.
Qed.

(** X17. [_check_pass_http] answers 1 exactly when the request carries
    Basic credentials for the user and the password: its [authorization]
    variable reads [Basic ] followed by base64 text that decodes, up to its
    first NUL, to the user, a colon and the password. It answers 0
    otherwise; and for a user name that holds a colon it answers 0 whatever
    the request. *)
Theorem check_pass_http_accepts_exactly (parser : http_parser_t)
    (user pass : string) :
  (fst (_check_pass_http parser user pass) = 1 <-> basic_credentials parser user pass) /\
  (fst (_check_pass_http parser user pass) = 0 \/
   fst (_check_pass_http parser user pass) = 1) /\
  (strchr_colon (str user) = None \/ fst (_check_pass_http parser user pass) = 0).
Proof.
  destruct (_check_pass_http_spec parser user pass) as [Hiff Hor].
  split; [exact Hiff|]. split; [exact Hor|].
  destruct (strchr_colon (str user)) as [i|] eqn:Hcolon; [right | left; reflexivity].
  destruct Hor as [H0|H1]; [exact H0|].
  apply Hiff in H1. destruct H1 as (h & b & d & _ & _ & _ & _ & Hnone). congruence.
Qed.

(** X18. The header a client builds for a user and a password (free of NUL,
    the user free of colons) by base64-encoding [user:pass] is accepted, and
    [authorization] is the only variable asked for. *)
Theorem check_pass_http_accepts_encoded (parser : http_parser_t)
    (user pass : string) :
  parser !! "authorization"%string = Some (basic_header user pass) ->
  forallb not_nul (str user ++ str pass) = true ->
  strchr_colon (str user) = None ->
  _check_pass_http parser user pass = (1, ["authorization"%string]).
Proof.
  intros Hhdr Hnul Hcolon.
  assert (H1 : fst (_check_pass_http parser user pass) = 1).
  { apply (proj1 (_check_pass_http_spec parser user pass)).
    exists (basic_header user pass),
           (util_base64_encode (str user ++ ":"%char :: str pass)),
           (str user ++ ":"%char :: str pass).
    split; [exact Hhdr|]. split.
    { unfold basic_header, str. apply list_ascii_of_string_of_list_ascii. }
    split; [apply util_base64_decode_encode|]. split; [|exact Hcolon].
    apply cstr_no_nul. rewrite forallb_app in *. cbn [forallb].
    apply andb_true_iff in Hnul as [Hu Hp]. rewrite Hu, Hp. reflexivity. }
  assert (H2 : snd (_check_pass_http parser user pass) = ["authorization"%string]).
  { unfold _check_pass_http, httpp_getvar, bind_, ret_.
    repeat match goal with
           | |- context [match ?x with _ => _ end] =>
               lazymatch x with
               | context [match _ with _ => _ end] => fail
               | _ => destruct x
               end
           end; reflexivity. }
  destruct (_check_pass_http parser user pass) as [r l]. cbn in *. congruence.
Qed.

Lemma check_pass_http_accepts_encoded_witness :
  _check_pass_http demo_basic_request "source" "hackme" = (1, ["authorization"%string]).
Proof.
  apply (check_pass_http_accepts_encoded demo_basic_request "source" "hackme").
  - vm_compute. reflexivity.
  - reflexivity.
  - reflexivity.
Defined.

Example check_pass_http_rejects_other_password :
  fst (_check_pass_http demo_basic_request "source" "letmein") = 0.
Proof. vm_compute. reflexivity. Qed.

Lemma _check_pass_icy_spec (icy : string) (parser : http_parser_t) (pass : string) :
  (fst (_check_pass_icy icy parser pass) = 1 <-> parser !! icy = Some pass) /\
  (fst (_check_pass_icy icy parser pass) = 0 \/ fst (_check_pass_icy icy parser pass) = 1).
Proof.
  unfold _check_pass_icy, httpp_getvar, bind_, ret_.
  destruct (parser !! icy) as [p|]; cbn [fst].
  - destruct (String.eqb_spec p pass) as [->|Hne]; cbn [fst].
    + split; [split; reflexivity | auto].
    + split; [|auto]. split; [discriminate|]. intros H. inversion H. contradiction.
  - split; [split; discriminate | auto].
Qed.

Lemma _check_pass_ice_spec (parser : http_parser_t) (pass : string) :
  (fst (_check_pass_ice parser pass) = 1 <-> ice_password parser = pass) /\
  (fst (_check_pass_ice parser pass) = 0 \/ fst (_check_pass_ice parser pass) = 1).
Proof.
  unfold _check_pass_ice, httpp_getvar, bind_, ret_, ice_password.
  destruct (String.eqb_spec
              match parser !! "ice-password"%string with Some p => p | None => ""%string end
              pass) as [Heq|Hne]; cbn [fst].
  - split; [split; auto | auto].
  - split; [|auto]. split; [discriminate | contradiction].
Qed.

(** X19. With a source password configured, [connection_check_pass] answers
    1 exactly in these cases: for a request whose protocol is ICY, when its
    icy password variable is the password (the Authorization header, the
    user and [ice_login] play no role); otherwise when it carries Basic
    credentials for the user and the password, or when [ice_login] is set
    and its [ice-password] variable, a missing one read as empty, is the
    password. *)
Theorem connection_check_pass_decides (proto icy : string) (ice_login : bool)
    (parser : http_parser_t) (user pass : string) :
  fst (connection_check_pass proto icy ice_login parser user (Some pass)) = 1 <->
  if is_icy_request proto parser then parser !! icy = Some pass
  else basic_credentials parser user pass
       \/ (ice_login = true /\ ice_password parser = pass).
Proof.
  unfold connection_check_pass, is_icy_request, bind_, httpp_getvar.
  destruct (match parser !! proto with
            | Some protocol => String.eqb protocol "ICY"
            | None => false
            end).
  - pose proof (proj1 (_check_pass_icy_spec icy parser pass)) as Hicy.
    destruct (_check_pass_icy icy parser pass) as [r l]. exact Hicy.
  - destruct (_check_pass_http_spec parser user pass) as [Hhttp Hor].
    destruct (_check_pass_ice_spec parser pass) as [Hice _].
    destruct (_check_pass_http parser user pass) as [r l]. cbn [fst] in *.
    destruct Hor as [-> | ->]; cbn [Z.eqb andb].
    + destruct ice_login.
      * destruct (_check_pass_ice parser pass) as [r2 l2]. cbn [fst] in *.
        rewrite Hice. split; [auto|].
        intros [Hb | [_ Hp]]; [apply Hhttp in Hb; discriminate | exact Hp].
      * cbn [fst]. split; [discriminate|].
        intros [Hb | [Hf _]]; [apply Hhttp in Hb; discriminate | discriminate].
    + cbn [fst]. split; [|reflexivity]. intros _. left. apply Hhttp. reflexivity.
Qed.

(** X20. [connection_check_admin_pass] answers 1 exactly when an admin user
    and password are configured and the request, if its protocol is ICY, has
    the password as its icy password variable (the user name is not looked
    at) and otherwise carries Basic credentials for them.
    [connection_check_relay_pass] answers 1 exactly when a relay user and
    password are configured and the request carries Basic credentials for
    them. With a user or a password missing from the config both answer 0
    without looking at the request. *)
Theorem connection_check_admin_and_relay_decide (proto icy : string)
    (admin_user admin_pass relay_user relay_pass : option string)
    (parser : http_parser_t) :
  (fst (connection_check_admin_pass proto icy admin_user admin_pass parser) = 1 <->
   exists user pass,
     admin_user = Some user /\ admin_pass = Some pass /\
     if is_icy_request proto parser then parser !! icy = Some pass
     else basic_credentials parser user pass) /\
  (fst (connection_check_relay_pass relay_user relay_pass parser) = 1 <->
   exists user pass,
     relay_user = Some user /\ relay_pass = Some pass /\
     basic_credentials parser user pass) /\
  (admin_user = None \/ admin_pass = None ->
   connection_check_admin_pass proto icy admin_user admin_pass parser = (0, [])) /\
  (relay_user = None \/ relay_pass = None ->
   connection_check_relay_pass relay_user relay_pass parser = (0, [])).
Proof.
  unfold connection_check_admin_pass, connection_check_relay_pass, is_icy_request,
    bind_, httpp_getvar, ret_.
  repeat split.
  - destruct admin_pass as [pass|], admin_user as [user|]; try discriminate.
    intros H. exists user, pass. split; [reflexivity|]. split; [reflexivity|].
    destruct (match parser !! proto with
              | Some protocol => String.eqb protocol "ICY"
              | None => false
              end).
    + pose proof (proj1 (_check_pass_icy_spec icy parser pass)) as Hicy.
      destruct (_check_pass_icy icy parser pass) as [r l]. apply Hicy, H.
    + pose proof (proj1 (_check_pass_http_spec parser user pass)) as Hhttp.
      destruct (_check_pass_http parser user pass) as [r l]. apply Hhttp, H.
  - intros (user & pass & -> & -> & H).
    destruct (match parser !! proto with
              | Some protocol => String.eqb protocol "ICY"
              | None => false
              end).
    + pose proof (proj1 (_check_pass_icy_spec icy parser pass)) as Hicy.
      destruct (_check_pass_icy icy parser pass) as [r l]. apply Hicy, H.
    + pose proof (proj1 (_check_pass_http_spec parser user pass)) as Hhttp.
      destruct (_check_pass_http parser user pass) as [r l]. apply Hhttp, H.
  - destruct relay_pass as [pass|], relay_user as [user|]; try discriminate.
    intros H. exists user, pass. split; [reflexivity|]. split; [reflexivity|].
    apply (proj1 (_check_pass_http_spec parser user pass)), H.
  - intros (user & pass & -> & -> & H).
    apply (proj1 (_check_pass_http_spec parser user pass)), H.
  - intros [-> | ->]; [destruct admin_pass|]; reflexivity.
  - intros [-> | ->]; [destruct relay_pass|]; reflexivity.
Qed.

(* --------------------------------------------------------------------- *)
(** ** Request handling: forwarded addresses                            *)
(* --------------------------------------------------------------------- *)

Lemma strcspn_comma_app (first rest : bytes) :
  comma_free first = true ->
  rest = [] \/ (exists r, rest = ","%char :: r) ->
  take (strcspn_comma (first ++ rest)) (first ++ rest) = first.
Proof.
  intros Hf Hr. induction first as [|c first IH]; cbn [app].
  - destruct Hr as [->| [r ->]]; reflexivity.
  - cbn [comma_free forallb] in Hf. apply andb_true_iff in Hf as [Hc Hf].
    cbn [strcspn_comma]. apply negb_true_iff in Hc. rewrite Hc.
    cbn [take]. f_equal. apply IH. exact Hf.
Qed.

Lemma xforward_loop_listed (xforward : list string) (hdr ip : string) :
  In ip xforward ->
  xforward_loop xforward hdr ip
  = string_of_list_ascii (take (strcspn_comma (str hdr)) (str hdr)).
Proof.
  induction xforward as [|x next IH]; intros Hin; [destruct Hin|].
  cbn [xforward_loop]. destruct (strcmp x ip =? 0) eqn:Hx.
  - unfold snprintf. do 2 f_equal. lia.
  - apply IH. destruct Hin as [->|Hin]; [|exact Hin].
    rewrite strcmp_refl in Hx. discriminate Hx.
Qed.

Lemma xforward_loop_unlisted (xforward : list string) (hdr ip : string) :
  ~ In ip xforward -> xforward_loop xforward hdr ip = ip.
Proof.
  induction xforward as [|x next IH]; intros Hin; [reflexivity|].
  cbn [xforward_loop]. destruct (strcmp x ip =? 0) eqn:Hx.
  - apply Z.eqb_eq, strcmp_eq in Hx. subst x. exfalso. apply Hin. left. reflexivity.
  - apply IH. intros H. apply Hin. right. exact H.
Qed.

(** X21. [_check_for_x_forwarded_for] changes the address of a client only
    when the request has an [x-forwarded-for] header and the client's
    present address is one of the configured ones. The address then becomes
    the text of the header in front of its first comma, the whole header
    when it has none. *)
Theorem x_forwarded_for_honoured_for_listed_peers
    (xforward : list string) (parser : http_parser_t) (ip : string) :
  let ip' := _check_for_x_forwarded_for xforward parser ip in
  (~ In ip xforward -> ip' = ip) /\
  (parser !! "x-forwarded-for"%string = None -> ip' = ip) /\
  (In ip xforward ->
   forall first rest : bytes,
     parser !! "x-forwarded-for"%string = Some (string_of_list_ascii (first ++ rest)) ->
     comma_free first = true ->
     rest = [] \/ (exists r, rest = ","%char :: r) ->
     ip' = string_of_list_ascii first).
Proof.
  cbv zeta. unfold _check_for_x_forwarded_for, httpp_getvar. cbn [fst].
  split; [|split].
  - intros Hin. destruct (parser !! _); [|reflexivity].
    apply xforward_loop_unlisted. exact Hin.
  - intros ->. reflexivity.
  - intros Hin first rest -> Hf Hr.
    rewrite xforward_loop_listed by exact Hin.
    unfold str. rewrite list_ascii_of_string_of_list_ascii.
    rewrite strcspn_comma_app by assumption. reflexivity.
Qed.

Example x_forwarded_for_takes_first_address :
  _check_for_x_forwarded_for ["127.0.0.1"%string] demo_forwarded "127.0.0.1" = "203.0.113.7"%string
  /\ _check_for_x_forwarded_for ["127.0.0.1"%string] demo_forwarded "198.51.100.2" = "198.51.100.2"%string.
Proof. split; vm_compute; reflexivity. Qed.

(* --------------------------------------------------------------------- *)
(** ** Request handling: access-log filtering                           *)
(* --------------------------------------------------------------------- *)

Lemma strcspn_space_le (s : bytes) : (strcspn_space s <= length s)%nat.
Proof.
  induction s as [|c s IH]; cbn [strcspn_space length]; [lia|].
  destruct (Ascii.eqb c SPACE); lia.
Qed.

Lemma exclude_step (ext pattern : bytes) :
  (strncmp ext pattern (strcspn_space pattern) =? 0)
  && match ext !! strcspn_space pattern with
     | None => true
     | Some _ => false
     end
  = bytes_eqb ext (take (strcspn_space pattern) pattern).
Proof.
  pose proof (strcspn_space_le pattern) as Hle.
  set (n := strcspn_space pattern) in *.
  destruct (bytes_eqb ext (take n pattern)) eqn:He.
  - apply bytes_eqb_eq in He. subst ext. unfold strncmp.
    rewrite take_take, Nat.min_id, strcmp_refl.
    assert (Hl : take n pattern !! n = None)
      by (apply lookup_ge_None_2; rewrite length_take; lia).
    unfold bytes in *. rewrite Hl. reflexivity.
  - apply andb_false_iff.
    destruct (ext !! n) eqn:Hl; [right; reflexivity|left].
    apply Z.eqb_neq. intros H0. unfold strncmp in H0. apply strcmp_eq in H0.
    apply (f_equal list_ascii_of_string) in H0.
    rewrite !list_ascii_of_string_of_list_ascii in H0.
    apply lookup_ge_None_1 in Hl. rewrite take_ge in H0 by lia.
    subst ext. rewrite (proj2 (bytes_eqb_eq _ _) eq_refl) in He. discriminate He.
Qed.

Lemma split_space_token (s : bytes) :
  split_space s
  = take (strcspn_space s) s
    :: match drop (strcspn_space s) s with
       | [] => []
       | _ :: r => split_space r
       end.
Proof.
  induction s as [|c s IH]; [reflexivity|].
  cbn [split_space strcspn_space]. destruct (Ascii.eqb c SPACE); [reflexivity|].
  rewrite IH. reflexivity.
Qed.

Lemma drop_strcspn_space (s : bytes) :
  drop (strcspn_space s) s = [] \/ exists r, drop (strcspn_space s) s = SPACE :: r.
Proof.
  induction s as [|c s IH]; [left; reflexivity|].
  cbn [strcspn_space]. destruct (Ascii.eqb c SPACE) eqn:Hc.
  - right. apply Ascii.eqb_eq in Hc. subst c. exists s. reflexivity.
  - exact IH.
Qed.

Lemma drop_strspn_space (s : bytes) :
  match drop (strspn_space s) s with
  | c :: _ => Ascii.eqb c SPACE = false
  | [] => True
  end.
Proof.
  induction s as [|c s IH]; [exact I|].
  cbn [strspn_space]. destruct (Ascii.eqb c SPACE) eqn:Hc; [exact IH|exact Hc].
Qed.

Lemma split_space_skip (ext s : bytes) :
  ext <> [] ->
  existsb (bytes_eqb ext) (split_space (drop (strspn_space s) s))
  = existsb (bytes_eqb ext) (split_space s).
Proof.
  intros Hne. induction s as [|c s IH]; [reflexivity|].
  cbn [strspn_space]. destruct (Ascii.eqb c SPACE) eqn:Hc; [|reflexivity].
  cbn [drop split_space]. rewrite Hc. cbn [existsb]. rewrite IH.
  destruct ext; [congruence|reflexivity].
Qed.

Lemma exclude_loop_words (ext : bytes) (fuel : nat) :
  ext <> [] ->
  forall pattern : bytes,
    (length pattern <= fuel)%nat ->
    exclude_loop fuel ext pattern = existsb (bytes_eqb ext) (split_space pattern).
Proof.
  intros Hne. induction fuel as [|fuel IH]; intros pattern Hlen.
  - destruct pattern; [|cbn in Hlen; lia]. cbn. destruct ext; [congruence|reflexivity].
  - destruct pattern as [|c p].
    { cbn. destruct ext; [congruence|reflexivity]. }
    cbn [exclude_loop]. rewrite exclude_step, split_space_token.
    cbn [existsb].
    destruct (bytes_eqb ext (take (strcspn_space (c :: p)) (c :: p))); [reflexivity|].
    cbn [orb].
    pose proof (length_drop (c :: p) (strcspn_space (c :: p))) as Hd.
    destruct (drop_strcspn_space (c :: p)) as [Hd0 | [r Hd0]]; rewrite Hd0 in *.
    + cbn. destruct fuel; reflexivity.
    + cbn [strspn_space]. replace (Ascii.eqb SPACE SPACE) with true by reflexivity.
      cbn [drop]. rewrite IH; [apply split_space_skip; exact Hne|].
      rewrite length_drop. cbn [length] in *. lia.
Qed.

Lemma exclude_loop_empty_later (fuel : nat) :
  forall pattern : bytes,
    match pattern with
    | c :: _ => Ascii.eqb c SPACE = false
    | [] => True
    end ->
    exclude_loop fuel [] pattern = false.
Proof.
  induction fuel as [|fuel IH]; intros pattern Hp; [reflexivity|].
  destruct pattern as [|c p]; [reflexivity|].
  cbn [exclude_loop]. rewrite exclude_step.
  cbn [strcspn_space]. rewrite Hp. cbn [take bytes_eqb].
  apply IH. apply drop_strspn_space.
Qed.

Lemma exclude_loop_listed (ext pattern : bytes) :
  exclude_loop (length pattern) ext pattern = listed_extension ext pattern.
Proof.
  destruct ext as [|e ext].
  - destruct pattern as [|c p]; [reflexivity|].
    cbn [length exclude_loop listed_extension]. rewrite exclude_step.
    cbn [strcspn_space]. destruct (Ascii.eqb c SPACE) eqn:Hc; [reflexivity|].
    cbn [take bytes_eqb]. apply exclude_loop_empty_later. apply drop_strspn_space.
  - cbn [listed_extension]. apply exclude_loop_words; [discriminate|lia].
Qed.

(** X22. [check_for_filtering] sets [CLIENT_SKIP_ACCESSLOG] exactly when the
    URI has a dot, an exclusion pattern is configured and the text behind
    the last dot is one of the words of the pattern, whatever the number of
    spaces between the words (an empty extension counts when the pattern
    starts with a space). [CLIENT_WANTS_FLV] is set, before that and
    independently, for the extension [flv] or a query parameter [type] of
    [.flv] or [.fla]; no other flag changes. *)
Theorem check_for_filtering_skips_listed_extensions
    (CLIENT_WANTS_FLV CLIENT_SKIP_ACCESSLOG : Z)
    (exclude_ext : option string) (queryvars : http_parser_t) (flags : Z) (uri : string) :
  let flv := if wants_flv queryvars uri then Z.lor flags CLIENT_WANTS_FLV else flags in
  check_for_filtering CLIENT_WANTS_FLV CLIENT_SKIP_ACCESSLOG exclude_ext queryvars flags uri
  = match uri_extension uri, exclude_ext with
    | Some ext, Some pattern =>
        if listed_extension ext (str pattern) then Z.lor flv CLIENT_SKIP_ACCESSLOG else flv
    | _, _ => flv
    end.
Proof.
  cbv zeta. unfold check_for_filtering, wants_flv, uri_extension.
  assert (Hs : forall t u, (strcmp t u =? 0) = String.eqb t u).
  { intros t u. destruct (String.eqb t u) eqn:E.
    - apply String.eqb_eq in E. subst. rewrite strcmp_refl. reflexivity.
    - apply Z.eqb_neq. intros H0. apply strcmp_eq in H0.
      apply String.eqb_neq in E. contradiction. }
  destruct (strrchr (str uri) ".") as [i|]; cbn [option_map].
  - rewrite drop_drop. replace (i + 1)%nat with (S i) by lia.
    destruct exclude_ext as [pattern|].
    + rewrite exclude_loop_listed.
      destruct (queryvars !! "type"%string) as [t|]; rewrite ?Hs; reflexivity.
    + destruct (queryvars !! "type"%string) as [t|]; rewrite ?Hs; reflexivity.
  - destruct (queryvars !! "type"%string) as [t|]; rewrite ?Hs; reflexivity.
Qed.

Example check_for_filtering_samples :
  check_for_filtering 1 2 (Some "jpg css  ico"%string) ∅ 0 "/art/cover.ico" = 2
  /\ check_for_filtering 1 2 (Some "jpg css  ico"%string) ∅ 0 "/art/cover.ic" = 0
  /\ check_for_filtering 1 2 (Some "jpg css  ico"%string) ∅ 0 "/live.flv" = 1
  /\ check_for_filtering 1 2 (Some " jpg"%string) ∅ 0 "/live." = 2.
Proof. repeat split; vm_compute; reflexivity. Qed.

(* --------------------------------------------------------------------- *)
(** ** Connections: set-up, close and accept                            *)
(* --------------------------------------------------------------------- *)

Lemma connection_init_with_address (cpc : string -> string -> Z)
    (recheck : cache_file_contents -> Z -> cache_file_contents)
    (allowed : string -> Z -> Z)
    (base : connection_t) (peer : peer_t) (sock : sock_t) (addr : string)
    (pn : peer_name) (time_now id : Z) (g : ban_globals) :
  (sock =? SOCK_ERROR) = false ->
  connection_init cpc recheck allowed (Some (base, peer)) sock (Some addr) pn time_now id g
  = (0, Some (base, mkPeer sock id (Some (skip_v4_mapped addr)) (con_time peer)),
     u64 (id + 1), g).
Proof.
  intros Hs. unfold connection_init, _next_connection_id. rewrite Hs. reflexivity.
Qed.

(** [accept_client] with [connection_init] worked out: the three ways of
    refusing the peer behind a successful accept end the same way. *)
Lemma accept_client_eq (cpc : string -> string -> Z)
    (recheck : cache_file_contents -> Z -> cache_file_contents)
    (allowed : string -> Z -> Z) (ssl_ok : bool) (lssl : listener_t -> bool)
    (r : accept_reply) (st : accept_state) :
  accept_client cpc recheck allowed ssl_ok lssl r st
  = let g := polled_global st r in
    let serversock := polled_sock st r in
    let evs := polled_calls st r in
    let sock := fst (a_accept r) in
    let addr := snd (a_accept r) in
    let ok := accept_ip_address cpc recheck allowed (a_bans st) addr (a_time r) in
    if serversock =? SOCK_ERROR
    then (no_client, mkAcceptState g (a_bans st) (a_current_id st), evs)
    else if sock =? SOCK_ERROR
    then (no_client, mkAcceptState g (a_bans st) (a_current_id st),
          if a_recoverable r then evs else evs ++ [thread_sleep 500000])
    else if (fst ok =? 0) || negb (tcp_options_set r) || negb (a_calloc r)
    then (no_client, mkAcceptState g (snd ok) (a_current_id st),
          evs ++ [peer_sock_close sock])
    else
      let peer := mkPeer sock (a_current_id st) (Some (skip_v4_mapped addr)) 0 in
      let st' := mkAcceptState g (snd ok) (u64 (a_current_id st + 1)) in
      match accept_client_listener (Z.to_nat (global.server_sockets g)) 0
              (match global.serversock g with Some s => s | None => [] end)
              (match global.server_conn g with Some c => c | None => [] end)
              serversock with
      | Some l =>
          (new_client
             {| connection := mkCon (lssl l && ssl_ok) 0 false 0;
                shared_data := Some (mkRefbuf [] None);
                refbuf := None; pos := 0;
                ops := if shoutcast_compat l then shoutcast_source_ops
                       else http_request_ops;
                respcode := 0; schedule_ms := 0; counter := 0; server_conn := l |}
             peer,
           st', evs ++ [client_register; listener_refcount_inc l])
      | None => (unbound_client (mkCon false 0 false 0) peer (mkRefbuf [] None), st',
                 evs ++ [client_register])
      end.
Proof.
  cbv zeta. unfold accept_client, polled_global, polled_sock, polled_calls, tcp_options_set.
  destruct (wait_for_serversock (a_global st) (a_poll r)) as [[serversock g] waited].
  cbn [fst snd a_bans a_current_id a_global].
  destruct (serversock =? SOCK_ERROR); [reflexivity|].
  destruct (a_accept r) as [sock addr]. cbn [fst snd].
  destruct (sock =? SOCK_ERROR) eqn:Hs.
  { destruct (a_recoverable r); reflexivity. }
  destruct (accept_ip_address cpc recheck allowed (a_bans st) addr (a_time r)) as [ok bans].
  cbn [fst snd]. destruct (ok =? 0); [reflexivity|]. cbn [orb].
  rewrite negb_involutive.
  destruct (c_true (a_set_blocking r) || _); [reflexivity|]. cbn [orb].
  destruct (a_calloc r); [|reflexivity]. cbn [negb].
  unfold zeroed. rewrite connection_init_with_address by exact Hs.
  cbn [con_time]. replace (0 <? 0) with false by reflexivity.
  destruct (accept_client_listener _ _ _ _ _) as [l|].
  - rewrite <- app_assoc. cbn [app].
    destruct (lssl l && ssl_ok); reflexivity.
  - reflexivity.
Qed.

(** X23. The result of [connection_init] on a connection tells who owns the
    socket. When it is negative the connection holds [SOCK_ERROR] and a
    later [connection_close] closes no socket (the caller still has to close
    the one it passed). When it is 0 the socket is a real one, the
    connection holds it and [connection_close] closes it once. Either way a
    second [connection_close] makes no call and changes nothing. *)
Theorem connection_init_decides_socket_ownership (cpc : string -> string -> Z)
    (recheck : cache_file_contents -> Z -> cache_file_contents)
    (allowed : string -> Z -> Z)
    (con : connection_t * peer_t) (sock : sock_t) (addr : option string)
    (pn : peer_name) (time_now id : Z) (g : ban_globals) :
  let '(ret, con', _, _) :=
    connection_init cpc recheck allowed (Some con) sock addr pn time_now id g in
  match con' with
  | Some c' =>
      (if ret <? 0
       then con_sock (snd c') = SOCK_ERROR /\
            List.filter is_peer_sock_close (snd (connection_close c')) = []
       else ret = 0 /\ sock <> SOCK_ERROR /\ con_sock (snd c') = sock /\
            List.filter is_peer_sock_close (snd (connection_close c'))
            = [peer_sock_close sock]) /\
      connection_close (fst (connection_close c')) = (fst (connection_close c'), [])
  | None => False
  end.
Proof.
  destruct con as [base peer].
  assert (Hclose : forall b p,
             connection_close (fst (connection_close (b, p)))
             = (fst (connection_close (b, p)), [])).
  { intros b p. reflexivity. }
  assert (Hopen : forall b p, (con_sock p =? SOCK_ERROR) = false ->
             List.filter is_peer_sock_close (snd (connection_close (b, p)))
             = [peer_sock_close (con_sock p)]).
  { intros b p Hp. unfold connection_close. rewrite Hp. cbn [negb snd zeroed].
    destruct (ssl b); reflexivity. }
  assert (Hshut : forall b p, con_sock p = SOCK_ERROR ->
             List.filter is_peer_sock_close (snd (connection_close (b, p))) = []).
  { intros b p Hp. unfold connection_close. rewrite Hp. cbn [negb snd zeroed].
    replace (SOCK_ERROR =? SOCK_ERROR) with true by reflexivity.
    destruct (ssl b); reflexivity. }
  unfold connection_init, _next_connection_id.
  destruct (sock =? SOCK_ERROR) eqn:Hs.
  - apply Z.eqb_eq in Hs. subst sock. cbn [snd con_sock].
    replace (-1 <? 0) with true by reflexivity.
    split; [split; [reflexivity|apply Hshut; reflexivity]|apply Hclose].
  - assert (Hne : sock <> SOCK_ERROR) by (apply Z.eqb_neq; exact Hs).
    assert (Hok : forall ip,
               (if 0 <? 0
                then con_sock (snd (base, mkPeer sock id (Some ip) (con_time peer))) = SOCK_ERROR /\
                     List.filter is_peer_sock_close
                       (snd (connection_close (base, mkPeer sock id (Some ip) (con_time peer)))) = []
                else 0 = 0 /\ sock <> SOCK_ERROR /\
                     con_sock (snd (base, mkPeer sock id (Some ip) (con_time peer))) = sock /\
                     List.filter is_peer_sock_close
                       (snd (connection_close (base, mkPeer sock id (Some ip) (con_time peer))))
                     = [peer_sock_close sock]) /\
               connection_close
                 (fst (connection_close (base, mkPeer sock id (Some ip) (con_time peer))))
               = (fst (connection_close (base, mkPeer sock id (Some ip) (con_time peer))), [])).
    { intros ip. replace (0 <? 0) with false by reflexivity.
      split; [|apply Hclose].
      split; [reflexivity|]. split; [exact Hne|]. split; [reflexivity|].
      apply (Hopen base (mkPeer sock id (Some ip) (con_time peer))). exact Hs. }
    assert (Hfail :
               (if -1 <? 0
                then con_sock (snd (mkCon false 0 false 0, mkPeer SOCK_ERROR 0 None 0)) = SOCK_ERROR /\
                     List.filter is_peer_sock_close
                       (snd (connection_close (mkCon false 0 false 0, mkPeer SOCK_ERROR 0 None 0))) = []
                else -1 = 0 /\ sock <> SOCK_ERROR /\
                     con_sock (snd (mkCon false 0 false 0, mkPeer SOCK_ERROR 0 None 0)) = sock /\
                     List.filter is_peer_sock_close
                       (snd (connection_close (mkCon false 0 false 0, mkPeer SOCK_ERROR 0 None 0)))
                     = [peer_sock_close sock]) /\
               connection_close
                 (fst (connection_close (mkCon false 0 false 0, mkPeer SOCK_ERROR 0 None 0)))
               = (fst (connection_close (mkCon false 0 false 0, mkPeer SOCK_ERROR 0 None 0)), [])).
    { split; [split|]; reflexivity. }
    destruct addr as [addr|]; [apply Hok|].
    destruct (getpeername pn =? 0); [|exact Hfail].
    destruct (accept_ip_address cpc recheck allowed g _ time_now) as [ok g'].
    destruct (c_true ok); [apply Hok|exact Hfail].
Qed.

(** X24. [accept_client] does not leak the socket it accepts. When it
    returns no client, the one call it makes besides those of
    [wait_for_serversock] is the [sock_close] of that socket; when it
    returns a client, the client's connection holds the socket and what it
    does is register the client and count the reference on the listener. *)
Theorem accept_client_closes_what_it_refuses (cpc : string -> string -> Z)
    (recheck : cache_file_contents -> Z -> cache_file_contents)
    (allowed : string -> Z -> Z) (ssl_ok : bool) (lssl : listener_t -> bool)
    (r : accept_reply) (st : accept_state) :
  polled_sock st r <> SOCK_ERROR ->
  fst (a_accept r) <> SOCK_ERROR ->
  let '(res, _, evs) := accept_client cpc recheck allowed ssl_ok lssl r st in
  match res with
  | no_client => evs = polled_calls st r ++ [peer_sock_close (fst (a_accept r))]
  | new_client c p =>
      con_sock p = fst (a_accept r) /\
      evs = polled_calls st r ++ [client_register; listener_refcount_inc (server_conn c)]
  | unbound_client _ p _ =>
      con_sock p = fst (a_accept r) /\ evs = polled_calls st r ++ [client_register]
  end.
Proof.
  intros Hss Hs. rewrite accept_client_eq. cbv zeta.
  apply Z.eqb_neq in Hss, Hs. rewrite Hss, Hs.
  destruct (_ || _ || _); [reflexivity|].
  destruct (accept_client_listener _ _ _ _ _); split; reflexivity.
Qed.

Lemma accept_client_closes_what_it_refuses_witness :
  let '(res, _, evs) :=
    accept_client no_patterns keep_cache all_allowed false (fun _ => false)
                  (demo_accept "10.0.0.5") demo_accept_state in
  match res with
  | no_client =>
      evs = polled_calls demo_accept_state (demo_accept "10.0.0.5")
            ++ [peer_sock_close (fst (a_accept (demo_accept "10.0.0.5")))]
  | new_client c p =>
      con_sock p = fst (a_accept (demo_accept "10.0.0.5")) /\
      evs = polled_calls demo_accept_state (demo_accept "10.0.0.5")
            ++ [client_register; listener_refcount_inc (server_conn c)]
  | unbound_client _ p _ =>
      con_sock p = fst (a_accept (demo_accept "10.0.0.5")) /\
      evs = polled_calls demo_accept_state (demo_accept "10.0.0.5") ++ [client_register]
  end.
Proof.
  apply (accept_client_closes_what_it_refuses no_patterns keep_cache all_allowed false
           (fun _ => false) (demo_accept "10.0.0.5") demo_accept_state).
  - vm_compute. discriminate.
  - vm_compute. discriminate.
Defined.

Example accept_client_refuses_banned_peer :
  accept_client no_patterns keep_cache all_allowed false (fun _ => false)
                (demo_accept "10.0.0.5") demo_accept_state
  = (no_client,
     mkAcceptState demo_legacy_global
       {| banned_ip :=
            {| wildcards := [];
               contents := Some (avl_node avl_leaf (mkBanned "10.0.0.5" 400) avl_leaf);
               compare_arg := 100 |};
          ban_entry_removal := None; cachefile_timecheck := 100 |} 41,
     [peer_sock_close 12]).
Proof. vm_compute. reflexivity. Qed.

Lemma poll_scan_found (p : poll_reply) :
  forall n i socks evs fd socks1 evs1,
    poll_scan p n i socks evs = (Some fd, socks1, evs1) ->
    length socks1 = length socks /\
    exists k, (i <= k < i + n)%nat /\ socks1 !! k = Some fd.
Proof.
  induction n as [|n IH]; intros i socks evs fd socks1 evs1 H; cbn [poll_scan] in H.
  - discriminate H.
  - destruct (socks !! i) as [s|] eqn:Hi; [|discriminate H].
    destruct (flagged (revents_at p i) POLLIN).
    + inversion H; subst. split; [reflexivity|]. exists i. split; [lia|exact Hi].
    + destruct (flagged (revents_at p i) (Z.lor POLLHUP (Z.lor POLLERR POLLNVAL))).
      * apply IH in H as (Hlen & k & Hk & Hfd).
        rewrite length_insert in Hlen. split; [exact Hlen|].
        exists k. split; [lia|exact Hfd].
      * apply IH in H as (Hlen & k & Hk & Hfd). split; [exact Hlen|].
        exists k. split; [lia|exact Hfd].
Qed.

Lemma accept_client_listener_found (conns : list listener_t) (s : sock_t) :
  forall n i socks k,
    (i <= k < i + n)%nat ->
    socks !! k = Some s ->
    exists j, (i <= j <= k)%nat /\ socks !! j = Some s /\
              accept_client_listener n i socks conns s = conns !! j.
Proof.
  induction n as [|n IH]; intros i socks k Hk Hs; [lia|].
  cbn [accept_client_listener].
  destruct (socks !! i) as [x|] eqn:Hi.
  - destruct (x =? s) eqn:Hx.
    + apply Z.eqb_eq in Hx. subst x. exists i. split; [lia|]. split; [exact Hi|reflexivity].
    + assert (k <> i).
      { intros ->. unfold sock_t in *. rewrite Hi in Hs. inversion Hs; subst.
        rewrite Z.eqb_refl in Hx. discriminate Hx. }
      destruct (IH (S i) socks k) as (j & Hj & Hsj & Heq); [lia|exact Hs|].
      exists j. split; [lia|]. split; [exact Hsj|exact Heq].
  - exfalso. unfold sock_t in *.
    apply lookup_ge_None_1 in Hi. apply lookup_lt_Some in Hs. lia.
Qed.

Lemma wait_for_serversock_keeps_profiles (g : global.t) (p : poll_reply) :
  global.server_conn (snd (fst (wait_for_serversock g p))) = global.server_conn g.
Proof.
  unfold wait_for_serversock. destruct (poll_ret p <=? 0); [reflexivity|].
  destruct (global.serversock g) as [socks|].
  - destruct (poll_scan _ _ _ _ _) as [[[fd|] socks1] evs]; [reflexivity|].
    destruct (poll_compact _ _ _ _). reflexivity.
  - destruct (global.server_sockets g <=? 0); reflexivity.
Qed.

Lemma wait_for_serversock_found (g : global.t) (p : poll_reply) :
  fst (fst (wait_for_serversock g p)) <> SOCK_ERROR ->
  let g' := snd (fst (wait_for_serversock g p)) in
  global.server_sockets g' = global.server_sockets g /\
  exists socks1 k,
    global.serversock g' = Some socks1 /\
    (k < Z.to_nat (global.server_sockets g))%nat /\
    socks1 !! k = Some (fst (fst (wait_for_serversock g p))).
Proof.
  unfold wait_for_serversock. destruct (poll_ret p <=? 0); [cbn; congruence|].
  destruct (global.serversock g) as [socks|]; [|cbn; congruence].
  destruct (poll_scan p _ 0 socks []) as [[[fd|] socks1] evs] eqn:Hscan.
  - intros _. cbn [fst snd].
    split; [reflexivity|].
    apply poll_scan_found in Hscan as (_ & k & Hk & Hfd).
    exists socks1, k. split; [reflexivity|]. split; [|exact Hfd].
    destruct Hk as [_ Hk]. exact Hk.
  - destruct (poll_compact _ _ _ _). cbn; congruence.
Qed.

(** X25. When the arrays hold at least [server_sockets] slots, every client
    that [accept_client] returns is bound: its listener is the profile at a
    slot that holds the listen socket [poll] reported, its [ops] are the
    legacy ones exactly when that listener is shoutcast-compatible and the
    HTTP ones otherwise, in the first case it is a fresh legacy client, its
    error flag is clear and its address is the one [sock_accept] reported
    without the prefix of a mapped IPv4 address. *)
Theorem accept_client_binds_every_client (cpc : string -> string -> Z)
    (recheck : cache_file_contents -> Z -> cache_file_contents)
    (allowed : string -> Z -> Z) (ssl_ok : bool) (lssl : listener_t -> bool)
    (r : accept_reply) (st : accept_state) :
  slots_allocated (a_global st) = true ->
  match fst (fst (accept_client cpc recheck allowed ssl_ok lssl r st)) with
  | no_client => True
  | new_client c p =>
      (exists k socks conns,
          global.serversock (polled_global st r) = Some socks /\
          global.server_conn (a_global st) = Some conns /\
          socks !! k = Some (polled_sock st r) /\
          conns !! k = Some (server_conn c)) /\
      ops c = (if shoutcast_compat (server_conn c) then shoutcast_source_ops
               else http_request_ops) /\
      shoutcast_fresh c = shoutcast_compat (server_conn c) /\
      error (connection c) = false /\
      con_ip p = Some (skip_v4_mapped (snd (a_accept r)))
  | unbound_client _ _ _ => False
  end.
Proof.
  intros Hsl. rewrite accept_client_eq. cbv zeta.
  destruct (polled_sock st r =? SOCK_ERROR) eqn:Hss; [exact I|].
  destruct (fst (a_accept r) =? SOCK_ERROR); [exact I|].
  destruct (_ || _ || _); [exact I|].
  apply Z.eqb_neq in Hss. unfold polled_sock in Hss.
  destruct (wait_for_serversock_found (a_global st) (a_poll r) Hss)
    as (Hn & socks1 & k & Hsocks & Hk & Hfd).
  pose proof (wait_for_serversock_keeps_profiles (a_global st) (a_poll r)) as Hconn.
  fold (polled_global st r) in Hn, Hsocks, Hconn. fold (polled_sock st r) in Hfd.
  rewrite Hsocks, Hconn, Hn.
  set (conns := match global.server_conn (a_global st) with Some c => c | None => [] end).
  destruct (accept_client_listener_found conns (polled_sock st r)
              (Z.to_nat (global.server_sockets (a_global st))) 0%nat socks1 k)
    as (j & Hj & Hsj & Heq); [lia|exact Hfd|].
  rewrite Heq.
  unfold slots_allocated in Hsl. fold conns in Hsl.
  apply andb_true_iff in Hsl as [Hsl Hc]. apply andb_true_iff in Hsl as [H0 Hs].
  apply Z.leb_le in Hc, Hs, H0.
  destruct (conns !! j) as [l|] eqn:Hl.
  - cbn [fst]. split.
    + exists j, socks1, conns. split; [reflexivity|]. split.
      * subst conns. destruct (global.server_conn (a_global st)); [reflexivity|].
        rewrite lookup_nil in Hl. discriminate Hl.
      * split; [exact Hsj|exact Hl].
    + cbn [ops server_conn connection error con_ip]. split; [reflexivity|].
      split; [|split; reflexivity].
      unfold shoutcast_fresh. cbn [ops shared_data refbuf pos].
      destruct (shoutcast_compat l); reflexivity.
  - apply lookup_ge_None_1 in Hl. lia.
Qed.

Lemma accept_client_binds_every_client_witness :
  match fst (fst (accept_client no_patterns keep_cache all_allowed false (fun _ => false)
                    (demo_accept "::ffff:192.0.2.7") demo_accept_state)) with
  | no_client => True
  | new_client c p =>
      (exists k socks conns,
          global.serversock (polled_global demo_accept_state (demo_accept "::ffff:192.0.2.7"))
          = Some socks /\
          global.server_conn (a_global demo_accept_state) = Some conns /\
          socks !! k = Some (polled_sock demo_accept_state (demo_accept "::ffff:192.0.2.7")) /\
          conns !! k = Some (server_conn c)) /\
      ops c = (if shoutcast_compat (server_conn c) then shoutcast_source_ops
               else http_request_ops) /\
      shoutcast_fresh c = shoutcast_compat (server_conn c) /\
      error (connection c) = false /\
      con_ip p = Some (skip_v4_mapped (snd (a_accept (demo_accept "::ffff:192.0.2.7"))))
  | unbound_client _ _ _ => False
  end.
Proof.
  apply (accept_client_binds_every_client no_patterns keep_cache all_allowed false
           (fun _ => false) (demo_accept "::ffff:192.0.2.7") demo_accept_state).
  reflexivity.
Defined.

Example accept_client_then_schedule :
  exists st evs,
    accept_client no_patterns keep_cache all_allowed false (fun _ => false)
                  (demo_accept "::ffff:192.0.2.7") demo_accept_state
    = (new_client demo_accepted (mkPeer 12 41 (Some "192.0.2.7"%string) 0), st, evs)
    /\ a_current_id st = 42
    /\ connection_thread_schedule 15 5000 demo_accepted
         (mkPeer 12 41 (Some "192.0.2.7"%string) 0)
       = (demo_client shoutcast_source_ops, mkPeer 12 41 (Some "192.0.2.7"%string) 5).
Proof. eexists. eexists. split; [vm_compute; reflexivity|]. split; reflexivity. Qed.

Lemma http_client_request_deadline (B : Z) (e : invocation) (c : client_t) :
  discon_time (connection c) <= current_time_sec e ->
  (exists c', http_client_request B e c = Done (-1) c') /\
  http_client_request_reads B e c = false.
Proof.
  intros Hd.
  assert (Hgt : (discon_time (connection c) >? current_time_sec e) = false).
  { rewrite Z.gtb_ltb. apply Z.ltb_ge. exact Hd. }
  unfold http_client_request, http_client_request_reads. split.
  - destruct (running e); cbn [negb]; [|eexists; reflexivity].
    cbn [with_shared_data connection]. rewrite Hgt, andb_false_r.
    eexists; reflexivity.
  - rewrite Hgt, andb_false_r. reflexivity.
Qed.

(** X26. [connection_thread] starts the header deadline of an accepted
    client at the connect: with [now] the time in milliseconds, the client
    is due 6 ms later and its deadline is the second [now / 1000] plus
    [header_timeout]. The handler installed by [accept_client], when it first
    runs at or after that second, drops the client whatever the peer has
    sent: the legacy handler returns -1 and sends nothing, the HTTP handler
    returns -1 without reading. *)
Theorem accepted_client_header_deadline (cpc : string -> string -> Z)
    (recheck : cache_file_contents -> Z -> cache_file_contents)
    (allowed : string -> Z -> Z) (ssl_ok : bool) (lssl : listener_t -> bool)
    (B header_timeout now : Z) (r : accept_reply) (st st' : accept_state)
    (evs : list accept_event) (c : client_t) (p : peer_t) (e : invocation) :
  accept_client cpc recheck allowed ssl_ok lssl r st = (new_client c p, st', evs) ->
  now / 1000 + header_timeout <= current_time_sec e ->
  let c1 := fst (connection_thread_schedule header_timeout now c p) in
  counter c1 = now /\
  schedule_ms c1 = u64 (now + 6) /\
  discon_time (connection c1) = now / 1000 + header_timeout /\
  if shoutcast_compat (server_conn c1)
  then ops c1 = shoutcast_source_ops /\
       shoutcast_source_client B e c1 = (-1, with_shared_data c1 None, [])
  else ops c1 = http_request_ops /\
       (exists c2, http_client_request B e c1 = Done (-1) c2) /\
       http_client_request_reads B e c1 = false.
Proof.
  intros Hacc Hlate. cbv zeta.
  assert (Hops : ops c = if shoutcast_compat (server_conn c) then shoutcast_source_ops
                         else http_request_ops).
  { rewrite accept_client_eq in Hacc. cbv zeta in Hacc.
    destruct (polled_sock st r =? SOCK_ERROR); [discriminate Hacc|].
    destruct (fst (a_accept r) =? SOCK_ERROR); [discriminate Hacc|].
    destruct (_ || _ || _); [discriminate Hacc|].
    destruct (accept_client_listener _ _ _ _ _) as [l|]; [|discriminate Hacc].
    inversion Hacc; subst. reflexivity. }
  set (c1 := fst (connection_thread_schedule header_timeout now c p)).
  assert (Hd : discon_time (connection c1) = now / 1000 + header_timeout) by reflexivity.
  assert (Ho : ops c1 = ops c) by reflexivity.
  assert (Hl : server_conn c1 = server_conn c) by reflexivity.
  split; [reflexivity|]. split; [reflexivity|]. split; [exact Hd|].
  rewrite Ho, Hl, Hops.
  destruct (shoutcast_compat (server_conn c)).
  - split; [reflexivity|].
    apply (proj1 (shoutcast_source_client_deadline B e c1)). lia.
  - split; [reflexivity|]. apply http_client_request_deadline. lia.
Qed.

Lemma accepted_client_header_deadline_witness :
  let c1 := fst (connection_thread_schedule 15 5000 demo_accepted
                   (mkPeer 12 41 (Some "192.0.2.7"%string) 0)) in
  counter c1 = 5000 /\
  schedule_ms c1 = u64 (5000 + 6) /\
  discon_time (connection c1) = 5000 / 1000 + 15 /\
  if shoutcast_compat (server_conn c1)
  then ops c1 = shoutcast_source_ops /\
       shoutcast_source_client 4096 late_call c1 = (-1, with_shared_data c1 None, [])
  else ops c1 = http_request_ops /\
       (exists c2, http_client_request 4096 late_call c1 = Done (-1) c2) /\
       http_client_request_reads 4096 late_call c1 = false.
Proof.
  eapply (accepted_client_header_deadline no_patterns keep_cache all_allowed false
            (fun _ => false) 4096 15 5000 (demo_accept "::ffff:192.0.2.7")
            demo_accept_state _ _ demo_accepted
            (mkPeer 12 41 (Some "192.0.2.7"%string) 0) late_call).
  - vm_compute. reflexivity.
  - vm_compute. discriminate.
Defined.

Lemma accept_client_ids (cpc : string -> string -> Z)
    (recheck : cache_file_contents -> Z -> cache_file_contents)
    (allowed : string -> Z -> Z) (ssl_ok : bool) (lssl : listener_t -> bool)
    (r : accept_reply) (st : accept_state) :
  let '(res, st', _) := accept_client cpc recheck allowed ssl_ok lssl r st in
  match res with
  | no_client => a_current_id st' = a_current_id st
  | new_client _ p | unbound_client _ p _ =>
      con_id p = a_current_id st /\ a_current_id st' = u64 (a_current_id st + 1)
  end.
Proof.
  rewrite accept_client_eq. cbv zeta.
  destruct (polled_sock st r =? SOCK_ERROR); [reflexivity|].
  destruct (fst (a_accept r) =? SOCK_ERROR); [reflexivity|].
  destruct (_ || _ || _); [reflexivity|].
  destruct (accept_client_listener _ _ _ _ _); split; reflexivity.
Qed.

Lemma connection_thread_run_ids (cpc : string -> string -> Z)
    (recheck : cache_file_contents -> Z -> cache_file_contents)
    (allowed : string -> Z -> Z) (ssl_ok : bool) (lssl : listener_t -> bool)
    (header_timeout : Z) (rs : list (accept_reply * Z)) :
  forall st,
    0 <= a_current_id st ->
    a_current_id st + Z.of_nat (length rs) <= 2 ^ 64 ->
    let ids := map (fun cp => con_id (snd cp))
                   (fst (connection_thread_run cpc recheck allowed ssl_ok lssl
                           header_timeout rs st)) in
    Forall (fun id => a_current_id st <= id < a_current_id st + Z.of_nat (length rs)) ids
    /\ List.NoDup ids.
Proof.
  induction rs as [|[r now] rest IH]; intros st H0 Hroom; cbv zeta.
  - split; constructor.
  - cbn [connection_thread_run].
    pose proof (accept_client_ids cpc recheck allowed ssl_ok lssl r st) as Hid.
    destruct (accept_client cpc recheck allowed ssl_ok lssl r st) as [[res st1] evs1].
    change (length ((r, now) :: rest)) with (S (length rest)) in *.
    destruct res as [|c p|con p shared].
    + specialize (IH st1). rewrite Hid in IH.
      destruct IH as [Hall Hnd]; [exact H0|lia|].
      split; [|exact Hnd].
      eapply Forall_impl; [exact Hall|]. cbv beta. intros id Hin. lia.
    + destruct Hid as [Hp Hnext].
      destruct rest as [|r2 rest].
      { cbn [connection_thread_run fst map]. unfold connection_thread_schedule.
        cbn [snd con_id map]. rewrite Hp. split.
        - constructor; [cbn [length]; lia|constructor].
        - constructor; [intros H; inversion H|constructor]. }
      assert (Hu : u64 (a_current_id st + 1) = a_current_id st + 1).
      { unfold u64. apply Z.mod_small. cbn [length] in Hroom. lia. }
      specialize (IH st1). rewrite Hnext, Hu in IH.
      destruct IH as [Hall Hnd]; [lia|lia|].
      destruct (connection_thread_run _ _ _ _ _ _ (r2 :: rest) st1) as [clients st2].
      cbn [fst map] in *. unfold connection_thread_schedule. cbn [snd con_id].
      rewrite Hp. split.
      * constructor; [lia|].
        eapply Forall_impl; [exact Hall|]. cbv beta. intros id Hin. lia.
      * constructor; [|exact Hnd].
        intros Hin. apply list_elem_of_In in Hin. rewrite Forall_forall in Hall.
        apply Hall in Hin. lia.
    + cbn [fst map]. split; constructor.
Qed.

(** X27. The clients that a run of the accept loop hands to the workers
    carry different connection ids, as long as the 64-bit counter does not
    wrap during the run. *)
Theorem connection_ids_are_distinct (cpc : string -> string -> Z)
    (recheck : cache_file_contents -> Z -> cache_file_contents)
    (allowed : string -> Z -> Z) (ssl_ok : bool) (lssl : listener_t -> bool)
    (header_timeout : Z) (rs : list (accept_reply * Z)) (st : accept_state) :
  0 <= a_current_id st ->
  a_current_id st + Z.of_nat (length rs) <= 2 ^ 64 ->
  List.NoDup (map (fun cp => con_id (snd cp))
                  (fst (connection_thread_run cpc recheck allowed ssl_ok lssl
                          header_timeout rs st))).
Proof.
  intros H0 Hroom.
  apply (connection_thread_run_ids cpc recheck allowed ssl_ok lssl header_timeout rs st H0 Hroom).
Qed.

Lemma connection_ids_are_distinct_witness :
  List.NoDup
    (map (fun cp => con_id (snd cp))
         (fst (connection_thread_run no_patterns keep_cache all_allowed false (fun _ => false)
                 15 [(demo_accept "192.0.2.7", 5000); (demo_accept "10.0.0.5", 5100);
                     (demo_accept "192.0.2.8", 5200)]
                 demo_accept_state))).
Proof.
  apply (connection_ids_are_distinct no_patterns keep_cache all_allowed false (fun _ => false)
           15 [(demo_accept "192.0.2.7", 5000); (demo_accept "10.0.0.5", 5100);
               (demo_accept "192.0.2.8", 5200)] demo_accept_state).
  - vm_compute. discriminate.
  - vm_compute. discriminate.
Defined.

Lemma skip_v4_mapped_strips (x : string) :
  skip_v4_mapped ("::ffff:" ++ x) = x.
Proof.
  unfold skip_v4_mapped. cbn. rewrite ?drop_0. apply string_of_list_ascii_of_string.
Qed.

Lemma accept_ip_address_banned (cpc : string -> string -> Z)
    (recheck : cache_file_contents -> Z -> cache_file_contents)
    (allowed : string -> Z -> Z) (g : ban_globals) (e : banned_entry) (t : Z) :
  recheck (banned_ip g) t = banned_ip g ->
  map_ordered g = true ->
  In e (literal_entries g) ->
  in_force t e = true ->
  fst (accept_ip_address cpc recheck allowed g (ip e) t) = 0.
Proof.
  intros Hre Hord Hin Hf. unfold accept_ip_address, search_banned_ip.
  cbn [banned_ip ban_entry_removal cachefile_timecheck]. rewrite Hre.
  set (g' := {| banned_ip := banned_ip g; ban_entry_removal := ban_entry_removal g;
                cachefile_timecheck := t |}).
  destruct (search_banned_ip_locked_known_entry cpc g' e Hord Hin) as [Hyes _].
  destruct (Hyes Hf) as [H1 _].
  destruct (search_banned_ip_locked cpc g' (ip e)) as [ret g2]. cbn [fst] in H1.
  subst ret. reflexivity.
Qed.

Lemma search_banned_ip_locked_timecheck (cpc : string -> string -> Z)
    (g : ban_globals) (key : string) :
  cachefile_timecheck (snd (search_banned_ip_locked cpc g key)) = cachefile_timecheck g.
Proof.
  unfold search_banned_ip_locked.
  destruct (existsb _ _); [reflexivity|].
  destruct (contents (banned_ip g)) as [t|]; [|reflexivity].
  destruct (avl_get_by_key _ t key None) as [[found|] removal].
  - destruct ((timeout found =? 0) || _); [reflexivity|].
    destruct (avl_delete _ _ _ _) as [t' removal'].
    unfold sweep_marked. destruct removal'; [destruct (avl_delete _ _ _ _)|]; reflexivity.
  - unfold sweep_marked. destruct removal; [destruct (avl_delete _ _ _ _)|]; reflexivity.
Qed.

Lemma accept_ip_address_unlisted (cpc : string -> string -> Z)
    (recheck : cache_file_contents -> Z -> cache_file_contents)
    (allowed : string -> Z -> Z) (g : ban_globals) (key : string) (t : Z) :
  recheck (banned_ip g) t = banned_ip g ->
  ip_absent key (literal_entries g) = true ->
  no_wildcard_matches cpc g key = true ->
  allowed key t <> 0 ->
  fst (accept_ip_address cpc recheck allowed g key t) = 1.
Proof.
  intros Hre Habs Hnw Hal. unfold accept_ip_address, search_banned_ip.
  cbn [banned_ip ban_entry_removal cachefile_timecheck]. rewrite Hre.
  set (g' := {| banned_ip := banned_ip g; ban_entry_removal := ban_entry_removal g;
                cachefile_timecheck := t |}).
  pose proof (search_banned_ip_locked_absent cpc g' key Hnw Habs) as H0.
  pose proof (search_banned_ip_locked_timecheck cpc g' key) as Ht.
  destruct (search_banned_ip_locked cpc g' key) as [ret g2] eqn:Hs. cbn [fst snd] in H0, Ht.
  subst ret. cbn [Z.gtb Z.compare].
  rewrite Ht. cbn [cachefile_timecheck g']. apply Z.eqb_neq in Hal. rewrite Hal. reflexivity.
Qed.

(** X28. [accept_client] asks the IP filter about the address as
    [sock_accept] reports it, and records it without the prefix [::ffff:].
    So with a ban in force on an address [a] (which [accept_ip_address]
    refuses), no entry or wildcard for the text [::ffff:a] and an allow
    list that lets that text in, a peer reported as [::ffff:a] is accepted,
    and its connection carries the address [a]. *)
Theorem accept_client_checks_address_as_reported (cpc : string -> string -> Z)
    (recheck : cache_file_contents -> Z -> cache_file_contents)
    (allowed : string -> Z -> Z) (ssl_ok : bool) (lssl : listener_t -> bool)
    (r : accept_reply) (st : accept_state) (e : banned_entry) :
  polled_sock st r <> SOCK_ERROR ->
  fst (a_accept r) <> SOCK_ERROR ->
  snd (a_accept r) = ("::ffff:" ++ ip e)%string ->
  tcp_options_set r = true ->
  a_calloc r = true ->
  recheck (banned_ip (a_bans st)) (a_time r) = banned_ip (a_bans st) ->
  map_ordered (a_bans st) = true ->
  In e (literal_entries (a_bans st)) ->
  in_force (a_time r) e = true ->
  ip_absent ("::ffff:" ++ ip e) (literal_entries (a_bans st)) = true ->
  no_wildcard_matches cpc (a_bans st) ("::ffff:" ++ ip e) = true ->
  allowed ("::ffff:" ++ ip e)%string (a_time r) <> 0 ->
  fst (accept_ip_address cpc recheck allowed (a_bans st) (ip e) (a_time r)) = 0 /\
  match fst (fst (accept_client cpc recheck allowed ssl_ok lssl r st)) with
  | no_client => False
  | new_client _ p | unbound_client _ p _ => con_ip p = Some (ip e)
  end.
Proof.
  intros Hss Hs Haddr Htcp Hcal Hre Hord Hin Hf Habs Hnw Hal. split.
  - apply accept_ip_address_banned; assumption.
  - rewrite accept_client_eq. cbv zeta.
    apply Z.eqb_neq in Hss, Hs. rewrite Hss, Hs, Haddr, Htcp, Hcal.
    rewrite (accept_ip_address_unlisted cpc recheck allowed (a_bans st)
               ("::ffff:" ++ ip e) (a_time r) Hre Habs Hnw Hal).
    cbn [Z.eqb negb orb].
    rewrite skip_v4_mapped_strips.
    destruct (accept_client_listener _ _ _ _ _); reflexivity.
Qed.

Lemma accept_client_checks_address_as_reported_witness :
  fst (accept_ip_address no_patterns keep_cache all_allowed (a_bans demo_accept_state)
         (ip (mkBanned "10.0.0.5" 110)) (a_time (demo_accept "::ffff:10.0.0.5"))) = 0 /\
  match fst (fst (accept_client no_patterns keep_cache all_allowed false (fun _ => false)
                    (demo_accept "::ffff:10.0.0.5") demo_accept_state)) with
  | no_client => False
  | new_client _ p | unbound_client _ p _ => con_ip p = Some (ip (mkBanned "10.0.0.5" 110))
  end.
Proof.
  apply (accept_client_checks_address_as_reported no_patterns keep_cache all_allowed false
           (fun _ => false) (demo_accept "::ffff:10.0.0.5") demo_accept_state
           (mkBanned "10.0.0.5" 110)).
  - vm_compute. discriminate.
  - vm_compute. discriminate.
  - reflexivity.
  - reflexivity.
  - reflexivity.
  - reflexivity.
  - reflexivity.
  - left. reflexivity.
  - reflexivity.
  - reflexivity.
  - reflexivity.
  - vm_compute. discriminate.
Defined.
